(** * hypo.py: joint hypocenter-velocity inversion on a regular grid

    A shallow embedding of the numerical core of [hypo.py]: the constant
    velocity locators [hypoloc] and [hypolocPS], the class [Grid3D] with its
    interpolation and smoothing operators, the pieces of the joint inverters
    [jointHypoVel] and [jointHypoVelPS] that set up calibration data and tie
    points, fill the tables of receivers and hypocenters, build the
    smoothing matrices and the penalties, assemble the normal equations and
    apply the clamped update, and the per-event relocators [_reloc] and
    [_relocPS].

    The code is written once, over an interface [Scalar] of the operations
    NumPy applies to array elements.  Two instances are given: binary64
    floating point numbers (what the program runs on) and exact rational
    arithmetic (the numbers the design is stated in).  Python exceptions are
    values of [result]; external routines (LAPACK solvers, the eikonal
    raytracer) are arguments of the functions that call them.  What the
    comparisons guarantee on both element types, NaN included, is the
    class [OrderedScalar]. *)

From Stdlib Require Import ZArith QArith Qabs Qround Lia Lqa Bool String Floats.
From stdpp Require Import list.

Local Open Scope Z_scope.

(** ** Exceptions *)

Inductive exn : Type :=
| ValueError (msg : string)
| IndexError
| NameError (name : string)
| LinAlgError
| AttributeError (name : string).

Inductive result (A : Type) : Type :=
| Ok (a : A)
| Raise (e : exn).
Arguments Ok {A} a.
Arguments Raise {A} e.

Definition rbind {A B} (m : result A) (k : A -> result B) : result B :=
  match m with
  | Ok a => k a
  | Raise e => Raise e
  end.

Notation "v <- m ;; k" := (rbind m (fun v => k))
  (at level 100, m at next level, right associativity).

(** ** The element type of the arrays *)

Class Scalar (F : Type) : Type := {
  fzero : F;
  fone : F;
  fadd : F -> F -> F;
  fsub : F -> F -> F;
  fmul : F -> F -> F;
  fdiv : F -> F -> F;
  fopp : F -> F;
  fabs : F -> F;                 (* np.abs *)
  fsqrt : F -> F;                (* np.sqrt *)
  fltb : F -> F -> bool;         (* a < b *)
  fleb : F -> F -> bool;         (* a <= b *)
  feqb : F -> F -> bool;         (* a == b *)
  fisfinite : F -> bool;         (* np.isfinite *)
  ftrunc : F -> option Z;        (* int(a); None where Python raises *)
  flit : Z -> positive -> F      (* the literal n/d, e.g. 1.e-6 *)
}.

Declare Scope scalar_scope.
Delimit Scope scalar_scope with F.
Infix "+" := fadd : scalar_scope.
Infix "-" := fsub : scalar_scope.
Infix "*" := fmul : scalar_scope.
Infix "/" := fdiv : scalar_scope.
Notation "- a" := (fopp a) : scalar_scope.
Infix "<?" := fltb : scalar_scope.
Infix "<=?" := fleb : scalar_scope.
Infix "=?" := feqb : scalar_scope.

Section ScalarOps.
Context {F : Type} `{Scalar F}.
Local Open Scope scalar_scope.

Definition eps6 : F := flit 1 1000000.        (* 1.e-6 *)
Definition eps5 : F := flit 1 100000.         (* 0.00001 *)
Definition ridge : F := flit 1 1000000000.    (* 1e-9 *)
Definition ftwo : F := flit 2 1.

Definition fisnan (a : F) : bool := negb (a =? a).

(** [np.minimum] and [np.maximum]: a NaN operand wins. *)
Definition fmin (a b : F) : F := if fisnan a || (a <=? b) then a else b.
Definition fmax (a b : F) : F := if fisnan a || (b <=? a) then a else b.

(** [np.sign]: -1, 0 or 1, and NaN for NaN. *)
Definition fsign (a : F) : F :=
  if a <? fzero then - fone
  else if fzero <? a then fone
  else if a =? fzero then fzero
  else a.

(** [np.min] and [np.max] of a one-dimensional array; NumPy refuses the
    empty array. *)
Definition np_min (l : list F) : result F :=
  match l with
  | [] => Raise (ValueError "zero-size array to reduction operation minimum")
  | a :: t => Ok (fold_left fmin t a)
  end.
Definition np_max (l : list F) : result F :=
  match l with
  | [] => Raise (ValueError "zero-size array to reduction operation maximum")
  | a :: t => Ok (fold_left fmax t a)
  end.

(** [np.sum] of a one-dimensional array. *)
Definition np_sum (l : list F) : F := fold_left fadd l fzero.

(** [int(1.e-6 + a)], the idiom that reads an integer stored as a float. *)
Definition to_int (a : F) : result Z :=
  match ftrunc (eps6 + a) with
  | Some n => Ok n
  | None => Raise (ValueError "cannot convert float to integer")
  end.
(** Element-wise [a + b], [a - b] and [a * b] of arrays of one shape. *)
Definition np_add (a b : list F) : result (list F) :=
  if (length a =? length b)%nat then Ok (zip_with fadd a b)
  else Raise (ValueError "operands could not be broadcast together").

Definition np_sub (a b : list F) : result (list F) :=
  if (length a =? length b)%nat then Ok (zip_with fsub a b)
  else Raise (ValueError "operands could not be broadcast together").

Definition np_multiply (a b : list F) : result (list F) :=
  if (length a =? length b)%nat then Ok (zip_with fmul a b)
  else Raise (ValueError "operands could not be broadcast together").
End ScalarOps.

(** *** Instance: exact rational arithmetic *)

Definition Qltb (a b : Q) : bool := negb (Qle_bool b a).

(** Square root rounded down to a multiple of [1/Qden q]; exact on squares. *)
Definition Qsqrt (q : Q) : Q := Z.sqrt (Qnum q * Zpos (Qden q)) # Qden q.

#[export] Instance Scalar_Q : Scalar Q := {
  fzero := 0%Q;
  fone := 1%Q;
  fadd := Qplus;
  fsub := Qminus;
  fmul := Qmult;
  fdiv := Qdiv;
  fopp := Qopp;
  fabs := Qabs;
  fsqrt := Qsqrt;
  fltb := Qltb;
  fleb := Qle_bool;
  feqb := Qeq_bool;
  fisfinite := fun _ => true;
  ftrunc := fun q => Some (Z.quot (Qnum q) (Zpos (Qden q)));
  flit := fun n d => (n # d)%Q
}.

(** *** Instance: binary64 *)

Definition float_of_Z (n : Z) : float :=
  if (n <? 0)%Z then PrimFloat.opp (PrimFloat.of_uint63 (Uint63.of_Z (- n)))
  else PrimFloat.of_uint63 (Uint63.of_Z n).

(** [int(a)] truncates toward zero and refuses NaN and the infinities. *)
Definition float_trunc (a : float) : option Z :=
  match Prim2SF a with
  | S754_zero _ => Some 0
  | S754_finite s m e =>
      let mag := if (0 <=? e)%Z then Z.shiftl (Zpos m) e
                 else Z.shiftr (Zpos m) (- e) in
      Some (if s then - mag else mag)
  | S754_infinity _ | S754_nan => None
  end.

#[export] Instance Scalar_float : Scalar float := {
  fzero := PrimFloat.zero;
  fone := PrimFloat.one;
  fadd := PrimFloat.add;
  fsub := PrimFloat.sub;
  fmul := PrimFloat.mul;
  fdiv := PrimFloat.div;
  fopp := PrimFloat.opp;
  fabs := PrimFloat.abs;
  fsqrt := PrimFloat.sqrt;
  fltb := PrimFloat.ltb;
  fleb := PrimFloat.leb;
  feqb := PrimFloat.eqb;
  fisfinite := PrimFloat.is_finite;
  ftrunc := float_trunc;
  flit := fun n d => PrimFloat.div (float_of_Z n) (float_of_Z (Zpos d))
}.

(** ** The order of the elements

    What the comparisons guarantee on both element types: a NaN compares
    false with everything (exact rationals have none), the other values
    are totally preordered by [<=], [<] is its strict part, and the opposite
    of a positive value is negative. *)

Class OrderedScalar (F : Type) `{Scalar F} : Prop := {
  fleb_num : forall a b, fleb a b = true -> fisnan a = false /\ fisnan b = false;
  fltb_num : forall a b, fltb a b = true -> fisnan a = false /\ fisnan b = false;
  fltb_fleb : forall a b, fisnan a = false -> fisnan b = false ->
                          fltb a b = negb (fleb b a);
  fltb_leb : forall a b, fltb a b = true -> fleb a b = true;
  fleb_refl : forall a, fisnan a = false -> fleb a a = true;
  fleb_trans : forall a b c, fleb a b = true -> fleb b c = true ->
                             fleb a c = true;
  fopp_neg : forall a, fltb fzero a = true -> fltb (fopp a) fzero = true
}.

(** The values of the specification of binary64 that are numbers. *)
Definition sf_num (x : spec_float) : bool :=
  match x with S754_nan => false | _ => true end.

(** ** Python sequences *)

(** [l[i]]: a negative index counts from the end. *)
Definition py_get {A} (l : list A) (i : Z) : result A :=
  let n := Z.of_nat (length l) in
  let j := if i <? 0 then n + i else i in
  if (0 <=? j) && (j <? n) then
    match l !! Z.to_nat j with
    | Some a => Ok a
    | None => Raise IndexError
    end
  else Raise IndexError.

(** [np.arange(a, b)] on integers. *)
Definition arange (a b : Z) : list Z :=
  map (fun k => a + Z.of_nat k) (seq 0 (Z.to_nat (b - a))).

(** Monadic iteration, for [for v in l: ...] with a threaded state. *)
Fixpoint for_each {A S} (l : list A) (body : A -> S -> result S) (s : S)
  : result S :=
  match l with
  | [] => Ok s
  | a :: t => s' <- body a s ;; for_each t body s'
  end.

Fixpoint mapM {A B} (f : A -> result B) (l : list A) : result (list B) :=
  match l with
  | [] => Ok []
  | a :: t => b <- f a ;; bs <- mapM f t ;; Ok (b :: bs)
  end.

(** ** Sparse matrices

    A SciPy sparse matrix is kept as its shape and the triplets it was built
    from, in construction order. *)

Record csr (F : Type) : Type := mk_csr {
  csr_rows : Z;
  csr_cols : Z;
  csr_entries : list (Z * Z * F)
}.
Arguments mk_csr {F} _ _ _.
Arguments csr_rows {F} _.
Arguments csr_cols {F} _.
Arguments csr_entries {F} _.

Definition Zmax_list (l : list Z) (d : Z) : Z := fold_left Z.max l d.
Definition Zmin_list (l : list Z) (d : Z) : Z := fold_left Z.min l d.

(** [sp.csr_matrix((data, (row, col)), shape=...)]: the three arrays must
    have one length, a missing shape is inferred from the largest indices
    (and cannot be inferred from empty arrays), and every index must lie
    inside the shape. *)
Definition csr_matrix {F} (data : list F) (row col : list Z)
    (shape : option (Z * Z)) : result (csr F) :=
  if negb ((length row =? length data)%nat && (length col =? length data)%nat)
  then Raise (ValueError "row, column, and data array must all be the same length")
  else
    shp <- match shape with
           | Some s => Ok s
           | None =>
               match row, col with
               | r :: rt, c :: ct => Ok (Zmax_list rt r + 1, Zmax_list ct c + 1)
               | _, _ => Raise (ValueError "cannot infer dimensions from zero sized index arrays")
               end
           end ;;
    if existsb (fun r => fst shp <=? r) row
    then Raise (ValueError "row index exceeds matrix dimensions")
    else if existsb (fun c => snd shp <=? c) col
    then Raise (ValueError "column index exceeds matrix dimensions")
    else if existsb (fun r => r <? 0) row
    then Raise (ValueError "negative row index found")
    else if existsb (fun c => c <? 0) col
    then Raise (ValueError "negative column index found")
    else Ok (mk_csr (fst shp) (snd shp) (combine (combine row col) data)).

Section SparseOps.
Context {F : Type} `{Scalar F}.
Local Open Scope scalar_scope.

(** The stored entries of row [r], in order. *)
Definition csr_row (M : csr F) (r : Z) : list (Z * F) :=
  map (fun e => (snd (fst e), snd e))
      (filter (fun e => fst (fst e) = r) (csr_entries M)).

(** Entry [r] of the product [M * V]. *)
Definition row_dot (M : csr F) (V : list F) (r : Z) : F :=
  fold_left (fun acc e => acc + snd e * nth (Z.to_nat (fst e)) V fzero)
            (csr_row M r) fzero.

(** [M * V] for a dense vector [V]; the shapes must agree. *)
Definition matvec (M : csr F) (V : list F) : result (list F) :=
  if negb (csr_cols M =? Z.of_nat (length V))%Z
  then Raise (ValueError "dimension mismatch")
  else Ok (map (row_dot M V) (arange 0 (csr_rows M))).
End SparseOps.

(** ** Points *)

(** A row [(x, y, z)] of an array of coordinates. *)
Definition point (F : Type) : Type := (F * F * F)%type.
Definition px {F} (p : point F) : F := fst (fst p).
Definition py {F} (p : point F) : F := snd (fst p).
Definition pz {F} (p : point F) : F := snd p.

(** ** Tables of observations and hypocenters *)

(** A row of [data]: event ID, arrival time, receiver index and, in the
    two-phase functions, the phase code (0 for P, 1 for S). *)
Record obs (F : Type) : Type := mk_obs {
  o_id : F;
  o_t : F;
  o_rcv : F;
  o_ph : F
}.
Arguments mk_obs {F} _ _ _ _.
Arguments o_id {F} _.
Arguments o_t {F} _.
Arguments o_rcv {F} _.
Arguments o_ph {F} _.

(** A row of [hinit], [loc] and [hyp0]: event ID, origin time, position. *)
Record hyp (F : Type) : Type := mk_hyp {
  h_id : F;
  h_t0 : F;
  h_x : F;
  h_y : F;
  h_z : F
}.
Arguments mk_hyp {F} _ _ _ _ _.
Arguments h_id {F} _.
Arguments h_t0 {F} _.
Arguments h_x {F} _.
Arguments h_y {F} _.
Arguments h_z {F} _.

Definition h_xyz {F} (h : hyp F) : point F := (h_x h, h_y h, h_z h).

(** The external eikonal engine, [cgrid.raytrace(slowness, src, rcv, t0, 3)]:
    travel times, rays (polylines from source to receiver) and velocities
    along the initial segment of each ray. *)
Definition engine_t (F : Type) : Type :=
  list F -> list (point F) -> list (point F) -> list F ->
  result (list F * list (list (point F)) * list F).

(** ** class Grid3D *)

Module Grid3D.

Record t (F : Type) : Type := mk {
  x : list F;
  y : list F;
  z : list F;
  nthreads : nat;
  dx : F
}.
Arguments mk {F} _ _ _ _ _.
Arguments x {F} _.
Arguments y {F} _.
Arguments z {F} _.
Arguments nthreads {F} _.
Arguments dx {F} _.

Section Methods.
Context {F : Type} `{Scalar F}.
Local Open Scope scalar_scope.

(** [__init__] *)
Definition init (x y z : list F) (nthreads : nat) : result (t F) :=
  x1 <- py_get x 1 ;; x0 <- py_get x 0 ;;
  let dx := x1 - x0 in
  y1 <- py_get y 1 ;; y0 <- py_get y 0 ;;
  let dy := y1 - y0 in
  z1 <- py_get z 1 ;; z0 <- py_get z 0 ;;
  let dz := z1 - z0 in
  if negb (dx =? dy) || negb (dx =? dz)
  then Raise (ValueError "Grid cells must be cubic")
  else Ok (mk x y z nthreads dx).

Definition nx (g : t F) : Z := Z.of_nat (length (x g)).
Definition ny (g : t F) : Z := Z.of_nat (length (y g)).
Definition nz (g : t F) : Z := Z.of_nat (length (z g)).

Definition getNumberOfNodes (g : t F) : Z := (nx g * ny g * nz g)%Z.

Definition shape (g : t F) : Z * Z * Z := (nx g, ny g, nz g).

Definition ind (g : t F) (i j k : Z) : Z := ((i * ny g + j) * nz g + k)%Z.

(** [isOutside]: True if at least one point lies outside the grid.  The
    six comparisons are evaluated left to right and stop at the first
    that holds. *)
Definition isOutside (g : t F) (pts : list (point F)) : result bool :=
  mn <- np_min (map px pts) ;; lo <- py_get (x g) 0 ;;
  if mn <? lo then Ok true else
  mx <- np_max (map px pts) ;; hi <- py_get (x g) (-1) ;;
  if hi <? mx then Ok true else
  mn <- np_min (map py pts) ;; lo <- py_get (y g) 0 ;;
  if mn <? lo then Ok true else
  mx <- np_max (map py pts) ;; hi <- py_get (y g) (-1) ;;
  if hi <? mx then Ok true else
  mn <- np_min (map pz pts) ;; lo <- py_get (z g) 0 ;;
  if mn <? lo then Ok true else
  mx <- np_max (map pz pts) ;; hi <- py_get (z g) (-1) ;;
  Ok (hi <? mx).

(** [raytrace] with three outputs: the checks of the adapter, then the
    engine; the origin times are added to the travel times. *)
Definition raytrace (engine : engine_t F) (g : t F) (slowness : list F)
    (hypo : list (hyp F)) (rcv : list (point F))
  : result (list F * list (list (point F)) * list F) :=
  let src := map h_xyz hypo in
  if negb (length src =? length rcv)%nat
  then Raise (ValueError "src and rcv should be of equal size") else
  out <- isOutside g src ;;
  if out : bool then Raise (ValueError "Source point outside grid") else
  out <- isOutside g rcv ;;
  if out : bool then Raise (ValueError "Receiver outside grid") else
  if negb (Z.of_nat (length slowness) =? getNumberOfNodes g)%Z
  then Raise (ValueError "Length of slowness vector should equal number of nodes")
  else
    let t0 := map h_t0 hypo in
    out <- engine slowness src rcv t0 ;;
    tt <- np_add (fst (fst out)) t0 ;;
    Ok (tt, snd (fst out), snd out).

(** The interpolation weight of grid node [(i, j, k)] for the point [c]. *)
Definition weight (g : t F) (c : point F) (i j k : Z) : result F :=
  xi <- py_get (x g) i ;;
  yj <- py_get (y g) j ;;
  zk <- py_get (z g) k ;;
  Ok ((fone - fabs (px c - xi) / dx g) *
      (fone - fabs (py c - yj) / dx g) *
      (fone - fabs (pz c - zk) / dx g)).

(** The index of the cell of coordinate [c] along an axis [ax]. *)
Definition cell (g : t F) (ax : list F) (c : F) : result Z :=
  a0 <- py_get ax 0 ;;
  to_int ((c - a0) / dx g).

(** The eight corners visited by the loops over [(i1,i2)], [(j1,j2)] and
    [(k1,k2)]. *)
Definition corners (i1 j1 k1 : Z) : list (Z * Z * Z) :=
  flat_map (fun i => flat_map (fun j => map (fun k => (i, j, k))
                                            [k1; (k1 + 1)%Z])
                              [j1; (j1 + 1)%Z])
           [i1; (i1 + 1)%Z].

(** One pass of the loop over the points of [computeD]: the eight column
    indices and weights of point [c]. *)
Definition point_row (g : t F) (c : point F) : result (list (Z * F)) :=
  i1 <- cell g (x g) (px c) ;;
  j1 <- cell g (y g) (py c) ;;
  k1 <- cell g (z g) (pz c) ;;
  mapM (fun ijk => let '(i, j, k) := ijk in
                   w <- weight g c i j k ;; Ok (ind g i j k, w))
       (corners i1 j1 k1).

(** [computeD]: matrix of interpolation weights, one row per point. *)
Definition computeD (g : t F) (coord : list (point F)) : result (csr F) :=
  out <- isOutside g coord ;;
  if out : bool then Raise (ValueError "Velocity data point outside grid")
  else
    let npts := Z.of_nat (length coord) in
    let ivec := flat_map (fun n => repeat n 8) (arange 0 npts) in
    rows <- mapM (point_row g) coord ;;
    let jvec := map fst (concat rows) in
    let vec := map snd (concat rows) in
    csr_matrix vec ivec jvec (Some (npts, getNumberOfNodes g)).

(** [np.vstack((a, b, c)).T.flatten()] *)
Fixpoint interleave3 (a b c : list Z) : list Z :=
  match a, b, c with
  | a0 :: a', b0 :: b', c0 :: c' => a0 :: b0 :: c0 :: interleave3 a' b' c'
  | _, _, _ => []
  end.

(** The stencil over three consecutive blocks of [m] indices, the first
    starting at [s * m]. *)
Definition stencil (m s : Z) : list Z :=
  interleave3 (arange (s * m) ((s + 1) * m))
              (arange ((s + 1) * m) ((s + 2) * m))
              (arange ((s + 2) * m) ((s + 3) * m)).

(** Forward operator at index 0, central operator inside, backward
    operator at index [n - 1], along an axis of [n] nodes whose
    neighbours are [m] apart. *)
Definition axis_stencils (m n : Z) : list Z :=
  let jK := stencil m 0 in
  let jK := fold_left (fun jK i => jK ++ stencil m (i - 1))
                      (arange 1 (n - 1)) jK in
  jK ++ stencil m (n - 3).

(** The same three operators along the last axis, whose neighbours are
    one apart: [k=0], the loop over [k], [k=nz-1]. *)
Definition unit_stencils (n : Z) : list Z :=
  let jK := arange 0 3 in
  let jK := fold_left (fun jK k => jK ++ map (fun j => (k - 1 + j)%Z)
                                             (arange 0 3))
                      (arange 1 (n - 1)) jK in
  jK ++ map (fun j => (n - 3 + j)%Z) (arange 0 3).

(** [for i in np.arange(1, n): jK = np.hstack((jK, i*m + tmp))] *)
Definition replicate (m n : Z) (tmp : list Z) : list Z :=
  fold_left (fun jK i => jK ++ map (fun j => (i * m + j)%Z) tmp)
            (arange 1 n) tmp.

(** [computeK]: smoothing matrices (second order derivatives). *)
Definition computeK (g : t F) : result (csr F * csr F * csr F) :=
  let nx := nx g in let ny := ny g in let nz := nz g in
  let iK := flat_map (fun n => repeat n 3) (arange 0 (nx * ny * nz)) in
  let val := map (fun v => v / (dx g * dx g))
                 (flat_map (fun _ => [fone; - ftwo; fone])
                           (arange 0 (nx * ny * nz))) in
  (* Kx *)
  let jK := axis_stencils (ny * nz) nx in
  Kx <- csr_matrix val iK jK None ;;
  (* Ky *)
  let jK := axis_stencils nz ny in
  let jK := replicate (ny * nz) nx jK in
  Ky <- csr_matrix val iK jK None ;;
  (* Kz *)
  let jK := unit_stencils nz in
  let jK := replicate nz ny jK in
  let jK := replicate (ny * nz) nx jK in
  Kz <- csr_matrix val iK jK None ;;
  Ok (Kx, Ky, Kz).
End Methods.
End Grid3D.

(** ** Uniform grids in exact arithmetic

    The statements about [computeD] are made on grids whose nodes are
    [a0 + i * h] along each axis. *)

Definition uniform_axis (a0 h : Q) (n : Z) : list Q :=
  map (fun i => a0 + inject_Z i * h)%Q (arange 0 n).

(** The cell that encloses coordinate [c] on an axis that starts at [a0]. *)
Definition enclosing (a0 h c : Q) : Z := Qfloor ((c - a0) / h).

(** [c] lies strictly inside an axis of [n] nodes, and not within
    [1e-6 * h] below a node. *)
Definition clear_inside (a0 h : Q) (n : Z) (c : Q) : Prop :=
  (a0 < c /\ c < a0 + inject_Z (n - 1) * h /\
   (c - a0) / h + (1 # 1000000) < inject_Z (enclosing a0 h c) + 1)%Q.

Definition strictly_inside (a0 h : Q) (n : Z) (c : Q) : Prop :=
  (a0 < c /\ c < a0 + inject_Z (n - 1) * h)%Q.

(** The weight [(1-|dx|/h)(1-|dy|/h)(1-|dz|/h)] of node [(i, j, k)]. *)
Definition trilinear_weight (g : Grid3D.t Q) (p : point Q)
    (ijk : Z * Z * Z) : Q :=
  let '(i, j, k) := ijk in
  ((1 - Qabs (px p - nth (Z.to_nat i) (Grid3D.x g) 0) / Grid3D.dx g) *
   (1 - Qabs (py p - nth (Z.to_nat j) (Grid3D.y g) 0) / Grid3D.dx g) *
   (1 - Qabs (pz p - nth (Z.to_nat k) (Grid3D.z g) 0) / Grid3D.dx g))%Q.

(** The row of the interpolation matrix for point [p]: the eight corners of
    its enclosing cell with their weights. *)
Definition trilinear_row (g : Grid3D.t Q) (x0 y0 z0 h : Q)
    (p : point Q) : list (Z * Q) :=
  map (fun ijk => (Grid3D.ind g (fst (fst ijk)) (snd (fst ijk)) (snd ijk),
                   trilinear_weight g p ijk))
      (Grid3D.corners (enclosing x0 h (px p))
                      (enclosing y0 h (py p))
                      (enclosing z0 h (pz p))).

(** [g] has its nodes at [x0 + i*h], [y0 + j*h], [z0 + k*h], with [h > 0]. *)
Definition uniform_grid (g : Grid3D.t Q) (x0 y0 z0 h : Q) : Prop :=
  (0 < h)%Q /\ (Grid3D.dx g == h)%Q /\
  Grid3D.x g = uniform_axis x0 h (Grid3D.nx g) /\
  Grid3D.y g = uniform_axis y0 h (Grid3D.ny g) /\
  Grid3D.z g = uniform_axis z0 h (Grid3D.nz g).

Definition clear_point (g : Grid3D.t Q) (x0 y0 z0 h : Q)
    (p : point Q) : Prop :=
  clear_inside x0 h (Grid3D.nx g) (px p) /\
  clear_inside y0 h (Grid3D.ny g) (py p) /\
  clear_inside z0 h (Grid3D.nz g) (pz p).

Definition strict_point (g : Grid3D.t Q) (x0 y0 z0 h : Q)
    (p : point Q) : Prop :=
  strictly_inside x0 h (Grid3D.nx g) (px p) /\
  strictly_inside y0 h (Grid3D.ny g) (py p) /\
  strictly_inside z0 h (Grid3D.nz g) (pz p).

(** The grid of the cubic check, one node further along each axis: nodes at
    0, 1 and 2. *)
Definition grid_012 : Grid3D.t Q :=
  Grid3D.mk [0; 1; 2]%Q [0; 1; 2]%Q [0; 1; 2]%Q 1 1%Q.

Definition grid_012_binary64 : Grid3D.t float :=
  Grid3D.mk [0; 1; 2]%float [0; 1; 2]%float [0; 1; 2]%float 1 1%float.

(** ** class InvParams *)

Record InvParams (F : Type) : Type := mkInvParams {
  maxit : nat;
  maxit_hypo : nat;
  conv_hypo : F;
  Vpmin : F;
  Vpmax : F;
  PAp : F;
  Vsmin : option F;       (* set only when Vlim has more than 3 entries *)
  Vsmax : option F;
  PAs : option F;
  dVp_max : F;
  dx_max : F;
  dt_max : F;
  dVs_max : option F;     (* set only when dmax has more than 3 entries *)
  lmbda : F;
  gamma : F;
  alpha : F;
  wzK : F;
  invert_vel : bool;
  invert_VsVp : bool;
  hypo_2step : bool;
  use_sc : bool;
  show_plots : bool;
  verbose : bool
}.
Arguments mkInvParams {F}.
Arguments maxit {F} _.
Arguments maxit_hypo {F} _.
Arguments conv_hypo {F} _.
Arguments Vpmin {F} _.
Arguments Vpmax {F} _.
Arguments PAp {F} _.
Arguments Vsmin {F} _.
Arguments Vsmax {F} _.
Arguments PAs {F} _.
Arguments dVp_max {F} _.
Arguments dx_max {F} _.
Arguments dt_max {F} _.
Arguments dVs_max {F} _.
Arguments lmbda {F} _.
Arguments gamma {F} _.
Arguments alpha {F} _.
Arguments wzK {F} _.
Arguments invert_vel {F} _.
Arguments invert_VsVp {F} _.
Arguments hypo_2step {F} _.
Arguments use_sc {F} _.
Arguments show_plots {F} _.
Arguments verbose {F} _.

(** Reading an attribute that [__init__] did not set. *)
Definition attr {A} (name : string) (a : option A) : result A :=
  match a with
  | Some v => Ok v
  | None => Raise (AttributeError name)
  end.

(** [InvParams.__init__] *)
Definition InvParams_init {F} (maxit maxit_hypo : nat) (conv_hypo : F)
    (Vlim dmax lagrangians : list F)
    (invert_vel invert_VsVp hypo_2step use_sc show_plots verbose : bool)
  : result (InvParams F) :=
  vpmin <- py_get Vlim 0 ;; vpmax <- py_get Vlim 1 ;; pap <- py_get Vlim 2 ;;
  vs <- (if (3 <? length Vlim)%nat
         then a <- py_get Vlim 3 ;; b <- py_get Vlim 4 ;; c <- py_get Vlim 5 ;;
              Ok (Some a, Some b, Some c)
         else Ok (None, None, None)) ;;
  dvp <- py_get dmax 0 ;; dx <- py_get dmax 1 ;; dt <- py_get dmax 2 ;;
  dvs <- (if (3 <? length dmax)%nat
          then a <- py_get dmax 3 ;; Ok (Some a) else Ok None) ;;
  l0 <- py_get lagrangians 0 ;; l1 <- py_get lagrangians 1 ;;
  l2 <- py_get lagrangians 2 ;; l3 <- py_get lagrangians 3 ;;
  Ok (mkInvParams maxit maxit_hypo conv_hypo vpmin vpmax pap
        (fst (fst vs)) (snd (fst vs)) (snd vs) dvp dx dt dvs l0 l1 l2 l3
        invert_vel invert_VsVp hypo_2step use_sc show_plots verbose).

(** ** Clamping and applying the model update

    The end of the velocity step of [jointHypoVel] and [jointHypoVelPS]:
    [deltam] is the solution returned by LSQR. *)

Section Update.
Context {F : Type} `{Scalar F}.
Local Open Scope scalar_scope.

(** [np.nonzero(np.abs(l) > m)[0]] *)
Definition exceeding (m : F) (l : list F) : list nat :=
  List.filter (fun i => match l !! i with
                        | Some d => m <? fabs d
                        | None => false
                        end)
              (seq 0 (length l)).

(** [for i in ind: deltam[lo+i] = m * np.sign(deltam[lo+i])] *)
Definition clamp_entries (m : F) (lo : nat) (ind : list nat) (deltam : list F)
  : list F :=
  fold_left (fun dm i => match dm !! (lo + i)%nat with
                         | Some d => <[(lo + i)%nat := m * fsign d]> dm
                         | None => dm
                         end)
            ind deltam.

(** [jointHypoVel], from the clamp to the update of [sc]: returns the new
    [V], [s] and [sc]. *)
Definition apply_update (par : InvParams F) (nnodes : nat)
    (deltam V sc : list F) : result (list F * list F * list F) :=
  let ind := exceeding (dVp_max par) (take nnodes deltam) in
  let deltam := clamp_entries (dVp_max par) 0 ind deltam in
  V <- np_add V (take nnodes deltam) ;;
  let s := map (fdiv fone) V in
  sc <- np_add sc (drop nnodes deltam) ;;
  Ok (V, s, sc).

Record model_PS : Type := mk_model_PS {
  m_V : list F;        (* [Vp; Vs] or [Vp; Vs/Vp] *)
  m_Vp : list F;
  m_Vs : list F;
  m_s_p : list F;
  m_s_s : list F;
  m_sc_p : list F;
  m_sc_s : list F
}.

(** [jointHypoVelPS], from the clamps to the update of [sc_s]. *)
Definition apply_update_PS (par : InvParams F) (nnodes nsta : nat)
    (deltam : list F) (st : model_PS) : result model_PS :=
  let ind := exceeding (dVp_max par) (take nnodes deltam) in
  let deltam := clamp_entries (dVp_max par) 0 ind deltam in
  dVs <- attr "dVs_max" (dVs_max par) ;;
  let ind := exceeding dVs (take nnodes (drop nnodes deltam)) in
  let deltam := clamp_entries dVs nnodes ind deltam in
  V <- np_add (m_V st) (take (2 * nnodes) deltam) ;;
  let Vp := take nnodes V in
  Vs <- (if invert_VsVp par
         then let VsVp := take nnodes (drop nnodes V) in np_multiply VsVp Vp
         else Ok (take nnodes (drop nnodes V))) ;;
  let s_p := map (fdiv fone) Vp in
  let s_s := map (fdiv fone) Vs in
  sc_p <- np_add (m_sc_p st) (take nsta (drop (2 * nnodes) deltam)) ;;
  sc_s <- np_add (m_sc_s st) (drop (2 * nnodes + nsta) deltam) ;;
  Ok (mk_model_PS V Vp Vs s_p s_s sc_p sc_s).
End Update.
Arguments model_PS F : clear implicits.

(** The clamp of one entry, as the specification words it: an update larger
    than [m] in absolute value is replaced by [m * sign]. *)
Definition clamp (m d : Q) : Q := if Qltb m (Qabs d) then (m * fsign d)%Q else d.

(** The parameters of the module's driver:
    [InvParams(maxit=3, maxit_hypo=10, conv_hypo=1, Vlim=(3500, 4500, 1,
    1500, 2500, 1), dmax=(50, 5, 1e-2, 25), lagrangians=(2, 1, 1, 0.1),
    invert_vel=True, verbose=True)], the other flags at their defaults. *)
Definition par_main : InvParams Q :=
  mkInvParams 3 10 1%Q 3500%Q 4500%Q 1%Q (Some 1500%Q) (Some 2500%Q) (Some 1%Q)
              50%Q 5%Q (1 # 100)%Q (Some 25%Q) 2%Q 1%Q 1%Q (1 # 10)%Q
              true true false true true true.

(** One node, one station: [V_p = 4000], ratio [1/2], so [V_s = 2000]. *)
Definition model_ratio : model_PS Q :=
  mk_model_PS [4000; 1 # 2]%Q [4000]%Q [2000]%Q [1 # 4000]%Q [1 # 2000]%Q
              [0]%Q [0]%Q.

(** The update [(t0, x, y, z)] of a hypocenter. *)
Definition vec4 (F : Type) : Type := (F * F * F * F)%type.

(** Arrays live in a store and are named by their address: [hinit] is
    passed by reference, and [hinit.copy()] allocates. *)
Abbreviation store F := (list (list (hyp F))) (only parsing).

Definition ndarray_copy {F} (a : nat) (h : store F) : result nat * store F :=
  match h !! a with
  | Some tbl => (Ok (length h), h ++ [tbl])
  | None => (Raise (NameError "hinit"), h)
  end.

(** ** Dense linear algebra *)

Section Dense.
Context {F : Type} `{Scalar F}.
Local Open Scope scalar_scope.

Definition dot (a b : list F) : F := np_sum (zip_with fmul a b).

(** The columns of a matrix with [n] columns, i.e. the rows of [M.T]. *)
Definition columns (n : nat) (M : list (list F)) : list (list F) :=
  map (fun j => map (fun row => nth j row fzero) M) (seq 0 n).

(** [np.dot(M, v)] *)
Definition mat_vec (M : list (list F)) (v : list F) : list F :=
  map (fun row => dot row v) M.

(** [np.dot(H.T, H)] and [np.dot(H.T, r)] for a matrix [H] of [n] columns. *)
Definition HtH (n : nat) (Hm : list (list F)) : list (list F) :=
  map (fun ci => map (fun cj => dot ci cj) (columns n Hm)) (columns n Hm).
Definition Htr (n : nat) (Hm : list (list F)) (r : list F) : list F :=
  mat_vec (columns n Hm) r.

(** [M + 1e-9*np.eye(n)] *)
Definition add_ridge (M : list (list F)) : list (list F) :=
  imap (fun i row => imap (fun j a => if (i =? j)%nat then a + ridge * fone
                                      else a + ridge * fzero) row) M.

(** [np.linalg.norm(r)] *)
Definition norm (r : list F) : F := fsqrt (np_sum (map (fun a => a * a) r)).

(** [np.dot(VV, np.dot(U.T, b)/S)] with [VV = VVh.T], for a decomposition
    [U, S, VVh] of an [n] by [n] matrix. *)
Definition svd_solve (n : nat) (U : list (list F)) (Sv : list F)
    (VVh : list (list F)) (b : list F) : list F :=
  mat_vec (columns n VVh) (zip_with fdiv (mat_vec (columns n U) b) Sv).

Definition to_vec4 (l : list F) : result (vec4 F) :=
  match l with
  | [a; b; c; d] => Ok (a, b, c, d)
  | _ => Raise (ValueError "operands could not be broadcast together")
  end.

Definition vec4_list (d : vec4 F) : list F :=
  let '(a, b, c, e) := d in [a; b; c; e].

(** [np.unique]: the sorted distinct values. *)
Fixpoint insert_unique (a : F) (l : list F) : list F :=
  match l with
  | [] => [a]
  | b :: t => if a <? b then a :: b :: t
              else if a =? b then b :: t
              else b :: insert_unique a t
  end.
Definition np_unique (l : list F) : list F :=
  fold_left (fun acc a => insert_unique a acc) l [].
End Dense.

(** The external solvers.  [np.linalg.solve(A, b)] raises [LinAlgError] when
    LAPACK finds [A] exactly singular; [np.linalg.svd(A)] raises it when the
    iteration does not converge, and returns [U, S, VVh] otherwise;
    [np.linalg.lstsq(H, r)] returns the least-squares solution, or raises
    [LinAlgError]. *)
Definition solve_t (F : Type) : Type := list (list F) -> list F -> result (list F).
Definition svd_t (F : Type) : Type :=
  list (list F) -> result (list (list F) * list F * list (list F)).
Definition lstsq_t (F : Type) : Type := list (list F) -> list F -> result (list F).

(** ** hypoloc and hypolocPS *)

Section Locator.
Context {F : Type} `{Scalar F}.
Variable solve : solve_t F.
Variable svd : svd_t F.
Local Open Scope scalar_scope.

(** [x[i,:] = rcv[int(1.e-6+ix[i]),:]] for the observations of an event *)
Definition receivers (rcv : list (point F)) (rows : list (obs F))
  : result (list (point F)) :=
  mapM (fun o => i <- to_int (o_rcv o) ;; py_get rcv i) rows.

(** [tinit + ds/vel], where [tinit] holds the origin time of every row of
    [loc] with the event's ID: one value is broadcast, as many values as
    observations are added element-wise, anything else is refused. *)
Definition add_origin (tinit : list F) (tt : list F) : result (list F) :=
  match tinit with
  | [t0] => Ok (map (fun a => t0 + a) tt)
  | _ => if (length tinit =? length tt)%nat then Ok (zip_with fadd tinit tt)
         else match tt with
              | [a] => Ok (map (fun t0 => t0 + a) tinit)
              | _ => Raise (ValueError "operands could not be broadcast together")
              end
  end.

(** The solve step: the normal equations, then the fallback on a non-finite
    solution.  [Some dh] is the update, [None] the [break] of the handler. *)
Definition solve_step (Hm : list (list F)) (r : list F)
  : result (option (vec4 F)) :=
  dh <- solve (HtH 4 Hm) (Htr 4 Hm r) ;;
  if negb (forallb fisfinite dh) then
    match svd (add_ridge (HtH 4 Hm)) with
    | Ok (U, Sv, VVh) =>
        dh <- to_vec4 (svd_solve 4 U Sv VVh (Htr 4 Hm r)) ;; Ok (Some dh)
    | Raise LinAlgError => Ok None
    | Raise e => Raise e
    end
  else dh <- to_vec4 dh ;; Ok (Some dh).

(** One pass of the loop over [it], up to the solve step: the norm of the
    residuals and the update.  [x], [t] and [vel] are the receivers, the
    arrival times and the velocities of the observations; [sel] holds the
    rows of [loc] with the event's ID. *)
Definition locate_iter (x : list (point F)) (t vel : list F)
    (sel : list (hyp F)) : result (F * option (vec4 F)) :=
  h0 <- py_get sel 0 ;;
  let tinit := map h_t0 sel in
  let dx := map (fun p => px p - h_x h0) x in
  let dy := map (fun p => py p - h_y h0) x in
  let dz := map (fun p => pz p - h_z h0) x in
  let ds := map (fun d => fsqrt (fst (fst d) * fst (fst d)
                                 + snd (fst d) * snd (fst d)
                                 + snd d * snd d))
                (zip (zip dx dy) dz) in
  tcalc <- add_origin tinit (zip_with fdiv ds vel) ;;
  let col := fun d => zip_with fdiv
                        (zip_with fmul (map (fun v => - fone / v) vel) d) ds in
  let Hm := map (fun c => [fone; fst (fst c); snd (fst c); snd c])
                (zip (zip (col dx) (col dy)) (col dz)) in
  r <- (if (length t =? length tcalc)%nat then Ok (zip_with fsub t tcalc)
        else Raise (ValueError "operands could not be broadcast together")) ;;
  dh <- solve_step Hm r ;;
  Ok (norm r, dh).

(** [loc[inh,1:] += dh] *)
Definition add_dh (eid : F) (dh : vec4 F) (loc : list (hyp F)) : list (hyp F) :=
  let '(d0, d1, d2, d3) := dh in
  map (fun h => if eid =? h_id h
                then mk_hyp (h_id h) (h_t0 h + d0) (h_x h + d1) (h_y h + d2)
                            (h_z h + d3)
                else h) loc.

(** [np.sum(np.abs(dh[1:])<convh) == 3] *)
Definition converged (convh : F) (dh : vec4 F) : bool :=
  let '(_, d1, d2, d3) := dh in
  (fabs d1 <? convh) && (fabs d2 <? convh) && (fabs d3 <? convh).

(** The loop [for it in range(maxit)] from iteration [it] on, with [n]
    iterations left.  The table [loc] is returned with the outcome: an
    exception leaves it as the last update made it. *)
Fixpoint locate_loop (n it : nat) (eid convh : F)
    (x : list (point F)) (t vel : list F)
    (resrow : list F) (loc : list (hyp F)) : result (list F) * list (hyp F) :=
  match n with
  | O => (Ok resrow, loc)
  | S n' =>
      match locate_iter x t vel (List.filter (fun h => eid =? h_id h) loc) with
      | Raise e => (Raise e, loc)
      | Ok (nr, None) => (Ok (<[it := nr]> resrow), loc)
      | Ok (nr, Some dh) =>
          let loc := add_dh eid dh loc in
          let resrow := <[it := nr]> resrow in
          if converged convh dh then (Ok resrow, loc)
          else locate_loop n' (S it) eid convh x t vel resrow loc
      end
  end.

(** The loop over the events, on the table [loc]; [vel_of] gives the
    velocity of an observation. *)
Fixpoint locate_events (evID : list F) (vel_of : obs F -> result F)
    (data : list (obs F)) (rcv : list (point F)) (maxit : nat)
    (convh : F) (loc : list (hyp F))
  : result (list (list F)) * list (hyp F) :=
  match evID with
  | [] => (Ok [], loc)
  | eid :: evID' =>
      let rows := List.filter (fun o => eid =? o_id o) data in
      match (x <- receivers rcv rows ;; vel <- mapM vel_of rows ;; Ok (x, vel)) with
      | Raise e => (Raise e, loc)
      | Ok (x, vel) =>
          match locate_loop maxit 0 eid convh x (map o_t rows) vel
                            (repeat fzero maxit) loc with
          | (Raise e, loc) => (Raise e, loc)
          | (Ok resrow, loc) =>
              match locate_events evID' vel_of data rcv maxit convh loc with
              | (Raise e, loc) => (Raise e, loc)
              | (Ok res, loc) => (Ok (resrow :: res), loc)
              end
          end
      end
  end.

(** [hypoloc(data, rcv, V, hinit, maxit, convh)]: [hinit] is the address of
    the initial table; the result is the address of [loc], and [res]. *)
Definition hypoloc (data : list (obs F)) (rcv : list (point F)) (V : F)
    (hinit : nat) (maxit : nat) (convh : F) (h : store F)
  : result (nat * list (list F)) * store F :=
  let evID := np_unique (map o_id data) in
  match ndarray_copy hinit h with
  | (Raise e, h) => (Raise e, h)
  | (Ok loc, h) =>
      match h !! loc with
      | None => (Raise (NameError "loc"), h)
      | Some tbl =>
          match locate_events evID (fun _ => Ok V) data rcv maxit convh tbl with
          | (Raise e, tbl) => (Raise e, <[loc := tbl]> h)
          | (Ok res, tbl) => (Ok (loc, res), <[loc := tbl]> h)
          end
      end
  end.

(** [hypolocPS]: [V] holds the velocity of the P and of the S wave, and
    [vel[n] = V[int(1.e-6+ph[n])]]. *)
Definition hypolocPS (data : list (obs F)) (rcv : list (point F))
    (V : F * F) (hinit : nat) (maxit : nat) (convh : F) (h : store F)
  : result (nat * list (list F)) * store F :=
  let evID := np_unique (map o_id data) in
  match ndarray_copy hinit h with
  | (Raise e, h) => (Raise e, h)
  | (Ok loc, h) =>
      match h !! loc with
      | None => (Raise (NameError "loc"), h)
      | Some tbl =>
          match locate_events evID
                  (fun o => i <- to_int (o_ph o) ;; py_get [fst V; snd V] i)
                  data rcv maxit convh tbl with
          | (Raise e, tbl) => (Raise e, <[loc := tbl]> h)
          | (Ok res, tbl) => (Ok (loc, res), <[loc := tbl]> h)
          end
      end
  end.
End Locator.

(** ** A model of [np.linalg.solve]

    LAPACK's [gesv]: elimination with partial pivoting, which reports a
    matrix as singular when a pivot is exactly zero; NumPy turns the report
    into [LinAlgError]. *)

Section Gesv.
Context {F : Type} `{Scalar F}.
Local Open Scope scalar_scope.

Definition head0 (row : list F) : F := nth 0 row fzero.

(** The row with the largest leading entry, and the other rows. *)
Fixpoint pivot_split (p : list F) (others rows : list (list F))
  : list F * list (list F) :=
  match rows with
  | [] => (p, others)
  | r :: t => if fabs (head0 p) <? fabs (head0 r)
              then pivot_split r (others ++ [p]) t
              else pivot_split p (others ++ [r]) t
  end.

(** Forward elimination on the rows of [A | b]. *)
Fixpoint eliminate (n : nat) (rows : list (list F)) : result (list (list F)) :=
  match n, rows with
  | S n', r0 :: rest =>
      let '(p, others) := pivot_split r0 [] rest in
      if head0 p =? fzero then Raise LinAlgError
      else
        let reduce := fun r =>
          tail (zip_with (fun a b => a - head0 r / head0 p * b) r p) in
        tri <- eliminate n' (map reduce others) ;;
        Ok (p :: tri)
  | _, _ => Ok []
  end.

Fixpoint back_subst (tri : list (list F)) : list F :=
  match tri with
  | [] => []
  | row :: tri' =>
      let xs := back_subst tri' in
      let rhs := List.last row fzero in
      (rhs - dot (tail row) xs) / head0 row :: xs
  end.

Definition gesv : solve_t F := fun A b =>
  tri <- eliminate (length A) (zip_with (fun row bi => row ++ [bi]) A b) ;;
  Ok (back_subst tri).
End Gesv.

(** Two arrivals of one event, at receivers on a line through the initial
    hypocenter. *)
Definition data_collinear : list (obs float) :=
  [mk_obs 0 1 0 0; mk_obs 0 2 1 0]%float.
Definition rcv_collinear : list (point float) :=
  [(1, 0, 0); (2, 0, 0)]%float.
Definition hinit_origin : list (hyp float) := [mk_hyp 0 0 0 0 0]%float.

(** ** _reloc and _relocPS *)

(** How a relocation ends; Python returns [None] in every case, the cases
    differ by the message printed. *)
Inductive reloc_exit : Type :=
| Converged        (* the [break] of the loop over all parameters *)
| MaxIterations    (* the [else] of that loop *)
| NotRelocated     (* "Event could not be relocated, exiting" *)
| OutsideGrid.     (* "Event could not be relocated inside the grid, exiting" *)

Section Reloc.
Context {F : Type} `{Scalar F}.
Variable engine : engine_t F.
Variable lstsq : lstsq_t F.
Variable svd : svd_t F.
Local Open Scope scalar_scope.

(** [np.nonzero(mask)[0]] for the mask [test] over the rows of [tbl]. *)
Definition nonzero {A} (test : A -> bool) (tbl : list A) : list nat :=
  List.filter (fun i => match tbl !! i with
                        | Some a => test a
                        | None => false
                        end)
              (seq 0 (length tbl)).

Definition item {A} (l : list A) (i : nat) : result A :=
  match l !! i with
  | Some a => Ok a
  | None => Raise IndexError
  end.

(** [hyp0[indh[0],:]], with its row number. *)
Definition first_row (indh : list nat) (hyp0 : list (hyp F))
  : result (nat * hyp F) :=
  i0 <- py_get indh 0 ;;
  h <- item hyp0 i0 ;;
  Ok (i0, h).

(** [for i in range(nst): hyp[i,:] = hyp0[indh[0],:]] *)
Definition sources (nst : nat) (indh : list nat) (hyp0 : list (hyp F))
  : result (list (hyp F)) :=
  match nst with
  | O => Ok []
  | _ => ih <- first_row indh hyp0 ;; Ok (repeat (snd ih) nst)
  end.

(** [stn[i,:] = rcv[int(1.e-6+data[indr[i],2]),:]] *)
Definition stations (rcv : list (point F)) (data : list (obs F))
    (indr : list nat) : result (list (point F)) :=
  mapM (fun i => o <- item data i ;; k <- to_int (o_rcv o) ;; py_get rcv k) indr.

(** [-1./V0 * d[k]/ds] *)
Definition coef (V0 dk ds : F) : F := - fone / V0 * dk / ds.

(** The body of a loop over [ns], for row [i] of [H]:
    [d = (raysi[1,:]-hyp0[indh,2:]).flatten()], [ds = np.sqrt(np.sum(d*d))],
    then [H[i, first_col + k] = -1./V0 * d[k]/ds] for [k < ncoef]. *)
Definition write_coefs (first_col ncoef i : nat) (raysi : list (point F))
    (V0 : F) (sel : list (hyp F)) (Hm : list (list F))
  : result (list (list F)) :=
  r1 <- py_get raysi 1 ;;
  let d := flat_map (fun h => [px r1 - h_x h; py r1 - h_y h; pz r1 - h_z h])
                    sel in
  let ds := fsqrt (np_sum (map (fun a => a * a) d)) in
  for_each (seq 0 ncoef)
    (fun k Hm =>
       dk <- item d k ;;
       row <- item Hm i ;;
       if (first_col + k <? length row)%nat
       then Ok (<[i := <[(first_col + k)%nat := coef V0 dk ds]> row]> Hm)
       else Raise IndexError)
    Hm.

(** [for ns in range(n): raysi = rays[ns]; V0 = v0[ns]; ...], writing row
    [row0 + ns] of [H]. *)
Definition fill_rows (first_col ncoef row0 n : nat)
    (rays : list (list (point F))) (v0 : list F) (sel : list (hyp F))
    (Hm : list (list F)) : result (list (list F)) :=
  for_each (seq 0 n)
    (fun ns Hm =>
       raysi <- item rays ns ;;
       V0 <- item v0 ns ;;
       write_coefs first_col ncoef (row0 + ns) raysi V0 sel Hm)
    Hm.

(** [hyp0[indh,2:]]: the rows with the event's ID. *)
Definition selected (indh : list nat) (hyp0 : list (hyp F)) : list (hyp F) :=
  omap (fun i => hyp0 !! i) indh.

(** The least-squares step on a Jacobian of [n] columns: [Some deltah], or
    [None] where the handler returns. *)
Definition lstsq_step (n : nat) (Hm : list (list F)) (r : list F)
  : result (option (list F)) :=
  deltah <- lstsq Hm r ;;
  if negb (forallb fisfinite deltah) then
    match svd (add_ridge (HtH n Hm)) with
    | Ok (U, Sv, VVh) => Ok (Some (svd_solve n U Sv VVh (Htr n Hm r)))
    | Raise LinAlgError => Ok None
    | Raise e => Raise e
    end
  else Ok (Some deltah).

Definition to_vec2 (l : list F) : result (F * F) :=
  match l with
  | [a; b] => Ok (a, b)
  | _ => Raise (ValueError "operands could not be broadcast together")
  end.

(** [new_hyp = hyp0[indh[0],1:] + deltah], the test of [new_hyp[1:]]
    against the grid, and [hyp0[indh[0],1:] += deltah]: the updated table,
    or [None] when the trial position is outside. *)
Definition move4 (g : Grid3D.t F) (indh : list nat) (deltah : vec4 F)
    (hyp0 : list (hyp F)) : result (option (list (hyp F))) :=
  ih <- first_row indh hyp0 ;;
  let '(d0, d1, d2, d3) := deltah in
  let h := snd ih in
  let new_hyp := (h_t0 h + d0, (h_x h + d1, h_y h + d2, h_z h + d3)) in
  out <- Grid3D.isOutside g [snd new_hyp] ;;
  if out : bool then Ok None
  else Ok (Some (<[fst ih := mk_hyp (h_id h) (h_t0 h + d0) (h_x h + d1)
                                     (h_y h + d2) (h_z h + d3)]> hyp0)).

(** The same for the update of [(x, y)]: [new_hyp[2:4] += deltah] on a copy
    of the row, the test, and [hyp0[indh[0],2:4] += deltah]. *)
Definition move2 (g : Grid3D.t F) (indh : list nat) (deltah : F * F)
    (hyp0 : list (hyp F)) : result (option (list (hyp F))) :=
  ih <- first_row indh hyp0 ;;
  let h := snd ih in
  let new_hyp := (h_x h + fst deltah, h_y h + snd deltah, h_z h) in
  out <- Grid3D.isOutside g [new_hyp] ;;
  if out : bool then Ok None
  else Ok (Some (<[fst ih := mk_hyp (h_id h) (h_t0 h) (h_x h + fst deltah)
                                     (h_y h + snd deltah) (h_z h)]> hyp0)).

(** [np.sum(np.abs(deltah)<par.conv_hypo) == 2] *)
Definition converged2 (conv : F) (deltah : F * F) : bool :=
  (fabs (fst deltah) <? conv) && (fabs (snd deltah) <? conv).

(** What one pass of a relocation loop asks of the loop. *)
Inductive pass (A : Type) : Type :=
| Return (e : reloc_exit)                  (* [return] *)
| Moved (deltah : A) (hyp0 : list (hyp F)). (* the row was updated *)
Arguments Return {A} e.
Arguments Moved {A} deltah hyp0.

(** *** _reloc *)

(** One pass of the loop "Updating latitude & longitude". *)
Definition reloc_pass2 (g : Grid3D.t F) (indh : list nat) (nst : nat)
    (stn : list (point F)) (tobs_ev s : list F)
    (Hm : list (list F)) (hyp0 : list (hyp F))
  : result (list (list F) * pass (F * F)) :=
  hypt <- sources nst indh hyp0 ;;
  out <- Grid3D.raytrace engine g s hypt stn ;;
  Hm <- fill_rows 0 2 0 nst (snd (fst out)) (snd out) (selected indh hyp0) Hm ;;
  r <- np_sub tobs_ev (fst (fst out)) ;;
  dh <- lstsq_step 2 Hm r ;;
  match dh with
  | None => Ok (Hm, Return NotRelocated)
  | Some dh =>
      dh <- to_vec2 dh ;;
      mv <- move2 g indh dh hyp0 ;;
      match mv with
      | None => Ok (Hm, Return OutsideGrid)
      | Some hyp0 => Ok (Hm, Moved dh hyp0)
      end
  end.

(** The loop over [itt], with [n] passes left: [None] when the function
    goes on with the next loop, [Some e] when it returns. *)
Fixpoint reloc_loop2 (n : nat) (conv : F) (g : Grid3D.t F) (indh : list nat)
    (nst : nat) (stn : list (point F)) (tobs_ev s : list F)
    (Hm : list (list F)) (hyp0 : list (hyp F))
  : result (option reloc_exit) * list (hyp F) :=
  match n with
  | O => (Ok None, hyp0)
  | S n' =>
      match reloc_pass2 g indh nst stn tobs_ev s Hm hyp0 with
      | Raise e => (Raise e, hyp0)
      | Ok (_, Return e) => (Ok (Some e), hyp0)
      | Ok (Hm, Moved dh hyp0) =>
          if converged2 conv dh then (Ok None, hyp0)
          else reloc_loop2 n' conv g indh nst stn tobs_ev s Hm hyp0
      end
  end.

(** One pass of the loop "Updating all hypocenter params"; the clamps of
    the update are commented out in [_reloc]. *)
Definition reloc_pass4 (g : Grid3D.t F) (indh : list nat) (nst : nat)
    (stn : list (point F)) (tobs_ev s : list F)
    (Hm : list (list F)) (hyp0 : list (hyp F))
  : result (list (list F) * pass (vec4 F)) :=
  hypt <- sources nst indh hyp0 ;;
  out <- Grid3D.raytrace engine g s hypt stn ;;
  Hm <- fill_rows 1 3 0 nst (snd (fst out)) (snd out) (selected indh hyp0) Hm ;;
  r <- np_sub tobs_ev (fst (fst out)) ;;
  dh <- lstsq_step 4 Hm r ;;
  match dh with
  | None => Ok (Hm, Return NotRelocated)
  | Some dh =>
      dh <- to_vec4 dh ;;
      mv <- move4 g indh dh hyp0 ;;
      match mv with
      | None => Ok (Hm, Return OutsideGrid)
      | Some hyp0 => Ok (Hm, Moved dh hyp0)
      end
  end.

Fixpoint reloc_loop4 (n : nat) (conv : F) (g : Grid3D.t F) (indh : list nat)
    (nst : nat) (stn : list (point F)) (tobs_ev s : list F)
    (Hm : list (list F)) (hyp0 : list (hyp F))
  : result reloc_exit * list (hyp F) :=
  match n with
  | O => (Ok MaxIterations, hyp0)
  | S n' =>
      match reloc_pass4 g indh nst stn tobs_ev s Hm hyp0 with
      | Raise e => (Raise e, hyp0)
      | Ok (_, Return e) => (Ok e, hyp0)
      | Ok (Hm, Moved dh hyp0) =>
          if converged conv dh then (Ok Converged, hyp0)
          else reloc_loop4 n' conv g indh nst stn tobs_ev s Hm hyp0
      end
  end.

(** [_reloc(ne, par, grid, evID, hyp0, data, rcv, tobs, s)]; the table
    [hyp0] is updated in place, so it is returned with the outcome. *)
Definition _reloc (ne : Z) (par : InvParams F) (g : Grid3D.t F)
    (evID : list F) (hyp0 : list (hyp F)) (data : list (obs F))
    (rcv : list (point F)) (tobs s : list F)
  : result reloc_exit * list (hyp F) :=
  match (eid <- py_get evID ne ;;
         let indh := nonzero (fun h => h_id h =? eid) hyp0 in
         let indr := nonzero (fun o => o_id o =? eid) data in
         _ <- sources (length indr) indh hyp0 ;;
         stn <- stations rcv data indr ;;
         tobs_ev <- mapM (item tobs) indr ;;
         Ok (indh, length indr, stn, tobs_ev)) with
  | Raise e => (Raise e, hyp0)
  | Ok (indh, nst, stn, tobs_ev) =>
      match (if hypo_2step par
             then reloc_loop2 (maxit_hypo par) (conv_hypo par) g indh nst stn
                              tobs_ev s (repeat [fone; fone] nst) hyp0
             else (Ok None, hyp0)) with
      | (Raise e, hyp0) => (Raise e, hyp0)
      | (Ok (Some e), hyp0) => (Ok e, hyp0)
      | (Ok None, hyp0) =>
          reloc_loop4 (maxit_hypo par) (conv_hypo par) g indh nst stn tobs_ev s
                      (repeat [fone; fone; fone; fone] nst) hyp0
      end
  end.

(** *** _relocPS *)

(** [np.nonzero(np.logical_and(data[:,0] == eid, mask))[0]] *)
Definition nonzero_and (eid : F) (mask : list bool) (data : list (obs F))
  : result (list nat) :=
  if negb (length mask =? length data)%nat
  then Raise (ValueError "operands could not be broadcast together")
  else Ok (List.filter (fun i => match data !! i, mask !! i with
                                 | Some o, Some b => (o_id o =? eid) && b
                                 | _, _ => false
                                 end)
                       (seq 0 (length data))).

(** The raytracing of the P and of the S arrivals of the event. *)
Definition raytrace_PS (g : Grid3D.t F) (indh : list nat) (nstp nsts : nat)
    (stnp stns : list (point F)) (s_p s_s : list F) (hyp0 : list (hyp F))
  : result ((list F * list (list (point F)) * list F) *
            (list F * list (list (point F)) * list F)) :=
  hypp <- sources nstp indh hyp0 ;;
  outp <- Grid3D.raytrace engine g s_p hypp stnp ;;
  hyps <- sources nsts indh hyp0 ;;
  outs <- Grid3D.raytrace engine g s_s hyps stns ;;
  Ok (outp, outs).

(** [r = np.hstack((tobs[indrp] - tcalcp, tobs[indrs] - tcalcs))] *)
Definition residuals_PS (tobs_p tobs_s tcalcp tcalcs : list F)
  : result (list F) :=
  rp <- np_sub tobs_p tcalcp ;;
  rs <- np_sub tobs_s tcalcs ;;
  Ok (rp ++ rs).

(** The Jacobian of the loop "Updating latitude & longitude": the rows of
    the S arrivals follow those of the P arrivals. *)
Definition jacobian2_PS (nstp nsts : nat)
    (raysp : list (list (point F))) (v0p : list F)
    (rayss : list (list (point F))) (v0s : list F)
    (sel : list (hyp F)) (Hm : list (list F)) : result (list (list F)) :=
  Hm <- fill_rows 0 2 0 nstp raysp v0p sel Hm ;;
  fill_rows 0 2 nstp nsts rayss v0s sel Hm.

(** The Jacobian of the loop "Updating all hypocenter params": the second
    loop writes [H[ns,1]], [H[ns,2]] and [H[ns,3]], as the first does. *)
Definition jacobian4_PS (nstp nsts : nat)
    (raysp : list (list (point F))) (v0p : list F)
    (rayss : list (list (point F))) (v0s : list F)
    (sel : list (hyp F)) (Hm : list (list F)) : result (list (list F)) :=
  Hm <- fill_rows 1 3 0 nstp raysp v0p sel Hm ;;
  fill_rows 1 3 0 nsts rayss v0s sel Hm.

Definition relocPS_pass2 (g : Grid3D.t F) (indh : list nat) (nstp nsts : nat)
    (stnp stns : list (point F)) (tobs_p tobs_s s_p s_s : list F)
    (Hm : list (list F)) (hyp0 : list (hyp F))
  : result (list (list F) * pass (F * F)) :=
  out <- raytrace_PS g indh nstp nsts stnp stns s_p s_s hyp0 ;;
  let outp := fst out in let outs := snd out in
  Hm <- jacobian2_PS nstp nsts (snd (fst outp)) (snd outp)
                     (snd (fst outs)) (snd outs) (selected indh hyp0) Hm ;;
  r <- residuals_PS tobs_p tobs_s (fst (fst outp)) (fst (fst outs)) ;;
  dh <- lstsq_step 2 Hm r ;;
  match dh with
  | None => Ok (Hm, Return NotRelocated)
  | Some dh =>
      dh <- to_vec2 dh ;;
      mv <- move2 g indh dh hyp0 ;;
      match mv with
      | None => Ok (Hm, Return OutsideGrid)
      | Some hyp0 => Ok (Hm, Moved dh hyp0)
      end
  end.

Fixpoint relocPS_loop2 (n : nat) (conv : F) (g : Grid3D.t F)
    (indh : list nat) (nstp nsts : nat) (stnp stns : list (point F))
    (tobs_p tobs_s s_p s_s : list F)
    (Hm : list (list F)) (hyp0 : list (hyp F))
  : result (option reloc_exit) * list (hyp F) :=
  match n with
  | O => (Ok None, hyp0)
  | S n' =>
      match relocPS_pass2 g indh nstp nsts stnp stns tobs_p tobs_s s_p s_s
                          Hm hyp0 with
      | Raise e => (Raise e, hyp0)
      | Ok (_, Return e) => (Ok (Some e), hyp0)
      | Ok (Hm, Moved dh hyp0) =>
          if converged2 conv dh then (Ok None, hyp0)
          else relocPS_loop2 n' conv g indh nstp nsts stnp stns tobs_p tobs_s
                             s_p s_s Hm hyp0
      end
  end.

(** [if np.abs(d) > m: d = m * np.sign(d)] *)
Definition clamp1 (m d : F) : F := if m <? fabs d then m * fsign d else d.

Definition relocPS_pass4 (par : InvParams F) (g : Grid3D.t F)
    (indh : list nat) (nstp nsts : nat) (stnp stns : list (point F))
    (tobs_p tobs_s s_p s_s : list F)
    (Hm : list (list F)) (hyp0 : list (hyp F))
  : result (list (list F) * pass (vec4 F)) :=
  out <- raytrace_PS g indh nstp nsts stnp stns s_p s_s hyp0 ;;
  let outp := fst out in let outs := snd out in
  Hm <- jacobian4_PS nstp nsts (snd (fst outp)) (snd outp)
                     (snd (fst outs)) (snd outs) (selected indh hyp0) Hm ;;
  r <- residuals_PS tobs_p tobs_s (fst (fst outp)) (fst (fst outs)) ;;
  dh <- lstsq_step 4 Hm r ;;
  match dh with
  | None => Ok (Hm, Return NotRelocated)
  | Some dh =>
      dh <- to_vec4 dh ;;
      let '(d0, d1, d2, d3) := dh in
      let dh := (clamp1 (dt_max par) d0, clamp1 (dx_max par) d1,
                 clamp1 (dx_max par) d2, clamp1 (dx_max par) d3) in
      mv <- move4 g indh dh hyp0 ;;
      match mv with
      | None => Ok (Hm, Return OutsideGrid)
      | Some hyp0 => Ok (Hm, Moved dh hyp0)
      end
  end.

Fixpoint relocPS_loop4 (n : nat) (par : InvParams F) (g : Grid3D.t F)
    (indh : list nat) (nstp nsts : nat) (stnp stns : list (point F))
    (tobs_p tobs_s s_p s_s : list F)
    (Hm : list (list F)) (hyp0 : list (hyp F))
  : result reloc_exit * list (hyp F) :=
  match n with
  | O => (Ok MaxIterations, hyp0)
  | S n' =>
      match relocPS_pass4 par g indh nstp nsts stnp stns tobs_p tobs_s s_p s_s
                          Hm hyp0 with
      | Raise e => (Raise e, hyp0)
      | Ok (_, Return e) => (Ok e, hyp0)
      | Ok (Hm, Moved dh hyp0) =>
          if converged (conv_hypo par) dh then (Ok Converged, hyp0)
          else relocPS_loop4 n' par g indh nstp nsts stnp stns tobs_p tobs_s
                             s_p s_s Hm hyp0
      end
  end.

(** [_relocPS(ne, par, grid, evID, hyp0, data, rcv, tobs, s, ind)] with
    [s = (s_p, s_s)] and [ind = (indp, inds)]. *)
Definition _relocPS (ne : Z) (par : InvParams F) (g : Grid3D.t F)
    (evID : list F) (hyp0 : list (hyp F)) (data : list (obs F))
    (rcv : list (point F)) (tobs : list F) (s : list F * list F)
    (ind : list bool * list bool)
  : result reloc_exit * list (hyp F) :=
  match (eid <- py_get evID ne ;;
         let indh := nonzero (fun h => h_id h =? eid) hyp0 in
         indrp <- nonzero_and eid (fst ind) data ;;
         indrs <- nonzero_and eid (snd ind) data ;;
         _ <- sources (length indrp) indh hyp0 ;;
         stnp <- stations rcv data indrp ;;
         _ <- sources (length indrs) indh hyp0 ;;
         stns <- stations rcv data indrs ;;
         tobs_p <- mapM (item tobs) indrp ;;
         tobs_s <- mapM (item tobs) indrs ;;
         Ok (indh, (length indrp, length indrs), (stnp, stns),
             (tobs_p, tobs_s))) with
  | Raise e => (Raise e, hyp0)
  | Ok (indh, (nstp, nsts), (stnp, stns), (tobs_p, tobs_s)) =>
      match (if hypo_2step par
             then relocPS_loop2 (maxit_hypo par) (conv_hypo par) g indh
                                nstp nsts stnp stns tobs_p tobs_s (fst s) (snd s)
                                (repeat [fone; fone] (nstp + nsts)) hyp0
             else (Ok None, hyp0)) with
      | (Raise e, hyp0) => (Raise e, hyp0)
      | (Ok (Some e), hyp0) => (Ok e, hyp0)
      | (Ok None, hyp0) =>
          relocPS_loop4 (maxit_hypo par) par g indh nstp nsts stnp stns
                        tobs_p tobs_s (fst s) (snd s)
                        (repeat [fone; fone; fone; fone] (nstp + nsts)) hyp0
      end
  end.

(** The relocation pass of an outer iteration:
    [for ne in range(nev): _reloc(ne, ...)]. *)
Fixpoint relocate_all (nes : list Z) (par : InvParams F) (g : Grid3D.t F)
    (evID : list F) (hyp0 : list (hyp F)) (data : list (obs F))
    (rcv : list (point F)) (tobs s : list F)
  : result unit * list (hyp F) :=
  match nes with
  | [] => (Ok tt, hyp0)
  | ne :: nes' =>
      match _reloc ne par g evID hyp0 data rcv tobs s with
      | (Raise e, hyp0) => (Raise e, hyp0)
      | (Ok _, hyp0) => relocate_all nes' par g evID hyp0 data rcv tobs s
      end
  end.

Fixpoint relocate_all_PS (nes : list Z) (par : InvParams F) (g : Grid3D.t F)
    (evID : list F) (hyp0 : list (hyp F)) (data : list (obs F))
    (rcv : list (point F)) (tobs : list F) (s : list F * list F)
    (ind : list bool * list bool)
  : result unit * list (hyp F) :=
  match nes with
  | [] => (Ok tt, hyp0)
  | ne :: nes' =>
      match _relocPS ne par g evID hyp0 data rcv tobs s ind with
      | (Raise e, hyp0) => (Raise e, hyp0)
      | (Ok _, hyp0) =>
          relocate_all_PS nes' par g evID hyp0 data rcv tobs s ind
      end
  end.
End Reloc.
Arguments Return {F A} e.
Arguments Moved {F A} deltah hyp0.

(** *** Positions and the bounds of the grid *)

Section Bounds.
Context {F : Type} `{Scalar F}.

(** No coordinate of the point is NaN. *)
Definition no_nan (p : point F) : Prop :=
  fisnan (px p) = false /\ fisnan (py p) = false /\ fisnan (pz p) = false.

(** A position lies inside the grid bounds: between the first and the last
    node of every axis, bounds included. *)
Definition inside_grid (g : Grid3D.t F) (p : point F) : Prop :=
  exists xlo xhi ylo yhi zlo zhi,
    head (Grid3D.x g) = Some xlo /\ last (Grid3D.x g) = Some xhi /\
    head (Grid3D.y g) = Some ylo /\ last (Grid3D.y g) = Some yhi /\
    head (Grid3D.z g) = Some zlo /\ last (Grid3D.z g) = Some zhi /\
    (fleb xlo (px p) = true /\ fleb (px p) xhi = true) /\
    (fleb ylo (py p) = true /\ fleb (py p) yhi = true) /\
    (fleb zlo (pz p) = true /\ fleb (pz p) zhi = true).

(** The coordinates [col] of a batch along the axis [ax] hold a NaN, or
    lie all between the first and the last node of the axis. *)
Definition axis_passes (ax col : list F) : Prop :=
  exists lo hi, head ax = Some lo /\ last ax = Some hi /\
    ((exists c, In c col /\ fisnan c = true) \/
     (forall c, In c col -> fleb lo c = true /\ fleb c hi = true)).

Definition tests_pass (g : Grid3D.t F) (pts : list (point F)) : Prop :=
  axis_passes (Grid3D.x g) (map px pts) /\
  axis_passes (Grid3D.y g) (map py pts) /\
  axis_passes (Grid3D.z g) (map pz pts).

(** Every axis has nodes, and its first and last node are not NaN. *)
Definition numeric_bounds (g : Grid3D.t F) : Prop :=
  forall ax, In ax [Grid3D.x g; Grid3D.y g; Grid3D.z g] ->
    exists lo hi, head ax = Some lo /\ last ax = Some hi /\
                  fisnan lo = false /\ fisnan hi = false.
End Bounds.

(** A row after a relocation: the row before, or a row of the same event at
    a position that passed the test against the grid. *)
Definition kept_or_tested {F} `{Scalar F} (g : Grid3D.t F) (h h' : hyp F)
  : Prop :=
  h' = h \/ (h_id h' = h_id h /\ Grid3D.isOutside g [h_xyz h'] = Ok false).

(** Stand-ins for the external routines, to run the relocators: straight
    rays in a medium of slowness [s[0]], and least squares by the normal
    equations. *)
Definition straight_engine {F} `{Scalar F} : engine_t F :=
  fun s src rcv t0 =>
    s0 <- py_get s 0 ;;
    Ok (map (fun sr => fmul s0 (fsqrt (np_sum (map (fun a => fmul a a)
              [fsub (px (snd sr)) (px (fst sr));
               fsub (py (snd sr)) (py (fst sr));
               fsub (pz (snd sr)) (pz (fst sr))]))))
            (zip src rcv),
        map (fun sr => [fst sr; snd sr]) (zip src rcv),
        map (fun _ => fdiv fone s0) src).

Definition lstsq_normal {F} `{Scalar F} : lstsq_t F :=
  fun Hm r => let n := length (nth 0 Hm []) in gesv (HtH n Hm) (Htr n Hm r).

Definition svd_fails {F} : svd_t F := fun _ => Raise LinAlgError.

(** One event at the centre of [grid_012], five receivers at distance 1. *)
Definition hyp0_centre : list (hyp Q) := [mk_hyp 7 0 1 1 1]%Q.
Definition rcv_cross : list (point Q) :=
  [(2, 1, 1); (1, 2, 1); (1, 1, 2); (0, 1, 1); (1, 0, 1)]%Q.
Definition data_cross : list (obs Q) :=
  [mk_obs 7 (11 # 10) 0 0; mk_obs 7 1 1 0; mk_obs 7 1 2 0;
   mk_obs 7 (9 # 10) 3 0; mk_obs 7 1 4 0]%Q.

(** The driver's parameters, the centre of [grid_012] and six receivers at
    distance 1 around it, in binary64.  The arrival times of [data_star]
    put the event at (0.9, 1, 1); in [data_star_nan] a time is missing. *)
Definition par_main_binary64 : InvParams float :=
  mkInvParams 3 10 1%float 3500%float 4500%float 1%float (Some 1500%float)
              (Some 2500%float) (Some 1%float) 50%float 5%float
              (1 / 100)%float (Some 25%float) 2%float 1%float 1%float
              (1 / 10)%float true true false true true true.

Definition hyp0_centre_binary64 : list (hyp float) := [mk_hyp 7 0 1 1 1]%float.
Definition rcv_star : list (point float) :=
  [(2, 1, 1); (0, 1, 1); (1, 2, 1); (1, 0, 1); (1, 1, 2); (1, 1, 0)]%float.
Definition data_star : list (obs float) :=
  [mk_obs 7 (11 / 10) 0 0; mk_obs 7 (9 / 10) 1 0; mk_obs 7 1 2 0;
   mk_obs 7 1 3 0; mk_obs 7 1 4 0; mk_obs 7 1 5 0]%float.
Definition data_star_nan : list (obs float) :=
  [mk_obs 7 nan 0 0; mk_obs 7 (9 / 10) 1 0; mk_obs 7 1 2 0;
   mk_obs 7 1 3 0; mk_obs 7 1 4 0; mk_obs 7 1 5 0]%float.

(** A stand-in for [np.linalg.svd] on the matrices it is run on here,
    diagonal with a positive decreasing diagonal: [U] and [VVh] are the
    identity and [S] is the diagonal.  As LAPACK does, it gives up on a
    matrix that is not finite. *)
Definition svd_diagonal {F} `{Scalar F} : svd_t F := fun A =>
  if forallb (forallb fisfinite) A
  then let eye := imap (fun i row => imap (fun j _ => if (i =? j)%nat
                                                      then fone else fzero)
                                          row) A in
       Ok (eye, imap (fun i row => nth i row fzero) A, eye)
  else Raise LinAlgError.

(** One node of the ratio mode in binary64: [V_p = 4000], ratio 0.5. *)
Definition model_ratio_binary64 : model_PS float :=
  mk_model_PS [4000; 1 / 2]%float [4000]%float [2000]%float
              [1 / 4000]%float [1 / 2000]%float [0]%float [0]%float.

(** A direct solver that never raises: it reports a singular matrix with a
    solution of NaN. *)
Definition gesv_quiet {F} `{Scalar F} : solve_t F := fun A b =>
  match gesv A b with
  | Raise LinAlgError => Ok (map (fun _ => fdiv fzero fzero) b)
  | r => r
  end.

(** An event whose initial hypocenter is the position of its first
    receiver. *)
Definition rcv_corner : list (point float) :=
  [(0, 0, 0); (1, 0, 0); (0, 1, 0); (0, 0, 1)]%float.
Definition data_corner : list (obs float) :=
  [mk_obs 0 (1 / 10) 0 0; mk_obs 0 1 1 0; mk_obs 0 1 2 0; mk_obs 0 1 3 0]%float.

(** The event of [data_cross] with two S arrivals more, at the receivers 0
    and 2, and the masks of the two phases. *)
Definition data_cross_PS : list (obs Q) :=
  data_cross ++ [mk_obs 7 3 0 1; mk_obs 7 3 2 1]%Q.
Definition masks_cross_PS : list bool * list bool :=
  (repeat true 5 ++ [false; false], repeat false 5 ++ [true; true]).

(** The grid of the module's driver, [np.arange(90, 211, 10)],
    [np.arange(80, 211, 10)] and [np.arange(0, 101, 10)]. *)
Definition grid_main_binary64 : Grid3D.t float :=
  Grid3D.mk [90; 100; 110; 120; 130; 140; 150; 160; 170; 180; 190; 200; 210]%float
            [80; 90; 100; 110; 120; 130; 140; 150; 160; 170; 180; 190; 200;
             210]%float
            [0; 10; 20; 30; 40; 50; 60; 70; 80; 90; 100]%float 1 10%float.

(** The Jacobian of the all-parameter step as the specification describes
    it: one row per observation, the P rows first, row [s] equal to
    [1, -d/(V0*ds)] with the direction [d = rays[s][1] - hypocenter] and the
    velocity [V0] of that observation. *)
Section JacobianSpec.
Context {F : Type} `{Scalar F}.
Local Open Scope scalar_scope.

Definition jacobian_row_spec (hypo : point F) (ray : list (point F)) (V0 : F)
  : result (list F) :=
  r1 <- py_get ray 1 ;;
  let dx := px r1 - px hypo in
  let dy := py r1 - py hypo in
  let dz := pz r1 - pz hypo in
  let ds := fsqrt (dx * dx + dy * dy + dz * dz) in
  Ok [fone; - dx / (V0 * ds); - dy / (V0 * ds); - dz / (V0 * ds)].

Definition jacobian4_spec (hypo : point F)
    (raysp : list (list (point F))) (v0p : list F)
    (rayss : list (list (point F))) (v0s : list F) : result (list (list F)) :=
  mapM (fun rv => jacobian_row_spec hypo (fst rv) (snd rv))
       (zip raysp v0p ++ zip rayss v0s).
End JacobianSpec.

(** An event at (10, 10, 10) with one P arrival, whose ray leaves towards
    (13, 14, 10) at velocity 4, and one S arrival, whose ray leaves towards
    (10, 10, 15) at velocity 2. *)
Definition hyp_PS : hyp float := (mk_hyp 0 0 10 10 10)%float.
Definition rays_P : list (list (point float)) := [[(10, 10, 10); (13, 14, 10)]]%float.
Definition rays_S : list (list (point float)) := [[(10, 10, 10); (10, 10, 15)]]%float.

(** ** The entry of jointHypoVel and jointHypoVelPS *)

(** A row of [caldata]: shot ID, arrival time, receiver index, source
    position and, in the two-phase solver, the phase code. *)
Record cal (F : Type) : Type := mk_cal {
  c_id : F;
  c_t : F;
  c_rcv : F;
  c_x : F;
  c_y : F;
  c_z : F;
  c_ph : F
}.
Arguments mk_cal {F} _ _ _ _ _ _ _.
Arguments c_id {F} _.
Arguments c_t {F} _.
Arguments c_rcv {F} _.
Arguments c_x {F} _.
Arguments c_y {F} _.
Arguments c_z {F} _.
Arguments c_ph {F} _.

(** A row of [Vpts]: velocity, position and, in the two-phase solver, the
    phase code. *)
Record tie (F : Type) : Type := mk_tie {
  v_val : F;
  v_x : F;
  v_y : F;
  v_z : F;
  v_ph : F
}.
Arguments mk_tie {F} _ _ _ _ _.
Arguments v_val {F} _.
Arguments v_x {F} _.
Arguments v_y {F} _.
Arguments v_z {F} _.
Arguments v_ph {F} _.

Definition v_xyz {F} (t : tie F) : point F := (v_x t, v_y t, v_z t).

(** What the calibration block leaves in the variables.  [rcv_cal] is
    [None] when the name is bound nowhere; [hcal] and [Msc_cal], which the
    [else] branch does not assign, are empty lists after it. *)
Record cal_locals (F : Type) : Type := mk_cal_locals {
  ncal : nat;
  hcal : list (hyp F);
  tcal : list F;
  rcv_cal : option (list (point F));
  Msc_cal : list (list (list F))
}.
Arguments mk_cal_locals {F} _ _ _ _ _.
Arguments ncal {F} _.
Arguments hcal {F} _.
Arguments tcal {F} _.
Arguments rcv_cal {F} _.
Arguments Msc_cal {F} _.

Section Entry.
Context {F : Type} `{Scalar F}.
Local Open Scope scalar_scope.

(** The loop over the calibration shots.  [binding] is what the name
    [rcv_cal] is bound to when the loop starts: [None] when neither the
    function nor the module has assigned it.  [width] is the number of
    columns of the matrices appended to [Msc_cal]. *)
Definition calibration_loop (binding : option (list (point F)))
    (use_sc : bool) (width : nat) (rcv : list (point F))
    (caldata : list (cal F)) (calID : list F)
  : result (option (list (point F)) * list (list (list F))) :=
  for_each calID
    (fun cid st =>
       let indr := nonzero (fun c => c_id c =? cid) caldata in
       st <- for_each indr
               (fun i st =>
                  c <- item caldata i ;;
                  k <- to_int (c_rcv c) ;;
                  p <- py_get rcv k ;;
                  match fst st with
                  | None => Raise (NameError "rcv_cal")
                  | Some arr =>
                      if (i <? length arr)%nat
                      then Ok (Some (<[i := p]> arr), snd st)
                      else Raise IndexError
                  end)
               st ;;
       if use_sc then
         tmp <- for_each (seq 0 (length indr))
                  (fun n tmp =>
                     i <- item indr n ;;
                     c <- item caldata i ;;
                     k <- to_int (c_rcv c) ;;
                     row <- item tmp n ;;
                     _ <- py_get row k ;;
                     let k := Z.to_nat (if (k <? 0)%Z then Z.of_nat width + k
                                        else k) in
                     Ok (<[n := <[k := fone]> row]> tmp))
                  (repeat (repeat fzero width) (length indr)) ;;
         Ok (fst st, snd st ++ [tmp])
       else Ok st)
    (binding, []).

(** [jointHypoVel]: the block [if caldata.shape[0] > 0: ... else: ...]; the
    array [rcv_cal] is created by [np.empty] before the loop (zeros stand
    for its arbitrary content, which the loop overwrites). *)
Definition calibration (par : InvParams F) (rcv : list (point F))
    (caldata : list (cal F)) : result (cal_locals F) :=
  let nsta := if use_sc par then length rcv else O in
  match caldata with
  | [] => Ok (mk_cal_locals 0 [] [] None [])
  | _ =>
      let calID := np_unique (map c_id caldata) in
      let hcal := map (fun c => mk_hyp (c_id c) fzero (c_x c) (c_y c) (c_z c))
                      caldata in
      let rcv_cal := repeat (fzero, fzero, fzero) (length caldata) in
      st <- calibration_loop (Some rcv_cal) (use_sc par) nsta rcv caldata calID ;;
      Ok (mk_cal_locals (length calID) hcal (map c_t caldata) (fst st) (snd st))
  end.

(** [jointHypoVelPS]: the same block without the creation of [rcv_cal], so
    that the name is looked up among the globals of the module: [global] is
    its binding there, [None] when the module has been imported (its driver
    assigns the name, but only runs under [__name__ == '__main__']). *)
Definition calibration_PS (global : option (list (point F)))
    (par : InvParams F) (rcv : list (point F)) (caldata : list (cal F))
  : result (cal_locals F) :=
  let nsta := if use_sc par then length rcv else O in
  match caldata with
  | [] => Ok (mk_cal_locals 0 [] [] global [])
  | _ =>
      let calID := np_unique (map c_id caldata) in
      let hcal := map (fun c => mk_hyp (c_id c) fzero (c_x c) (c_y c) (c_z c))
                      caldata in
      st <- calibration_loop global (use_sc par) (2 * nsta) rcv caldata calID ;;
      Ok (mk_cal_locals (length calID) hcal (map c_t caldata) (fst st) (snd st))
  end.

(** [ValueError('Missing Vp data point for Vs data at (...)')]: the message
    goes on with the coordinates of the S point, which are left out. *)
Definition missing_Vp : exn := ValueError "Missing Vp data point for Vs data".

(** [d = np.sqrt(np.sum((Vpts2[i,1:4]-Vpts[ii,1:4])**2))] *)
Definition distance (a b : point F) : F :=
  fsqrt (np_sum (map (fun d => d * d)
                     [px a - px b; py a - py b; pz a - pz b])).

(** The loop [for ii in i_p: ... break] with its [else]: the first P tie
    point closer than [1e-5] to [t]. *)
Fixpoint collocated (Vpts : list (tie F)) (t : tie F) (i_p : list nat)
  : result (tie F) :=
  match i_p with
  | [] => Raise missing_Vp
  | ii :: i_p' =>
      tp <- item Vpts ii ;;
      if distance (v_xyz t) (v_xyz tp) <? eps5 then Ok tp
      else collocated Vpts t i_p'
  end.

(** [jointHypoVelPS] with [invert_VsVp]: [Vpts2 = Vpts.copy()], then every
    S value of [Vpts2] is divided by the value of its P tie point. *)
Definition tiepoint_ratios (Vpts : list (tie F)) : result (list (tie F)) :=
  let i_p := nonzero (fun t => v_ph t =? fzero) Vpts in
  let i_s := nonzero (fun t => v_ph t =? fone) Vpts in
  for_each i_s
    (fun i Vpts2 =>
       t2 <- item Vpts2 i ;;
       tp <- collocated Vpts t2 i_p ;;
       t <- item Vpts i ;;
       Ok (<[i := mk_tie (v_val t / v_val tp) (v_x t2) (v_y t2) (v_z t2)
                         (v_ph t2)]> Vpts2))
    Vpts.

(** [sp.csr_matrix((rows, cols))]: a matrix with nothing stored. *)
Definition zeros (rows cols : Z) : csr F := mk_csr rows cols [].

(** [sp.hstack((A, B))]: the blocks must have one number of rows (the text
    of the message depends on the version of SciPy). *)
Definition hstack (A B : csr F) : result (csr F) :=
  if negb (csr_rows A =? csr_rows B)%Z
  then Raise (ValueError "blocks[0,:] has incompatible row dimensions")
  else Ok (mk_csr (csr_rows A) (csr_cols A + csr_cols B)
             (csr_entries A ++
              map (fun e => (fst (fst e), snd (fst e) + csr_cols A, snd e)%Z)
                  (csr_entries B))).

(** [sp.block_diag((A, B))] *)
Definition block_diag (A B : csr F) : csr F :=
  mk_csr (csr_rows A + csr_rows B) (csr_cols A + csr_cols B)
         (csr_entries A ++
          map (fun e => (fst (fst e) + csr_rows A, snd (fst e) + csr_cols A, snd e)%Z)
              (csr_entries B)).

(** The local variables the tie-point block assigns. *)
Record tie_locals : Type := mk_tie_locals {
  Vpts2 : list (tie F);
  D : csr F;
  D1 : csr F
}.

(** [jointHypoVelPS]: the block [if Vpts.size > 0: ... else: D = 0.0];
    [None] stands for the [else] branch, which leaves [Vpts2] and [D1]
    unassigned. *)
Definition tiepoint_setup_PS (par : InvParams F) (g : Grid3D.t F) (nsta : nat)
    (Vpts : list (tie F)) : result (option tie_locals) :=
  match Vpts with
  | [] => Ok None
  | _ =>
      Vpts2 <- (if invert_VsVp par then tiepoint_ratios Vpts else Ok Vpts) ;;
      D <- (if invert_VsVp par
            then D <- Grid3D.computeD g (map v_xyz Vpts) ;;
                 hstack D (zeros (csr_rows D) (csr_cols D))
            else
              Dp <- Grid3D.computeD g
                      (map v_xyz (List.filter (fun t => v_ph t =? fzero) Vpts)) ;;
              Ds <- Grid3D.computeD g
                      (map v_xyz (List.filter (fun t => v_ph t =? fone) Vpts)) ;;
              Ok (block_diag Dp Ds)) ;;
      D1 <- hstack D (zeros (Z.of_nat (length Vpts)) (2 * Z.of_nat nsta)) ;;
      Ok (Some (mk_tie_locals Vpts2 D D1))
  end.
End Entry.
Arguments tie_locals F : clear implicits.

(** Two receivers and one calibration shot recorded at both. *)
Definition rcv_pair : list (point Q) := [(0, 0, 0); (2, 2, 2)]%Q.
Definition caldata_shot : list (cal Q) :=
  [mk_cal 5 (1 # 10) 0 1 1 1 0; mk_cal 5 (2 # 10) 1 1 1 1 0]%Q.

(** ** Collocation of the tie points *)

Section TiePointSpec.
Context {F : Type} `{Scalar F}.
Local Open Scope scalar_scope.

(** The masks [Vpts[:,4]==0.0] and [Vpts[:,4]==1.0], and the test
    [d < 0.00001] between two rows. *)
Definition is_P (t : tie F) : bool := v_ph t =? fzero.
Definition is_S (t : tie F) : bool := v_ph t =? fone.
Definition near (t tp : tie F) : bool :=
  distance (v_xyz t) (v_xyz tp) <? eps5.

(** Row [ii] holds [tp], the first P tie point collocated with [t]. *)
Definition first_collocated (Vpts : list (tie F)) (t : tie F) (ii : nat)
    (tp : tie F) : Prop :=
  Vpts !! ii = Some tp /\ is_P tp = true /\ near t tp = true /\
  forall j tj, (j < ii)%nat -> Vpts !! j = Some tj -> is_P tj = true ->
               near t tj = false.

(** An S tie point without a collocated P tie point. *)
Definition lonely (Vpts : list (tie F)) (t : tie F) : Prop :=
  is_S t = true /\
  forall tp, In tp Vpts -> is_P tp = true -> near t tp = false.

(** The row of [t] with its value divided by the one of [tp]. *)
Definition ratio_row (t tp : tie F) : tie F :=
  mk_tie (v_val t / v_val tp) (v_x t) (v_y t) (v_z t) (v_ph t).
End TiePointSpec.

(** A P and an S tie point at the same place and a second P tie point; an
    S tie point half a unit away from the only P tie point. *)
Definition Vpts_pairs : list (tie Q) :=
  [mk_tie 4000 1 1 1 0; mk_tie 2000 1 1 1 1; mk_tie 4100 (1 # 2) 1 1 0]%Q.
Definition Vpts_apart : list (tie Q) :=
  [mk_tie 4000 1 1 1 0; mk_tie 2000 1 1 (3 # 2) 1]%Q.

(** ** Sparse matrix algebra

    The operations of SciPy that the velocity step applies to its sparse
    matrices. *)

Section SparseAlgebra.
Context {F : Type} `{Scalar F}.
Local Open Scope scalar_scope.

(** [M.T] *)
Definition transpose (M : csr F) : csr F :=
  mk_csr (csr_cols M) (csr_rows M)
         (map (fun e => (snd (fst e), fst (fst e), snd e)) (csr_entries M)).

(** The triplets of a product: one for every pair of stored values that
    meet. *)
Definition mul_entries (la lb : list (Z * Z * F)) : list (Z * Z * F) :=
  flat_map (fun a =>
              flat_map (fun b => if (snd (fst a) =? fst (fst b))%Z
                                 then [(fst (fst a), snd (fst b), snd a * snd b)]
                                 else [])
                       lb)
           la.

(** [A * B] for two sparse matrices. *)
Definition csr_mul (A B : csr F) : result (csr F) :=
  if negb (csr_cols A =? csr_rows B)%Z
  then Raise (ValueError "dimension mismatch")
  else Ok (mk_csr (csr_rows A) (csr_cols B)
                  (mul_entries (csr_entries A) (csr_entries B))).

(** [A + B] *)
Definition csr_add (A B : csr F) : result (csr F) :=
  if negb ((csr_rows A =? csr_rows B)%Z && (csr_cols A =? csr_cols B)%Z)
  then Raise (ValueError "inconsistent shapes")
  else Ok (mk_csr (csr_rows A) (csr_cols A) (csr_entries A ++ csr_entries B)).

(** [c * M] for a number [c]. *)
Definition csr_scale (c : F) (M : csr F) : csr F :=
  mk_csr (csr_rows M) (csr_cols M)
         (map (fun e => (fst e, c * snd e)) (csr_entries M)).

(** [M[i,j]]: the values stored at one place add up. *)
Definition ent (l : list (Z * Z * F)) (i j : Z) : F :=
  np_sum (map snd (List.filter (fun e => (fst (fst e) =? i)%Z &&
                                         (snd (fst e) =? j)%Z) l)).
Definition entry (M : csr F) (i j : Z) : F := ent (csr_entries M) i j.

(** The Frobenius norm, which [spl.norm] computes by default. *)
Definition frobenius (M : csr F) : F :=
  fsqrt (np_sum (flat_map (fun i => map (fun j => entry M i j * entry M i j)
                                        (arange 0 (csr_cols M)))
                          (arange 0 (csr_rows M)))).

(** Every stored row index, or column index, lies inside the shape. *)
Definition rows_in (M : csr F) : bool :=
  forallb (fun e => (0 <=? fst (fst e))%Z && (fst (fst e) <? csr_rows M)%Z)
          (csr_entries M).
Definition cols_in (M : csr F) : bool :=
  forallb (fun e => (0 <=? snd (fst e))%Z && (snd (fst e) <? csr_cols M)%Z)
          (csr_entries M).

(** The value of [M.T * M] when the product is defined. *)
Definition square (M : csr F) : csr F :=
  mk_csr (csr_cols M) (csr_cols M)
         (mul_entries (csr_entries (transpose M)) (csr_entries M)).

(** Entry [(i,j)] of the matrices [M^T M] and [u u^T] of linear algebra. *)
Definition gram (M : csr F) (i j : Z) : F :=
  np_sum (map (fun k => entry M k i * entry M k j) (arange 0 (csr_rows M))).
Definition outer (u : csr F) (i j : Z) : F :=
  np_sum (map (fun k => entry u i k * entry u j k) (arange 0 (csr_cols u))).
End SparseAlgebra.

(** ** The normal equations of the velocity step *)

Section NormalEquations.
Context {F : Type} `{Scalar F}.
Local Open Scope scalar_scope.

(** [spl.norm], kept as an argument. *)
Variable spl_norm : csr F -> F.

(** [jointHypoVel], before the iterations: the smoothing matrices padded
    with the columns of the static corrections, their squares and [nK]. *)
Definition smoothing (g : Grid3D.t F) (nsta : nat)
  : result (csr F * csr F * csr F * F) :=
  let nnodes := Grid3D.getNumberOfNodes g in
  K <- Grid3D.computeK g ;;
  Kx1 <- hstack (fst (fst K)) (zeros nnodes (Z.of_nat nsta)) ;;
  KtKx <- csr_mul (transpose Kx1) Kx1 ;;
  Ky1 <- hstack (snd (fst K)) (zeros nnodes (Z.of_nat nsta)) ;;
  KtKy <- csr_mul (transpose Ky1) Ky1 ;;
  Kz1 <- hstack (snd K) (zeros nnodes (Z.of_nat nsta)) ;;
  KtKz <- csr_mul (transpose Kz1) Kz1 ;;
  Ok (KtKx, KtKy, KtKz, spl_norm KtKx).

(** [jointHypoVelPS]: the same on two copies of each smoothing matrix. *)
Definition smoothing_PS (g : Grid3D.t F) (nsta : nat)
  : result (csr F * csr F * csr F * F) :=
  let nnodes := Grid3D.getNumberOfNodes g in
  K <- Grid3D.computeK g ;;
  let Kx := block_diag (fst (fst K)) (fst (fst K)) in
  let Ky := block_diag (snd (fst K)) (snd (fst K)) in
  let Kz := block_diag (snd K) (snd K) in
  Kx1 <- hstack Kx (zeros (2 * nnodes) (2 * Z.of_nat nsta)) ;;
  KtKx <- csr_mul (transpose Kx1) Kx1 ;;
  Ky1 <- hstack Ky (zeros (2 * nnodes) (2 * Z.of_nat nsta)) ;;
  KtKy <- csr_mul (transpose Ky1) Ky1 ;;
  Kz1 <- hstack Kz (zeros (2 * nnodes) (2 * Z.of_nat nsta)) ;;
  KtKz <- csr_mul (transpose Kz1) Kz1 ;;
  Ok (KtKx, KtKy, KtKz, spl_norm KtKx).

(** The values given in an iteration to [nM], [nP], [lmbda], [gamma] and
    [A], and to [nD] and [alpha] when the tie points are processed. *)
Record normal_eqs : Type := mk_normal_eqs {
  nM : F;
  nP : F;
  lmbda_it : F;
  gamma_it : F;
  nD : option F;
  alpha_it : option F;
  A_it : csr F
}.

(** From [tmp1 = M1.T * M1] to the assignment of [A] (the same statements
    in both solvers). *)
Definition assemble (par : InvParams F) (M1 dP1 u1 KtKx KtKy KtKz : csr F)
    (nK : F) : result normal_eqs :=
  tmp1 <- csr_mul (transpose M1) M1 ;;
  let nM := spl_norm tmp1 in
  tmp3 <- csr_mul (transpose dP1) dP1 ;;
  let nP := spl_norm tmp3 in
  tmp4 <- csr_mul u1 (transpose u1) ;;
  let lmbda := lmbda par * nM / nK in
  let gamma := if negb (nP =? fzero) then gamma par * nM / nP
               else gamma par in
  A <- csr_add tmp1 (csr_scale lmbda KtKx) ;;
  A <- csr_add A (csr_scale lmbda KtKy) ;;
  A <- csr_add A (csr_scale (wzK par * lmbda) KtKz) ;;
  A <- csr_add A (csr_scale gamma tmp3) ;;
  A <- csr_add A tmp4 ;;
  Ok (mk_normal_eqs nM nP lmbda gamma None None A).

(** The body of the test on the tie points: [tmp5 = D1.T * D1] to
    [A += alpha * tmp5]. *)
Definition add_tiepoints (par : InvParams F) (D1 : csr F) (ne : normal_eqs)
  : result normal_eqs :=
  tmp5 <- csr_mul (transpose D1) D1 ;;
  let nD := spl_norm tmp5 in
  let alpha := alpha par * nM ne / nD in
  A <- csr_add (A_it ne) (csr_scale alpha tmp5) ;;
  Ok (mk_normal_eqs (nM ne) (nP ne) (lmbda_it ne) (gamma_it ne)
                    (Some nD) (Some alpha) A).

(** [jointHypoVel]: the matrix of the system handed to LSQR.  The test is
    [Vpts.shape[0] > 0]; [D1] is bound when [Vpts] is not empty.  The
    right-hand side [b], assigned along with [A], is left out. *)
Definition normal_matrix (par : InvParams F)
    (M1 dP1 u1 KtKx KtKy KtKz : csr F) (nK : F) (Vpts : list (tie F))
    (D1 : option (csr F)) : result normal_eqs :=
  ne <- assemble par M1 dP1 u1 KtKx KtKy KtKz nK ;;
  if (0 <? length Vpts)%nat then
    D1 <- match D1 with
          | Some d => Ok d
          | None => Raise (NameError "D1")
          end ;;
    add_tiepoints par D1 ne
  else Ok ne.

(** [jointHypoVelPS]: the test is [Vpts2.shape[0] > 0], and [Vpts2] is one
    of the names that the tie-point block binds: [tp] is [None] when that
    block took its [else] branch. *)
Definition normal_matrix_PS (par : InvParams F)
    (M1 dP1 u1 KtKx KtKy KtKz : csr F) (nK : F)
    (tp : option (tie_locals F)) : result normal_eqs :=
  ne <- assemble par M1 dP1 u1 KtKx KtKy KtKz nK ;;
  match tp with
  | None => Raise (NameError "Vpts2")
  | Some loc =>
      if (0 <? length (Vpts2 loc))%nat
      then add_tiepoints par (D1 loc) ne
      else Ok ne
  end.
End NormalEquations.
Arguments normal_eqs F : clear implicits.

(** The matrix of the normal equations as the specification writes it,
    entry by entry:
    [A = M1^T M1 + lmbda (KtKx + KtKy + wzK KtKz) + gamma dP1^T dP1
         + u1 u1^T], plus [alpha D1^T D1] with tie points. *)
Definition A_formula (par : InvParams Q) (lam gam : Q)
    (M1 dP1 u1 KtKx KtKy KtKz : csr Q) (tie_term : option (Q * csr Q))
    (i j : Z) : Q :=
  (gram M1 i j
   + lam * (entry KtKx i j + entry KtKy i j + wzK par * entry KtKz i j)
   + gam * gram dP1 i j
   + outer u1 i j
   + match tie_term with
     | Some (al, D1) => al * gram D1 i j
     | None => 0
     end)%Q.

(** The shapes that the solvers give to the matrices, for [n] unknowns. *)
Definition conforming (n : Z) (M1 dP1 u1 KtKx KtKy KtKz : csr Q) : bool :=
  (csr_cols M1 =? n)%Z && (csr_cols dP1 =? n)%Z &&
  (csr_rows u1 =? n)%Z &&
  (csr_rows KtKx =? n)%Z && (csr_cols KtKx =? n)%Z &&
  (csr_rows KtKy =? n)%Z && (csr_cols KtKy =? n)%Z &&
  (csr_rows KtKz =? n)%Z && (csr_cols KtKz =? n)%Z &&
  rows_in M1 && rows_in dP1 && cols_in u1.

(** The matrix [D1] that goes with a table of tie points: none is needed
    for an empty table. *)
Definition tie_conforming (n : Z) (Vpts : list (tie Q))
    (D1 : option (csr Q)) : bool :=
  match Vpts, D1 with
  | [], _ => true
  | _ :: _, Some d => (csr_cols d =? n)%Z && rows_in d
  | _ :: _, None => false
  end.
Definition tie_used (Vpts : list (tie Q)) (D1 : option (csr Q))
  : option (csr Q) :=
  match Vpts with
  | [] => None
  | _ :: _ => D1
  end.

(** What the specification says of the weights and of [A] in an iteration:
    [nM], [nP] and [nD] are the norms of [M1^T M1], [dP1^T dP1] and
    [D1^T D1]. *)
Definition assembled (spl_norm : csr Q -> Q) (par : InvParams Q)
    (M1 dP1 u1 KtKx KtKy KtKz : csr Q) (nK : Q) (D1 : option (csr Q))
    (ne : normal_eqs Q) : Prop :=
  let al := fun d => (alpha par * nM ne / spl_norm (square d))%Q in
  (nM ne = spl_norm (square M1)) /\
  (nP ne = spl_norm (square dP1)) /\
  (lmbda_it ne = (lmbda par * nM ne / nK)%Q) /\
  (gamma_it ne = if Qeq_bool (nP ne) 0 then gamma par
                 else (gamma par * nM ne / nP ne)%Q) /\
  (nD ne = option_map (fun d => spl_norm (square d)) D1) /\
  (alpha_it ne = option_map al D1) /\
  (csr_rows (A_it ne) = csr_cols M1) /\
  (csr_cols (A_it ne) = csr_cols M1) /\
  forall i j,
    (entry (A_it ne) i j
     == A_formula par (lmbda_it ne) (gamma_it ne) M1 dP1 u1 KtKx KtKy KtKz
                  (option_map (fun d => (al d, d)) D1) i j)%Q.

(** A system with two unknowns: one ray, a penalty on the first unknown and
    one tie point. *)
Definition M1_small : csr Q := mk_csr 1 2 [(0, 0, 1%Q); (0, 1, 2%Q)].
Definition dP1_small : csr Q := mk_csr 2 2 [(0, 0, 3%Q)].
Definition u1_small : csr Q := mk_csr 2 1 [(1, 0, 1%Q)].
Definition KtK_small : csr Q :=
  mk_csr 2 2 [(0, 0, 1%Q); (0, 1, (-1)%Q); (1, 0, (-1)%Q); (1, 1, 1%Q)].
Definition D1_small : csr Q :=
  mk_csr 1 2 [(0, 0, (1 # 2)%Q); (0, 1, (1 # 2)%Q)].
Definition Vpts_small : list (tie Q) := [mk_tie 4000 1 1 1 0]%Q.
Definition tie_small : tie_locals Q :=
  mk_tie_locals Vpts_small (mk_csr 1 2 [(0, 0, (1 # 2)%Q); (0, 1, (1 # 2)%Q)])
                D1_small.

(** ** The matrices that the methods of the grid build *)

Section BuiltMatrices.
Context {F : Type} `{Scalar F}.
Local Open Scope scalar_scope.

(** Triplets for rows of three entries each, [a], [b] and [c], at the
    columns that [jK] lists row after row. *)
Definition triples (rows jK : list Z) (a b c : F) : list (Z * Z * F) :=
  combine (combine (flat_map (fun n => [n; n; n]) rows) jK)
          (flat_map (fun _ => [a; b; c]) rows).

(** A matrix of [computeK]: row [r] holds the stencil values at the three
    columns [jK] lists for it. *)
Definition stencil_csr (g : Grid3D.t F) (jK : list Z) : csr F :=
  let hh := Grid3D.dx g * Grid3D.dx g in
  mk_csr (Grid3D.getNumberOfNodes g) (Grid3D.getNumberOfNodes g)
         (triples (arange 0 (Grid3D.getNumberOfNodes g)) jK
                  (fone / hh) (- ftwo / hh) (fone / hh)).

(** Three columns for every node, all of them inside the matrix. *)
Definition stencil_columns (g : Grid3D.t F) (jK : list Z) : Prop :=
  length jK = (3 * Z.to_nat (Grid3D.getNumberOfNodes g))%nat /\
  forall j, In j jK -> (0 <= j < Grid3D.getNumberOfNodes g)%Z.

(** Triplets for rows of [k] entries each: the rows [idx] with the columns
    and the values of [rows]. *)
Definition blocks (k : nat) (idx : list Z) (rows : list (list (Z * F)))
  : list (Z * Z * F) :=
  combine (combine (flat_map (fun i => repeat i k) idx)
                   (map fst (concat rows)))
          (map snd (concat rows)).
End BuiltMatrices.

(** A table of two events, of which [data_cross] observes the first. *)
Definition hinit_two : list (hyp Q) := [mk_hyp 7 0 1 1 1; mk_hyp 9 5 0 0 0]%Q.


(** ** What a relocation changes *)

(** The tables [t] and [t'] have the same rows, except perhaps for the row
    that [indh] lists first. *)
Definition same_but {F} (indh : list nat) (t t' : list (hyp F)) : Prop :=
  length t' = length t /\
  forall j, head indh <> Some j -> t' !! j = t !! j.

(** Row [h'] is row [h] moved by at most [k * dt] in origin time and
    [k * dx] in depth, and, when [xy] is set, by at most [k * dx] in each
    horizontal coordinate. *)
Definition drift (dt dx : Q) (xy : bool) (k : nat) (h h' : hyp Q) : Prop :=
  let K := inject_Z (Z.of_nat k) in
  (Qabs (h_t0 h' - h_t0 h) <= K * dt /\
   Qabs (h_z h' - h_z h) <= K * dx /\
   (xy = true -> Qabs (h_x h' - h_x h) <= K * dx /\
                 Qabs (h_y h' - h_y h) <= K * dx))%Q.

(** ** More of the two joint inverters *)

Section Iteration.
Context {F : Type} `{Scalar F}.
Local Open Scope scalar_scope.

(** [jointHypoVel], before the iterations:
    [for ne in np.arange(nev): indr = ...; for i in indr:
       rcv_data[i,:] = rcv[int(1.e-6+data[i,2])]].
    The argument [rcv_data] is the array that [np.empty] returned. *)
Definition fill_rcv_data (evID : list F) (rcv : list (point F))
    (data : list (obs F)) (rcv_data : list (point F))
  : result (list (point F)) :=
  for_each evID
    (fun eid rcv_data =>
       let indr := nonzero (fun o => o_id o =? eid) data in
       for_each indr
         (fun i rcv_data =>
            o <- item data i ;;
            k <- to_int (o_rcv o) ;;
            p <- py_get rcv k ;;
            if (i <? length rcv_data)%nat then Ok (<[i := p]> rcv_data)
            else Raise IndexError)
         rcv_data)
    rcv_data.

(** [jointHypoVel], in every iteration and once more at the end:
    [for ne in np.arange(nev): indh = ...; indr = ...; for i in indr:
       hyp[i,:] = hyp0[indh[0],:]], on the array [hyp] of [np.empty], here
    [hyp_arr]. *)
Definition fill_hyp (evID : list F) (hyp0 : list (hyp F))
    (data : list (obs F)) (hyp_arr : list (hyp F)) : result (list (hyp F)) :=
  for_each evID
    (fun eid hyp_arr =>
       let indh := nonzero (fun h => h_id h =? eid) hyp0 in
       let indr := nonzero (fun o => o_id o =? eid) data in
       for_each indr
         (fun i hyp_arr =>
            ih <- first_row indh hyp0 ;;
            if (i <? length hyp_arr)%nat then Ok (<[i := snd ih]> hyp_arr)
            else Raise IndexError)
         hyp_arr)
    hyp_arr.

(** The penalty of a velocity [v] and its derivative: the three branches
    of the test in the loop over the nodes. *)
Definition penalty (PA vmin vmax v : F) : F * F :=
  if v <? vmin then (PA * (vmin - v), - PA)
  else if vmax <? v then (PA * (v - vmax), PA)
  else (fzero, fzero).

(** [jointHypoVel]: [for n in np.arange(nnodes): ...] on the column [P] and
    on the diagonal of [dP]. *)
Definition penalties (par : InvParams F) (nnodes : nat) (V P dP : list F)
  : result (list F * list F) :=
  for_each (seq 0 nnodes)
    (fun n st =>
       v <- item V n ;;
       let pd := penalty (PAp par) (Vpmin par) (Vpmax par) v in
       if (n <? length (fst st))%nat && (n <? length (snd st))%nat
       then Ok (<[n := fst pd]> (fst st), <[n := snd pd]> (snd st))
       else Raise IndexError)
    (P, dP).

(** [jointHypoVelPS]: the same loop, then the loop over
    [np.arange(nnodes, 2*nnodes)] with the limits of the S velocities. *)
Definition penalties_PS (par : InvParams F) (nnodes : nat)
    (V Vs P dP : list F) : result (list F * list F) :=
  st <- penalties par nnodes V P dP ;;
  for_each (seq nnodes nnodes)
    (fun n st =>
       v <- item Vs (n - nnodes) ;;
       vsmin <- attr "Vsmin" (Vsmin par) ;;
       pd <- (if v <? vsmin
              then pas <- attr "PAs" (PAs par) ;;
                   Ok (pas * (vsmin - v), - pas)
              else vsmax <- attr "Vsmax" (Vsmax par) ;;
                   if vsmax <? v
                   then pas <- attr "PAs" (PAs par) ;;
                        Ok (pas * (v - vsmax), pas)
                   else Ok (fzero, fzero)) ;;
       if (n <? length (fst st))%nat && (n <? length (snd st))%nat
       then Ok (<[n := fst pd]> (fst st), <[n := snd pd]> (snd st))
       else Raise IndexError)
    st.

(** [jointHypoVelPS], "sort data by seismic phase": the masks [indp] and
    [inds] are those of the table as it is given; [data] is then replaced
    by its P rows followed by its S rows. *)
Definition sort_phases (data : list (obs F))
  : list bool * list bool * list (obs F) :=
  let indp := map (fun o => o_ph o =? fzero) data in
  let inds := map (fun o => o_ph o =? fone) data in
  let datap := List.filter (fun o => o_ph o =? fzero) data in
  let datas := List.filter (fun o => o_ph o =? fone) data in
  (indp, inds, datap ++ datas).
End Iteration.

(** The masks say of every row of the table what its phase is. *)
Definition masks_match (indp inds : list bool) (data : list (obs Q)) : Prop :=
  length indp = length data /\ length inds = length data /\
  forall i o, data !! i = Some o ->
    indp !! i = Some (Qeq_bool (o_ph o) 0) /\
    inds !! i = Some (Qeq_bool (o_ph o) 1).

(** The first row of [hyp0] with the ID of observation [o]. *)
Definition hypocenter_of (hyp0 : list (hyp Q)) (o : obs Q) : option (hyp Q) :=
  find (fun h => Qeq_bool (h_id h) (o_id o)) hyp0.


(** The parameters of the driver with [invert_VsVp=False]: the S velocity
    is a parameter of its own. *)
Definition par_Vs : InvParams Q :=
  mkInvParams 3 10 1%Q 3500%Q 4500%Q 1%Q (Some 1500%Q) (Some 2500%Q) (Some 1%Q)
              50%Q 5%Q (1 # 100)%Q (Some 25%Q) 2%Q 1%Q 1%Q (1 # 10)%Q
              true false false true true true.

(** The tables [t] and [t'] hold the same event IDs, row by row. *)
Definition same_ids {F} (t t' : list (hyp F)) : Prop :=
  map h_id t' = map h_id t.

(** [M] is the matrix that the calibration block appends to [Msc_cal] for
    the shot [cid]: one row per record of the shot, in the order of
    [caldata], with a single 1 in the column of the receiver of the record
    among [width] columns. *)
Definition selection_matrix (width : nat) (caldata : list (cal Q)) (cid : Q)
    (M : list (list Q)) : Prop :=
  let indr := nonzero (fun c => Qeq_bool (c_id c) cid) caldata in
  length M = length indr /\
  forall n i c k, indr !! n = Some i -> caldata !! i = Some c ->
    to_int (c_rcv c) = Ok k ->
    M !! n = Some (<[Z.to_nat k := 1%Q]> (repeat 0%Q width)).

(** [KtK] is [K^T K] bordered with zeros: the matrix [K] of [n] columns
    padded with [p] columns of zeros, squared. *)
Definition bordered_gram (n : Z) (p : Z) (K KtK : csr Q) : Prop :=
  csr_rows KtK = (n + p)%Z /\ csr_cols KtK = (n + p)%Z /\
  forall i j, (entry KtK i j == gram K i j)%Q /\
              ((n <= i)%Z \/ (n <= j)%Z -> (entry KtK i j == 0)%Q).

(** The first of the three nodes of the second-derivative operator at node
    [i] of an axis of [n] nodes: [i-1] inside (central operator), [0] at
    the first node (forward operator), [n-3] at the last (backward
    operator). *)
Definition first_of_three (n i : Z) : Z := Z.max 0 (Z.min (i - 1) (n - 3)).

(** [(V[n0] - 2 V[n1] + V[n2]) / dx^2] *)
Definition second_difference (g : Grid3D.t Q) (V : list Q) (n0 n1 n2 : Z) : Q :=
  ((nth (Z.to_nat n0) V 0 - 2 * nth (Z.to_nat n1) V 0 + nth (Z.to_nat n2) V 0)
   / (Grid3D.dx g * Grid3D.dx g))%Q.

(** ** The tables of receivers of the two-phase solver *)

Section PhaseTables.
Context {F : Type} `{Scalar F}.
Local Open Scope scalar_scope.

(** [np.logical_and(a, b)] on one-dimensional arrays: NumPy broadcasts an
    array of one element over the other. *)
Definition logical_and (a b : list bool) : result (list bool) :=
  if (length a =? length b)%nat then Ok (zip_with andb a b)
  else match a, b with
       | [a0], _ => Ok (map (andb a0) b)
       | _, [b0] => Ok (map (fun x => x && b0) a)
       | _, _ => Raise (ValueError "operands could not be broadcast together")
       end.

(** [np.nonzero(m)[0]] for a one-dimensional boolean array. *)
Definition flatnonzero (m : list bool) : list nat :=
  List.filter (fun i => match m !! i with
                        | Some b => b
                        | None => false
                        end)
              (seq 0 (length m)).

(** [np.sum(m)] for a boolean array. *)
Definition count_true (m : list bool) : nat := length (List.filter id m).

(** [a[i] = v] for an integer [i]; a negative index counts from the end. *)
Definition py_set {A} (l : list A) (i : Z) (v : A) : result (list A) :=
  let n := Z.of_nat (length l) in
  let j := if (i <? 0)%Z then (n + i)%Z else i in
  if ((0 <=? j) && (j <? n))%Z then Ok (<[Z.to_nat j := v]> l)
  else Raise IndexError.

(** [jointHypoVelPS], after the sort:
    [for ne in np.arange(nev):
       indr = np.nonzero(np.logical_and(data[:,0] == evID[ne], indp))[0]
       for i in indr: rcv_datap[i,:] = rcv[int(1.e-6+data[i,2])]
       indr = np.nonzero(np.logical_and(data[:,0] == evID[ne], inds))[0]
       for i in indr: rcv_datas[i-nttp,:] = rcv[int(1.e-6+data[i,2])]].
    The state holds [rcv_datap] and [rcv_datas], as [np.empty] returned
    them at first. *)
Definition fill_rcv_data_PS (evID : list F) (rcv : list (point F))
    (data : list (obs F)) (indp inds : list bool) (nttp : nat)
    (st : list (point F) * list (point F))
  : result (list (point F) * list (point F)) :=
  for_each evID
    (fun eid st =>
       m <- logical_and (map (fun o => o_id o =? eid) data) indp ;;
       st <- for_each (flatnonzero m)
               (fun i (st : list (point F) * list (point F)) =>
                  o <- item data i ;;
                  k <- to_int (o_rcv o) ;;
                  p <- py_get rcv k ;;
                  if (i <? length (fst st))%nat
                  then Ok (<[i := p]> (fst st), snd st)
                  else Raise IndexError)
               st ;;
       m <- logical_and (map (fun o => o_id o =? eid) data) inds ;;
       for_each (flatnonzero m)
         (fun i (st : list (point F) * list (point F)) =>
            o <- item data i ;;
            k <- to_int (o_rcv o) ;;
            p <- py_get rcv k ;;
            arr <- py_set (snd st) (Z.of_nat i - Z.of_nat nttp) p ;;
            Ok (fst st, arr))
         st)
    st.

(** [jointHypoVelPS], from [evID = np.unique(data[:,0])] to the end of
    these loops; [ep] and [es] stand for what [np.empty] returns. *)
Definition phase_tables (rcv : list (point F)) (data : list (obs F))
    (ep es : list (point F))
  : result (list (obs F) * list (point F) * list (point F)) :=
  let evID := np_unique (map o_id data) in
  let '(indp, inds, data) := sort_phases data in
  let nttp := count_true indp in
  st <- fill_rcv_data_PS evID rcv data indp inds nttp (ep, es) ;;
  Ok (data, fst st, snd st).
End PhaseTables.

(** The phase tests of an observation, and the rows that the loops of
    [jointHypoVelPS] list for an event: the P rows with their number, the S
    rows with their number less [nttp]. *)
Definition isP (o : obs Q) : bool := Qeq_bool (o_ph o) 0.
Definition isS (o : obs Q) : bool := Qeq_bool (o_ph o) 1.
Definition listed_P (data : list (obs Q)) (eid : Q) : list nat :=
  flatnonzero (zip_with andb (map (fun o => Qeq_bool (o_id o) eid) data)
                             (map isP data)).
Definition listed_S (data : list (obs Q)) (nttp : nat) (eid : Q) : list nat :=
  map (fun i => (i - nttp)%nat)
      (flatnonzero (zip_with andb (map (fun o => Qeq_bool (o_id o) eid) data)
                                  (map isS data))).
(* ================================================================== *)
(** * Properties *)

Lemma rbind_Ok {A B} (m : result A) (k : A -> result B) (b : B) :
  rbind m k = Ok b -> exists a, m = Ok a /\ k a = Ok b.
Proof. destruct m as [a|e]; simpl; [eauto|discriminate]. Qed.

(** ** Lists of indices *)

Lemma fold_left_app_flat_map {A B} (f : A -> list B) (l : list A) (init : list B) :
  fold_left (fun acc i => acc ++ f i) l init = init ++ flat_map f l.
Proof.
  revert init. induction l as [|a l IH]; intros init; simpl.
  - now rewrite app_nil_r.
  - rewrite IH. now rewrite <- app_assoc.
Qed.

Lemma length_arange (a b : Z) : length (arange a b) = Z.to_nat (b - a).
Proof. unfold arange. now rewrite length_map, length_seq. Qed.

Lemma In_arange (a b j : Z) : In j (arange a b) <-> a <= j < b.
Proof.
  unfold arange. rewrite in_map_iff. split.
  - intros (k & <- & Hk). apply in_seq in Hk. lia.
  - intros Hj. exists (Z.to_nat (j - a)). split; [lia|].
    apply in_seq. lia.
Qed.

Lemma length_flat_map_const {A B} (f : A -> list B) (l : list A) (k : nat) :
  (forall a, In a l -> length (f a) = k) ->
  length (flat_map f l) = (k * length l)%nat.
Proof.
  induction l as [|a l IH]; intros Hk; simpl; [lia|].
  rewrite length_app, IH, Hk; [lia|now left|].
  intros b Hb. apply Hk. now right.
Qed.

Lemma Forall_flat_map_intro {A B} (P : B -> Prop) (f : A -> list B) (l : list A) :
  (forall a, In a l -> Forall P (f a)) -> Forall P (flat_map f l).
Proof.
  induction l as [|a l IH]; intros Hf; simpl; [constructor|].
  apply Forall_app. split; [apply Hf; now left|].
  apply IH. intros b Hb. apply Hf. now right.
Qed.

Section StencilFacts.
Import Grid3D.

Lemma length_interleave3 (a b c : list Z) :
  length b = length a -> length c = length a ->
  length (interleave3 a b c) = (3 * length a)%nat.
Proof.
  revert b c. induction a as [|a0 a IH]; intros [|b0 b] [|c0 c]; simpl;
    intros Hb Hc; try lia.
  rewrite IH; lia.
Qed.

Lemma In_interleave3 (a b c : list Z) (j : Z) :
  In j (interleave3 a b c) -> In j a \/ In j b \/ In j c.
Proof.
  revert b c. induction a as [|a0 a IH]; intros [|b0 b] [|c0 c]; simpl;
    try tauto.
  intros [->|[->|[->|Hj]]]; try tauto.
  destruct (IH _ _ Hj) as [?|[?|?]]; tauto.
Qed.

Lemma length_stencil (m s : Z) : length (stencil m s) = (3 * Z.to_nat m)%nat.
Proof.
  unfold stencil. rewrite length_interleave3; rewrite !length_arange; f_equal; lia.
Qed.

Lemma In_stencil (m s j : Z) : In j (stencil m s) -> s * m <= j < (s + 3) * m.
Proof.
  unfold stencil. intros Hj.
  apply In_interleave3 in Hj. rewrite !In_arange in Hj. nia.
Qed.

Lemma axis_stencils_eq (m n : Z) :
  axis_stencils m n =
  stencil m 0 ++ flat_map (fun i => stencil m (i - 1)) (arange 1 (n - 1))
              ++ stencil m (n - 3).
Proof.
  unfold axis_stencils. rewrite fold_left_app_flat_map. now rewrite <- app_assoc.
Qed.

Lemma length_axis_stencils (m n : Z) :
  2 <= n -> length (axis_stencils m n) = (3 * Z.to_nat m * Z.to_nat n)%nat.
Proof.
  intros Hn. rewrite axis_stencils_eq, !length_app, !length_stencil.
  rewrite (length_flat_map_const _ _ ((3 * Z.to_nat m)%nat)).
  - rewrite length_arange. nia.
  - intros; apply length_stencil.
Qed.

Lemma In_axis_stencils (m n j : Z) :
  3 <= n -> 0 <= m -> In j (axis_stencils m n) -> 0 <= j < n * m.
Proof.
  intros Hn Hm. rewrite axis_stencils_eq, !in_app_iff, in_flat_map.
  intros [Hj|[(i & Hi & Hj)|Hj]]; apply In_stencil in Hj;
    try apply In_arange in Hi; nia.
Qed.

Lemma replicate_eq (m n : Z) (tmp : list Z) :
  replicate m n tmp =
  tmp ++ flat_map (fun i => map (fun j => i * m + j) tmp) (arange 1 n).
Proof. unfold replicate. apply fold_left_app_flat_map. Qed.

Lemma length_replicate (m n : Z) (tmp : list Z) :
  1 <= n -> length (replicate m n tmp) = (Z.to_nat n * length tmp)%nat.
Proof.
  intros Hn. rewrite replicate_eq, length_app.
  rewrite (length_flat_map_const _ _ (length tmp)).
  - rewrite length_arange. nia.
  - intros; apply length_map.
Qed.

Lemma In_replicate (m n j : Z) (tmp : list Z) :
  1 <= n -> (forall i, In i tmp -> 0 <= i < m) ->
  In j (replicate m n tmp) -> 0 <= j < n * m.
Proof.
  intros Hn Htmp. rewrite replicate_eq, in_app_iff, in_flat_map.
  intros [Hj|(i & Hi & Hj)].
  - apply Htmp in Hj. nia.
  - apply In_arange in Hi. apply in_map_iff in Hj as (k & <- & Hk).
    apply Htmp in Hk. nia.
Qed.

Lemma In_interleave3_c (a b c : list Z) (j : Z) :
  length b = length a -> length c = length a ->
  In j c -> In j (interleave3 a b c).
Proof.
  revert b c. induction a as [|a0 a IH]; intros [|b0 b] [|c0 c]; simpl;
    intros Hb Hc Hj; try lia; try tauto.
  destruct Hj as [->|Hj]; [tauto|].
  right; right; right. apply IH; auto.
Qed.

Lemma In_interleave3_a (a b c : list Z) (j : Z) :
  length b = length a -> length c = length a ->
  In j a -> In j (interleave3 a b c).
Proof.
  revert b c. induction a as [|a0 a IH]; intros [|b0 b] [|c0 c]; simpl;
    intros Hb Hc Hj; try lia; try tauto.
  destruct Hj as [->|Hj]; [tauto|].
  right; right; right. apply IH; auto.
Qed.

Lemma stencil_last (m s : Z) : 1 <= m -> In ((s + 3) * m - 1) (stencil m s).
Proof.
  intros Hm. unfold stencil.
  apply In_interleave3_c; rewrite ?length_arange; [f_equal; lia..|].
  apply In_arange. lia.
Qed.

Lemma stencil_first (m s : Z) : 1 <= m -> In (s * m) (stencil m s).
Proof.
  intros Hm. unfold stencil.
  apply In_interleave3_a; rewrite ?length_arange; [f_equal; lia..|].
  apply In_arange. lia.
Qed.

Lemma axis_stencils_last (m n : Z) : 1 <= m -> In (n * m - 1) (axis_stencils m n).
Proof.
  intros Hm. rewrite axis_stencils_eq, !in_app_iff. right; right.
  replace (n * m - 1) with ((n - 3 + 3) * m - 1) by lia.
  now apply stencil_last.
Qed.

Lemma axis_stencils_backward (m n : Z) :
  1 <= m -> In ((n - 3) * m) (axis_stencils m n).
Proof.
  intros Hm. rewrite axis_stencils_eq, !in_app_iff. right; right.
  now apply stencil_first.
Qed.

Lemma replicate_last (m n t : Z) (tmp : list Z) :
  1 <= n -> In t tmp -> In ((n - 1) * m + t) (replicate m n tmp).
Proof.
  intros Hn Ht. rewrite replicate_eq, in_app_iff.
  destruct (Z.eq_dec n 1) as [->|Hn1].
  - left. now replace ((1 - 1) * m + t) with t by lia.
  - right. apply in_flat_map. exists (n - 1). split.
    + apply In_arange. lia.
    + apply in_map_iff. now exists t.
Qed.

Lemma replicate_incl (m n t : Z) (tmp : list Z) :
  In t tmp -> In t (replicate m n tmp).
Proof. intros Ht. rewrite replicate_eq, in_app_iff. now left. Qed.

Lemma unit_stencils_eq (n : Z) :
  unit_stencils n =
  arange 0 3 ++ flat_map (fun k => map (fun j => k - 1 + j) (arange 0 3))
                         (arange 1 (n - 1))
             ++ map (fun j => n - 3 + j) (arange 0 3).
Proof.
  unfold unit_stencils. rewrite fold_left_app_flat_map. now rewrite <- app_assoc.
Qed.

Lemma length_unit_stencils (n : Z) :
  2 <= n -> length (unit_stencils n) = (3 * Z.to_nat n)%nat.
Proof.
  intros Hn. rewrite unit_stencils_eq, !length_app, length_map.
  rewrite (length_flat_map_const _ _ 3%nat).
  - rewrite !length_arange. lia.
  - intros. now rewrite length_map, length_arange.
Qed.

Lemma In_unit_stencils (n j : Z) :
  3 <= n -> In j (unit_stencils n) -> 0 <= j < n.
Proof.
  intros Hn. rewrite unit_stencils_eq, !in_app_iff, in_flat_map.
  intros [Hj|[(k & Hk & Hj)|Hj]].
  - apply In_arange in Hj. lia.
  - apply In_arange in Hk. apply in_map_iff in Hj as (i & <- & Hi).
    apply In_arange in Hi. lia.
  - apply in_map_iff in Hj as (i & <- & Hi). apply In_arange in Hi. lia.
Qed.

Lemma unit_stencils_last (n : Z) : In (n - 1) (unit_stencils n).
Proof.
  rewrite unit_stencils_eq, !in_app_iff. right; right.
  apply in_map_iff. exists 2. split; [lia|]. apply In_arange. lia.
Qed.

Lemma unit_stencils_backward (n : Z) : In (n - 3) (unit_stencils n).
Proof.
  rewrite unit_stencils_eq, !in_app_iff. right; right.
  apply in_map_iff. exists 0. split; [lia|]. apply In_arange. lia.
Qed.

Lemma length_kron3 (rows : list Z) :
  length (flat_map (fun n => repeat n 3) rows) = (3 * length rows)%nat.
Proof. apply length_flat_map_const. intros. apply repeat_length. Qed.

Lemma In_kron3 (rows : list Z) (r : Z) :
  In r (flat_map (fun n => repeat n 3) rows) <-> In r rows.
Proof.
  rewrite in_flat_map. split.
  - intros (n & Hn & Hr). apply repeat_spec in Hr. now subst.
  - intros Hr. exists r. split; [assumption|]. simpl. now left.
Qed.
End StencilFacts.

Lemma NoDup_arange (a b : Z) : List.NoDup (arange a b).
Proof.
  unfold arange. apply Finite.Injective_map_NoDup.
  - intros i j Hij. lia.
  - apply List.seq_NoDup.
Qed.

Lemma Zmax_list_le (l : list Z) (d M : Z) :
  d <= M -> Forall (fun j => j <= M) l -> Zmax_list l d <= M.
Proof.
  unfold Zmax_list. revert d. induction l as [|a l IH]; intros d Hd Hl; simpl; [lia|].
  inversion Hl; subst. apply IH; [lia|assumption].
Qed.

Lemma Zmax_list_ge (l : list Z) (d : Z) :
  d <= Zmax_list l d /\ Forall (fun j => j <= Zmax_list l d) l.
Proof.
  unfold Zmax_list. revert d. induction l as [|a l IH]; intros d; simpl.
  - split; [lia|constructor].
  - destruct (IH (Z.max d a)) as [H1 H2]. split; [lia|].
    constructor; [lia|assumption].
Qed.

Lemma Zmax_list_In (c : Z) (ct : list Z) (M : Z) :
  (forall j, In j (c :: ct) -> j <= M) -> In M (c :: ct) ->
  Zmax_list ct c = M.
Proof.
  intros Hle HM.
  assert (Zmax_list ct c <= M).
  { apply Zmax_list_le; [apply Hle; now left|].
    apply List.Forall_forall. intros j Hj. apply Hle. now right. }
  destruct (Zmax_list_ge ct c) as [H1 H2].
  destruct HM as [->|HM]; [lia|].
  rewrite List.Forall_forall in H2. specialize (H2 _ HM). lia.
Qed.

Lemma existsb_false_iff {A} (f : A -> bool) (l : list A) :
  existsb f l = false <-> (forall a, In a l -> f a = false).
Proof.
  induction l as [|a l IH]; simpl.
  - split; [intros _ ? []|reflexivity].
  - rewrite orb_false_iff, IH. split.
    + intros [Ha Hl] b [<-|Hb]; auto.
    + intros Hf. split; [apply Hf; now left|]. intros b Hb. apply Hf. now right.
Qed.

(** A shape is inferred as the largest row and column index plus one. *)
Lemma csr_matrix_infer {F} (data : list F) (row col : list Z) (R C : Z) :
  length row = length data -> length col = length data ->
  (forall r, In r row -> 0 <= r < R) -> In (R - 1) row ->
  (forall c, In c col -> 0 <= c < C) -> In (C - 1) col ->
  csr_matrix data row col None = Ok (mk_csr R C (combine (combine row col) data)).
Proof.
  intros Hr Hc HrR HR HcC HC. unfold csr_matrix.
  rewrite Hr, Hc, Nat.eqb_refl. simpl.
  destruct row as [|r rt]; [destruct HR|]. destruct col as [|c ct]; [destruct HC|].
  assert (Er : Zmax_list rt r = R - 1).
  { apply Zmax_list_In; [|assumption]. intros j Hj. apply HrR in Hj. lia. }
  assert (Ec : Zmax_list ct c = C - 1).
  { apply Zmax_list_In; [|assumption]. intros j Hj. apply HcC in Hj. lia. }
  cbn [rbind fst snd]. rewrite Er, Ec.
  replace (R - 1 + 1) with R by lia. replace (C - 1 + 1) with C by lia.
  assert (E1 : existsb (fun r0 => R <=? r0) (r :: rt) = false).
  { apply existsb_false_iff. intros a Ha. apply HrR in Ha. lia. }
  assert (E2 : existsb (fun c0 => C <=? c0) (c :: ct) = false).
  { apply existsb_false_iff. intros a Ha. apply HcC in Ha. lia. }
  assert (E3 : existsb (fun r0 => r0 <? 0) (r :: rt) = false).
  { apply existsb_false_iff. intros a Ha. apply HrR in Ha. lia. }
  assert (E4 : existsb (fun c0 => c0 <? 0) (c :: ct) = false).
  { apply existsb_false_iff. intros a Ha. apply HcC in Ha. lia. }
  now rewrite E1, E2, E3, E4.
Qed.

(** What a successful construction without a shape tells about the indices. *)
Lemma csr_matrix_infer_inv {F} (data : list F) (row col : list Z) (M : csr F) :
  csr_matrix data row col None = Ok M ->
  row <> [] /\ (forall c, In c col -> 0 <= c).
Proof.
  unfold csr_matrix.
  destruct (negb _); [discriminate|].
  destruct row as [|r rt]; [discriminate|].
  destruct col as [|c ct]; [discriminate|].
  cbn [rbind fst snd].
  destruct (existsb _ (r :: rt)); [discriminate|].
  destruct (existsb _ (c :: ct)); [discriminate|].
  destruct (existsb _ (r :: rt)); [discriminate|].
  destruct (existsb (fun c0 => c0 <? 0) (c :: ct)) eqn:E; [discriminate|].
  intros _. split; [discriminate|].
  intros j Hj. rewrite existsb_false_iff in E. specialize (E _ Hj). lia.
Qed.

(** ** Rows made of three entries each *)

Section RowFacts.
Context {F : Type}.

Lemma csr_row_triples_notin (rows jK : list Z) (a b c : F) (R C r : Z) :
  ~ In r rows -> csr_row (mk_csr R C (triples rows jK a b c)) r = [].
Proof.
  unfold csr_row, triples. cbn [csr_entries].
  revert jK. induction rows as [|n rows IH]; intros jK Hr; [reflexivity|].
  assert (Hn : n <> r) by (intros ->; apply Hr; now left).
  assert (Hr' : ~ In r rows) by (intros ?; apply Hr; now right).
  destruct jK as [|j1 [|j2 [|j3 jK]]]; cbn [flat_map app combine];
    rewrite ?filter_cons; cbn [fst snd];
    repeat (destruct (decide (n = r)) as [?|_]; [contradiction|]);
    try reflexivity.
  apply IH, Hr'.
Qed.

Lemma csr_row_triples_in (rows jK : list Z) (a b c : F) (R C r : Z) :
  List.NoDup rows -> length jK = (3 * length rows)%nat -> In r rows ->
  exists j1 j2 j3, In j1 jK /\ In j2 jK /\ In j3 jK /\
    csr_row (mk_csr R C (triples rows jK a b c)) r = [(j1, a); (j2, b); (j3, c)].
Proof.
  revert jK. induction rows as [|n rows IH]; intros jK Hnd Hlen Hr; [destruct Hr|].
  inversion Hnd as [|? ? Hn Hnd']; subst.
  destruct jK as [|j1 [|j2 [|j3 jK]]]; simpl in Hlen; try lia.
  destruct (decide (n = r)) as [->|Hne].
  - exists j1, j2, j3. repeat split; [simpl; tauto..|].
    pose proof (csr_row_triples_notin rows jK a b c R C r Hn) as E.
    unfold csr_row, triples in *. cbn [csr_entries] in *.
    cbn [flat_map app combine]. rewrite !filter_cons. cbn [fst snd].
    repeat (destruct (decide (r = r)) as [_|?]; [|contradiction]).
    cbn [map fst snd]. now rewrite E.
  - destruct Hr as [?|Hr]; [contradiction|].
    destruct (IH jK Hnd' ltac:(lia) Hr) as (k1 & k2 & k3 & H1 & H2 & H3 & E).
    exists k1, k2, k3. repeat split; [simpl; tauto..|].
    unfold csr_row, triples in *. cbn [csr_entries] in *.
    cbn [flat_map app combine]. rewrite !filter_cons. cbn [fst snd].
    repeat (destruct (decide (n = r)) as [?|_]; [contradiction|]).
    exact E.
Qed.

Lemma map_flat_map_const {A B} (g : A -> B) (l : list A) (rows : list Z) :
  map g (flat_map (fun _ => l) rows) = flat_map (fun _ => map g l) rows.
Proof.
  induction rows as [|n rows IH]; simpl; [reflexivity|].
  now rewrite map_app, IH.
Qed.
End RowFacts.

(** ** computeK *)

Section ComputeKFacts.
Import Grid3D.
Context {F : Type} `{Scalar F}.
Local Open Scope scalar_scope.

Lemma stencil_csr_build (g : t F) (jK : list Z) :
  let N := getNumberOfNodes g in
  length jK = (3 * Z.to_nat N)%nat ->
  (forall j, In j jK -> (0 <= j < N)%Z) -> In (N - 1)%Z jK ->
  csr_matrix (map (fun v => v / (dx g * dx g))
                  (flat_map (fun _ => [fone; - ftwo; fone]) (arange 0 N)))
             (flat_map (fun n => repeat n 3) (arange 0 N)) jK None
  = Ok (stencil_csr g jK).
Proof.
  intros N Hlen Hrange Hlast.
  assert (HN : (1 <= N)%Z) by (apply Hrange in Hlast; lia).
  rewrite (csr_matrix_infer _ _ _ N N).
  - unfold stencil_csr, triples. fold N. now rewrite map_flat_map_const.
  - rewrite length_map, length_kron3.
    rewrite (length_flat_map_const _ _ 3%nat); auto.
  - rewrite length_map, Hlen.
    rewrite (length_flat_map_const _ _ 3%nat); auto.
    rewrite length_arange. f_equal. f_equal. lia.
  - intros r Hr. apply In_kron3, In_arange in Hr. lia.
  - apply In_kron3, In_arange. lia.
  - exact Hrange.
  - exact Hlast.
Qed.

Lemma computeK_ok (g : t F) :
  (3 <= nx g)%Z -> (3 <= ny g)%Z -> (3 <= nz g)%Z ->
  exists jx jy jz,
    computeK g = Ok (stencil_csr g jx, stencil_csr g jy, stencil_csr g jz)
    /\ stencil_columns g jx /\ stencil_columns g jy /\ stencil_columns g jz.
Proof.
  intros Hx Hy Hz.
  exists (axis_stencils (ny g * nz g) (nx g)),
         (replicate (ny g * nz g) (nx g) (axis_stencils (nz g) (ny g))),
         (replicate (ny g * nz g) (nx g)
            (replicate (nz g) (ny g) (unit_stencils (nz g)))).
  assert (Lx : stencil_columns g (axis_stencils (ny g * nz g) (nx g))).
  { split.
    - rewrite length_axis_stencils by lia. unfold getNumberOfNodes.
      rewrite !Z2Nat.inj_mul by lia. lia.
    - intros j Hj. apply In_axis_stencils in Hj; [|lia|nia].
      unfold getNumberOfNodes. nia. }
  assert (Ly : stencil_columns g
            (replicate (ny g * nz g) (nx g) (axis_stencils (nz g) (ny g)))).
  { split.
    - rewrite length_replicate, length_axis_stencils by lia.
      unfold getNumberOfNodes. rewrite !Z2Nat.inj_mul by lia. lia.
    - intros j Hj. apply In_replicate in Hj; [|lia|].
      + unfold getNumberOfNodes. nia.
      + intros i Hi. apply In_axis_stencils in Hi; lia. }
  assert (Lz : stencil_columns g
            (replicate (ny g * nz g) (nx g)
               (replicate (nz g) (ny g) (unit_stencils (nz g))))).
  { split.
    - rewrite !length_replicate, length_unit_stencils by lia.
      unfold getNumberOfNodes. rewrite !Z2Nat.inj_mul by lia. lia.
    - intros j Hj. apply In_replicate in Hj; [|lia|].
      + unfold getNumberOfNodes. nia.
      + intros i Hi. apply In_replicate in Hi; [lia|lia|].
        intros k Hk. now apply In_unit_stencils in Hk. }
  split; [|tauto].
  unfold computeK.
  rewrite stencil_csr_build; [|apply Lx..|].
  2:{ unfold getNumberOfNodes.
      replace (nx g * ny g * nz g - 1)%Z with (nx g * (ny g * nz g) - 1)%Z by lia.
      apply axis_stencils_last. nia. }
  cbn [rbind].
  rewrite stencil_csr_build; [|apply Ly..|].
  2:{ unfold getNumberOfNodes.
      replace (nx g * ny g * nz g - 1)%Z
        with ((nx g - 1) * (ny g * nz g) + (ny g * nz g - 1))%Z by lia.
      apply replicate_last; [lia|]. apply axis_stencils_last. lia. }
  cbn [rbind].
  rewrite stencil_csr_build; [|apply Lz..|].
  2:{ unfold getNumberOfNodes.
      replace (nx g * ny g * nz g - 1)%Z
        with ((nx g - 1) * (ny g * nz g) + ((ny g - 1) * nz g + (nz g - 1)))%Z by lia.
      apply replicate_last; [lia|]. apply replicate_last; [lia|].
      apply unit_stencils_last. }
  reflexivity.
Qed.

(** [computeK] only returns on grids of at least three nodes along every
    axis: on smaller ones the backward operator asks for columns before
    the first, which the matrix constructor refuses. *)
Lemma computeK_Ok_inv (g : t F) (Ks : csr F * csr F * csr F) :
  computeK g = Ok Ks -> (3 <= nx g)%Z /\ (3 <= ny g)%Z /\ (3 <= nz g)%Z.
Proof.
  unfold computeK. intros HK.
  apply rbind_Ok in HK as (Kx & Ex & HK).
  apply rbind_Ok in HK as (Ky & Ey & HK).
  apply rbind_Ok in HK as (Kz & Ez & _).
  apply csr_matrix_infer_inv in Ex as [Hrow Hcx].
  apply csr_matrix_infer_inv in Ey as [_ Hcy].
  apply csr_matrix_infer_inv in Ez as [_ Hcz].
  assert (HN : (1 <= nx g * ny g * nz g)%Z).
  { destruct (Z_lt_le_dec (nx g * ny g * nz g) 1) as [Hlt|]; [|assumption].
    exfalso. apply Hrow. unfold arange.
    replace (Z.to_nat (nx g * ny g * nz g - 0)) with 0%nat by lia.
    reflexivity. }
  assert (0 <= nx g)%Z by (unfold nx; lia).
  assert (0 <= ny g)%Z by (unfold ny; lia).
  assert (0 <= nz g)%Z by (unfold nz; lia).
  assert (1 <= nx g)%Z by nia.
  assert (1 <= ny g)%Z by nia.
  assert (1 <= nz g)%Z by nia.
  specialize (Hcx _ (axis_stencils_backward (ny g * nz g) (nx g) ltac:(nia))).
  specialize (Hcy _ (replicate_incl (ny g * nz g) (nx g) _ _
                       (axis_stencils_backward (nz g) (ny g) ltac:(lia)))).
  specialize (Hcz _ (replicate_incl (ny g * nz g) (nx g) _ _
                       (replicate_incl (nz g) (ny g) _ _
                          (unit_stencils_backward (nz g))))).
  nia.
Qed.
End ComputeKFacts.

Section ExactComputeK.
Import Grid3D.

Lemma nth_repeat_lt {A} (c d : A) (n k : nat) :
  (k < n)%nat -> nth k (repeat c n) d = c.
Proof.
  revert k. induction n as [|n IH]; intros [|k] Hk; simpl; try lia; auto.
  apply IH. lia.
Qed.

Lemma row_dot_stencil (g : t Q) (jK : list Z) (c : Q) (r : Z) :
  stencil_columns g jK -> 0 <= r < getNumberOfNodes g ->
  (row_dot (stencil_csr g jK) (repeat c (Z.to_nat (getNumberOfNodes g))) r == 0)%Q.
Proof.
  intros [Hlen Hrange] Hr. unfold row_dot, stencil_csr.
  destruct (csr_row_triples_in (arange 0 (getNumberOfNodes g)) jK
              (fone / (dx g * dx g))%F (- ftwo / (dx g * dx g))%F
              (fone / (dx g * dx g))%F
              (getNumberOfNodes g) (getNumberOfNodes g) r)
    as (j1 & j2 & j3 & H1 & H2 & H3 & E).
  - apply NoDup_arange.
  - rewrite Hlen, length_arange. f_equal. f_equal. lia.
  - apply In_arange. lia.
  - rewrite E. cbn [fold_left fst snd].
    apply Hrange in H1, H2, H3.
    rewrite !nth_repeat_lt by lia.
    cbn. unfold Qdiv. ring.
Qed.

(** C9  For every grid and every constant [c], [computeK] returns exactly
    when the grid has at least three nodes along each axis, and then each
    row of [Kx], [Ky] and [Kz] stores the three values [1/h^2], [-2/h^2],
    [1/h^2], and the product of each matrix with the constant vector [c]
    is zero at every node. *)
Theorem computeK_annihilates_constant (g : t Q) (c : Q) :
  (3 <= nx g -> 3 <= ny g -> 3 <= nz g -> exists Ks, computeK g = Ok Ks) /\
  (forall Kx Ky Kz, computeK g = Ok (Kx, Ky, Kz) ->
   forall K, In K [Kx; Ky; Kz] ->
     (forall r, 0 <= r < getNumberOfNodes g ->
        map snd (csr_row K r) =
        [1 / (dx g * dx g); - (2 # 1) / (dx g * dx g); 1 / (dx g * dx g)]%Q) /\
     exists KV,
       matvec K (repeat c (Z.to_nat (getNumberOfNodes g))) = Ok KV /\
       length KV = Z.to_nat (getNumberOfNodes g) /\
       Forall (fun q => q == 0)%Q KV).
Proof.
  split.
  - intros Hx Hy Hz.
    destruct (computeK_ok g Hx Hy Hz) as (jx & jy & jz & E & _). eauto.
  - intros Kx Ky Kz HK K HIn.
    destruct (computeK_Ok_inv g _ HK) as (Hx & Hy & Hz).
    destruct (computeK_ok g Hx Hy Hz) as (jx & jy & jz & E & Lx & Ly & Lz).
    rewrite E in HK. injection HK as <- <- <-.
    assert (exists jK, K = stencil_csr g jK /\ stencil_columns g jK) as (jK & -> & LK).
    { destruct HIn as [<-|[<-|[<-|[]]]]; eauto. }
    split.
    + intros r Hr. destruct LK as [Hlen Hrange]. unfold stencil_csr.
      destruct (csr_row_triples_in (arange 0 (getNumberOfNodes g)) jK
                  (fone / (dx g * dx g))%F (- ftwo / (dx g * dx g))%F
                  (fone / (dx g * dx g))%F
                  (getNumberOfNodes g) (getNumberOfNodes g) r)
        as (j1 & j2 & j3 & _ & _ & _ & E').
      * apply NoDup_arange.
      * rewrite Hlen, length_arange. f_equal. f_equal. lia.
      * apply In_arange. lia.
      * rewrite E'. reflexivity.
    + unfold matvec. cbn [csr_cols csr_rows stencil_csr].
      rewrite repeat_length.
      assert (0 <= getNumberOfNodes g) by (unfold getNumberOfNodes; nia).
      rewrite Z2Nat.id, Z.eqb_refl by assumption. cbn [negb].
      eexists. split; [reflexivity|]. split.
      * rewrite length_map, length_arange. f_equal. lia.
      * apply Forall_map, List.Forall_forall. intros r Hr.
        apply In_arange in Hr. now apply row_dot_stencil.
Qed.
End ExactComputeK.

(** ** computeD *)

Section ExactAxis.
Local Open Scope Q_scope.

Lemma Qfloor_unique (q : Q) (n : Z) :
  inject_Z n <= q -> q < inject_Z n + 1 -> Qfloor q = n.
Proof.
  intros Hlo Hhi.
  pose proof (Qfloor_le q) as H1. pose proof (Qlt_floor q) as H2.
  rewrite inject_Z_plus in H2. change (inject_Z 1) with 1 in H2.
  assert (A : inject_Z (Qfloor q) < inject_Z n + 1) by lra.
  assert (B : inject_Z n < inject_Z (Qfloor q) + 1) by lra.
  change 1 with (inject_Z 1) in A, B.
  rewrite <- inject_Z_plus in A, B. rewrite <- Zlt_Qlt in A, B. lia.
Qed.

Lemma Qtrunc_nonneg (q : Q) :
  0 <= q -> Z.quot (Qnum q) (Zpos (Qden q)) = Qfloor q.
Proof.
  destruct q as [n d]. unfold Qle. simpl. intros Hn.
  apply Z.quot_div_nonneg; lia.
Qed.

Lemma Qdiv_bounds (u h : Q) (n : Z) :
  0 < h -> inject_Z n <= u / h -> u / h < inject_Z n + 1 ->
  inject_Z n * h <= u /\ u < (inject_Z n + 1) * h.
Proof.
  intros Hh Hlo Hhi.
  assert (E : u == u / h * h) by (field; lra).
  split.
  - rewrite E. apply Qmult_le_compat_r; lra.
  - rewrite E at 1. apply Qmult_lt_compat_r; lra.
Qed.

(** The cell found by the code is the enclosing one, away from the nodes. *)
Lemma enclosing_bounds (a0 h c : Q) (n : Z) :
  0 < h -> clear_inside a0 h n c ->
  (0 <= enclosing a0 h c <= n - 2)%Z /\
  a0 + inject_Z (enclosing a0 h c) * h <= c /\
  c < a0 + (inject_Z (enclosing a0 h c) + 1) * h.
Proof.
  intros Hh (Hlo & Hhi & Hclear). unfold enclosing in *.
  set (u := (c - a0) / h) in *.
  pose proof (Qfloor_le u) as H1. pose proof (Qlt_floor u) as H2.
  rewrite inject_Z_plus in H2. change (inject_Z 1) with 1 in H2.
  destruct (Qdiv_bounds (c - a0) h (Qfloor u) Hh H1 H2) as [B1 B2].
  assert (U0 : 0 < u) by (apply Qlt_shift_div_l; lra).
  assert (U1 : u < inject_Z (n - 1)) by (apply Qlt_shift_div_r; lra).
  repeat split; try lra.
  - assert (A : inject_Z (-1) < inject_Z (Qfloor u)).
    { change (inject_Z (-1)) with (-1). lra. }
    rewrite <- Zlt_Qlt in A. lia.
  - assert (A : inject_Z (Qfloor u) < inject_Z (n - 1)) by lra.
    rewrite <- Zlt_Qlt in A. lia.
Qed.

Lemma to_int_clear (a0 a0' h d c : Q) (n : Z) :
  0 < h -> d == h -> a0' == a0 -> clear_inside a0 h n c ->
  to_int ((c - a0') / d)%F = Ok (enclosing a0 h c).
Proof.
  intros Hh Hd Ha Hc.
  destruct (enclosing_bounds a0 h c n Hh Hc) as (Hi & B1 & B2).
  destruct Hc as (Hlo & Hhi & Hclear).
  unfold to_int. cbn [ftrunc Scalar_Q]. f_equal.
  assert (E : (eps6 + (c - a0') / d)%F == (1 # 1000000) + (c - a0) / h).
  { cbn. rewrite Hd, Ha. reflexivity. }
  pose proof (Qfloor_le ((c - a0) / h)) as H1.
  fold (enclosing a0 h c) in H1.
  rewrite Qtrunc_nonneg.
  - rewrite E. apply Qfloor_unique; [|lra].
    assert (0 <= inject_Z (enclosing a0 h c)).
    { change 0 with (inject_Z 0). rewrite <- Zle_Qle. lia. }
    lra.
  - rewrite E.
    assert (0 <= inject_Z (enclosing a0 h c)).
    { change 0 with (inject_Z 0). rewrite <- Zle_Qle. lia. }
    lra.
Qed.

(** Along one axis the weights of the two end nodes of the cell add up
    to one. *)
Lemma axis_weights_sum (a0 h d c : Q) (i : Z) :
  0 < h -> d == h ->
  a0 + inject_Z i * h <= c -> c < a0 + (inject_Z i + 1) * h ->
  (1 - Qabs (c - (a0 + inject_Z i * h)) / d) +
  (1 - Qabs (c - (a0 + inject_Z (i + 1) * h)) / d) == 1.
Proof.
  intros Hh Hd B1 B2.
  rewrite (Qabs_pos (c - (a0 + inject_Z i * h))) by lra.
  rewrite (Qabs_neg (c - (a0 + inject_Z (i + 1) * h))).
  - rewrite Hd, inject_Z_plus. change (inject_Z 1) with 1. field. lra.
  - rewrite inject_Z_plus. change (inject_Z 1) with 1. lra.
Qed.
End ExactAxis.

Section PythonLists.
Lemma py_get_nth {A} (l : list A) (i : Z) (d : A) :
  0 <= i < Z.of_nat (length l) -> py_get l i = Ok (nth (Z.to_nat i) l d).
Proof.
  intros Hi. unfold py_get.
  replace (i <? 0) with false by lia.
  replace ((0 <=? i) && (i <? Z.of_nat (length l))) with true by lia.
  destruct (l !! Z.to_nat i) as [a|] eqn:E.
  - f_equal. symmetry. apply nth_lookup_Some with (d := d) in E. exact E.
  - apply lookup_ge_None in E. lia.
Qed.

Lemma py_get_last {A} (l : list A) (d : A) :
  l <> [] -> py_get l (-1) = Ok (nth (length l - 1) l d).
Proof.
  intros Hl. unfold py_get.
  assert (0 < length l)%nat by (destruct l; simpl; [congruence|lia]).
  replace (-1 <? 0) with true by lia.
  replace ((0 <=? Z.of_nat (length l) + -1) &&
           (Z.of_nat (length l) + -1 <? Z.of_nat (length l))) with true by lia.
  replace (Z.to_nat (Z.of_nat (length l) + -1)) with (length l - 1)%nat by lia.
  destruct (l !! (length l - 1)%nat) as [a|] eqn:E.
  - f_equal. symmetry. apply nth_lookup_Some with (d := d) in E. exact E.
  - apply lookup_ge_None in E. lia.
Qed.

Lemma mapM_ext_Ok {A B} (f : A -> result B) (g : A -> B) (l : list A) :
  (forall a, In a l -> f a = Ok (g a)) -> mapM f l = Ok (map g l).
Proof.
  induction l as [|a l IH]; intros Hf; simpl; [reflexivity|].
  rewrite Hf by now left. simpl. rewrite IH; [reflexivity|].
  intros b Hb. apply Hf. now right.
Qed.

Lemma nth_arange (a b : Z) (k : nat) (d : Z) :
  (k < Z.to_nat (b - a))%nat -> nth k (arange a b) d = a + Z.of_nat k.
Proof.
  intros Hk. unfold arange.
  rewrite (nth_indep _ d (a + Z.of_nat 0)) by (rewrite length_map, length_seq; lia).
  rewrite (map_nth (fun k => a + Z.of_nat k)), seq_nth by lia. lia.
Qed.
End PythonLists.

Section UniformAxis.
Local Open Scope Q_scope.

Lemma length_uniform_axis (a0 h : Q) (n : Z) :
  length (uniform_axis a0 h n) = Z.to_nat n.
Proof. unfold uniform_axis. rewrite length_map, length_arange. f_equal. lia. Qed.

Lemma nth_uniform_axis (a0 h : Q) (n i : Z) :
  (0 <= i < n)%Z ->
  nth (Z.to_nat i) (uniform_axis a0 h n) 0 = a0 + inject_Z i * h.
Proof.
  intros Hi. unfold uniform_axis.
  rewrite (nth_indep _ 0 (a0 + inject_Z 0 * h))
    by (rewrite length_map, length_arange; lia).
  rewrite (map_nth (fun i => a0 + inject_Z i * h)), nth_arange by lia.
  do 3 f_equal. lia.
Qed.
End UniformAxis.

(** Rows of [k] entries each *)

Section BlockFacts.
Context {F : Type}.

Lemma combine_block (i : Z) (row0 : list (Z * F)) (I' J' : list Z) (V' : list F) :
  combine (combine (repeat i (length row0) ++ I') (map fst row0 ++ J'))
          (map snd row0 ++ V')
  = map (fun jw => (i, fst jw, snd jw)) row0 ++ combine (combine I' J') V'.
Proof. induction row0 as [|[j w] row0 IH]; simpl; [reflexivity|]. now rewrite IH. Qed.

Lemma filter_block_eq (r : Z) (row0 : list (Z * F)) :
  map (fun e : Z * Z * F => (snd (fst e), snd e))
      (filter (fun e : Z * Z * F => fst (fst e) = r)
              (map (fun jw => (r, fst jw, snd jw)) row0)) = row0.
Proof.
  induction row0 as [|[j w] row0 IH]; simpl; [reflexivity|].
  rewrite filter_cons. cbn [fst snd].
  destruct (decide (r = r)) as [_|?]; [|contradiction].
  simpl. now rewrite IH.
Qed.

Lemma filter_block_ne (i r : Z) (row0 : list (Z * F)) :
  i <> r ->
  filter (fun e : Z * Z * F => fst (fst e) = r)
         (map (fun jw => (i, fst jw, snd jw)) row0) = [].
Proof.
  intros Hne. induction row0 as [|[j w] row0 IH]; simpl; [reflexivity|].
  rewrite filter_cons. cbn [fst snd].
  destruct (decide (i = r)) as [?|_]; [contradiction|]. exact IH.
Qed.

Lemma filter_rows_notin (r : Z) (I J : list Z) (V : list F) :
  ~ In r I ->
  filter (fun e : Z * Z * F => fst (fst e) = r) (combine (combine I J) V) = [].
Proof.
  revert J V. induction I as [|i I IH]; intros J V Hr; [reflexivity|].
  destruct J as [|j J]; [reflexivity|]. destruct V as [|v V]; [reflexivity|].
  simpl. rewrite filter_cons. cbn [fst snd].
  destruct (decide (i = r)) as [->|_]; [exfalso; apply Hr; now left|].
  apply IH. intros ?. apply Hr. now right.
Qed.

Lemma csr_row_blocks (k : nat) (idx : list Z) (rows : list (list (Z * F)))
    (R C : Z) (n : nat) (r : Z) (row : list (Z * F)) :
  List.NoDup idx -> Forall (fun row => length row = k) rows ->
  idx !! n = Some r -> rows !! n = Some row ->
  csr_row (mk_csr R C (blocks k idx rows)) r = row.
Proof.
  unfold csr_row, blocks. cbn [csr_entries].
  revert rows n. induction idx as [|i idx IH]; intros rows n Hnd Hk Hi Hrow;
    [discriminate|].
  destruct rows as [|row0 rows]; [destruct n; discriminate|].
  inversion Hnd as [|? ? Hni Hnd']; subst.
  inversion Hk as [|? ? Hk0 Hk']; subst.
  cbn [flat_map concat]. rewrite !map_app, combine_block, filter_app, map_app.
  destruct n as [|n]; simpl in Hi, Hrow.
  - injection Hi as ->. injection Hrow as ->.
    rewrite filter_block_eq, filter_rows_notin; [now rewrite app_nil_r|].
    intros Hin. apply in_flat_map in Hin as (i' & Hi' & Hr).
    apply repeat_spec in Hr. now subst.
  - rewrite filter_block_ne.
    + simpl. now apply IH with (n := n).
    + intros ->. apply Hni. apply list_elem_of_In.
      now apply list_elem_of_lookup_2 in Hi.
Qed.
End BlockFacts.

Lemma csr_matrix_shape {F} (data : list F) (row col : list Z) (R C : Z) :
  length row = length data -> length col = length data ->
  (forall r, In r row -> 0 <= r < R) -> (forall c, In c col -> 0 <= c < C) ->
  csr_matrix data row col (Some (R, C))
  = Ok (mk_csr R C (combine (combine row col) data)).
Proof.
  intros Hr Hc HrR HcC. unfold csr_matrix.
  rewrite Hr, Hc, Nat.eqb_refl. cbn [andb negb rbind fst snd].
  assert (E1 : existsb (fun r0 => R <=? r0) row = false).
  { apply existsb_false_iff. intros a Ha. apply HrR in Ha. lia. }
  assert (E2 : existsb (fun c0 => C <=? c0) col = false).
  { apply existsb_false_iff. intros a Ha. apply HcC in Ha. lia. }
  assert (E3 : existsb (fun r0 => r0 <? 0) row = false).
  { apply existsb_false_iff. intros a Ha. apply HrR in Ha. lia. }
  assert (E4 : existsb (fun c0 => c0 <? 0) col = false).
  { apply existsb_false_iff. intros a Ha. apply HcC in Ha. lia. }
  now rewrite E1, E2, E3, E4.
Qed.

Section ReductionFacts.
Context {F : Type} `{Scalar F}.

Lemma fold_left_choice (f : F -> F -> F) (l : list F) (a : F) :
  (forall u v, f u v = u \/ f u v = v) -> In (fold_left f l a) (a :: l).
Proof.
  intros Hf. revert a. induction l as [|b l IH]; intros a; simpl; [now left|].
  destruct (IH (f a b)) as [E|E].
  - rewrite <- E. destruct (Hf a b) as [-> | ->]; tauto.
  - tauto.
Qed.

Lemma np_min_In (l : list F) (m : F) : np_min l = Ok m -> In m l.
Proof.
  destruct l as [|a l]; simpl; [discriminate|]. intros E. injection E as <-.
  apply fold_left_choice. intros u v. unfold fmin. destruct (_ || _); tauto.
Qed.

Lemma np_max_In (l : list F) (m : F) : np_max l = Ok m -> In m l.
Proof.
  destruct l as [|a l]; simpl; [discriminate|]. intros E. injection E as <-.
  apply fold_left_choice. intros u v. unfold fmax. destruct (_ || _); tauto.
Qed.
End ReductionFacts.

Section ExactOutside.
Import Grid3D.
Local Open Scope Q_scope.

Lemma Qltb_false (a b : Q) : b <= a -> Qltb a b = false.
Proof. intros Hab. unfold Qltb. apply Qle_bool_iff in Hab. now rewrite Hab. Qed.

Lemma Qltb_true (a b : Q) : a < b -> Qltb a b = true.
Proof.
  intros Hab. unfold Qltb. destruct (Qle_bool b a) eqn:E; [|reflexivity].
  apply Qle_bool_iff in E. lra.
Qed.

Lemma np_min_bound (l : list Q) (lo : Q) :
  l <> [] -> (forall v, In v l -> lo <= v) ->
  exists m, np_min l = Ok m /\ fltb m lo = false.
Proof.
  intros Hl Hlo. destruct (np_min l) as [m|e] eqn:E.
  - exists m. split; [reflexivity|]. apply Qltb_false, Hlo. now apply np_min_In.
  - destruct l; [congruence|discriminate].
Qed.

Lemma np_max_bound (l : list Q) (hi : Q) :
  l <> [] -> (forall v, In v l -> v <= hi) ->
  exists m, np_max l = Ok m /\ fltb hi m = false.
Proof.
  intros Hl Hhi. destruct (np_max l) as [m|e] eqn:E.
  - exists m. split; [reflexivity|]. apply Qltb_false, Hhi. now apply np_max_In.
  - destruct l; [congruence|discriminate].
Qed.

(** Points between the first and the last node of every axis are not
    outside. *)
Lemma isOutside_false (g : t Q) (pts : list (point Q))
    (xlo xhi ylo yhi zlo zhi : Q) :
  pts <> [] ->
  py_get (x g) 0 = Ok xlo -> py_get (x g) (-1) = Ok xhi ->
  py_get (y g) 0 = Ok ylo -> py_get (y g) (-1) = Ok yhi ->
  py_get (z g) 0 = Ok zlo -> py_get (z g) (-1) = Ok zhi ->
  (forall p, In p pts ->
     xlo <= px p <= xhi /\ ylo <= py p <= yhi /\ zlo <= pz p <= zhi) ->
  isOutside g pts = Ok false.
Proof.
  intros Hne Ex0 Ex1 Ey0 Ey1 Ez0 Ez1 Hin.
  assert (Hmap : forall (f : point Q -> Q), map f pts <> [])
    by (intros f; destruct pts; simpl; congruence).
  unfold isOutside.
  destruct (np_min_bound (map px pts) xlo (Hmap _)) as (m1 & -> & E1).
  { intros v Hv. apply in_map_iff in Hv as (p & <- & Hp). now apply Hin. }
  rewrite Ex0. cbn [rbind]. rewrite E1.
  destruct (np_max_bound (map px pts) xhi (Hmap _)) as (m2 & -> & E2).
  { intros v Hv. apply in_map_iff in Hv as (p & <- & Hp). now apply Hin. }
  rewrite Ex1. cbn [rbind]. rewrite E2.
  destruct (np_min_bound (map py pts) ylo (Hmap _)) as (m3 & -> & E3).
  { intros v Hv. apply in_map_iff in Hv as (p & <- & Hp). now apply Hin. }
  rewrite Ey0. cbn [rbind]. rewrite E3.
  destruct (np_max_bound (map py pts) yhi (Hmap _)) as (m4 & -> & E4).
  { intros v Hv. apply in_map_iff in Hv as (p & <- & Hp). now apply Hin. }
  rewrite Ey1. cbn [rbind]. rewrite E4.
  destruct (np_min_bound (map pz pts) zlo (Hmap _)) as (m5 & -> & E5).
  { intros v Hv. apply in_map_iff in Hv as (p & <- & Hp). now apply Hin. }
  rewrite Ez0. cbn [rbind]. rewrite E5.
  destruct (np_max_bound (map pz pts) zhi (Hmap _)) as (m6 & -> & E6).
  { intros v Hv. apply in_map_iff in Hv as (p & <- & Hp). now apply Hin. }
  rewrite Ez1. cbn [rbind]. now rewrite E6.
Qed.
End ExactOutside.

Section ExactComputeD.
Import Grid3D.
Local Open Scope Q_scope.

Lemma In_corners (i1 j1 k1 i j k : Z) :
  In (i, j, k) (corners i1 j1 k1) ->
  (i = i1 \/ i = i1 + 1)%Z /\ (j = j1 \/ j = j1 + 1)%Z /\ (k = k1 \/ k = k1 + 1)%Z.
Proof.
  unfold corners. simpl.
  intros [E|[E|[E|[E|[E|[E|[E|[E|[]]]]]]]]]; injection E as <- <- <-; tauto.
Qed.

Lemma weight_ok (g : t Q) (p : point Q) (i j k : Z) :
  (0 <= i < nx g)%Z -> (0 <= j < ny g)%Z -> (0 <= k < nz g)%Z ->
  weight g p i j k = Ok (trilinear_weight g p (i, j, k)).
Proof.
  intros Hi Hj Hk. unfold weight.
  rewrite (py_get_nth (x g) i 0) by exact Hi.
  rewrite (py_get_nth (y g) j 0) by exact Hj.
  rewrite (py_get_nth (z g) k 0) by exact Hk.
  reflexivity.
Qed.

Lemma cell_ok (g : t Q) (a0 h : Q) (ax : list Q) (c : Q) :
  0 < h -> dx g == h -> ax = uniform_axis a0 h (Z.of_nat (length ax)) ->
  clear_inside a0 h (Z.of_nat (length ax)) c ->
  cell g ax c = Ok (enclosing a0 h c).
Proof.
  intros Hh Hd Hax Hc.
  destruct (enclosing_bounds a0 h c _ Hh Hc) as (Hi & _).
  unfold cell. rewrite (py_get_nth ax 0 0) by lia. cbn [rbind].
  apply to_int_clear with (n := Z.of_nat (length ax)); auto.
  rewrite Hax. change (Z.to_nat 0) with (Z.to_nat 0%Z).
  rewrite nth_uniform_axis by lia. change (inject_Z 0) with 0. ring.
Qed.

Lemma point_row_ok (g : t Q) (x0 y0 z0 h : Q) (p : point Q) :
  uniform_grid g x0 y0 z0 h -> clear_point g x0 y0 z0 h p ->
  point_row g p = Ok (trilinear_row g x0 y0 z0 h p).
Proof.
  intros (Hh & Hd & Hx & Hy & Hz) (Cx & Cy & Cz).
  unfold point_row.
  rewrite (cell_ok g x0 h (x g) (px p)); auto. cbn [rbind].
  rewrite (cell_ok g y0 h (y g) (py p)); auto. cbn [rbind].
  rewrite (cell_ok g z0 h (z g) (pz p)); auto. cbn [rbind].
  unfold trilinear_row. apply mapM_ext_Ok.
  intros [[i j] k] Hin. apply In_corners in Hin as (Hi & Hj & Hk).
  destruct (enclosing_bounds x0 h _ _ Hh Cx) as (Bx & _).
  destruct (enclosing_bounds y0 h _ _ Hh Cy) as (By & _).
  destruct (enclosing_bounds z0 h _ _ Hh Cz) as (Bz & _).
  rewrite weight_ok by lia. reflexivity.
Qed.

Lemma ind_range (g : t Q) (i j k : Z) :
  (0 <= i < nx g)%Z -> (0 <= j < ny g)%Z -> (0 <= k < nz g)%Z ->
  (0 <= ind g i j k < getNumberOfNodes g)%Z.
Proof.
  intros Hi Hj Hk. unfold ind, getNumberOfNodes.
  assert (0 <= i * ny g + j <= nx g * ny g - 1)%Z by nia.
  nia.
Qed.

Lemma length_concat_const {A} (k : nat) (rows : list (list A)) :
  Forall (fun row => length row = k) rows ->
  length (concat rows) = (k * length rows)%nat.
Proof.
  induction 1 as [|row rows Hrow _ IH]; simpl; [lia|].
  rewrite length_app, IH, Hrow. lia.
Qed.

Lemma lookup_arange (a b : Z) (n : nat) :
  (n < Z.to_nat (b - a))%nat -> arange a b !! n = Some (a + Z.of_nat n)%Z.
Proof.
  intros Hn. destruct (arange a b !! n) as [v|] eqn:E.
  - apply nth_lookup_Some with (d := 0%Z) in E.
    rewrite nth_arange in E by exact Hn. now subst.
  - apply lookup_ge_None in E. rewrite length_arange in E. lia.
Qed.

(** The eight weights of a row add up to one. *)
Lemma trilinear_row_sum (g : t Q) (x0 y0 z0 h : Q) (p : point Q) :
  uniform_grid g x0 y0 z0 h -> clear_point g x0 y0 z0 h p ->
  np_sum (map snd (trilinear_row g x0 y0 z0 h p)) == 1.
Proof.
  intros (Hh & Hd & Hx & Hy & Hz) (Cx & Cy & Cz).
  destruct (enclosing_bounds x0 h _ _ Hh Cx) as (Bx & Lx & Ux).
  destruct (enclosing_bounds y0 h _ _ Hh Cy) as (By & Ly & Uy).
  destruct (enclosing_bounds z0 h _ _ Hh Cz) as (Bz & Lz & Uz).
  pose proof (axis_weights_sum x0 h (dx g) (px p) _ Hh Hd Lx Ux) as Sx.
  pose proof (axis_weights_sum y0 h (dx g) (py p) _ Hh Hd Ly Uy) as Sy.
  pose proof (axis_weights_sum z0 h (dx g) (pz p) _ Hh Hd Lz Uz) as Sz.
  unfold trilinear_row, corners, np_sum.
  cbn [flat_map map app fold_left snd fst trilinear_weight].
  assert (Nx : forall i, (0 <= i < nx g)%Z ->
               nth (Z.to_nat i) (x g) 0 = x0 + inject_Z i * h)
    by (intros i Hi; rewrite Hx; now apply nth_uniform_axis).
  assert (Ny : forall i, (0 <= i < ny g)%Z ->
               nth (Z.to_nat i) (y g) 0 = y0 + inject_Z i * h)
    by (intros i Hi; rewrite Hy; now apply nth_uniform_axis).
  assert (Nz : forall i, (0 <= i < nz g)%Z ->
               nth (Z.to_nat i) (z g) 0 = z0 + inject_Z i * h)
    by (intros i Hi; rewrite Hz; now apply nth_uniform_axis).
  rewrite !Nx, !Ny, !Nz by lia.
  set (wx1 := 1 - Qabs (px p - (x0 + inject_Z (enclosing x0 h (px p)) * h)) / dx g) in *.
  set (wx2 := 1 - Qabs (px p - (x0 + inject_Z (enclosing x0 h (px p) + 1) * h)) / dx g) in *.
  set (wy1 := 1 - Qabs (py p - (y0 + inject_Z (enclosing y0 h (py p)) * h)) / dx g) in *.
  set (wy2 := 1 - Qabs (py p - (y0 + inject_Z (enclosing y0 h (py p) + 1) * h)) / dx g) in *.
  set (wz1 := 1 - Qabs (pz p - (z0 + inject_Z (enclosing z0 h (pz p)) * h)) / dx g) in *.
  set (wz2 := 1 - Qabs (pz p - (z0 + inject_Z (enclosing z0 h (pz p) + 1) * h)) / dx g) in *.
  cbn.
  transitivity ((wx1 + wx2) * (wy1 + wy2) * (wz1 + wz2)); [ring|].
  rewrite Sx, Sy, Sz. ring.
Qed.
End ExactComputeD.

Section ExactComputeDMain.
Import Grid3D.
Local Open Scope Q_scope.

Lemma axis_ends (a0 h : Q) (ax : list Q) :
  ax = uniform_axis a0 h (Z.of_nat (length ax)) -> (2 <= Z.of_nat (length ax))%Z ->
  py_get ax 0 = Ok (a0 + inject_Z 0 * h) /\
  py_get ax (-1) = Ok (a0 + inject_Z (Z.of_nat (length ax) - 1) * h).
Proof.
  intros Hax Hn.
  assert (N : forall i, (0 <= i < Z.of_nat (length ax))%Z ->
              nth (Z.to_nat i) ax 0 = a0 + inject_Z i * h).
  { intros i Hi. set (n := Z.of_nat (length ax)) in *. rewrite Hax.
    now apply nth_uniform_axis. }
  split.
  - rewrite (py_get_nth ax 0 0) by lia. f_equal. apply N. lia.
  - rewrite (py_get_last ax 0) by (destruct ax; simpl in *; [lia|congruence]).
    f_equal.
    replace (length ax - 1)%nat with (Z.to_nat (Z.of_nat (length ax) - 1)) by lia.
    apply N. lia.
Qed.

Lemma length_trilinear_row (g : t Q) (x0 y0 z0 h : Q) (p : point Q) :
  length (trilinear_row g x0 y0 z0 h p) = 8%nat.
Proof. reflexivity. Qed.

(** C8 (amended)  In exact arithmetic: on a grid with nodes at
    [a0 + i*h] along each axis, for every non-empty batch of points that
    lie strictly inside the grid and not within [1e-6 * h] below a grid
    plane, [computeD] returns a matrix
    with one row per point and one column per node; the row of a point
    stores eight entries, one per corner of the enclosing cell, with
    weights [(1-|dx|/h)(1-|dy|/h)(1-|dz|/h)], and the eight weights add up
    to one. *)
Theorem computeD_trilinear (g : t Q) (x0 y0 z0 h : Q) (pts : list (point Q)) :
  uniform_grid g x0 y0 z0 h -> pts <> [] ->
  (forall p, In p pts -> clear_point g x0 y0 z0 h p) ->
  exists D,
    computeD g pts = Ok D /\
    csr_rows D = Z.of_nat (length pts) /\
    csr_cols D = getNumberOfNodes g /\
    forall n p, pts !! n = Some p ->
      csr_row D (Z.of_nat n) = trilinear_row g x0 y0 z0 h p /\
      length (csr_row D (Z.of_nat n)) = 8%nat /\
      np_sum (map snd (csr_row D (Z.of_nat n))) == 1.
Proof.
  intros Hg Hne Hpts.
  pose proof Hg as (Hh & Hd & Hx & Hy & Hz).
  assert (Hdims : (2 <= nx g)%Z /\ (2 <= ny g)%Z /\ (2 <= nz g)%Z).
  { destruct pts as [|p0 pts']; [congruence|].
    destruct (Hpts p0 ltac:(now left)) as (Cx & Cy & Cz).
    destruct (enclosing_bounds x0 h _ _ Hh Cx) as (Bx & _).
    destruct (enclosing_bounds y0 h _ _ Hh Cy) as (By & _).
    destruct (enclosing_bounds z0 h _ _ Hh Cz) as (Bz & _). lia. }
  destruct Hdims as (Dx & Dy & Dz).
  destruct (axis_ends x0 h (x g) Hx Dx) as [Ex0 Ex1].
  destruct (axis_ends y0 h (y g) Hy Dy) as [Ey0 Ey1].
  destruct (axis_ends z0 h (z g) Hz Dz) as [Ez0 Ez1].
  assert (Hout : isOutside g pts = Ok false).
  { eapply isOutside_false; eauto.
    intros p Hp. destruct (Hpts p Hp) as ((?&?&_) & (?&?&_) & (?&?&_)).
    change (inject_Z 0) with 0. fold (nx g) (ny g) (nz g). lra. }
  assert (Hrows : mapM (point_row g) pts = Ok (map (trilinear_row g x0 y0 z0 h) pts)).
  { apply mapM_ext_Ok. intros p Hp. apply point_row_ok; auto. }
  set (rows := map (trilinear_row g x0 y0 z0 h) pts) in *.
  assert (Hlen8 : Forall (fun row => length row = 8%nat) rows).
  { apply List.Forall_forall. intros row Hrow.
    apply in_map_iff in Hrow as (p & <- & _). reflexivity. }
  unfold computeD. rewrite Hout. cbn [rbind]. rewrite Hrows. cbn [rbind].
  rewrite csr_matrix_shape.
  - eexists. split; [reflexivity|]. cbn [csr_rows csr_cols].
    split; [reflexivity|]. split; [reflexivity|].
    intros n p Hn.
    assert (E : csr_row
                  (mk_csr (Z.of_nat (length pts)) (getNumberOfNodes g)
                     (blocks 8 (arange 0 (Z.of_nat (length pts))) rows))
                  (Z.of_nat n) = trilinear_row g x0 y0 z0 h p).
    { apply csr_row_blocks with (n := n).
      - apply NoDup_arange.
      - exact Hlen8.
      - rewrite lookup_arange; [f_equal; lia|].
        apply lookup_lt_Some in Hn. lia.
      - unfold rows. change (map (trilinear_row g x0 y0 z0 h) pts)
          with (trilinear_row g x0 y0 z0 h <$> pts).
        rewrite list_lookup_fmap, Hn. reflexivity. }
    unfold blocks in E. rewrite E.
    split; [reflexivity|]. split; [reflexivity|].
    apply trilinear_row_sum; auto.
    apply Hpts. apply list_elem_of_In. now apply list_elem_of_lookup_2 in Hn.
  - rewrite length_map, (length_concat_const 8) by exact Hlen8.
    rewrite (length_flat_map_const _ _ 8%nat) by (intros; apply repeat_length).
    unfold rows. rewrite length_map, length_arange. lia.
  - now rewrite !length_map.
  - intros r Hr. apply in_flat_map in Hr as (n & Hn & Hr).
    apply repeat_spec in Hr. subst. apply In_arange in Hn. lia.
  - intros c Hc. apply in_map_iff in Hc as ([j w] & <- & Hjw).
    apply in_concat in Hjw as (row & Hrow & Hjw).
    apply in_map_iff in Hrow as (p & <- & Hp).
    unfold trilinear_row in Hjw.
    apply in_map_iff in Hjw as ([[i j'] k] & E & Hin).
    injection E as <- _. cbn [fst snd].
    apply In_corners in Hin as (Hi & Hj & Hk).
    destruct (Hpts p Hp) as (Cx & Cy & Cz).
    destruct (enclosing_bounds x0 h _ _ Hh Cx) as (Bx & _).
    destruct (enclosing_bounds y0 h _ _ Hh Cy) as (By & _).
    destruct (enclosing_bounds z0 h _ _ Hh Cz) as (Bz & _).
    apply ind_range; lia.
Qed.
End ExactComputeDMain.

Section ComputeDExamples.
Import Grid3D.
Local Open Scope Q_scope.

Example grid_012_init : init [0; 1; 2] [0; 1; 2] [0; 1; 2] 1 = Ok grid_012.
Proof. reflexivity. Qed.

Lemma grid_012_uniform : uniform_grid grid_012 0 0 0 1.
Proof. repeat split. Qed.

(** C8 (as stated) fails: a point strictly inside the grid but within
    [1e-6 * h] below the plane [x = 1] is attributed to the cell above it,
    one of its weights is negative and the weights add up to 0.999999; a
    point strictly inside but within [1e-6 * h] below the last plane makes
    [computeD] index past the end of the axis. *)
Lemma computeD_near_plane_counterexample :
  let p := (9999995 # 10000000, 1 # 2, 1 # 2) in
  let q := (19999995 # 10000000, 1 # 2, 1 # 2) in
  uniform_grid grid_012 0 0 0 1 /\
  strict_point grid_012 0 0 0 1 p /\
  strict_point grid_012 0 0 0 1 q /\
  (exists D, computeD grid_012 [p] = Ok D /\
             np_sum (map snd (csr_row D 0)) == 999999 # 1000000 /\
             ~ np_sum (map snd (csr_row D 0)) == 1 /\
             csr_row D 0 <> trilinear_row grid_012 0 0 0 1 p) /\
  computeD grid_012 [q] = Raise IndexError.
Proof.
  cbv zeta. split; [exact grid_012_uniform|].
  split; [repeat split|]. split; [repeat split|]. split.
  - eexists. split; [vm_compute; reflexivity|].
    split; [reflexivity|]. split; [discriminate|].
    vm_compute. discriminate.
  - vm_compute. reflexivity.
Qed.

(** The same point on binary64 numbers ([0x1.ffffef39085f5p-1] is the
    float nearest to 0.9999995): the columns of its row are the corners of
    the cell between [x = 1] and [x = 2]. *)
Example computeD_near_plane_binary64 :
  exists D, computeD grid_012_binary64 [(0x1.ffffef39085f5p-1, 0.5, 0.5)%float] = Ok D /\
            map fst (csr_row D 0) = [9; 10; 12; 13; 18; 19; 21; 22]%Z.
Proof. eexists. split; [vm_compute; reflexivity|]. vm_compute. reflexivity. Qed.

(** On binary64 the weights are rounded and so is their sum: for the point
    (112, 148, 11) of the driver's grid it is [1 + 2^-52]. *)
Example computeD_sum_binary64 :
  exists D, computeD grid_main_binary64 [(112, 148, 11)%float] = Ok D /\
            np_sum (map snd (csr_row D 0)) = 0x1.0000000000001p+0%float.
Proof. eexists. split; [vm_compute; reflexivity|]. vm_compute. reflexivity. Qed.

Lemma computeD_trilinear_witness :
  exists D, computeD grid_012 [(1 # 2, 1 # 2, 3 # 2)] = Ok D /\
            np_sum (map snd (csr_row D 0)) == 1.
Proof.
  destruct (computeD_trilinear grid_012 0 0 0 1 [(1 # 2, 1 # 2, 3 # 2)])
    as (D & HD & _ & _ & Hrow).
  - exact grid_012_uniform.
  - discriminate.
  - intros p [<-|[]]. repeat split.
  - exists D. split; [exact HD|].
    destruct (Hrow 0%nat (1 # 2, 1 # 2, 3 # 2) eq_refl) as (_ & _ & Hsum).
    exact Hsum.
Defined.

Lemma computeK_annihilates_constant_witness :
  exists Ks, computeK grid_012 = Ok Ks /\
    forall K, In K [fst (fst Ks); snd (fst Ks); snd Ks] ->
      exists KV, matvec K (repeat (7 # 2) 27) = Ok KV /\
                 Forall (fun q => q == 0) KV.
Proof.
  destruct (computeK_annihilates_constant grid_012 (7 # 2)) as [Htot Hzero].
  destruct Htot as ([[Kx Ky] Kz] & HK); [vm_compute; discriminate..|].
  exists (Kx, Ky, Kz). split; [exact HK|].
  intros K HIn.
  destruct (Hzero Kx Ky Kz HK K HIn) as (_ & KV & HKV & _ & H0).
  exists KV. split; [exact HKV|exact H0].
Defined.
End ComputeDExamples.

(** ** The clamped update *)

Section ClampFacts.
Context {F : Type} `{Scalar F}.

Lemma length_clamp_entries (m : F) (lo : nat) (ind : list nat) (l : list F) :
  length (clamp_entries m lo ind l) = length l.
Proof.
  unfold clamp_entries. revert l. induction ind as [|i ind IH]; intros l; simpl;
    [reflexivity|].
  rewrite IH. destruct (l !! (lo + i)%nat); [apply length_insert|reflexivity].
Qed.

Lemma clamp_entries_other (m : F) (lo : nat) (ind : list nat) (l : list F) (j : nat) :
  (forall i, In i ind -> j <> (lo + i)%nat) ->
  clamp_entries m lo ind l !! j = l !! j.
Proof.
  unfold clamp_entries. revert l. induction ind as [|i ind IH]; intros l Hj; simpl;
    [reflexivity|].
  rewrite IH by (intros i' Hi'; apply Hj; now right).
  destruct (l !! (lo + i)%nat); [|reflexivity].
  apply list_lookup_insert_ne. intros E. apply (Hj i); [now left|auto].
Qed.

Lemma clamp_entries_hit (m : F) (lo : nat) (ind : list nat) (l : list F) (i : nat) :
  List.NoDup ind -> In i ind ->
  clamp_entries m lo ind l !! (lo + i)%nat
  = (fun d => fmul m (fsign d)) <$> l !! (lo + i)%nat.
Proof.
  revert l. induction ind as [|i0 ind IH]; intros l Hnd Hi; [destruct Hi|].
  inversion Hnd as [|? ? Hni Hnd']; subst.
  destruct Hi as [->|Hi].
  - change (clamp_entries m lo (i :: ind) l)
      with (clamp_entries m lo ind
              (match l !! (lo + i)%nat with
               | Some d => <[(lo + i)%nat := fmul m (fsign d)]> l
               | None => l
               end)).
    rewrite clamp_entries_other
      by (intros i' Hi' E; apply Hni; replace i with i' by lia; exact Hi').
    destruct (l !! (lo + i)%nat) as [d|] eqn:E.
    + rewrite list_lookup_insert_eq; [reflexivity|].
      now apply lookup_lt_Some in E.
    + now rewrite E.
  - change (clamp_entries m lo (i0 :: ind) l)
      with (clamp_entries m lo ind
              (match l !! (lo + i0)%nat with
               | Some d => <[(lo + i0)%nat := fmul m (fsign d)]> l
               | None => l
               end)).
    rewrite IH by assumption.
    destruct (l !! (lo + i0)%nat); [|reflexivity].
    rewrite list_lookup_insert_ne; [reflexivity|].
    intros E. apply Hni. replace i0 with i by lia. exact Hi.
Qed.

Lemma In_exceeding (m : F) (l : list F) (i : nat) :
  In i (exceeding m l) <-> exists d, l !! i = Some d /\ fltb m (fabs d) = true.
Proof.
  unfold exceeding. rewrite filter_In, in_seq. split.
  - intros [_ Hd]. destruct (l !! i) as [d|]; [eauto|discriminate].
  - intros (d & Hd & Hm). rewrite Hd. split; [|exact Hm].
    apply lookup_lt_Some in Hd. lia.
Qed.

Lemma NoDup_exceeding (m : F) (l : list F) : List.NoDup (exceeding m l).
Proof. apply List.NoDup_filter, List.seq_NoDup. Qed.

(** Clamping the block of [n] entries that starts at [lo]: inside the block
    an entry larger than [m] becomes [m * sign], the others stay. *)
Lemma clamp_block_lookup (m : F) (lo n : nat) (l : list F) (j : nat) :
  clamp_entries m lo (exceeding m (take n (drop lo l))) l !! j
  = if (lo <=? j)%nat && (j <? lo + n)%nat
    then (fun d => if fltb m (fabs d) then fmul m (fsign d) else d) <$> l !! j
    else l !! j.
Proof.
  destruct ((lo <=? j)%nat && (j <? lo + n)%nat) eqn:Hj.
  - apply andb_prop in Hj as [H1 H2].
    apply Nat.leb_le in H1. apply Nat.ltb_lt in H2.
    replace j with (lo + (j - lo))%nat by lia.
    set (i := (j - lo)%nat). assert (Hi : (i < n)%nat) by (unfold i; lia).
    assert (E : take n (drop lo l) !! i = l !! (lo + i)%nat).
    { rewrite lookup_take_lt by exact Hi. apply lookup_drop. }
    destruct (l !! (lo + i)%nat) as [d|] eqn:Ed.
    + destruct (fltb m (fabs d)) eqn:Em.
      * rewrite clamp_entries_hit, Ed; [simpl; now rewrite Em| |].
        -- apply NoDup_exceeding.
        -- apply In_exceeding. exists d. now rewrite E.
      * rewrite clamp_entries_other, Ed; [simpl; now rewrite Em|].
        intros i' Hi' Heq. apply In_exceeding in Hi' as (d' & Hd' & Hm').
        replace i' with i in Hd' by lia. rewrite E in Hd'.
        injection Hd' as <-. congruence.
    + rewrite clamp_entries_other, Ed; [reflexivity|].
      intros i' Hi' Heq. apply In_exceeding in Hi' as (d' & Hd' & _).
      replace i' with i in Hd' by lia. rewrite E in Hd'. discriminate.
  - apply clamp_entries_other. intros i Hi ->.
    apply In_exceeding in Hi as (d & Hd & _).
    apply lookup_lt_Some in Hd. rewrite length_take in Hd.
    apply andb_false_iff in Hj as [Hj|Hj].
    + apply Nat.leb_gt in Hj. lia.
    + apply Nat.ltb_ge in Hj. lia.
Qed.
End ClampFacts.

Section ExactClamp.
Local Open Scope Q_scope.

Lemma Qltb_true_iff (a b : Q) : Qltb a b = true <-> a < b.
Proof.
  unfold Qltb. rewrite negb_true_iff. split.
  - intros E. apply Qnot_le_lt. intros Hle. apply Qle_bool_iff in Hle. congruence.
  - intros Hlt. destruct (Qle_bool b a) eqn:E; [|reflexivity].
    apply Qle_bool_iff in E. lra.
Qed.

Lemma Qltb_false_iff (a b : Q) : Qltb a b = false <-> b <= a.
Proof.
  unfold Qltb. rewrite negb_false_iff. apply Qle_bool_iff.
Qed.

Lemma Qabs_clamp (m d : Q) : 0 <= m -> Qabs (clamp m d) <= m.
Proof.
  intros Hm. unfold clamp. destruct (Qltb m (Qabs d)) eqn:E.
  - apply Qltb_true_iff in E. cbv [fsign fltb fzero fone fopp feqb Scalar_Q].
    destruct (Qltb d 0) eqn:E1.
    + rewrite Qabs_Qmult. change (Qabs (- (1))) with 1. rewrite Qabs_pos; lra.
    + destruct (Qltb 0 d) eqn:E2.
      * rewrite Qabs_Qmult. change (Qabs 1) with 1. rewrite Qabs_pos; lra.
      * apply Qltb_false_iff in E1, E2.
        assert (Hd : d == 0) by lra. rewrite Hd in E. change (Qabs 0) with 0 in E. lra.
  - now apply Qltb_false_iff in E.
Qed.

Lemma np_add_Ok (a b : list Q) :
  length a = length b -> np_add a b = Ok (zip_with Qplus a b).
Proof. intros E. unfold np_add. rewrite E, Nat.eqb_refl. reflexivity. Qed.

Lemma zip_add_bound (V dm orig : list Q) (m : Q) (n : nat) (v v' : Q) :
  0 <= m -> dm !! n = clamp m <$> orig !! n ->
  V !! n = Some v -> zip_with Qplus V dm !! n = Some v' ->
  Qabs (v' - v) <= m.
Proof.
  intros Hm Hdm Hv Hv'.
  apply lookup_zip_with_Some in Hv' as (a & d & -> & Ha & Hd).
  rewrite Hv in Ha. injection Ha as <-.
  rewrite Hd in Hdm. destruct (orig !! n) as [d0|]; [|discriminate].
  injection Hdm as ->.
  assert (E : v + clamp m d0 - v == clamp m d0) by ring.
  rewrite E. now apply Qabs_clamp.
Qed.

(** What the clamps do bound, in exact arithmetic: the update applied to
    the solved-for parameters.  In [jointHypoVel],
    [|V_p[n] - V_p_prev[n]| <= dVp_max] for every node.  In
    [jointHypoVelPS] the same holds for the first block of the model vector
    ([V_p]) with [dVp_max] and for its second block with [dVs_max]; the
    second block is [V_s] when [invert_VsVp] is off, and the ratio
    [V_s/V_p] when it is on, where [V_s] is then recomputed as ratio times
    [V_p]. *)
Lemma clamped_update_bounds :
  (forall (par : InvParams Q) (nnodes : nat) (deltam V sc : list Q),
     0 <= dVp_max par -> length V = nnodes ->
     length deltam = (nnodes + length sc)%nat ->
     exists V' s' sc',
       apply_update par nnodes deltam V sc = Ok (V', s', sc') /\
       length V' = nnodes /\
       forall n v v', V !! n = Some v -> V' !! n = Some v' ->
                      Qabs (v' - v) <= dVp_max par) /\
  (forall (par : InvParams Q) (nnodes nsta : nat) (deltam : list Q)
          (st : model_PS Q) (dVs : Q),
     0 <= dVp_max par -> dVs_max par = Some dVs -> 0 <= dVs ->
     length (m_V st) = (2 * nnodes)%nat ->
     length (m_sc_p st) = nsta -> length (m_sc_s st) = nsta ->
     length deltam = (2 * nnodes + 2 * nsta)%nat ->
     exists st',
       apply_update_PS par nnodes nsta deltam st = Ok st' /\
       m_Vp st' = take nnodes (m_V st') /\
       (forall n v v', (n < nnodes)%nat ->
          m_V st !! n = Some v -> m_V st' !! n = Some v' ->
          Qabs (v' - v) <= dVp_max par) /\
       (forall n v v', (nnodes <= n)%nat ->
          m_V st !! n = Some v -> m_V st' !! n = Some v' ->
          Qabs (v' - v) <= dVs) /\
       (invert_VsVp par = false -> m_Vs st' = drop nnodes (m_V st')) /\
       (invert_VsVp par = true ->
          m_Vs st' = zip_with Qmult (drop nnodes (m_V st')) (m_Vp st'))).
Proof.
  split.
  - intros par nnodes deltam V sc Hm HV Hd.
    unfold apply_update.
    set (dm := clamp_entries (dVp_max par) 0 _ deltam).
    assert (Ldm : length dm = length deltam) by apply length_clamp_entries.
    assert (Hdm : forall n, (n < nnodes)%nat ->
                  take nnodes dm !! n = clamp (dVp_max par) <$> deltam !! n).
    { intros n Hn. rewrite lookup_take_lt by exact Hn. unfold dm.
      rewrite (clamp_block_lookup (dVp_max par) 0 nnodes deltam n).
      replace ((0 <=? n)%nat && (n <? 0 + nnodes)%nat) with true; [reflexivity|].
      symmetry. apply andb_true_iff. split; [apply Nat.leb_le|apply Nat.ltb_lt]; lia. }
    rewrite np_add_Ok by (rewrite length_take, Ldm; lia). cbn [rbind].
    rewrite np_add_Ok by (rewrite length_drop, Ldm; lia). cbn [rbind].
    do 3 eexists. split; [reflexivity|]. split.
    + rewrite length_zip_with, length_take, Ldm. lia.
    + intros n v v' Hv Hv'.
      assert (Hn : (n < nnodes)%nat) by (apply lookup_lt_Some in Hv; lia).
      eapply zip_add_bound; eauto.
  - intros par nnodes nsta deltam st dVs Hmp HdVs Hms HV Hp Hs Hd.
    unfold apply_update_PS. rewrite HdVs. cbn [attr rbind].
    set (dm1 := clamp_entries (dVp_max par) 0 _ deltam).
    set (dm2 := clamp_entries dVs nnodes _ dm1).
    assert (L1 : length dm1 = length deltam) by apply length_clamp_entries.
    assert (L2 : length dm2 = length deltam)
      by (unfold dm2; now rewrite length_clamp_entries).
    assert (H1 : forall n, dm1 !! n =
              if (n <? nnodes)%nat then clamp (dVp_max par) <$> deltam !! n
              else deltam !! n).
    { intros n. unfold dm1.
      rewrite (clamp_block_lookup (dVp_max par) 0 nnodes deltam n).
      cbn [Nat.leb andb Nat.add]. reflexivity. }
    assert (H2 : forall n, dm2 !! n =
              if (nnodes <=? n)%nat && (n <? nnodes + nnodes)%nat
              then clamp dVs <$> dm1 !! n else dm1 !! n).
    { intros n. unfold dm2.
      rewrite (clamp_block_lookup dVs nnodes nnodes dm1 n). reflexivity. }
    rewrite np_add_Ok by (rewrite length_take, L2; lia). cbn [rbind].
    set (V' := zip_with Qplus (m_V st) (take (2 * nnodes) dm2)).
    assert (LV' : length V' = (2 * nnodes)%nat).
    { unfold V'. rewrite length_zip_with, length_take, L2. lia. }
    assert (Htd : take nnodes (drop nnodes V') = drop nnodes V').
    { apply take_ge. rewrite length_drop. lia. }
    rewrite Htd.
    assert (EVs : exists Vs',
              (if invert_VsVp par
               then np_multiply (drop nnodes V') (take nnodes V')
               else Ok (drop nnodes V')) = Ok Vs' /\
              (invert_VsVp par = false -> Vs' = drop nnodes V') /\
              (invert_VsVp par = true ->
                 Vs' = zip_with Qmult (drop nnodes V') (take nnodes V'))).
    { destruct (invert_VsVp par).
      - unfold np_multiply. rewrite length_drop, length_take, LV'.
        replace (2 * nnodes - nnodes =? nnodes `min` (2 * nnodes))%nat with true
          by (symmetry; apply Nat.eqb_eq; lia).
        eexists. split; [reflexivity|]. split; [discriminate|reflexivity].
      - eexists. split; [reflexivity|]. split; [reflexivity|discriminate]. }
    destruct EVs as (Vs' & -> & EVs0 & EVs1). cbn [rbind].
    rewrite np_add_Ok by (rewrite length_take, length_drop, L2; lia). cbn [rbind].
    rewrite np_add_Ok by (rewrite length_drop, L2; lia). cbn [rbind].
    eexists. split; [reflexivity|]. cbn [m_V m_Vp m_Vs].
    split; [reflexivity|]. split; [|split; [|split; assumption]].
    + intros n v v' Hn Hv Hv'.
      eapply (zip_add_bound (m_V st) (take (2 * nnodes) dm2) deltam); eauto.
      rewrite lookup_take_lt by lia. rewrite H2, H1.
      replace ((nnodes <=? n)%nat && (n <? nnodes + nnodes)%nat) with false
        by (symmetry; apply andb_false_iff; left; apply Nat.leb_gt; lia).
      replace (n <? nnodes)%nat with true by (symmetry; apply Nat.ltb_lt; lia).
      reflexivity.
    + intros n v v' Hn Hv Hv'.
      assert (Hn2 : (n < 2 * nnodes)%nat) by (apply lookup_lt_Some in Hv; lia).
      eapply (zip_add_bound (m_V st) (take (2 * nnodes) dm2) deltam); eauto.
      rewrite lookup_take_lt by lia. rewrite H2, H1.
      replace ((nnodes <=? n)%nat && (n <? nnodes + nnodes)%nat) with true
        by (symmetry; apply andb_true_iff; split;
            [apply Nat.leb_le|apply Nat.ltb_lt]; lia).
      replace (n <? nnodes)%nat with false by (symmetry; apply Nat.ltb_ge; lia).
      reflexivity.
Qed.
End ExactClamp.

Section ClampExamples.
Local Open Scope Q_scope.

Example par_main_init :
  InvParams_init 3 10 1 [3500; 4500; 1; 1500; 2500; 1] [50; 5; 1 # 100; 25]
                 [2; 1; 1; 1 # 10] true true false true true true
  = Ok par_main.
Proof. reflexivity. Qed.

(** On binary64 the clamped update is added with rounding, and a NaN is not
    clamped: with [dVp_max = 50], an update of 60 moves [V_p = 4046.1] by
    more than 50 as the difference of the stored values shows, and an
    update of NaN leaves NaN in [V]. *)
Example clamp_rounding_binary64 :
  (exists v' s' sc',
     apply_update par_main_binary64 1 [60; 0]%float [40461 / 10]%float [0]%float
     = Ok ([v'], s', sc') /\
     PrimFloat.ltb 50 (v' - 40461 / 10) = true) /\
  apply_update par_main_binary64 1 [nan; 0]%float [4000]%float [0]%float
  = Ok ([nan], [nan], [0])%float.
Proof.
  split.
  - do 3 eexists. split; [vm_compute; reflexivity|]. reflexivity.
  - vm_compute. reflexivity.
Qed.

(** C3 (fails on the code)  In the mode that solves for the ratio
    [V_s/V_p] the second clamp compares the update of the ratio with
    [dVs_max], and [V_s] is recomputed as ratio times [V_p]: with
    [dVp_max = 50] and [dVs_max = 25], an update of 50 for [V_p = 4000] and
    of 0.1 for the ratio 0.5 passes both clamps and moves [V_s] from 2000
    to [0.6 * 4050 = 2430], in exact arithmetic and on binary64. *)
Theorem clamp_ratio_mode_unbounded :
  (invert_VsVp par_main = true /\ dVs_max par_main = Some 25%Q /\
   m_Vs model_ratio = [2000]%Q /\
   exists st' vs',
     apply_update_PS par_main 1 1 [50; 1 # 10; 0; 0]%Q model_ratio = Ok st' /\
     m_Vs st' = [vs'] /\ (vs' == 2430)%Q /\ ~ (Qabs (vs' - 2000) <= 25)%Q) /\
  (invert_VsVp par_main_binary64 = true /\
   dVs_max par_main_binary64 = Some 25%float /\
   m_Vs model_ratio_binary64 = [2000]%float /\
   exists st' vs',
     apply_update_PS par_main_binary64 1 1 [50; 1 / 10; 0; 0]%float
                     model_ratio_binary64 = Ok st' /\
     m_Vs st' = [vs'] /\
     PrimFloat.ltb 25 (PrimFloat.abs (vs' - 2000)) = true /\
     PrimFloat.ltb 429 (vs' - 2000) = true).
Proof.
  split.
  - repeat split. do 2 eexists.
    split; [vm_compute; reflexivity|]. split; [reflexivity|].
    split; [reflexivity|]. vm_compute. intros H. apply H. reflexivity.
  - repeat split. do 2 eexists.
    split; [vm_compute; reflexivity|]. split; [reflexivity|].
    split; reflexivity.
Qed.
End ClampExamples.


(** ** The locators *)

Section LocatorFacts.
Context {F : Type} `{Scalar F}.
Variable solve : solve_t F.
Variable svd : svd_t F.

Lemma add_dh_ids (eid : F) (dh : vec4 F) (loc : list (hyp F)) :
  map h_id (add_dh eid dh loc) = map h_id loc.
Proof.
  destruct dh as [[[d0 d1] d2] d3]. unfold add_dh.
  rewrite map_map. apply map_ext. intros h.
  destruct (feqb eid (h_id h)); reflexivity.
Qed.

Lemma locate_loop_ids (n it : nat) (eid convh : F) (x : list (point F))
    (t vel resrow : list F) (loc : list (hyp F)) :
  map h_id (snd (locate_loop solve svd n it eid convh x t vel resrow loc))
  = map h_id loc.
Proof.
  revert it resrow loc. induction n as [|n IH]; intros it resrow loc; simpl;
    [reflexivity|].
  destruct (locate_iter _ _ _ _ _ _) as [[nr [dh|]]|e]; try reflexivity.
  destruct (converged convh dh); simpl.
  - apply add_dh_ids.
  - rewrite IH. apply add_dh_ids.
Qed.

Lemma locate_events_ids (evID : list F) (vel_of : obs F -> result F)
    (data : list (obs F)) (rcv : list (point F)) (maxit : nat)
    (convh : F) (loc : list (hyp F)) :
  map h_id (snd (locate_events solve svd evID vel_of data rcv maxit convh loc))
  = map h_id loc.
Proof.
  revert loc. induction evID as [|eid evID IH]; intros loc; simpl; [reflexivity|].
  destruct (rbind _ _) as [[x vel]|e]; [|reflexivity].
  pose proof (locate_loop_ids maxit 0 eid convh x
                (map o_t (List.filter (fun o => feqb eid (o_id o)) data))
                vel (repeat fzero maxit) loc) as E1.
  destruct (locate_loop _ _ _ _ _ _ _ _ _ _ _) as [[resrow|e] loc1];
    simpl in E1; [|exact E1].
  specialize (IH loc1).
  destruct (locate_events _ _ _ _ _ _ _ _ _) as [[res|e] loc2]; simpl in *;
    congruence.
Qed.

(** What running the events on a copy of [hinit] does to the store. *)
Lemma copy_then_locate (hinit : nat) (h : store F) (tbl : list (hyp F))
    (run : list (hyp F) -> result (list (list F)) * list (hyp F)) :
  h !! hinit = Some tbl ->
  (forall loc, map h_id (snd (run loc)) = map h_id loc) ->
  let out :=
    match ndarray_copy hinit h with
    | (Raise e, h) => (Raise e, h)
    | (Ok loc, h) =>
        match h !! loc with
        | None => (Raise (NameError "loc"), h)
        | Some tbl =>
            match run tbl with
            | (Raise e, tbl) => (Raise e, <[loc := tbl]> h)
            | (Ok res, tbl) => (Ok (loc, res), <[loc := tbl]> h)
            end
        end
    end in
  (forall a, (a < length h)%nat -> snd out !! a = h !! a) /\
  (forall loc res, fst out = Ok (loc, res) ->
     loc <> hinit /\
     exists tbl', snd out !! loc = Some tbl' /\ map h_id tbl' = map h_id tbl).
Proof.
  intros Hh Hrun. unfold ndarray_copy. rewrite Hh.
  assert (Hlt : (hinit < length h)%nat) by (now apply lookup_lt_Some in Hh).
  assert (E : (h ++ [tbl]) !! length h = Some tbl).
  { rewrite lookup_app_r by lia. now rewrite Nat.sub_diag. }
  cbv beta iota zeta. rewrite E. specialize (Hrun tbl).
  destruct (run tbl) as [[res|e] tbl']; simpl in *; split.
  - intros a Ha. rewrite list_lookup_insert_ne by lia. now apply lookup_app_l.
  - intros loc res' Eq. injection Eq as <- <-. split; [lia|].
    exists tbl'. split; [|exact Hrun].
    apply list_lookup_insert_eq. rewrite length_app. simpl. lia.
  - intros a Ha. rewrite list_lookup_insert_ne by lia. now apply lookup_app_l.
  - intros loc res' Eq. discriminate.
Qed.

(** C10  [hypoloc] and [hypolocPS] do not modify [hinit] (nor any other
    array of the caller): they return a fresh array, whose column 0 is
    column 0 of [hinit]. *)
Theorem hypoloc_leaves_hinit (data : list (obs F)) (rcv : list (point F))
    (V : F) (Vps : F * F) (hinit maxit : nat) (convh : F) (h : store F)
    (tbl : list (hyp F)) :
  h !! hinit = Some tbl ->
  let out := hypoloc solve svd data rcv V hinit maxit convh h in
  let outPS := hypolocPS solve svd data rcv Vps hinit maxit convh h in
  (snd out !! hinit = Some tbl /\
   (forall a, (a < length h)%nat -> snd out !! a = h !! a) /\
   forall loc res, fst out = Ok (loc, res) ->
     loc <> hinit /\
     exists tbl', snd out !! loc = Some tbl' /\ map h_id tbl' = map h_id tbl) /\
  (snd outPS !! hinit = Some tbl /\
   (forall a, (a < length h)%nat -> snd outPS !! a = h !! a) /\
   forall loc res, fst outPS = Ok (loc, res) ->
     loc <> hinit /\
     exists tbl', snd outPS !! loc = Some tbl' /\ map h_id tbl' = map h_id tbl).
Proof.
  intros Hh out outPS.
  assert (Hlt : (hinit < length h)%nat) by (now apply lookup_lt_Some in Hh).
  split.
  - destruct (copy_then_locate hinit h tbl
                (locate_events solve svd (np_unique (map o_id data))
                   (fun _ => Ok V) data rcv maxit convh) Hh) as [Hframe Hret].
    { intros loc. apply locate_events_ids. }
    fold out in Hframe, Hret.
    split; [rewrite Hframe by exact Hlt; exact Hh|]. split; assumption.
  - destruct (copy_then_locate hinit h tbl
                (locate_events solve svd (np_unique (map o_id data))
                   (fun o => rbind (to_int (o_ph o))
                                   (fun i => py_get [fst Vps; snd Vps] i))
                   data rcv maxit convh) Hh) as [Hframe Hret].
    { intros loc. apply locate_events_ids. }
    fold outPS in Hframe, Hret.
    split; [rewrite Hframe by exact Hlt; exact Hh|]. split; assumption.
Qed.

(** An error of the direct solver leaves the solve step as it is: the
    handler only guards the decomposition. *)
Lemma solve_step_solve_raises (Hm : list (list F)) (r : list F) (e : exn) :
  solve (HtH 4 Hm) (Htr 4 Hm r) = Raise e ->
  solve_step solve svd Hm r = Raise e.
Proof. intros E. unfold solve_step. now rewrite E. Qed.

(** A non-finite solution followed by a failed decomposition is the
    [break]: no error leaves the solve step. *)
Lemma solve_step_fallback_fails (Hm : list (list F)) (r dh : list F) :
  solve (HtH 4 Hm) (Htr 4 Hm r) = Ok dh -> forallb fisfinite dh = false ->
  svd (add_ridge (HtH 4 Hm)) = Raise LinAlgError ->
  solve_step solve svd Hm r = Ok None.
Proof.
  intros E Hfin Esvd. unfold solve_step. rewrite E. cbn [rbind].
  now rewrite Hfin, Esvd.
Qed.

(** A non-finite solution is replaced by the one of the decomposition of
    [HtH + 1e-9 I]. *)
Lemma solve_step_fallback (Hm : list (list F)) (r dh : list F)
    (U VVh : list (list F)) (Sv : list F) :
  solve (HtH 4 Hm) (Htr 4 Hm r) = Ok dh -> forallb fisfinite dh = false ->
  svd (add_ridge (HtH 4 Hm)) = Ok (U, Sv, VVh) ->
  solve_step solve svd Hm r
  = rbind (to_vec4 (svd_solve 4 U Sv VVh (Htr 4 Hm r))) (fun d => Ok (Some d)).
Proof.
  intros E Hfin Esvd. unfold solve_step. rewrite E. cbn [rbind].
  now rewrite Hfin, Esvd.
Qed.
End LocatorFacts.

(** C2 (fails on the code)  An event whose receivers lie on a line through
    the initial hypocenter has singular normal equations; the direct solver
    raises, outside the handler, and the error leaves [hypoloc] and
    [hypolocPS], whatever the decomposition would do. *)
Theorem hypoloc_singular_raises (svd : svd_t float) :
  fst (hypoloc gesv svd data_collinear rcv_collinear 1%float 0 10 1%float
               [hinit_origin]) = Raise LinAlgError /\
  fst (hypolocPS gesv svd data_collinear rcv_collinear (2, 1)%float 0 10 1%float
                 [hinit_origin]) = Raise LinAlgError.
Proof. split; vm_compute; reflexivity. Qed.

Lemma hypoloc_leaves_hinit_witness :
  let out := hypoloc gesv svd_fails data_star rcv_star 1%float 0 3
                     (1 / 100)%float [hyp0_centre_binary64] in
  exists res tbl' row,
    fst out = Ok (1%nat, res) /\
    snd out !! 0%nat = Some hyp0_centre_binary64 /\
    snd out !! 1%nat = Some tbl' /\
    map h_id tbl' = map h_id hyp0_centre_binary64 /\
    tbl' !! 0%nat = Some row /\ PrimFloat.ltb (h_x row) 1 = true.
Proof.
  intros out.
  destruct (hypoloc_leaves_hinit gesv svd_fails data_star rcv_star 1%float
              (1, 1)%float 0 3 (1 / 100)%float [hyp0_centre_binary64]
              hyp0_centre_binary64 eq_refl) as [(Hinit & _ & Hret) _].
  fold out in Hinit, Hret.
  destruct (fst out) as [[loc res]|e] eqn:E; [|vm_compute in E; discriminate].
  assert (Hloc : loc = 1%nat) by (vm_compute in E; now injection E as <- _).
  subst loc. destruct (Hret 1%nat res eq_refl) as (_ & tbl' & Etbl & Hid).
  assert (Erow : exists row, tbl' !! 0%nat = Some row /\
                             PrimFloat.ltb (h_x row) 1 = true).
  { vm_compute in Etbl. injection Etbl as <-. eexists. split; reflexivity. }
  destruct Erow as (row & Erow & Hx).
  exists res, tbl', row. repeat split; assumption.
Defined.

(** ** The relocators *)

Section RelocFacts.
Context {F : Type} `{Scalar F}.
Variable engine : engine_t F.
Variable lstsq : lstsq_t F.
Variable svd : svd_t F.

Lemma kept_refl (g : Grid3D.t F) (hyp0 : list (hyp F)) :
  Forall2 (kept_or_tested g) hyp0 hyp0.
Proof. apply Forall2_same_length_lookup. split; [reflexivity|].
  intros i h h' E1 E2. left. congruence. Qed.

Lemma kept_trans (g : Grid3D.t F) (a b c : list (hyp F)) :
  Forall2 (kept_or_tested g) a b -> Forall2 (kept_or_tested g) b c ->
  Forall2 (kept_or_tested g) a c.
Proof.
  intros Hab Hbc. revert c Hbc.
  induction Hab as [|h h' a b Hh Hab IH]; intros c Hbc;
    inversion Hbc as [|? h'' ? c' Hh' Hbc']; subst; constructor; [|auto].
  destruct Hh' as [->|[Hid Hout]]; [exact Hh|].
  right. split; [|exact Hout].
  destruct Hh as [->|[Hid' _]]; congruence.
Qed.

Lemma first_row_lookup (indh : list nat) (hyp0 : list (hyp F)) (i0 : nat)
    (h : hyp F) :
  first_row indh hyp0 = Ok (i0, h) -> hyp0 !! i0 = Some h.
Proof.
  unfold first_row. intros E.
  apply rbind_Ok in E as (j & _ & E). apply rbind_Ok in E as (h1 & E1 & E).
  injection E as <- <-. unfold item in E1.
  destruct (hyp0 !! j); [congruence|discriminate].
Qed.

Lemma kept_insert (g : Grid3D.t F) (hyp0 : list (hyp F)) (i0 : nat)
    (h h' : hyp F) :
  hyp0 !! i0 = Some h -> kept_or_tested g h h' ->
  Forall2 (kept_or_tested g) hyp0 (<[i0 := h']> hyp0).
Proof.
  intros Hi Hk. apply Forall2_same_length_lookup.
  split; [now rewrite length_insert|].
  intros i a b Ea Eb. destruct (decide (i = i0)) as [->|Hne].
  - rewrite list_lookup_insert_eq in Eb by (now apply lookup_lt_Some in Hi).
    injection Eb as <-. congruence.
  - rewrite list_lookup_insert_ne in Eb by auto. left. congruence.
Qed.

Lemma move4_kept (g : Grid3D.t F) (indh : list nat) (dh : vec4 F)
    (hyp0 hyp0' : list (hyp F)) :
  move4 g indh dh hyp0 = Ok (Some hyp0') ->
  Forall2 (kept_or_tested g) hyp0 hyp0'.
Proof.
  unfold move4. intros E. apply rbind_Ok in E as ([i0 h] & E0 & E).
  apply first_row_lookup in E0.
  destruct dh as [[[d0 d1] d2] d3]. cbn [fst snd] in E.
  apply rbind_Ok in E as (out & Eout & E).
  destruct out; [discriminate|]. injection E as <-.
  apply kept_insert with (h := h); [exact E0|]. right. split; [reflexivity|exact Eout].
Qed.

Lemma move2_kept (g : Grid3D.t F) (indh : list nat) (dh : F * F)
    (hyp0 hyp0' : list (hyp F)) :
  move2 g indh dh hyp0 = Ok (Some hyp0') ->
  Forall2 (kept_or_tested g) hyp0 hyp0'.
Proof.
  unfold move2. intros E. apply rbind_Ok in E as ([i0 h] & E0 & E).
  apply first_row_lookup in E0. cbn [fst snd] in E.
  apply rbind_Ok in E as (out & Eout & E).
  destruct out; [discriminate|]. injection E as <-.
  apply kept_insert with (h := h); [exact E0|]. right. split; [reflexivity|exact Eout].
Qed.

Lemma reloc_pass2_kept g indh nst stn tobs_ev s Hm hyp0 Hm' dh hyp0' :
  reloc_pass2 engine lstsq svd g indh nst stn tobs_ev s Hm hyp0
    = Ok (Hm', Moved dh hyp0') ->
  Forall2 (kept_or_tested g) hyp0 hyp0'.
Proof.
  unfold reloc_pass2. intros E.
  do 5 (apply rbind_Ok in E as (? & _ & E)).
  destruct x3 as [dl|]; [|discriminate].
  apply rbind_Ok in E as (d2 & _ & E).
  apply rbind_Ok in E as (mv & Emv & E).
  destruct mv as [t|]; [|discriminate]. injection E as _ _ <-.
  now apply move2_kept in Emv.
Qed.

Lemma reloc_pass4_kept g indh nst stn tobs_ev s Hm hyp0 Hm' dh hyp0' :
  reloc_pass4 engine lstsq svd g indh nst stn tobs_ev s Hm hyp0
    = Ok (Hm', Moved dh hyp0') ->
  Forall2 (kept_or_tested g) hyp0 hyp0'.
Proof.
  unfold reloc_pass4. intros E.
  do 5 (apply rbind_Ok in E as (? & _ & E)).
  destruct x3 as [dl|]; [|discriminate].
  apply rbind_Ok in E as (d4 & _ & E).
  apply rbind_Ok in E as (mv & Emv & E).
  destruct mv as [t|]; [|discriminate]. injection E as _ _ <-.
  now apply move4_kept in Emv.
Qed.

Lemma relocPS_pass2_kept g indh nstp nsts stnp stns tp ts s_p s_s Hm hyp0
    Hm' dh hyp0' :
  relocPS_pass2 engine lstsq svd g indh nstp nsts stnp stns tp ts s_p s_s
                Hm hyp0 = Ok (Hm', Moved dh hyp0') ->
  Forall2 (kept_or_tested g) hyp0 hyp0'.
Proof.
  unfold relocPS_pass2. intros E.
  do 4 (apply rbind_Ok in E as (? & _ & E)).
  destruct x2 as [dl|]; [|discriminate].
  apply rbind_Ok in E as (d2 & _ & E).
  apply rbind_Ok in E as (mv & Emv & E).
  destruct mv as [t|]; [|discriminate]. injection E as _ _ <-.
  now apply move2_kept in Emv.
Qed.

Lemma relocPS_pass4_kept par g indh nstp nsts stnp stns tp ts s_p s_s Hm hyp0
    Hm' dh hyp0' :
  relocPS_pass4 engine lstsq svd par g indh nstp nsts stnp stns tp ts s_p s_s
                Hm hyp0 = Ok (Hm', Moved dh hyp0') ->
  Forall2 (kept_or_tested g) hyp0 hyp0'.
Proof.
  unfold relocPS_pass4. intros E.
  do 4 (apply rbind_Ok in E as (? & _ & E)).
  destruct x2 as [dl|]; [|discriminate].
  apply rbind_Ok in E as ([[[d0 d1] d2] d3] & _ & E).
  apply rbind_Ok in E as (mv & Emv & E).
  destruct mv as [t|]; [|discriminate]. injection E as _ _ <-.
  now apply move4_kept in Emv.
Qed.

Lemma reloc_loop2_kept n conv g indh nst stn tobs_ev s Hm hyp0 :
  Forall2 (kept_or_tested g) hyp0
    (snd (reloc_loop2 engine lstsq svd n conv g indh nst stn tobs_ev s Hm hyp0)).
Proof.
  revert Hm hyp0. induction n as [|n IH]; intros Hm hyp0; simpl; [apply kept_refl|].
  destruct (reloc_pass2 _ _ _ _ _ _ _ _ _ _ _) as [[Hm' [e|dh hyp0']]|e] eqn:E;
    simpl; try apply kept_refl.
  apply reloc_pass2_kept in E.
  destruct (converged2 conv dh); simpl; [exact E|].
  eapply kept_trans; [exact E|apply IH].
Qed.

Lemma reloc_loop4_kept n conv g indh nst stn tobs_ev s Hm hyp0 :
  Forall2 (kept_or_tested g) hyp0
    (snd (reloc_loop4 engine lstsq svd n conv g indh nst stn tobs_ev s Hm hyp0)).
Proof.
  revert Hm hyp0. induction n as [|n IH]; intros Hm hyp0; simpl; [apply kept_refl|].
  destruct (reloc_pass4 _ _ _ _ _ _ _ _ _ _ _) as [[Hm' [e|dh hyp0']]|e] eqn:E;
    simpl; try apply kept_refl.
  apply reloc_pass4_kept in E.
  destruct (converged conv dh); simpl; [exact E|].
  eapply kept_trans; [exact E|apply IH].
Qed.

Lemma relocPS_loop2_kept n conv g indh nstp nsts stnp stns tp ts s_p s_s Hm hyp0 :
  Forall2 (kept_or_tested g) hyp0
    (snd (relocPS_loop2 engine lstsq svd n conv g indh nstp nsts stnp stns
                        tp ts s_p s_s Hm hyp0)).
Proof.
  revert Hm hyp0. induction n as [|n IH]; intros Hm hyp0; simpl; [apply kept_refl|].
  destruct (relocPS_pass2 _ _ _ _ _ _ _ _ _ _ _ _ _ _ _)
    as [[Hm' [e|dh hyp0']]|e] eqn:E; simpl; try apply kept_refl.
  apply relocPS_pass2_kept in E.
  destruct (converged2 conv dh); simpl; [exact E|].
  eapply kept_trans; [exact E|apply IH].
Qed.

Lemma relocPS_loop4_kept n par g indh nstp nsts stnp stns tp ts s_p s_s Hm hyp0 :
  Forall2 (kept_or_tested g) hyp0
    (snd (relocPS_loop4 engine lstsq svd n par g indh nstp nsts stnp stns
                        tp ts s_p s_s Hm hyp0)).
Proof.
  revert Hm hyp0. induction n as [|n IH]; intros Hm hyp0; simpl; [apply kept_refl|].
  destruct (relocPS_pass4 _ _ _ _ _ _ _ _ _ _ _ _ _ _ _ _)
    as [[Hm' [e|dh hyp0']]|e] eqn:E; simpl; try apply kept_refl.
  apply relocPS_pass4_kept in E.
  destruct (converged (conv_hypo par) dh); simpl; [exact E|].
  eapply kept_trans; [exact E|apply IH].
Qed.

(** Whatever the raytracer and the solvers return, and however it ends, a
    relocation leaves every row as it was or at a tested position. *)
Lemma reloc_kept ne par g evID hyp0 data rcv tobs s :
  Forall2 (kept_or_tested g) hyp0
    (snd (_reloc engine lstsq svd ne par g evID hyp0 data rcv tobs s)).
Proof.
  unfold _reloc.
  destruct (rbind _ _) as [[[[indh nst] stn] tobs_ev]|e]; simpl; [|apply kept_refl].
  destruct (hypo_2step par).
  - pose proof (reloc_loop2_kept (maxit_hypo par) (conv_hypo par) g indh nst stn
                  tobs_ev s (repeat [fone; fone] nst) hyp0) as E2.
    destruct (reloc_loop2 _ _ _ _ _ _ _ _ _ _ _ _ _) as [[[e|]|e] hyp1];
      simpl in *; try exact E2.
    eapply kept_trans; [exact E2|apply reloc_loop4_kept].
  - apply reloc_loop4_kept.
Qed.

Lemma relocPS_kept ne par g evID hyp0 data rcv tobs s ind :
  Forall2 (kept_or_tested g) hyp0
    (snd (_relocPS engine lstsq svd ne par g evID hyp0 data rcv tobs s ind)).
Proof.
  unfold _relocPS.
  destruct (rbind _ _) as [[[[indh [nstp nsts]] [stnp stns]] [tp ts]]|e]; simpl;
    [|apply kept_refl].
  destruct (hypo_2step par).
  - pose proof (relocPS_loop2_kept (maxit_hypo par) (conv_hypo par) g indh
                  nstp nsts stnp stns tp ts (fst s) (snd s)
                  (repeat [fone; fone] (nstp + nsts)) hyp0) as E2.
    destruct (relocPS_loop2 _ _ _ _ _ _ _ _ _ _ _ _ _ _ _ _ _)
      as [[[e|]|e] hyp1]; simpl in *; try exact E2.
    eapply kept_trans; [exact E2|apply relocPS_loop4_kept].
  - apply relocPS_loop4_kept.
Qed.

Lemma relocate_all_kept nes par g evID hyp0 data rcv tobs s :
  Forall2 (kept_or_tested g) hyp0
    (snd (relocate_all engine lstsq svd nes par g evID hyp0 data rcv tobs s)).
Proof.
  revert hyp0. induction nes as [|ne nes IH]; intros hyp0; simpl; [apply kept_refl|].
  pose proof (reloc_kept ne par g evID hyp0 data rcv tobs s) as E.
  destruct (_reloc _ _ _ _ _ _ _ _ _ _ _ _) as [[x|e] hyp1]; simpl in *;
    [|exact E].
  eapply kept_trans; [exact E|apply IH].
Qed.

Lemma relocate_all_PS_kept nes par g evID hyp0 data rcv tobs s ind :
  Forall2 (kept_or_tested g) hyp0
    (snd (relocate_all_PS engine lstsq svd nes par g evID hyp0 data rcv tobs s ind)).
Proof.
  revert hyp0. induction nes as [|ne nes IH]; intros hyp0; simpl; [apply kept_refl|].
  pose proof (relocPS_kept ne par g evID hyp0 data rcv tobs s ind) as E.
  destruct (_relocPS _ _ _ _ _ _ _ _ _ _ _ _ _) as [[x|e] hyp1]; simpl in *;
    [|exact E].
  eapply kept_trans; [exact E|apply IH].
Qed.
End RelocFacts.

(** ** The order of the elements *)

Section SpecFloatOrder.

Lemma SFcompare_None (x y : spec_float) :
  SFcompare x y = None <-> sf_num x = false \/ sf_num y = false.
Proof.
  destruct x as [sx|sx| |sx mx ex], y as [sy|sy| |sy my ey]; simpl;
    split; try tauto; try discriminate; intros [E|E]; discriminate.
Qed.

Lemma SFcompare_refl (x : spec_float) :
  sf_num x = true -> SFcompare x x = Some Eq.
Proof.
  destruct x as [sx|sx| |sx mx ex]; simpl; try discriminate; intros _.
  - reflexivity.
  - now destruct sx.
  - change (Pos.compare_cont Eq mx mx) with (Pos.compare mx mx).
    destruct sx; rewrite Z.compare_refl, Pos.compare_refl; reflexivity.
Qed.

Lemma SFcompare_antisym (x y : spec_float) :
  SFcompare y x = option_map CompOpp (SFcompare x y).
Proof.
  destruct x as [sx|sx| |sx mx ex], y as [sy|sy| |sy my ey]; simpl;
    try reflexivity; try (destruct sx; reflexivity); try (destruct sy; reflexivity);
    try (destruct sx, sy; reflexivity).
  change (Pos.compare_cont Eq my mx) with (Pos.compare my mx).
  change (Pos.compare_cont Eq mx my) with (Pos.compare mx my).
  destruct sx, sy; try reflexivity;
    rewrite (Z.compare_antisym ex ey), (Pos.compare_antisym mx my);
    destruct (ex ?= ey); simpl; try reflexivity;
    destruct (mx ?= my)%positive; reflexivity.
Qed.

Lemma SFleb_trans (x y z : spec_float) :
  SFleb x y = true -> SFleb y z = true -> SFleb x z = true.
Proof.
  unfold SFleb.
  destruct x as [sx|sx| |sx mx ex], y as [sy|sy| |sy my ey], z as [sz|sz| |sz mz ez];
    simpl; try discriminate; try reflexivity;
    try (destruct sx; simpl; try discriminate; try reflexivity);
    try (destruct sy; simpl; try discriminate; try reflexivity);
    try (destruct sz; simpl; try discriminate; try reflexivity);
    change (Pos.compare_cont Eq mx my) with (Pos.compare mx my);
    change (Pos.compare_cont Eq my mz) with (Pos.compare my mz);
    change (Pos.compare_cont Eq mx mz) with (Pos.compare mx mz);
    destruct (Z.compare_spec ex ey), (Z.compare_spec ey ez), (Z.compare_spec ex ez);
    simpl; try discriminate; try reflexivity; try lia; subst;
    destruct (Pos.compare_spec mx my), (Pos.compare_spec my mz), (Pos.compare_spec mx mz);
    simpl; try discriminate; try reflexivity; try lia.
Qed.

Lemma float_isnan (a : float) :
  @fisnan float Scalar_float a = negb (sf_num (Prim2SF a)).
Proof.
  unfold fisnan. cbn [feqb Scalar_float]. rewrite FloatAxioms.eqb_spec. unfold SFeqb.
  destruct (sf_num (Prim2SF a)) eqn:E.
  - now rewrite SFcompare_refl.
  - destruct (SFcompare (Prim2SF a) (Prim2SF a)) eqn:E'; [|reflexivity].
    assert (N : SFcompare (Prim2SF a) (Prim2SF a) = None)
      by (apply SFcompare_None; now left).
    congruence.
Qed.

Lemma SFcompare_Some_num (x y : spec_float) (c : comparison) :
  SFcompare x y = Some c -> sf_num x = true /\ sf_num y = true.
Proof.
  intros E. destruct (sf_num x) eqn:Ex, (sf_num y) eqn:Ey; auto;
    assert (N : SFcompare x y = None) by (apply SFcompare_None; auto);
    congruence.
Qed.
End SpecFloatOrder.

#[export] Instance OrderedScalar_float : OrderedScalar float.
Proof.
  split.
  - intros a b. cbn [fleb Scalar_float]. rewrite FloatAxioms.leb_spec, !float_isnan.
    unfold SFleb. destruct (SFcompare _ _) as [c|] eqn:E; [|discriminate].
    intros _. apply SFcompare_Some_num in E as [-> ->]. now split.
  - intros a b. cbn [fltb Scalar_float]. rewrite FloatAxioms.ltb_spec, !float_isnan.
    unfold SFltb. destruct (SFcompare _ _) as [c|] eqn:E; [|discriminate].
    intros _. apply SFcompare_Some_num in E as [-> ->]. now split.
  - intros a b. rewrite !float_isnan. cbn [fltb fleb Scalar_float].
    rewrite FloatAxioms.ltb_spec, FloatAxioms.leb_spec. unfold SFltb, SFleb.
    rewrite (SFcompare_antisym (Prim2SF a) (Prim2SF b)).
    intros Ha Hb. destruct (SFcompare (Prim2SF a) (Prim2SF b)) as [[]|] eqn:E;
      try reflexivity.
    apply SFcompare_None in E. destruct E as [E|E]; rewrite E in *; discriminate.
  - intros a b. cbn [fltb fleb Scalar_float]. rewrite FloatAxioms.ltb_spec, FloatAxioms.leb_spec.
    unfold SFltb, SFleb. destruct (SFcompare _ _) as [[]|]; congruence.
  - intros a. rewrite float_isnan. cbn [fleb Scalar_float]. rewrite FloatAxioms.leb_spec.
    unfold SFleb. intros Ha. rewrite SFcompare_refl; [reflexivity|].
    now destruct (sf_num (Prim2SF a)).
  - intros a b c. cbn [fleb Scalar_float]. rewrite !FloatAxioms.leb_spec. apply SFleb_trans.
  - intros a. cbn [fltb fopp fzero Scalar_float]. rewrite !FloatAxioms.ltb_spec, FloatAxioms.opp_spec.
    change (Prim2SF 0%float) with (S754_zero false).
    destruct (Prim2SF a) as [s|s| |s m e]; try destruct s; cbv;
      congruence.
Qed.

#[export] Instance OrderedScalar_Q : OrderedScalar Q.
Proof.
  assert (Hnan : forall a : Q, fisnan a = false).
  { intros a. unfold fisnan. cbn. now rewrite (proj2 (Qeq_bool_iff a a) (Qeq_refl a)). }
  split; cbn [fleb fltb fopp fzero Scalar_Q]; intros.
  - now rewrite !Hnan.
  - now rewrite !Hnan.
  - reflexivity.
  - apply Qltb_true_iff in H. apply Qle_bool_iff. lra.
  - apply Qle_bool_iff. lra.
  - apply Qle_bool_iff in H, H0. apply Qle_bool_iff. lra.
  - apply Qltb_true_iff in H. apply Qltb_true_iff. lra.
Qed.

(** ** The smallest and the largest coordinate *)

Section OrderFacts.
Context {F : Type} {SF : Scalar F} {OS : OrderedScalar F}.

Lemma fltb_nan_l (a b : F) : fisnan a = true -> fltb a b = false.
Proof.
  intros Ha. destruct (fltb a b) eqn:E; [|reflexivity].
  apply fltb_num in E as [E _]. congruence.
Qed.

Lemma fltb_nan_r (a b : F) : fisnan b = true -> fltb a b = false.
Proof.
  intros Hb. destruct (fltb a b) eqn:E; [|reflexivity].
  apply fltb_num in E as [_ E]. congruence.
Qed.

Lemma fleb_nan_r (a b : F) : fisnan b = true -> fleb a b = false.
Proof.
  intros Hb. destruct (fleb a b) eqn:E; [|reflexivity].
  apply fleb_num in E as [_ E]. congruence.
Qed.

Lemma fleb_total (a b : F) :
  fisnan a = false -> fisnan b = false -> fleb a b = false -> fleb b a = true.
Proof.
  intros Ha Hb E. apply fltb_leb. rewrite fltb_fleb by assumption. now rewrite E.
Qed.

Lemma fltb_false_iff (a b : F) :
  fisnan a = false -> fisnan b = false -> (fltb a b = false <-> fleb b a = true).
Proof.
  intros Ha Hb. rewrite fltb_fleb by assumption.
  destruct (fleb b a); simpl; split; congruence.
Qed.

Lemma fltb_irrefl (a : F) : fltb a a = false.
Proof.
  destruct (fisnan a) eqn:Ha; [now apply fltb_nan_l|].
  rewrite fltb_fleb by assumption. now rewrite fleb_refl.
Qed.

Lemma fold_fmin_nan (l : list F) (a : F) :
  fisnan a = true -> fold_left fmin l a = a.
Proof.
  intros Ha. induction l as [|b l IH]; simpl; [reflexivity|].
  unfold fmin at 2. now rewrite Ha.
Qed.

Lemma fold_fmax_nan (l : list F) (a : F) :
  fisnan a = true -> fold_left fmax l a = a.
Proof.
  intros Ha. induction l as [|b l IH]; simpl; [reflexivity|].
  unfold fmax at 2. now rewrite Ha.
Qed.

(** A NaN among the values makes [np.min] and [np.max] NaN. *)
Lemma fold_fmin_has_nan (l : list F) (a : F) :
  (exists c, In c (a :: l) /\ fisnan c = true) ->
  fisnan (fold_left fmin l a) = true.
Proof.
  revert a. induction l as [|b l IH]; intros a (c & Hc & Hn); simpl.
  - destruct Hc as [<-|[]]. exact Hn.
  - apply IH. destruct (fisnan a) eqn:Ha.
    + exists a. split; [left|exact Ha]. unfold fmin. now rewrite Ha.
    + destruct Hc as [<-|[<-|Hc]]; [congruence| |].
      * exists b. split; [left|exact Hn]. unfold fmin.
        now rewrite Ha, (fleb_nan_r a b Hn).
      * exists c. split; [now right|exact Hn].
Qed.

Lemma fold_fmax_has_nan (l : list F) (a : F) :
  (exists c, In c (a :: l) /\ fisnan c = true) ->
  fisnan (fold_left fmax l a) = true.
Proof.
  revert a. induction l as [|b l IH]; intros a (c & Hc & Hn); simpl.
  - destruct Hc as [<-|[]]. exact Hn.
  - apply IH. destruct (fisnan a) eqn:Ha.
    + exists a. split; [left|exact Ha]. unfold fmax. now rewrite Ha.
    + destruct Hc as [<-|[<-|Hc]]; [congruence| |].
      * exists b. split; [left|exact Hn]. unfold fmax. rewrite Ha.
        destruct (fleb b a) eqn:E; [|reflexivity].
        apply fleb_num in E as [E _]. congruence.
      * exists c. split; [now right|exact Hn].
Qed.

(** Without NaN they are a lower and an upper bound of the values. *)
Lemma fold_fmin_num (l : list F) (a : F) :
  (forall c, In c (a :: l) -> fisnan c = false) ->
  fisnan (fold_left fmin l a) = false /\
  forall c, In c (a :: l) -> fleb (fold_left fmin l a) c = true.
Proof.
  revert a. induction l as [|b l IH]; intros a Hn; simpl.
  - split; [apply Hn; now left|]. intros c [<-|[]]. apply fleb_refl, Hn. now left.
  - assert (Ha : fisnan a = false) by (apply Hn; now left).
    assert (Hb : fisnan b = false) by (apply Hn; right; now left).
    assert (Hm : fisnan (fmin a b) = false /\ fleb (fmin a b) a = true /\
                 fleb (fmin a b) b = true).
    { unfold fmin. rewrite Ha. cbn [orb]. destruct (fleb a b) eqn:E.
      - split; [exact Ha|]. split; [now apply fleb_refl|exact E].
      - split; [exact Hb|]. split; [now apply fleb_total|now apply fleb_refl]. }
    destruct Hm as (Hm & Hma & Hmb).
    destruct (IH (fmin a b)) as [IH1 IH2].
    { intros c [<-|Hc]; [exact Hm|]. apply Hn. right. now right. }
    split; [exact IH1|].
    intros c [<-|[<-|Hc]].
    + eapply fleb_trans; [apply IH2; now left|exact Hma].
    + eapply fleb_trans; [apply IH2; now left|exact Hmb].
    + apply IH2. now right.
Qed.

Lemma fold_fmax_num (l : list F) (a : F) :
  (forall c, In c (a :: l) -> fisnan c = false) ->
  fisnan (fold_left fmax l a) = false /\
  forall c, In c (a :: l) -> fleb c (fold_left fmax l a) = true.
Proof.
  revert a. induction l as [|b l IH]; intros a Hn; simpl.
  - split; [apply Hn; now left|]. intros c [<-|[]]. apply fleb_refl, Hn. now left.
  - assert (Ha : fisnan a = false) by (apply Hn; now left).
    assert (Hb : fisnan b = false) by (apply Hn; right; now left).
    assert (Hm : fisnan (fmax a b) = false /\ fleb a (fmax a b) = true /\
                 fleb b (fmax a b) = true).
    { unfold fmax. rewrite Ha. cbn [orb]. destruct (fleb b a) eqn:E.
      - split; [exact Ha|]. split; [now apply fleb_refl|exact E].
      - split; [exact Hb|]. split; [now apply fleb_total|now apply fleb_refl]. }
    destruct Hm as (Hm & Hma & Hmb).
    destruct (IH (fmax a b)) as [IH1 IH2].
    { intros c [<-|Hc]; [exact Hm|]. apply Hn. right. now right. }
    split; [exact IH1|].
    intros c [<-|[<-|Hc]].
    + eapply fleb_trans; [exact Hma|apply IH2; now left].
    + eapply fleb_trans; [exact Hmb|apply IH2; now left].
    + apply IH2. now right.
Qed.

Lemma nan_dec (l : list F) :
  (exists c, In c l /\ fisnan c = true) \/ (forall c, In c l -> fisnan c = false).
Proof.
  induction l as [|a l [(c & Hc & Hn)|IH]].
  - right. intros c [].
  - left. exists c. split; [now right|exact Hn].
  - destruct (fisnan a) eqn:Ha.
    + left. exists a. split; [now left|exact Ha].
    + right. intros c [<-|Hc]; auto.
Qed.

(** The test of the smallest coordinate against the first node, and of the
    largest against the last. *)
Lemma np_min_test (l : list F) (lo : F) :
  l <> [] -> fisnan lo = false ->
  exists m, np_min l = Ok m /\
    (fltb m lo = false <->
     (exists c, In c l /\ fisnan c = true) \/
     (forall c, In c l -> fleb lo c = true)).
Proof.
  intros Hl Hlo. destruct l as [|a l]; [congruence|].
  eexists. split; [reflexivity|].
  destruct (nan_dec (a :: l)) as [Hn|Hn].
  - split; [intros _; now left|]. intros _.
    now apply fltb_nan_l, fold_fmin_has_nan.
  - destruct (fold_fmin_num l a Hn) as [Hm Hle].
    rewrite (fltb_false_iff _ _ Hm Hlo). split.
    + intros E. right. intros c Hc. eapply fleb_trans; [exact E|now apply Hle].
    + intros [(c & Hc & Hc')|Hall].
      * rewrite (Hn c Hc) in Hc'. discriminate.
      * apply Hall. apply (np_min_In (a :: l)). reflexivity.
Qed.

Lemma np_max_test (l : list F) (hi : F) :
  l <> [] -> fisnan hi = false ->
  exists m, np_max l = Ok m /\
    (fltb hi m = false <->
     (exists c, In c l /\ fisnan c = true) \/
     (forall c, In c l -> fleb c hi = true)).
Proof.
  intros Hl Hhi. destruct l as [|a l]; [congruence|].
  eexists. split; [reflexivity|].
  destruct (nan_dec (a :: l)) as [Hn|Hn].
  - split; [intros _; now left|]. intros _.
    now apply fltb_nan_r, fold_fmax_has_nan.
  - destruct (fold_fmax_num l a Hn) as [Hm Hle].
    rewrite (fltb_false_iff _ _ Hhi Hm). split.
    + intros E. right. intros c Hc. eapply fleb_trans; [now apply Hle|exact E].
    + intros [(c & Hc & Hc')|Hall].
      * rewrite (Hn c Hc) in Hc'. discriminate.
      * apply Hall. apply (np_max_In (a :: l)). reflexivity.
Qed.
End OrderFacts.

(** ** Positions and the bounds of the grid *)

Lemma py_get_0_head {A} (l : list A) (a : A) : py_get l 0 = Ok a -> head l = Some a.
Proof.
  unfold py_get. cbn [Z.ltb Z.compare].
  destruct ((0 <=? 0)%Z && (0 <? Z.of_nat (length l))%Z); [|discriminate].
  change (Z.to_nat 0) with 0%nat. destruct l as [|b l]; simpl; [discriminate|].
  congruence.
Qed.

Lemma py_get_m1_last {A} (l : list A) (a : A) : py_get l (-1) = Ok a -> last l = Some a.
Proof.
  unfold py_get. cbn [Z.ltb Z.compare].
  destruct ((0 <=? Z.of_nat (length l) + -1)%Z &&
            (Z.of_nat (length l) + -1 <? Z.of_nat (length l))%Z) eqn:E;
    [|discriminate].
  replace (Z.to_nat (Z.of_nat (length l) + -1)) with (length l - 1)%nat by lia.
  rewrite last_lookup.
  replace (Nat.pred (length l)) with (length l - 1)%nat by lia.
  destruct (l !! (length l - 1)%nat); [congruence|discriminate].
Qed.

Lemma py_get_ends {A} (l : list A) :
  l <> [] -> exists lo hi, py_get l 0 = Ok lo /\ py_get l (-1) = Ok hi /\
                           head l = Some lo /\ last l = Some hi.
Proof.
  intros Hl. destruct l as [|a l]; [congruence|].
  exists a, (nth (length (a :: l) - 1) (a :: l) a).
  assert (E0 : py_get (a :: l) 0 = Ok a).
  { rewrite (py_get_nth _ 0 a) by (cbn [length]; lia). reflexivity. }
  assert (E1 : py_get (a :: l) (-1) = Ok (nth (length (a :: l) - 1) (a :: l) a))
    by (apply py_get_last; discriminate).
  repeat split; auto. now apply py_get_m1_last.
Qed.

Section BoundsFacts.
Context {F : Type} {SF : Scalar F} {OS : OrderedScalar F}.
Import Grid3D.

Lemma py_get_of_ends {A} (l : list A) (lo hi : A) :
  head l = Some lo -> last l = Some hi ->
  py_get l 0 = Ok lo /\ py_get l (-1) = Ok hi.
Proof.
  intros Hlo Hhi.
  destruct (py_get_ends l) as (lo' & hi' & E0 & E1 & H0 & H1).
  { intros ->. discriminate. }
  rewrite Hlo in H0. rewrite Hhi in H1. injection H0 as <-. injection H1 as <-.
  now split.
Qed.

Lemma axis_tests (ax col : list F) (lo hi mn mx : F) :
  head ax = Some lo -> last ax = Some hi ->
  (fltb mn lo = false <->
   (exists c, In c col /\ fisnan c = true) \/
   (forall c, In c col -> fleb lo c = true)) ->
  (fltb hi mx = false <->
   (exists c, In c col /\ fisnan c = true) \/
   (forall c, In c col -> fleb c hi = true)) ->
  (fltb mn lo = false /\ fltb hi mx = false <-> axis_passes ax col).
Proof.
  intros Hlo Hhi T1 T2. rewrite T1, T2. unfold axis_passes. split.
  - intros [[Hn|H1] [Hn'|H2]]; exists lo, hi; repeat split; auto.
  - intros (lo' & hi' & E1 & E2 & Hp).
    rewrite Hlo in E1. rewrite Hhi in E2. injection E1 as <-. injection E2 as <-.
    destruct Hp as [Hn|Hp]; [split; now left|].
    split; right; intros c Hc; now apply Hp.
Qed.

(** On a batch that is not empty [isOutside] returns, and it returns
    [False] exactly when the coordinates pass the tests of every axis. *)
Lemma isOutside_tests (g : t F) (pts : list (point F)) :
  numeric_bounds g -> pts <> [] ->
  exists b, isOutside g pts = Ok b /\ (b = false <-> tests_pass g pts).
Proof.
  intros Hg Hp.
  destruct (Hg (x g)) as (xlo & xhi & Hx0 & Hx1 & Nx0 & Nx1); [now left|].
  destruct (Hg (y g)) as (ylo & yhi & Hy0 & Hy1 & Ny0 & Ny1); [right; now left|].
  destruct (Hg (z g)) as (zlo & zhi & Hz0 & Hz1 & Nz0 & Nz1);
    [right; right; now left|].
  destruct (py_get_of_ends _ _ _ Hx0 Hx1) as [Ex0 Ex1].
  destruct (py_get_of_ends _ _ _ Hy0 Hy1) as [Ey0 Ey1].
  destruct (py_get_of_ends _ _ _ Hz0 Hz1) as [Ez0 Ez1].
  assert (Hmap : forall (f : point F -> F), map f pts <> [])
    by (intros f; destruct pts; simpl; congruence).
  unfold isOutside, tests_pass.
  destruct (np_min_test (map px pts) xlo (Hmap _) Nx0) as (m1 & -> & T1).
  destruct (np_max_test (map px pts) xhi (Hmap _) Nx1) as (m2 & -> & T2).
  destruct (np_min_test (map py pts) ylo (Hmap _) Ny0) as (m3 & -> & T3).
  destruct (np_max_test (map py pts) yhi (Hmap _) Ny1) as (m4 & -> & T4).
  destruct (np_min_test (map pz pts) zlo (Hmap _) Nz0) as (m5 & -> & T5).
  destruct (np_max_test (map pz pts) zhi (Hmap _) Nz1) as (m6 & -> & T6).
  rewrite Ex0, Ex1, Ey0, Ey1, Ez0, Ez1. cbn [rbind].
  pose proof (axis_tests _ _ _ _ _ _ Hx0 Hx1 T1 T2) as AX.
  pose proof (axis_tests _ _ _ _ _ _ Hy0 Hy1 T3 T4) as AY.
  pose proof (axis_tests _ _ _ _ _ _ Hz0 Hz1 T5 T6) as AZ.
  clear T1 T2 T3 T4 T5 T6.
  destruct (fltb m1 xlo); [exists true; split; [reflexivity|]; split; [discriminate|]; intros Hc; exfalso; intuition discriminate|].
  destruct (fltb xhi m2); [exists true; split; [reflexivity|]; split; [discriminate|]; intros Hc; exfalso; intuition discriminate|].
  destruct (fltb m3 ylo); [exists true; split; [reflexivity|]; split; [discriminate|]; intros Hc; exfalso; intuition discriminate|].
  destruct (fltb yhi m4); [exists true; split; [reflexivity|]; split; [discriminate|]; intros Hc; exfalso; intuition discriminate|].
  destruct (fltb m5 zlo); [exists true; split; [reflexivity|]; split; [discriminate|]; intros Hc; exfalso; intuition discriminate|].
  exists (fltb zhi m6). split; [reflexivity|]. tauto.
Qed.

(** A point inside the grid has no NaN coordinate, and the first and last
    nodes of the grid are then numbers. *)
Lemma inside_no_nan (g : t F) (p : point F) : inside_grid g p -> no_nan p.
Proof.
  intros (xlo & xhi & ylo & yhi & zlo & zhi & _ & _ & _ & _ & _ & _ &
          [X _] & [Y _] & [Z _]).
  apply fleb_num in X as [_ X], Y as [_ Y], Z as [_ Z]. now repeat split.
Qed.

Lemma inside_numeric_bounds (g : t F) (p : point F) :
  inside_grid g p -> numeric_bounds g.
Proof.
  intros (xlo & xhi & ylo & yhi & zlo & zhi & Hx0 & Hx1 & Hy0 & Hy1 & Hz0 & Hz1 &
          [X0 X1] & [Y0 Y1] & [Z0 Z1]).
  apply fleb_num in X0 as [X0 _], X1 as [_ X1], Y0 as [Y0 _], Y1 as [_ Y1],
                    Z0 as [Z0 _], Z1 as [_ Z1].
  intros ax [<-|[<-|[<-|[]]]]; eauto 10.
Qed.

(** For points without NaN, passing the tests is lying inside. *)
Lemma tests_pass_inside (g : t F) (pts : list (point F)) :
  numeric_bounds g -> (forall p, In p pts -> no_nan p) ->
  (tests_pass g pts <-> forall p, In p pts -> inside_grid g p).
Proof.
  intros Hg Hn.
  destruct (Hg (x g)) as (xlo & xhi & Hx0 & Hx1 & _); [now left|].
  destruct (Hg (y g)) as (ylo & yhi & Hy0 & Hy1 & _); [right; now left|].
  destruct (Hg (z g)) as (zlo & zhi & Hz0 & Hz1 & _); [right; right; now left|].
  split.
  - intros ((a1 & a2 & A1 & A2 & HX) & (b1 & b2 & B1 & B2 & HY) &
            (c1 & c2 & C1 & C2 & HZ)) p Hp.
    destruct (Hn p Hp) as (Nx & Ny & Nz).
    exists a1, a2, b1, b2, c1, c2. repeat split; auto.
    + destruct HX as [(c & Hc & Hc')|HX]; [|apply HX, in_map; exact Hp].
      apply in_map_iff in Hc as (q & <- & Hq). destruct (Hn q Hq) as (E & _).
      congruence.
    + destruct HX as [(c & Hc & Hc')|HX]; [|apply HX, in_map; exact Hp].
      apply in_map_iff in Hc as (q & <- & Hq). destruct (Hn q Hq) as (E & _).
      congruence.
    + destruct HY as [(c & Hc & Hc')|HY]; [|apply HY, in_map; exact Hp].
      apply in_map_iff in Hc as (q & <- & Hq). destruct (Hn q Hq) as (_ & E & _).
      congruence.
    + destruct HY as [(c & Hc & Hc')|HY]; [|apply HY, in_map; exact Hp].
      apply in_map_iff in Hc as (q & <- & Hq). destruct (Hn q Hq) as (_ & E & _).
      congruence.
    + destruct HZ as [(c & Hc & Hc')|HZ]; [|apply HZ, in_map; exact Hp].
      apply in_map_iff in Hc as (q & <- & Hq). destruct (Hn q Hq) as (_ & _ & E).
      congruence.
    + destruct HZ as [(c & Hc & Hc')|HZ]; [|apply HZ, in_map; exact Hp].
      apply in_map_iff in Hc as (q & <- & Hq). destruct (Hn q Hq) as (_ & _ & E).
      congruence.
  - intros Hall. repeat split.
    + exists xlo, xhi. split; [exact Hx0|]. split; [exact Hx1|]. right.
      intros c Hc. apply in_map_iff in Hc as (q & <- & Hq).
      destruct (Hall q Hq) as (a1 & a2 & b1 & b2 & c1 & c2 & A1 & A2 & _ & _ & _ &
                               _ & X & _).
      congruence.
    + exists ylo, yhi. split; [exact Hy0|]. split; [exact Hy1|]. right.
      intros c Hc. apply in_map_iff in Hc as (q & <- & Hq).
      destruct (Hall q Hq) as (a1 & a2 & b1 & b2 & c1 & c2 & _ & _ & B1 & B2 & _ &
                               _ & _ & Y & _).
      congruence.
    + exists zlo, zhi. split; [exact Hz0|]. split; [exact Hz1|]. right.
      intros c Hc. apply in_map_iff in Hc as (q & <- & Hq).
      destruct (Hall q Hq) as (a1 & a2 & b1 & b2 & c1 & c2 & _ & _ & _ & _ & C1 &
                               C2 & _ & _ & Z).
      congruence.
Qed.

(** On a batch without NaN, [isOutside] answers [False] exactly when every
    point lies inside the grid. *)
Lemma isOutside_decides (g : t F) (pts : list (point F)) :
  numeric_bounds g -> pts <> [] -> (forall p, In p pts -> no_nan p) ->
  exists b, isOutside g pts = Ok b /\
            (b = false <-> forall p, In p pts -> inside_grid g p).
Proof.
  intros Hg Hp Hn. destruct (isOutside_tests g pts Hg Hp) as (b & E & Hb).
  exists b. split; [exact E|]. rewrite Hb. now apply tests_pass_inside.
Qed.

(** Points inside the grid pass. *)
Lemma isOutside_inside (g : t F) (pts : list (point F)) :
  pts <> [] -> (forall p, In p pts -> inside_grid g p) ->
  isOutside g pts = Ok false.
Proof.
  intros Hp Hin.
  assert (Hg : numeric_bounds g).
  { destruct pts as [|p pts]; [congruence|].
    apply (inside_numeric_bounds g p), Hin. now left. }
  destruct (isOutside_decides g pts Hg Hp) as (b & -> & Hb).
  { intros p Hp'. now apply (inside_no_nan g), Hin. }
  f_equal. now apply Hb.
Qed.
End BoundsFacts.

(** ** Relocations and the bounds of the grid *)

Section RelocBounds.
Context {F : Type} {SF : Scalar F} {OS : OrderedScalar F}.
Import Grid3D.

(** A position without NaN that passes the test of [isOutside] lies inside
    the grid. *)
Lemma isOutside_point_inside (g : t F) (p : point F) :
  numeric_bounds g -> isOutside g [p] = Ok false -> no_nan p ->
  inside_grid g p.
Proof.
  intros Hg E Hn.
  destruct (isOutside_decides g [p] Hg) as (b & E' & Hb); [discriminate| |].
  { intros q [<-|[]]. exact Hn. }
  rewrite E in E'. injection E' as <-. apply (proj1 Hb eq_refl). now left.
Qed.

Lemma kept_inside (g : t F) (hyp0 tbl : list (hyp F)) :
  Forall2 (kept_or_tested g) hyp0 tbl ->
  length tbl = length hyp0 /\
  forall i h h', hyp0 !! i = Some h -> tbl !! i = Some h' ->
    inside_grid g (h_xyz h) ->
    h_id h' = h_id h /\ (no_nan (h_xyz h') -> inside_grid g (h_xyz h')).
Proof.
  intros HK. apply Forall2_same_length_lookup in HK as [Hlen HK].
  split; [now symmetry|].
  intros i h h' Eh Eh' Hin.
  destruct (HK i h h' Eh Eh') as [->|[Hid Hout]]; [now split|].
  split; [exact Hid|]. intros Hn.
  apply isOutside_point_inside; auto. now apply (inside_numeric_bounds g (h_xyz h)).
Qed.

(** Whatever the raytracer and the solvers return, after [_reloc] and
    [_relocPS], and after the relocation pass over a list of events, every
    row of the hypocenter table that lay inside the grid bounds still
    belongs to its event, and still lies inside the grid bounds unless one
    of its coordinates has become NaN: an update is applied only after the
    trial position has passed the test against the grid, and the test lets
    through what compares neither below the first nor above the last
    node. *)
Lemma reloc_stays_inside (engine : engine_t F) (lstsq : lstsq_t F)
    (svd : svd_t F) (par : InvParams F) (g : t F) (evID : list F)
    (hyp0 : list (hyp F)) (data : list (obs F)) (rcv : list (point F))
    (tobs s : list F) (sPS : list F * list F) (ind : list bool * list bool)
    (ne : Z) (nes : list Z) (tbl : list (hyp F)) :
  In tbl [snd (_reloc engine lstsq svd ne par g evID hyp0 data rcv tobs s);
          snd (_relocPS engine lstsq svd ne par g evID hyp0 data rcv tobs sPS ind);
          snd (relocate_all engine lstsq svd nes par g evID hyp0 data rcv tobs s);
          snd (relocate_all_PS engine lstsq svd nes par g evID hyp0 data rcv
                               tobs sPS ind)] ->
  length tbl = length hyp0 /\
  forall i h h', hyp0 !! i = Some h -> tbl !! i = Some h' ->
    inside_grid g (h_xyz h) ->
    h_id h' = h_id h /\ (no_nan (h_xyz h') -> inside_grid g (h_xyz h')).
Proof.
  intros HIn. apply kept_inside.
  destruct HIn as [<-|[<-|[<-|[<-|[]]]]].
  - apply reloc_kept.
  - apply relocPS_kept.
  - apply relocate_all_kept.
  - apply relocate_all_PS_kept.
Qed.
End RelocBounds.

Section ExactReloc.
Local Open Scope Q_scope.

(** The relocation of the event of [data_cross] moves its hypocenter. *)
Example reloc_moves :
  let out := _reloc straight_engine lstsq_normal svd_fails 0 par_main grid_012
                    [7] hyp0_centre data_cross rcv_cross (map o_t data_cross)
                    (repeat 1 27) in
  fst out = Ok Converged /\
  map (fun h => (Qred (h_t0 h), Qred (h_x h), Qred (h_y h), Qred (h_z h)))
      (snd out) = [(0, 9 # 10, 1, 1)].
Proof. vm_compute. split; reflexivity. Qed.
End ExactReloc.

Lemma inside_centre_binary64 :
  inside_grid grid_012_binary64 (h_xyz (mk_hyp 7 0 1 1 1)%float).
Proof. exists 0%float, 2%float, 0%float, 2%float, 0%float, 2%float.
  repeat split; reflexivity. Qed.

Lemma numeric_bounds_012 : numeric_bounds grid_012_binary64.
Proof. apply (inside_numeric_bounds _ _ inside_centre_binary64). Qed.

(** On binary64 the relocation of the event of [data_star] moves its
    hypocenter towards the first receiver, and leaves it inside the grid. *)
Example reloc_inside_binary64 :
  exists e h',
    _reloc straight_engine lstsq_normal svd_fails 0 par_main_binary64
           grid_012_binary64 [7]%float hyp0_centre_binary64 data_star rcv_star
           (map o_t data_star) (repeat 1%float 27) = (Ok e, [h']) /\
    PrimFloat.ltb (h_x h') 1 = true /\
    h_id h' = 7%float /\ inside_grid grid_012_binary64 (h_xyz h').
Proof.
  destruct (_reloc straight_engine lstsq_normal svd_fails 0 par_main_binary64
              grid_012_binary64 [7]%float hyp0_centre_binary64 data_star
              rcv_star (map o_t data_star) (repeat 1%float 27))
    as [r tbl] eqn:E.
  pose proof (reloc_stays_inside straight_engine lstsq_normal svd_fails
                par_main_binary64 grid_012_binary64 [7]%float
                hyp0_centre_binary64 data_star rcv_star (map o_t data_star)
                (repeat 1%float 27) ([], []) ([], []) 0 [] tbl) as [_ Hrows].
  { left. now rewrite E. }
  vm_compute in E. injection E as <- <-.
  do 2 eexists. split; [reflexivity|]. split; [reflexivity|].
  destruct (Hrows 0%nat _ _ eq_refl eq_refl inside_centre_binary64) as [Hid Hin].
  split; [exact Hid|]. apply Hin. repeat split; reflexivity.
Qed.

(** The first pass of the relocation of the event of [data_star_nan]: the
    residuals hold a NaN, the least-squares solution is NaN, the matrix
    handed to the fallback is diagonal with a positive decreasing diagonal,
    and the update of the fallback is NaN. *)
Example reloc_nan_first_pass :
  exists Hm r,
    (hypt <- sources 6 [0%nat] hyp0_centre_binary64 ;;
     out <- Grid3D.raytrace straight_engine grid_012_binary64
                            (repeat 1%float 27) hypt rcv_star ;;
     Hm <- fill_rows 1 3 0 6 (snd (fst out)) (snd out)
                     (selected [0%nat] hyp0_centre_binary64)
                     (repeat [1; 1; 1; 1]%float 6) ;;
     r <- np_sub (map o_t data_star_nan) (fst (fst out)) ;;
     Ok (Hm, r)) = Ok (Hm, r) /\
    lstsq_normal Hm r = Ok [nan; nan; nan; nan]%float /\
    (exists a b,
       add_ridge (HtH 4 Hm)
       = [[a; 0; 0; 0]; [0; b; 0; 0]; [0; 0; b; 0]; [0; 0; 0; b]]%float /\
       PrimFloat.ltb b a = true /\ PrimFloat.ltb 0 b = true) /\
    lstsq_step lstsq_normal svd_diagonal 4 Hm r
    = Ok (Some [nan; nan; nan; nan]%float).
Proof.
  do 2 eexists. split; [vm_compute; reflexivity|].
  split; [vm_compute; reflexivity|]. split.
  - do 2 eexists. split; [vm_compute; reflexivity|]. split; reflexivity.
  - vm_compute. reflexivity.
Qed.

(** C4 (fails on the code)  On binary64, for an event at the centre of the
    grid with an arrival time that is NaN: the least-squares solution is
    not finite, the update that the SVD fallback computes is NaN as well
    and is applied without a second test, the test against the grid lets
    the NaN position through ([np.min] and [np.max] of NaN compare false
    with the bounds), and the row that lay inside the grid bounds holds NaN
    when [_reloc] returns. *)
Theorem reloc_stores_nan :
  inside_grid grid_012_binary64 (h_xyz (mk_hyp 7 0 1 1 1)%float) /\
  exists e h',
    _reloc straight_engine lstsq_normal svd_diagonal 0 par_main_binary64
           grid_012_binary64 [7]%float hyp0_centre_binary64 data_star_nan
           rcv_star (map o_t data_star_nan) (repeat 1%float 27)
    = (Ok e, [h']) /\
    fisnan (h_x h') = true /\ ~ inside_grid grid_012_binary64 (h_xyz h').
Proof.
  split; [exact inside_centre_binary64|].
  do 2 eexists. split; [vm_compute; reflexivity|]. split; [reflexivity|].
  intros Hin. apply inside_no_nan in Hin as [Hx _]. discriminate Hx.
Qed.

(** ** The Jacobian of _relocPS *)

Section JacobianFacts.
Context {F : Type} `{Scalar F}.

Lemma for_each_Ok {A S} (l : list A) (body : A -> S -> result S) (P : S -> Prop)
    (s s' : S) :
  (forall a t t', In a l -> P t -> body a t = Ok t' -> P t') ->
  P s -> for_each l body s = Ok s' -> P s'.
Proof.
  revert s. induction l as [|a l IH]; intros s Hbody Hs E; simpl in E.
  - now injection E as <-.
  - apply rbind_Ok in E as (t & Et & E).
    apply IH with (s := t); [|eapply Hbody; eauto; now left|exact E].
    intros b u u' Hb. apply Hbody. now right.
Qed.

Lemma write_coefs_other (first_col ncoef i : nat) raysi (V0 : F) sel
    (Hm Hm' : list (list F)) (j : nat) :
  j <> i -> write_coefs first_col ncoef i raysi V0 sel Hm = Ok Hm' ->
  Hm' !! j = Hm !! j.
Proof.
  intros Hj. unfold write_coefs. intros E.
  apply rbind_Ok in E as (r1 & _ & E).
  revert E. apply (for_each_Ok _ _ (fun M => M !! j = Hm !! j)); [|reflexivity].
  intros k t t' _ Ht Ek.
  apply rbind_Ok in Ek as (dk & _ & Ek). apply rbind_Ok in Ek as (row & _ & Ek).
  destruct (_ <? _)%nat; [|discriminate]. injection Ek as <-.
  now rewrite list_lookup_insert_ne by auto.
Qed.

(** A loop over [n] observations only writes the rows [row0 .. row0+n-1]. *)
Lemma fill_rows_other (first_col ncoef row0 n : nat) rays (v0 : list F) sel
    (Hm Hm' : list (list F)) (j : nat) :
  (j < row0 \/ row0 + n <= j)%nat ->
  fill_rows first_col ncoef row0 n rays v0 sel Hm = Ok Hm' ->
  Hm' !! j = Hm !! j.
Proof.
  intros Hj. unfold fill_rows.
  apply (for_each_Ok _ _ (fun M => M !! j = Hm !! j)); [|reflexivity].
  intros ns t t' Hns Ht Ens. apply in_seq in Hns.
  apply rbind_Ok in Ens as (raysi & _ & Ens).
  apply rbind_Ok in Ens as (V0 & _ & Ens).
  rewrite <- Ht. eapply write_coefs_other; [|exact Ens]. lia.
Qed.

Lemma lookup_repeat {A} (a : A) (n i : nat) :
  (i < n)%nat -> repeat a n !! i = Some a.
Proof.
  revert i. induction n as [|n IH]; intros [|i] Hi; simpl; try lia; auto.
  apply IH. lia.
Qed.

(** In the all-parameter step of [_relocPS], with at least one P and one S
    arrival, the last row of [H], where the specification puts the last S
    arrival, is never written: it is the row of ones [H] was created with. *)
Lemma jacobian4_PS_last_row (nstp nsts : nat) raysp (v0p : list F) rayss
    (v0s : list F) sel (Hm' : list (list F)) :
  (1 <= nstp)%nat -> (1 <= nsts)%nat ->
  jacobian4_PS nstp nsts raysp v0p rayss v0s sel
               (repeat [fone; fone; fone; fone] (nstp + nsts)) = Ok Hm' ->
  Hm' !! (nstp + nsts - 1)%nat = Some [fone; fone; fone; fone].
Proof.
  intros Hp Hs. unfold jacobian4_PS. intros E.
  apply rbind_Ok in E as (Hm1 & E1 & E2).
  apply fill_rows_other with (j := (nstp + nsts - 1)%nat) in E2; [|lia].
  apply fill_rows_other with (j := (nstp + nsts - 1)%nat) in E1; [|lia].
  rewrite E2, E1. apply lookup_repeat. lia.
Qed.
End JacobianFacts.

(** C1 (fails on the code)  For an event with one P and one S arrival, the
    Jacobian of the specification has the row of the P arrival, then the
    row of the S arrival.  The all-parameter step of [_relocPS] writes the
    row of the S arrival over the row of the P arrival and leaves row
    [nstp + 0] at its initial ones, while the step on [(x, y)] of the same
    function puts the S arrival on row [nstp + 0]. *)
Theorem relocPS_jacobian_misplaced :
  let ones4 := [1; 1; 1; 1]%float in
  exists rowP rowS,
    jacobian4_spec (h_xyz hyp_PS) rays_P [4]%float rays_S [2]%float
      = Ok [rowP; rowS] /\
    jacobian4_PS 1 1 rays_P [4]%float rays_S [2]%float [hyp_PS] [ones4; ones4]
      = Ok [rowS; ones4] /\
    rowP <> rowS /\ rowS <> ones4 /\
    jacobian2_PS 1 1 rays_P [4]%float rays_S [2]%float [hyp_PS]
                 [[1; 1]; [1; 1]]%float
      = Ok [take 2 (drop 1 rowP); take 2 (drop 1 rowS)].
Proof.
  cbv zeta. do 2 eexists.
  split; [vm_compute; reflexivity|].
  split; [vm_compute; reflexivity|].
  split; [vm_compute; discriminate|].
  split; [vm_compute; discriminate|].
  vm_compute. reflexivity.
Qed.

Lemma jacobian4_PS_last_row_witness :
  exists Hm',
    jacobian4_PS 1 1 rays_P [4]%float rays_S [2]%float [hyp_PS]
                 (repeat [1; 1; 1; 1]%float 2) = Ok Hm' /\
    Hm' !! 1%nat = Some [1; 1; 1; 1]%float.
Proof.
  eexists. split; [vm_compute; reflexivity|].
  refine (jacobian4_PS_last_row (F := float) 1 1 rays_P [4]%float rays_S [2]%float
            [hyp_PS] _ (le_n 1) (le_n 1) _).
  vm_compute. reflexivity.
Defined.

(** ** The calibration block *)

Section CalibrationFacts.
Context {F : Type} `{Scalar F}.

Lemma In_nonzero {A} (test : A -> bool) (tbl : list A) (i : nat) :
  In i (nonzero test tbl) <-> exists a, tbl !! i = Some a /\ test a = true.
Proof.
  unfold nonzero. rewrite filter_In, in_seq. split.
  - intros [_ Ht]. destruct (tbl !! i) as [a|]; [eauto|discriminate].
  - intros (a & Ea & Ht). rewrite Ea. split; [|exact Ht].
    apply lookup_lt_Some in Ea. lia.
Qed.

Lemma NoDup_nonzero {A} (test : A -> bool) (tbl : list A) :
  List.NoDup (nonzero test tbl).
Proof. apply List.NoDup_filter, List.seq_NoDup. Qed.

Lemma insert_unique_In (a x : F) (l : list F) :
  In x (insert_unique a l) -> x = a \/ In x l.
Proof.
  induction l as [|b l IH]; simpl.
  - intros [<-|[]]. now left.
  - destruct (fltb a b).
    + simpl. intros [<-|[<-|Hx]]; auto.
    + destruct (feqb a b).
      * simpl. intros [<-|Hx]; auto.
      * simpl. intros [<-|Hx]; [auto|]. destruct (IH Hx); auto.
Qed.

Lemma insert_unique_nonempty (a : F) (l : list F) : insert_unique a l <> [].
Proof.
  destruct l as [|b l]; simpl; [discriminate|].
  destruct (fltb a b); [discriminate|]. destruct (feqb a b); discriminate.
Qed.

Lemma np_unique_In (l : list F) (x : F) : In x (np_unique l) -> In x l.
Proof.
  unfold np_unique.
  assert (G : forall acc, In x (fold_left (fun acc a => insert_unique a acc) l acc) ->
                          In x acc \/ In x l).
  { induction l as [|a l IH]; intros acc; simpl; [tauto|].
    intros Hx. destruct (IH _ Hx) as [Hx'|Hx']; [|auto].
    apply insert_unique_In in Hx' as [->|Hx']; auto. }
  intros Hx. destruct (G [] Hx) as [[]|Hx']. exact Hx'.
Qed.

Lemma np_unique_nonempty (l : list F) : l <> [] -> np_unique l <> [].
Proof.
  unfold np_unique.
  assert (G : forall l0 acc, acc <> [] ->
                fold_left (fun acc a => insert_unique a acc) l0 acc <> []).
  { induction l0 as [|a l0 IH]; intros acc Hacc; simpl; [exact Hacc|].
    apply IH, insert_unique_nonempty. }
  destruct l as [|a l]; [congruence|]. intros _. simpl.
  apply G. discriminate.
Qed.

Lemma for_each_Raise_head {A S} (a : A) (l : list A) (body : A -> S -> result S)
    (s : S) (e : exn) :
  body a s = Raise e -> for_each (a :: l) body s = Raise e.
Proof. intros E. simpl. now rewrite E. Qed.

(** With shots to process and the name [rcv_cal] unbound, the loop over the
    shots ends in an exception at the first row of the first shot: the one
    of its right-hand side, or [NameError]. *)
Lemma calibration_loop_unbound (use_sc : bool) (width : nat)
    (rcv : list (point F)) (caldata : list (cal F)) (calID : list F) :
  calID <> [] -> (forall cid, In cid calID -> In cid (map c_id caldata)) ->
  (forall c, In c caldata -> feqb (c_id c) (c_id c) = true) ->
  exists e, calibration_loop None use_sc width rcv caldata calID = Raise e.
Proof.
  intros Hne Hin Hrefl. destruct calID as [|cid calID]; [congruence|].
  pose proof (Hin cid ltac:(now left)) as Hcid.
  apply in_map_iff in Hcid as (c & Ec & Hc).
  apply list_elem_of_In, list_elem_of_lookup in Hc as [i Hi].
  assert (Hi' : In i (nonzero (fun c => feqb (c_id c) cid) caldata)).
  { apply In_nonzero. exists c. split; [exact Hi|]. rewrite <- Ec. apply Hrefl.
    apply list_elem_of_In. eapply list_elem_of_lookup_2; eauto. }
  unfold calibration_loop.
  destruct (nonzero (fun c => feqb (c_id c) cid) caldata) as [|i0 indr] eqn:Eind;
    [destruct Hi'|].
  assert (Hi0 : In i0 (nonzero (fun c => feqb (c_id c) cid) caldata))
    by (rewrite Eind; now left).
  apply In_nonzero in Hi0 as (c0 & Ec0 & _).
  assert (Einner : exists e,
            for_each (i0 :: indr)
              (fun i st =>
                 rbind (item caldata i) (fun c =>
                 rbind (to_int (c_rcv c)) (fun k =>
                 rbind (py_get rcv k) (fun p =>
                 match fst st with
                 | None => Raise (NameError "rcv_cal")
                 | Some arr =>
                     if (i <? length arr)%nat
                     then Ok (Some (<[i := p]> arr), snd st)
                     else Raise IndexError
                 end))))
              (None, @nil (list (list F))) = Raise e).
  { simpl. unfold item. rewrite Ec0. cbn [rbind].
    destruct (to_int (c_rcv c0)) as [k|e]; [|eauto]. cbn [rbind].
    destruct (py_get rcv k) as [p|e]; [|eauto]. cbn [rbind]. eauto. }
  destruct Einner as (e & Einner). exists e.
  apply for_each_Raise_head. cbv beta. rewrite Eind, Einner. reflexivity.
Qed.
End CalibrationFacts.

Section ExactCalibration.
Local Open Scope Q_scope.

(** C5 (fails on the code)  With calibration data and no module-level
    [rcv_cal], the calibration block of [jointHypoVelPS] stops with
    [NameError] at the first row it wants to fill, where [jointHypoVel]
    fills the array it has allocated. *)
Theorem calibration_PS_unbound :
  calibration_PS None par_main rcv_pair caldata_shot
    = Raise (NameError "rcv_cal") /\
  exists loc, calibration par_main rcv_pair caldata_shot = Ok loc /\
              rcv_cal loc = Some [(0, 0, 0); (2, 2, 2)].
Proof. split; [reflexivity|]. eexists. split; reflexivity. Qed.

(** The same for every non-empty [caldata]: some exception leaves the
    block. *)
Lemma calibration_PS_fails (par : InvParams Q) (rcv : list (point Q))
    (caldata : list (cal Q)) :
  caldata <> [] -> exists e, calibration_PS None par rcv caldata = Raise e.
Proof.
  intros Hne. unfold calibration_PS.
  destruct caldata as [|c0 caldata']; [congruence|].
  set (caldata := c0 :: caldata') in *.
  destruct (calibration_loop_unbound (use_sc par)
              (2 * (if use_sc par then length rcv else 0)) rcv caldata
              (np_unique (map c_id caldata))) as (e & E).
  - apply np_unique_nonempty. discriminate.
  - intros cid. apply np_unique_In.
  - intros c _. apply Qeq_bool_iff. reflexivity.
  - exists e. now rewrite E.
Qed.
End ExactCalibration.

(** ** The tie points of the ratio mode *)

Section TiePointFacts.
Context {F : Type} `{Scalar F}.
Local Open Scope scalar_scope.

Lemma collocated_from (Vpts : list (tie F)) (t : tie F) (n a : nat) :
  (a + n = length Vpts)%nat ->
  match collocated Vpts t
          (List.filter (fun i => match Vpts !! i with
                                 | Some tp => is_P tp
                                 | None => false
                                 end) (seq a n)) with
  | Ok tp =>
      exists ii, (a <= ii)%nat /\ Vpts !! ii = Some tp /\ is_P tp = true /\
                 near t tp = true /\
                 forall j tj, (a <= j < ii)%nat -> Vpts !! j = Some tj ->
                              is_P tj = true -> near t tj = false
  | Raise e =>
      e = missing_Vp /\
      forall j tj, (a <= j)%nat -> Vpts !! j = Some tj -> is_P tj = true ->
                   near t tj = false
  end.
Proof.
  revert a. induction n as [|n IH]; intros a Hlen.
  - simpl. split; [reflexivity|]. intros j tj Hj Ej _.
    apply lookup_lt_Some in Ej. lia.
  - cbn [seq List.filter].
    destruct (Vpts !! a) as [ta|] eqn:Ea;
      [|apply lookup_ge_None in Ea; lia].
    specialize (IH (S a) ltac:(lia)).
    destruct (is_P ta) eqn:EP.
    + cbn [collocated]. unfold item. rewrite Ea. cbn [rbind].
      fold (near t ta). destruct (near t ta) eqn:En.
      * exists a. repeat split; auto. intros j tj Hj. lia.
      * match type of IH with
        | match ?c with _ => _ end => destruct c as [tp|e]
        end.
        -- destruct IH as (ii & Hii & Eii & HP & Hn & Hfirst).
           exists ii. repeat split; auto; [lia|].
           intros j tj Hj Ej HPj.
           destruct (Nat.eq_dec j a) as [->|Hne].
           ++ rewrite Ea in Ej. now injection Ej as <-.
           ++ apply (Hfirst j tj); auto. lia.
        -- destruct IH as (-> & Hall). split; [reflexivity|].
           intros j tj Hj Ej HPj.
           destruct (Nat.eq_dec j a) as [->|Hne].
           ++ rewrite Ea in Ej. now injection Ej as <-.
           ++ apply (Hall j tj); auto. lia.
    + match type of IH with
      | match ?c with _ => _ end => destruct c as [tp|e]
      end.
      * destruct IH as (ii & Hii & Eii & HP & Hn & Hfirst).
        exists ii. repeat split; auto; [lia|].
        intros j tj Hj Ej HPj.
        destruct (Nat.eq_dec j a) as [->|Hne].
        -- rewrite Ea in Ej. injection Ej as <-. congruence.
        -- apply (Hfirst j tj); auto. lia.
      * destruct IH as (-> & Hall). split; [reflexivity|].
        intros j tj Hj Ej HPj.
        destruct (Nat.eq_dec j a) as [->|Hne].
        -- rewrite Ea in Ej. injection Ej as <-. congruence.
        -- apply (Hall j tj); auto. lia.
Qed.

(** The inner loop: the first collocated P tie point, or the error of the
    [else] of the loop when there is none. *)
Lemma collocated_cases (Vpts : list (tie F)) (t : tie F) :
  match collocated Vpts t (nonzero (fun tp => v_ph tp =? fzero) Vpts) with
  | Ok tp => exists ii, first_collocated Vpts t ii tp
  | Raise e =>
      e = missing_Vp /\
      forall tp, In tp Vpts -> is_P tp = true -> near t tp = false
  end.
Proof.
  pose proof (collocated_from Vpts t (length Vpts) 0 eq_refl) as Hc.
  unfold nonzero. unfold is_P in Hc at 1.
  match type of Hc with
  | match ?c with _ => _ end => destruct c as [tp|e]
  end.
  - destruct Hc as (ii & _ & Eii & HP & Hn & Hfirst). exists ii.
    repeat split; auto. intros j tj Hj. apply Hfirst. lia.
  - destruct Hc as (-> & Hall). split; [reflexivity|].
    intros tp Hin. apply list_elem_of_In, list_elem_of_lookup in Hin as [j Ej].
    apply (Hall j tp); [lia|exact Ej].
Qed.

(** The loop over the S tie points, from any list of rows not visited
    before. *)
Lemma ratios_loop (Vpts : list (tie F)) (l : list nat) (V2 : list (tie F)) :
  List.NoDup l ->
  (forall j, In j l -> V2 !! j = Vpts !! j /\ exists t, Vpts !! j = Some t) ->
  length V2 = length Vpts ->
  match for_each l
          (fun i Vpts2 =>
             t2 <- item Vpts2 i ;;
             tp <- collocated Vpts t2 (nonzero (fun t => v_ph t =? fzero) Vpts) ;;
             t <- item Vpts i ;;
             Ok (<[i := mk_tie (v_val t / v_val tp) (v_x t2) (v_y t2) (v_z t2)
                               (v_ph t2)]> Vpts2))
          V2 with
  | Ok V2' =>
      length V2' = length Vpts /\
      (forall j, ~ In j l -> V2' !! j = V2 !! j) /\
      (forall j t, In j l -> Vpts !! j = Some t ->
         exists ii tp, first_collocated Vpts t ii tp /\
                       V2' !! j = Some (ratio_row t tp))
  | Raise e =>
      e = missing_Vp /\
      exists j t, In j l /\ Vpts !! j = Some t /\
                  forall tp, In tp Vpts -> is_P tp = true -> near t tp = false
  end.
Proof.
  revert V2. induction l as [|i l IH]; intros V2 Hnd Hrows Hlen.
  - simpl. repeat split; auto. intros j t [].
  - apply List.NoDup_cons_iff in Hnd as [Hi Hnd].
    destruct (Hrows i ltac:(now left)) as (E2 & t & Et).
    cbn [for_each]. unfold item at 1. rewrite E2, Et. cbn [rbind].
    pose proof (collocated_cases Vpts t) as Hc.
    destruct (collocated Vpts t (nonzero (fun tp => v_ph tp =? fzero) Vpts))
      as [tp|e].
    + cbn [rbind]. unfold item at 1. rewrite Et. cbn [rbind].
      fold (ratio_row t tp).
      assert (Hlt : (i < length V2)%nat)
        by (rewrite Hlen; eapply lookup_lt_Some; eauto).
      specialize (IH (<[i := ratio_row t tp]> V2) Hnd).
      match type of IH with
      | _ -> _ -> match ?c with _ => _ end =>
          destruct c as [V2'|e]
      end.
      * destruct IH as (Hl' & Hout & Hin).
        { intros j Hj. destruct (Hrows j ltac:(now right)) as (Ej & Hex).
          split; [|exact Hex].
          rewrite list_lookup_insert_ne; [exact Ej|]. intros ->. tauto. }
        { now rewrite length_insert. }
        split; [exact Hl'|]. split.
        -- intros j Hj. rewrite Hout by (intros Hj'; apply Hj; now right).
           apply list_lookup_insert_ne. intros ->. apply Hj. now left.
        -- intros j tj [<-|Hj] Ej.
           ++ rewrite Et in Ej. injection Ej as <-.
              destruct Hc as (ii & Hc). exists ii, tp. split; [exact Hc|].
              rewrite (Hout i Hi). now apply list_lookup_insert_eq.
           ++ now apply Hin.
      * destruct IH as (-> & j & tj & Hj & Ej & Hall).
        { intros j Hj. destruct (Hrows j ltac:(now right)) as (Ej & Hex).
          split; [|exact Hex].
          rewrite list_lookup_insert_ne; [exact Ej|]. intros ->. tauto. }
        { now rewrite length_insert. }
        split; [reflexivity|]. exists j, tj.
        split; [now right|]. split; [exact Ej|exact Hall].
    + cbn [rbind]. destruct Hc as (-> & Hall). split; [reflexivity|].
      exists i, t. split; [now left|]. split; [exact Et|exact Hall].
Qed.

(** What [tiepoint_ratios] returns. *)
Lemma tiepoint_ratios_cases (Vpts : list (tie F)) :
  match tiepoint_ratios Vpts with
  | Ok Vpts2 =>
      length Vpts2 = length Vpts /\
      forall i t, Vpts !! i = Some t ->
        if is_S t
        then exists ii tp, first_collocated Vpts t ii tp /\
                           Vpts2 !! i = Some (ratio_row t tp)
        else Vpts2 !! i = Some t
  | Raise e =>
      e = missing_Vp /\
      exists t, In t Vpts /\ lonely Vpts t
  end.
Proof.
  unfold tiepoint_ratios. cbv zeta.
  pose proof (ratios_loop Vpts (nonzero (fun t => v_ph t =? fone) Vpts) Vpts
                (NoDup_nonzero _ _)) as Hloop.
  match type of Hloop with
  | _ -> _ -> match ?c with _ => _ end => destruct c as [V2'|e]
  end.
  - destruct Hloop as (Hlen & Hout & Hin); [|reflexivity|].
    { intros j Hj. split; [reflexivity|].
      apply In_nonzero in Hj as (t & Et & _). eauto. }
    split; [exact Hlen|]. intros i t Et.
    destruct (is_S t) eqn:ES.
    + apply Hin; [|exact Et]. apply In_nonzero. eauto.
    + rewrite Hout; [exact Et|]. intros Hi.
      apply In_nonzero in Hi as (t' & Et' & ES').
      rewrite Et in Et'. injection Et' as <-. unfold is_S in ES. congruence.
  - destruct Hloop as (-> & j & t & Hj & Et & Hall); [|reflexivity|].
    { intros j Hj. split; [reflexivity|].
      apply In_nonzero in Hj as (t & Et & _). eauto. }
    split; [reflexivity|]. exists t. split.
    + apply list_elem_of_In. eapply list_elem_of_lookup_2; eauto.
    + split; [|exact Hall].
      apply In_nonzero in Hj as (t' & Et' & ES').
      rewrite Et in Et'. injection Et' as <-. exact ES'.
Qed.

(** C7  The tie-point loop of the ratio mode raises its error exactly when
    some S tie point has no P tie point at a distance below 1e-5, and no
    other error; when every S tie point has one, the loop returns the table
    with the value of every S row divided by the value of the first P row
    collocated with it, and with every other entry unchanged. *)
Theorem tiepoint_ratios_collocation (Vpts : list (tie F)) :
  (tiepoint_ratios Vpts = Raise missing_Vp
   <-> exists t, In t Vpts /\ lonely Vpts t) /\
  (forall e, tiepoint_ratios Vpts = Raise e ->
             e = missing_Vp) /\
  ((forall t, In t Vpts -> is_S t = true ->
      exists tp, In tp Vpts /\ is_P tp = true /\ near t tp = true) ->
   exists Vpts2,
     tiepoint_ratios Vpts = Ok Vpts2 /\ length Vpts2 = length Vpts /\
     forall i t, Vpts !! i = Some t ->
       if is_S t
       then exists ii tp, first_collocated Vpts t ii tp /\
                          Vpts2 !! i = Some (ratio_row t tp)
       else Vpts2 !! i = Some t).
Proof.
  pose proof (tiepoint_ratios_cases Vpts) as Hc.
  destruct (tiepoint_ratios Vpts) as [Vpts2|e].
  - destruct Hc as (Hlen & Hrows). split; [|split].
    + split; [discriminate|]. intros (t & Hin & HS & Hall). exfalso.
      apply list_elem_of_In, list_elem_of_lookup in Hin as [i Ei].
      specialize (Hrows i t Ei). rewrite HS in Hrows.
      destruct Hrows as (ii & tp & (Eii & HP & Hn & _) & _).
      rewrite Hall in Hn; [discriminate| |exact HP].
      apply list_elem_of_In. eapply list_elem_of_lookup_2; eauto.
    + discriminate.
    + intros _. exists Vpts2. auto.
  - destruct Hc as (-> & t & Hin & HS & Hall). split; [|split].
    + split; [eauto|reflexivity]. intros _. exists t. split; [exact Hin|].
      split; assumption.
    + intros e E. now injection E as <-.
    + intros Hcol. exfalso. destruct (Hcol t Hin HS) as (tp & Htp & HP & Hn).
      rewrite (Hall tp Htp HP) in Hn. discriminate.
Qed.

(** In [jointHypoVelPS] the loop comes first in the tie-point block, so its
    error is the one of the block. *)
Lemma tiepoint_setup_PS_missing (par : InvParams F) (g : Grid3D.t F)
    (nsta : nat) (Vpts : list (tie F)) (t : tie F) :
  invert_VsVp par = true -> In t Vpts -> lonely Vpts t ->
  tiepoint_setup_PS par g nsta Vpts
    = Raise missing_Vp.
Proof.
  intros Hmode Hin (HS & Hall). unfold tiepoint_setup_PS.
  destruct Vpts as [|t0 Vpts']; [destruct Hin|].
  set (Vpts := t0 :: Vpts') in *. rewrite Hmode.
  pose proof (tiepoint_ratios_cases Vpts) as Hc.
  destruct (tiepoint_ratios Vpts) as [Vpts2|e].
  - exfalso. destruct Hc as (_ & Hrows).
    apply list_elem_of_In, list_elem_of_lookup in Hin as [i Ei].
    specialize (Hrows i t Ei). rewrite HS in Hrows.
    destruct Hrows as (ii & tp & (Eii & HP & Hn & _) & _).
    rewrite Hall in Hn; [discriminate| |exact HP].
    apply list_elem_of_In. eapply list_elem_of_lookup_2; eauto.
  - destruct Hc as (-> & _). reflexivity.
Qed.
End TiePointFacts.

Section ExactTiePoints.
Local Open Scope Q_scope.

Lemma tiepoint_ratios_collocation_witness :
  exists Vpts2,
    tiepoint_ratios Vpts_pairs = Ok Vpts2 /\
    length Vpts2 = length Vpts_pairs /\
    forall i t, Vpts_pairs !! i = Some t ->
      if is_S t
      then exists ii tp, first_collocated Vpts_pairs t ii tp /\
                         Vpts2 !! i = Some (ratio_row t tp)
      else Vpts2 !! i = Some t.
Proof.
  apply (proj2 (proj2 (tiepoint_ratios_collocation Vpts_pairs))).
  intros t [<-|[<-|[<-|[]]]] HS; try discriminate HS.
  exists (mk_tie 4000 1 1 1 0). split; [now left|]. split; reflexivity.
Defined.

(** On the two tables: the S value 2000 becomes 2000/4000, and the S point
    that stands apart stops the solver. *)
Example tiepoint_ratios_pairs :
  tiepoint_ratios Vpts_pairs
    = Ok [mk_tie 4000 1 1 1 0; mk_tie (2000 / 4000) 1 1 1 1;
          mk_tie 4100 (1 # 2) 1 1 0] /\
  tiepoint_ratios Vpts_apart
    = Raise missing_Vp.
Proof. split; reflexivity. Qed.
End ExactTiePoints.

(** ** The normal equations *)

Section ExactSparse.
Local Open Scope Q_scope.

Lemma fold_Qplus_shift (l : list Q) (a : Q) :
  fold_left Qplus l a == a + fold_left Qplus l 0.
Proof.
  revert a. induction l as [|x l IH]; intros a; simpl; [ring|].
  rewrite IH, (IH (0 + x)). ring.
Qed.

Lemma np_sum_cons (a : Q) (l : list Q) : np_sum (a :: l) == a + np_sum l.
Proof.
  change (fold_left Qplus l (0 + a) == a + fold_left Qplus l 0).
  rewrite fold_Qplus_shift. ring.
Qed.

Lemma np_sum_app (l1 l2 : list Q) :
  np_sum (l1 ++ l2) == np_sum l1 + np_sum l2.
Proof.
  induction l1 as [|a l1 IH]; cbn [app].
  - change (np_sum (@nil Q)) with 0. ring.
  - rewrite !np_sum_cons, IH. ring.
Qed.

Lemma np_sum_map_ext {A} (f g : A -> Q) (l : list A) :
  (forall k, In k l -> f k == g k) -> np_sum (map f l) == np_sum (map g l).
Proof.
  induction l as [|a l IH]; intros Hfg; cbn [map]; [reflexivity|].
  rewrite !np_sum_cons, IH, (Hfg a); [reflexivity|now left|].
  intros k Hk. apply Hfg. now right.
Qed.

Lemma np_sum_map_add {A} (f g : A -> Q) (l : list A) :
  np_sum (map (fun k => f k + g k) l) == np_sum (map f l) + np_sum (map g l).
Proof.
  induction l as [|a l IH]; cbn [map].
  - change (np_sum (@nil Q)) with 0. ring.
  - rewrite !np_sum_cons, IH. ring.
Qed.

Lemma np_sum_map_zero {A} (l : list A) : np_sum (map (fun _ => 0) l) == 0.
Proof.
  induction l as [|a l IH]; cbn [map]; [reflexivity|].
  rewrite np_sum_cons, IH. ring.
Qed.

(** A sum with one term that is not zero. *)
Lemma np_sum_map_delta (x : Z -> Q) (k0 : Z) (ks : list Z) :
  List.NoDup ks -> In k0 ks ->
  np_sum (map (fun k => if (k0 =? k)%Z then x k else 0) ks) == x k0.
Proof.
  induction ks as [|k ks IH]; intros Hnd Hin; [destruct Hin|].
  apply List.NoDup_cons_iff in Hnd as [Hk Hnd]. cbn [map].
  rewrite np_sum_cons. destruct Hin as [->|Hin].
  - rewrite Z.eqb_refl.
    rewrite (np_sum_map_ext _ (fun _ => 0)), np_sum_map_zero; [ring|].
    intros k Hk'. destruct (Z.eqb_spec k0 k) as [->|_]; [tauto|reflexivity].
  - rewrite (IH Hnd Hin).
    destruct (Z.eqb_spec k0 k) as [->|_]; [tauto|ring].
Qed.

Lemma ent_nil (i j : Z) : ent (@nil (Z * Z * Q)) i j = 0.
Proof. reflexivity. Qed.

Lemma ent_cons (e : Z * Z * Q) (l : list (Z * Z * Q)) (i j : Z) :
  ent (e :: l) i j
  == (if (fst (fst e) =? i)%Z && (snd (fst e) =? j)%Z then snd e else 0)
     + ent l i j.
Proof.
  unfold ent. cbn [List.filter]. destruct (_ && _); cbn [map].
  - apply np_sum_cons.
  - ring.
Qed.

Lemma ent_app (l1 l2 : list (Z * Z * Q)) (i j : Z) :
  ent (l1 ++ l2) i j == ent l1 i j + ent l2 i j.
Proof.
  induction l1 as [|e l1 IH]; cbn [app].
  - rewrite ent_nil. ring.
  - rewrite !ent_cons, IH. ring.
Qed.

Lemma ent_scale (c : Q) (l : list (Z * Z * Q)) (i j : Z) :
  ent (map (fun e => (fst e, c * snd e)) l) i j == c * ent l i j.
Proof.
  induction l as [|e l IH]; cbn [map].
  - rewrite ent_nil. ring.
  - rewrite !ent_cons, IH. cbn [fst snd]. destruct (_ && _); ring.
Qed.

Lemma ent_transpose (l : list (Z * Z * Q)) (i j : Z) :
  ent (map (fun e => (snd (fst e), fst (fst e), snd e)) l) i j == ent l j i.
Proof.
  induction l as [|e l IH]; cbn [map]; [reflexivity|].
  rewrite !ent_cons, IH. cbn [fst snd].
  rewrite (andb_comm (snd (fst e) =? i)%Z). reflexivity.
Qed.

(** The products that one stored value of the left factor takes part
    in. *)
Lemma ent_mul_one (a : Z * Z * Q) (lb : list (Z * Z * Q)) (i j : Z) :
  ent (flat_map (fun b => if (snd (fst a) =? fst (fst b))%Z
                          then [(fst (fst a), snd (fst b), snd a * snd b)]
                          else [])
                lb) i j
  == if (fst (fst a) =? i)%Z then snd a * ent lb (snd (fst a)) j else 0.
Proof.
  induction lb as [|b lb IH]; cbn [flat_map].
  - rewrite !ent_nil. destruct (_ =? _)%Z; ring.
  - rewrite ent_app, IH. destruct (fst (fst a) =? i)%Z eqn:Ei.
    + rewrite (ent_cons b), (Z.eqb_sym (fst (fst b))).
      destruct (snd (fst a) =? fst (fst b))%Z.
      * rewrite ent_cons, ent_nil. cbn [fst snd]. rewrite Ei.
        destruct (snd (fst b) =? j)%Z; cbn [andb]; ring.
      * rewrite ent_nil. cbn [andb]. ring.
    + destruct (snd (fst a) =? fst (fst b))%Z.
      * rewrite ent_cons, ent_nil. cbn [fst snd]. rewrite Ei. cbn [andb]. ring.
      * rewrite ent_nil. ring.
Qed.

(** The entries of a product are the sums of linear algebra, as soon as
    the inner indices of the left factor are among [ks]. *)
Lemma ent_mul (la lb : list (Z * Z * Q)) (i j : Z) (ks : list Z) :
  List.NoDup ks -> (forall a, In a la -> In (snd (fst a)) ks) ->
  ent (mul_entries la lb) i j
  == np_sum (map (fun k => ent la i k * ent lb k j) ks).
Proof.
  intros Hnd. induction la as [|a la IH]; intros Hin.
  - cbn [mul_entries flat_map]. rewrite ent_nil.
    rewrite (np_sum_map_ext _ (fun _ => 0)), np_sum_map_zero; [reflexivity|].
    intros k _. rewrite ent_nil. ring.
  - change (mul_entries (a :: la) lb)
      with (flat_map (fun b => if (snd (fst a) =? fst (fst b))%Z
                               then [(fst (fst a), snd (fst b), snd a * snd b)]
                               else []) lb ++ mul_entries la lb).
    rewrite ent_app, ent_mul_one, IH by (intros b Hb; apply Hin; now right).
    rewrite (np_sum_map_ext (fun k => ent (a :: la) i k * ent lb k j)
               (fun k => (if (snd (fst a) =? k)%Z
                          then (fun k => if (fst (fst a) =? i)%Z
                                         then snd a * ent lb k j else 0) k
                          else 0)
                         + ent la i k * ent lb k j)).
    + rewrite np_sum_map_add, (np_sum_map_delta _ _ ks Hnd); [reflexivity|].
      apply Hin. now left.
    + intros k _. rewrite ent_cons.
      destruct (fst (fst a) =? i)%Z, (snd (fst a) =? k)%Z; cbn [andb]; ring.
Qed.

Lemma cols_in_In (M : csr Q) (a : Z * Z * Q) :
  cols_in M = true -> In a (csr_entries M) ->
  In (snd (fst a)) (arange 0 (csr_cols M)).
Proof.
  unfold cols_in. rewrite forallb_forall. intros Hall Ha.
  apply In_arange. specialize (Hall a Ha). lia.
Qed.

Lemma rows_in_transpose (M : csr Q) :
  rows_in M = true -> cols_in (transpose M) = true.
Proof.
  unfold rows_in, cols_in, transpose. cbn [csr_entries csr_cols].
  rewrite !forallb_forall. intros Hall a Ha.
  apply in_map_iff in Ha as (e & <- & He). cbn [fst snd]. now apply Hall.
Qed.

Lemma entry_transpose (M : csr Q) (i j : Z) :
  entry (transpose M) i j == entry M j i.
Proof. apply ent_transpose. Qed.

(** [A * B], entry by entry. *)
Lemma entry_csr_mul (A B C : csr Q) (i j : Z) :
  csr_mul A B = Ok C -> cols_in A = true ->
  entry C i j
  == np_sum (map (fun k => entry A i k * entry B k j) (arange 0 (csr_cols A))).
Proof.
  unfold csr_mul. destruct (negb _); [discriminate|].
  intros E Hin. injection E as <-. unfold entry. cbn [csr_entries].
  apply ent_mul; [apply NoDup_arange|].
  intros a Ha. now apply cols_in_In.
Qed.

Lemma csr_mul_square (M : csr Q) : csr_mul (transpose M) M = Ok (square M).
Proof.
  unfold csr_mul, square. cbn [transpose csr_cols csr_rows].
  now rewrite Z.eqb_refl.
Qed.

(** [M.T * M] is the matrix [M^T M]. *)
Lemma entry_square (M : csr Q) (i j : Z) :
  rows_in M = true -> entry (square M) i j == gram M i j.
Proof.
  intros Hin.
  rewrite (entry_csr_mul (transpose M) M (square M) i j (csr_mul_square M)
             (rows_in_transpose M Hin)).
  unfold gram. cbn [transpose csr_cols].
  apply np_sum_map_ext. intros k _. now rewrite entry_transpose.
Qed.

(** [u * u.T] is the matrix [u u^T]. *)
Lemma entry_outer (u C : csr Q) (i j : Z) :
  csr_mul u (transpose u) = Ok C -> cols_in u = true ->
  entry C i j == outer u i j.
Proof.
  intros E Hin. rewrite (entry_csr_mul u (transpose u) C i j E Hin).
  unfold outer. apply np_sum_map_ext. intros k _.
  now rewrite entry_transpose.
Qed.

Lemma csr_add_Ok (A B : csr Q) :
  csr_rows A = csr_rows B -> csr_cols A = csr_cols B ->
  csr_add A B
  = Ok (mk_csr (csr_rows A) (csr_cols A) (csr_entries A ++ csr_entries B)).
Proof.
  intros Hr Hc. unfold csr_add. now rewrite Hr, Hc, !Z.eqb_refl.
Qed.

Lemma entry_scale (c : Q) (M : csr Q) (i j : Z) :
  entry (csr_scale c M) i j == c * entry M i j.
Proof. apply ent_scale. Qed.
End ExactSparse.

Section ExactNormalEquations.
Local Open Scope Q_scope.
Variable spl_norm : csr Q -> Q.
Variable par : InvParams Q.
Variables M1 dP1 u1 KtKx KtKy KtKz : csr Q.
Variable nK : Q.
Variable n : Z.
Hypothesis Hshapes : conforming n M1 dP1 u1 KtKx KtKy KtKz = true.

(** From [tmp1 = M1.T * M1] to the assignment of [A]. *)
Lemma assemble_formula :
  exists ne, assemble spl_norm par M1 dP1 u1 KtKx KtKy KtKz nK = Ok ne /\
             assembled spl_norm par M1 dP1 u1 KtKx KtKy KtKz nK None ne.
Proof.
  unfold conforming in Hshapes.
  repeat (apply andb_prop in Hshapes as [Hshapes ?]).
  repeat match goal with
         | E : (_ =? _)%Z = true |- _ => apply Z.eqb_eq in E
         end.
  unfold assemble. rewrite !csr_mul_square. cbn [rbind].
  destruct (csr_mul u1 (transpose u1)) as [tmp4|e] eqn:E4;
    [|unfold csr_mul in E4; cbn [transpose csr_cols csr_rows] in E4;
      rewrite Z.eqb_refl in E4; discriminate].
  assert (Htmp4 : csr_rows tmp4 = n /\ csr_cols tmp4 = n).
  { unfold csr_mul in E4. destruct (negb _); [discriminate|].
    injection E4 as <-. cbn [csr_rows csr_cols transpose]. tauto. }
  destruct Htmp4 as [H4r H4c]. cbn [rbind].
  rewrite csr_add_Ok by (cbn [square csr_scale csr_rows csr_cols]; congruence).
  cbn [rbind].
  rewrite csr_add_Ok by (cbn [square csr_scale csr_rows csr_cols]; congruence).
  cbn [rbind].
  rewrite csr_add_Ok by (cbn [square csr_scale csr_rows csr_cols]; congruence).
  cbn [rbind].
  rewrite csr_add_Ok by (cbn [square csr_scale csr_rows csr_cols]; congruence).
  cbn [rbind].
  rewrite csr_add_Ok by (cbn [square csr_scale csr_rows csr_cols]; congruence).
  cbn [rbind]. eexists. split; [reflexivity|].
  unfold assembled.
  cbn [nM nP lmbda_it gamma_it nD alpha_it A_it option_map csr_rows csr_cols
       square].
  repeat split.
  - change (@feqb Q Scalar_Q) with Qeq_bool. change (@fzero Q Scalar_Q) with 0.
    destruct (Qeq_bool _ 0); reflexivity.
  - intros i j. unfold entry at 1. cbn [csr_entries].
    rewrite !ent_app.
    fold (entry tmp4 i j). fold (entry (square M1) i j).
    fold (entry (csr_scale (gamma par * spl_norm (square M1)
                              / spl_norm (square dP1)) (square dP1)) i j).
    unfold A_formula.
    rewrite (entry_outer u1 tmp4 i j E4) by assumption.
    rewrite <- !(entry_square) by assumption.
    change (@feqb Q Scalar_Q) with Qeq_bool. change (@fzero Q Scalar_Q) with 0.
    change (@fmul Q Scalar_Q) with Qmult. change (@fdiv Q Scalar_Q) with Qdiv.
    pose proof (ent_scale (lmbda par * spl_norm (square M1) / nK)
                  (csr_entries KtKx) i j) as Ex.
    pose proof (ent_scale (lmbda par * spl_norm (square M1) / nK)
                  (csr_entries KtKy) i j) as Ey.
    pose proof (ent_scale (wzK par * (lmbda par * spl_norm (square M1) / nK))
                  (csr_entries KtKz) i j) as Ez.
    cbn [csr_scale csr_entries] in *. rewrite Ex, Ey, Ez.
    destruct (Qeq_bool (spl_norm (square dP1)) 0); cbn [negb].
    + pose proof (ent_scale (gamma par) (csr_entries (square dP1)) i j) as Eg.
      rewrite Eg. unfold entry. ring.
    + pose proof (ent_scale (gamma par * spl_norm (square M1)
                               / spl_norm (square dP1))
                    (csr_entries (square dP1)) i j) as Eg.
      rewrite Eg. unfold entry. ring.
Qed.

(** From [tmp5 = D1.T * D1] to [A += alpha * tmp5]. *)
Lemma add_tiepoints_formula (D1m : csr Q) (ne : normal_eqs Q) :
  (csr_cols D1m =? n)%Z && rows_in D1m = true ->
  assembled spl_norm par M1 dP1 u1 KtKx KtKy KtKz nK None ne ->
  exists ne', add_tiepoints spl_norm par D1m ne = Ok ne' /\
              assembled spl_norm par M1 dP1 u1 KtKx KtKy KtKz nK (Some D1m) ne'.
Proof.
  intros HD (HnM & HnP & Hl & Hg & _ & _ & Hr & Hc & HA).
  apply andb_prop in HD as [HDc HDr]. apply Z.eqb_eq in HDc.
  assert (Hn : csr_cols M1 = n).
  { pose proof Hshapes as Hs. unfold conforming in Hs.
    repeat (apply andb_prop in Hs as [Hs _]). now apply Z.eqb_eq. }
  unfold add_tiepoints. rewrite csr_mul_square. cbn [rbind].
  rewrite csr_add_Ok by (cbn [square csr_scale csr_rows csr_cols]; congruence).
  cbn [rbind]. eexists. split; [reflexivity|].
  unfold assembled.
  cbn [nM nP lmbda_it gamma_it nD alpha_it A_it option_map csr_rows csr_cols].
  repeat split; try assumption.
  intros i j. unfold entry at 1. cbn [csr_entries]. rewrite ent_app.
  fold (entry (A_it ne) i j). rewrite (HA i j).
  unfold A_formula. cbn [option_map].
  rewrite <- (entry_square D1m i j HDr).
  change (@fmul Q Scalar_Q) with Qmult. change (@fdiv Q Scalar_Q) with Qdiv.
  pose proof (ent_scale (alpha par * nM ne / spl_norm (square D1m))
                (csr_entries (square D1m)) i j) as Ea.
  cbn [csr_scale csr_entries] in *. rewrite Ea. unfold entry. ring.
Qed.

(** C6  In an iteration of the velocity step of [jointHypoVel] and of
    [jointHypoVelPS], on matrices of conforming shapes:
    [lmbda = par.lmbda * nM / nK], [gamma = par.gamma * nM / nP] (and
    [par.gamma] when [nP] is 0), and every entry of the matrix assigned to
    [A] is the one of [M1^T M1 + lmbda (KtKx + KtKy + wzK KtKz)
    + gamma dP1^T dP1 + u1 u1^T]; with tie points (in [jointHypoVelPS]: once
    its tie-point block has bound [Vpts2]), [alpha = par.alpha * nM / nD]
    and [alpha D1^T D1] is added to [A]. *)
Theorem normal_matrix_formula (Vpts : list (tie Q)) (D1o : option (csr Q))
    (tp : tie_locals Q) :
  tie_conforming n Vpts D1o = true ->
  tie_conforming n (Vpts2 tp) (Some (D1 tp)) = true ->
  (exists ne,
     assemble spl_norm par M1 dP1 u1 KtKx KtKy KtKz nK = Ok ne /\
     assembled spl_norm par M1 dP1 u1 KtKx KtKy KtKz nK None ne) /\
  (exists ne,
     normal_matrix spl_norm par M1 dP1 u1 KtKx KtKy KtKz nK Vpts D1o = Ok ne /\
     assembled spl_norm par M1 dP1 u1 KtKx KtKy KtKz nK
               (tie_used Vpts D1o) ne) /\
  (exists ne,
     normal_matrix_PS spl_norm par M1 dP1 u1 KtKx KtKy KtKz nK (Some tp)
       = Ok ne /\
     assembled spl_norm par M1 dP1 u1 KtKx KtKy KtKz nK
               (tie_used (Vpts2 tp) (Some (D1 tp))) ne).
Proof.
  intros Hs Hps. destruct assemble_formula as (ne & E & Hne).
  split; [eauto|].
  unfold normal_matrix, normal_matrix_PS. rewrite E. cbn [rbind]. split.
  - destruct Vpts as [|t Vpts']; cbn [length Nat.ltb Nat.leb tie_used];
      [eauto|].
    destruct D1o as [d|]; [|discriminate Hs]. cbn [rbind].
    now apply add_tiepoints_formula.
  - destruct (Vpts2 tp) as [|t Vpts']; cbn [length Nat.ltb Nat.leb tie_used];
      [eauto|].
    now apply add_tiepoints_formula.
Qed.

(** In [jointHypoVelPS] without tie points the name [Vpts2] is not bound:
    the test that follows the assignment of [A] stops the iteration. *)
Lemma normal_matrix_PS_unbound :
  normal_matrix_PS spl_norm par M1 dP1 u1 KtKx KtKy KtKz nK None
    = Raise (NameError "Vpts2").
Proof.
  destruct assemble_formula as (ne & E & _).
  unfold normal_matrix_PS. now rewrite E.
Qed.
End ExactNormalEquations.

Lemma normal_matrix_formula_witness :
  (exists ne,
     assemble frobenius par_main M1_small dP1_small u1_small
              KtK_small KtK_small KtK_small (frobenius KtK_small) = Ok ne /\
     assembled frobenius par_main M1_small dP1_small u1_small
               KtK_small KtK_small KtK_small (frobenius KtK_small) None ne) /\
  (exists ne,
     normal_matrix frobenius par_main M1_small dP1_small u1_small
                   KtK_small KtK_small KtK_small (frobenius KtK_small)
                   Vpts_small (Some D1_small) = Ok ne /\
     assembled frobenius par_main M1_small dP1_small u1_small
               KtK_small KtK_small KtK_small (frobenius KtK_small)
               (tie_used Vpts_small (Some D1_small)) ne) /\
  (exists ne,
     normal_matrix_PS frobenius par_main M1_small dP1_small u1_small
                      KtK_small KtK_small KtK_small (frobenius KtK_small)
                      (Some tie_small) = Ok ne /\
     assembled frobenius par_main M1_small dP1_small u1_small
               KtK_small KtK_small KtK_small (frobenius KtK_small)
               (tie_used (Vpts2 tie_small) (Some (D1 tie_small))) ne).
Proof.
  apply (normal_matrix_formula frobenius par_main M1_small dP1_small u1_small
           KtK_small KtK_small KtK_small (frobenius KtK_small) 2 eq_refl
           Vpts_small (Some D1_small) tie_small); reflexivity.
Defined.

(** On the small system: [nM = 5], [nK = 2], [nP = 9] and [nD = 1/2], so
    that [lmbda = 5], [gamma = 5/9] and [alpha = 10]. *)
Example normal_matrix_small :
  exists ne,
    normal_matrix frobenius par_main M1_small dP1_small u1_small
                  KtK_small KtK_small KtK_small (frobenius KtK_small)
                  Vpts_small (Some D1_small) = Ok ne /\
    (lmbda_it ne == 5)%Q /\ (gamma_it ne == 5 # 9)%Q /\
    (exists al, alpha_it ne = Some al /\ (al == 10)%Q) /\
    (entry (A_it ne) 0 0 == 19)%Q /\ (entry (A_it ne) 1 1 == 18)%Q.
Proof.
  eexists. split; [reflexivity|].
  split; [vm_compute; reflexivity|]. split; [vm_compute; reflexivity|].
  split; [eexists; split; [reflexivity|vm_compute; reflexivity]|].
  split; vm_compute; reflexivity.
Qed.

(** The smoothing matrices of the grid with three nodes a side. *)
Example smoothing_grid_012 :
  exists KtKx KtKy KtKz nK,
    smoothing frobenius grid_012 0 = Ok (KtKx, KtKy, KtKz, nK) /\
    (csr_rows KtKx, csr_cols KtKx) = (27, 27) /\
    (csr_rows KtKy, csr_cols KtKy) = (27, 27) /\
    (csr_rows KtKz, csr_cols KtKz) = (27, 27).
Proof. do 4 eexists. split; [vm_compute; reflexivity|]. repeat split. Qed.

(** ** The errors of the tie-point block *)

Section BlockErrors.
Context {F : Type} `{Scalar F}.
Local Open Scope scalar_scope.

Lemma rbind_Raise {A B} (m : result A) (k : A -> result B) (e : exn) :
  rbind m k = Raise e ->
  m = Raise e \/ exists a, m = Ok a /\ k a = Raise e.
Proof. destruct m as [a|e']; simpl; [eauto|]. intros [= ->]. now left. Qed.

Lemma py_get_Raise {A} (l : list A) (i : Z) (e : exn) :
  py_get l i = Raise e -> e = IndexError.
Proof.
  unfold py_get. destruct (_ && _); [destruct (l !! _)|]; congruence.
Qed.

Lemma to_int_Raise (a : F) (e : exn) :
  to_int a = Raise e -> e = ValueError "cannot convert float to integer".
Proof. unfold to_int. destruct (ftrunc _); congruence. Qed.

Lemma np_min_Raise (l : list F) (e : exn) :
  np_min l = Raise e -> e <> missing_Vp.
Proof. destruct l; simpl; [|discriminate]. intros [= <-]. discriminate. Qed.

Lemma np_max_Raise (l : list F) (e : exn) :
  np_max l = Raise e -> e <> missing_Vp.
Proof. destruct l; simpl; [|discriminate]. intros [= <-]. discriminate. Qed.

Ltac raise_step E :=
  let E' := fresh "E" in
  apply rbind_Raise in E as [E|(? & E' & E)];
  [first [ apply py_get_Raise in E; subst; discriminate
         | apply to_int_Raise in E; subst; discriminate
         | apply np_min_Raise in E; exact E
         | apply np_max_Raise in E; exact E
         | idtac ]
  |].

Lemma isOutside_Raise (g : Grid3D.t F) (pts : list (point F)) (e : exn) :
  Grid3D.isOutside g pts = Raise e -> e <> missing_Vp.
Proof.
  unfold Grid3D.isOutside. intros E.
  raise_step E. raise_step E. destruct (_ <? _); [discriminate|].
  raise_step E. raise_step E. destruct (_ <? _); [discriminate|].
  raise_step E. raise_step E. destruct (_ <? _); [discriminate|].
  raise_step E. raise_step E. destruct (_ <? _); [discriminate|].
  raise_step E. raise_step E. destruct (_ <? _); [discriminate|].
  raise_step E. raise_step E. discriminate.
Qed.

Lemma mapM_Raise {A B} (f : A -> result B) (l : list A) (e : exn) :
  mapM f l = Raise e -> exists a, In a l /\ f a = Raise e.
Proof.
  induction l as [|a l IH]; simpl; [discriminate|]. intros E.
  apply rbind_Raise in E as [E|(b & Eb & E)]; [exists a; auto|].
  apply rbind_Raise in E as [E|(bs & Ebs & E)]; [|discriminate].
  destruct (IH E) as (a' & Ha' & Ea'). exists a'. auto.
Qed.

Lemma point_row_Raise (g : Grid3D.t F) (c : point F) (e : exn) :
  Grid3D.point_row g c = Raise e -> e <> missing_Vp.
Proof.
  unfold Grid3D.point_row, Grid3D.cell. intros E.
  raise_step E. { raise_step E. apply to_int_Raise in E. subst; discriminate. }
  raise_step E. { raise_step E. apply to_int_Raise in E. subst; discriminate. }
  raise_step E. { raise_step E. apply to_int_Raise in E. subst; discriminate. }
  apply mapM_Raise in E as ([[i j] k] & _ & E). cbn beta iota in E.
  apply rbind_Raise in E as [E|(w & _ & E)]; [|discriminate].
  unfold Grid3D.weight in E.
  raise_step E. raise_step E. raise_step E. discriminate.
Qed.

Lemma csr_matrix_Raise (data : list F) (row col : list Z)
    (shape : option (Z * Z)) (e : exn) :
  csr_matrix data row col shape = Raise e -> e <> missing_Vp.
Proof.
  unfold csr_matrix. destruct (negb _); [intros [= <-]; discriminate|].
  intros E. apply rbind_Raise in E as [E|(shp & _ & E)].
  - destruct shape; [discriminate|].
    destruct row; [injection E as <-; discriminate|].
    destruct col; [injection E as <-; discriminate|discriminate].
  - repeat match type of E with
           | (if ?b then _ else _) = _ => destruct b
           end; try discriminate; injection E as <-; discriminate.
Qed.

(** [computeD] has errors of its own, none of which is the one of the
    tie-point loop. *)
Lemma computeD_Raise (g : Grid3D.t F) (coord : list (point F)) (e : exn) :
  Grid3D.computeD g coord = Raise e -> e <> missing_Vp.
Proof.
  unfold Grid3D.computeD. intros E.
  apply rbind_Raise in E as [E|(out & _ & E)];
    [now apply isOutside_Raise in E|].
  destruct out; [injection E as <-; discriminate|].
  apply rbind_Raise in E as [E|(rows & _ & E)].
  - apply mapM_Raise in E as (c & _ & E). now apply point_row_Raise in E.
  - now apply csr_matrix_Raise in E.
Qed.

Lemma hstack_Raise (A B : csr F) (e : exn) :
  hstack A B = Raise e -> e <> missing_Vp.
Proof.
  unfold hstack. destruct (negb _); [|discriminate].
  intros [= <-]. discriminate.
Qed.

(** In the ratio mode the tie-point block of [jointHypoVelPS] stops with
    the error of its loop exactly when an S tie point has no P tie point
    collocated with it. *)
Lemma tiepoint_setup_PS_missing_iff (par : InvParams F) (g : Grid3D.t F)
    (nsta : nat) (Vpts : list (tie F)) :
  invert_VsVp par = true ->
  tiepoint_setup_PS par g nsta Vpts = Raise missing_Vp
  <-> exists t, In t Vpts /\ lonely Vpts t.
Proof.
  intros Hmode. split.
  - unfold tiepoint_setup_PS. destruct Vpts as [|t0 Vpts']; [discriminate|].
    set (Vpts := t0 :: Vpts'). rewrite Hmode. intros E.
    pose proof (tiepoint_ratios_cases Vpts) as Hc.
    destruct (tiepoint_ratios Vpts) as [Vpts2|e]; [|tauto].
    exfalso. cbn [rbind] in E.
    apply rbind_Raise in E as [E|(Dm & _ & E)].
    + apply rbind_Raise in E as [E|(D0 & _ & E)].
      * now apply computeD_Raise in E.
      * now apply hstack_Raise in E.
    + apply rbind_Raise in E as [E|(D1m & _ & E)]; [|discriminate].
      now apply hstack_Raise in E.
  - intros (t & Hin & Hl). now apply (tiepoint_setup_PS_missing par g nsta Vpts t).
Qed.
End BlockErrors.

(* ================================================================== *)
(** * Further properties *)

(** ** The constructor of Grid3D and the numbering of the nodes *)

Section GridConstructor.
Import Grid3D.
Context {F : Type} `{Scalar F}.
Local Open Scope scalar_scope.

Lemma py_get_two {A} (l : list A) (a1 a0 : A) :
  py_get l 1 = Ok a1 -> py_get l 0 = Ok a0 -> exists t, l = a0 :: a1 :: t.
Proof.
  destruct l as [|b0 [|b1 t]]; [discriminate|discriminate|].
  rewrite (py_get_nth _ 1 b0), (py_get_nth _ 0 b0) by (cbn [length]; lia).
  cbn. intros [= <-] [= <-]. eauto.
Qed.

Lemma py_get_short {A} (l : list A) (i : Z) :
  (Z.of_nat (length l) <= i)%Z -> py_get l i = Raise IndexError.
Proof.
  intros Hi. unfold py_get.
  replace (i <? 0)%Z with false by lia.
  replace ((0 <=? i)%Z && (i <? Z.of_nat (length l))%Z) with false by lia.
  reflexivity.
Qed.

(** X1  [Grid3D.__init__] accepts three axes exactly when each holds at
    least two nodes and the first cells have one size, [x[1]-x[0] ==
    y[1]-y[0]] and [x[1]-x[0] == z[1]-z[0]]; [dx] is then [x[1]-x[0]], and
    the nodes from the third on are not looked at.  An axis of fewer than
    two nodes gives [IndexError], cells of different sizes [ValueError]. *)
Theorem init_accepts (x y z : list F) (nt : nat) :
  (forall g, init x y z nt = Ok g <->
     exists x0 x1 xs y0 y1 ys z0 z1 zs,
       x = x0 :: x1 :: xs /\ y = y0 :: y1 :: ys /\ z = z0 :: z1 :: zs /\
       ((x1 - x0) =? (y1 - y0)) = true /\ ((x1 - x0) =? (z1 - z0)) = true /\
       g = mk x y z nt (x1 - x0)) /\
  (forall e, init x y z nt = Raise e ->
     (e = IndexError /\
      (length x < 2 \/ length y < 2 \/ length z < 2)%nat) \/
     (e = ValueError "Grid cells must be cubic" /\
      (2 <= length x /\ 2 <= length y /\ 2 <= length z)%nat)).
Proof.
  split.
  - intros g. split.
    + unfold init. intros E.
      apply rbind_Ok in E as (x1 & Ex1 & E). apply rbind_Ok in E as (x0 & Ex0 & E).
      apply rbind_Ok in E as (y1 & Ey1 & E). apply rbind_Ok in E as (y0 & Ey0 & E).
      apply rbind_Ok in E as (z1 & Ez1 & E). apply rbind_Ok in E as (z0 & Ez0 & E).
      destruct (py_get_two _ _ _ Ex1 Ex0) as (xs & ->).
      destruct (py_get_two _ _ _ Ey1 Ey0) as (ys & ->).
      destruct (py_get_two _ _ _ Ez1 Ez0) as (zs & ->).
      destruct ((x1 - x0) =? (y1 - y0)) eqn:Cy; [|discriminate].
      destruct ((x1 - x0) =? (z1 - z0)) eqn:Cz; [|discriminate].
      injection E as <-. exists x0, x1, xs, y0, y1, ys, z0, z1, zs. auto 10.
    + intros (x0 & x1 & xs & y0 & y1 & ys & z0 & z1 & zs
              & -> & -> & -> & Cy & Cz & ->).
      unfold init.
      rewrite (py_get_nth (x0 :: x1 :: xs) 1 x0),
              (py_get_nth (x0 :: x1 :: xs) 0 x0),
              (py_get_nth (y0 :: y1 :: ys) 1 x0),
              (py_get_nth (y0 :: y1 :: ys) 0 x0),
              (py_get_nth (z0 :: z1 :: zs) 1 x0),
              (py_get_nth (z0 :: z1 :: zs) 0 x0) by (cbn [length]; lia).
      change (Z.to_nat 1) with 1%nat. change (Z.to_nat 0) with 0%nat.
      cbn [rbind nth]. now rewrite Cy, Cz.
  - intros e. unfold init. intros E.
    destruct (le_lt_dec 2 (length x)) as [Hx|Hx].
    2:{ left. split; [|lia].
        rewrite (py_get_short x 1) in E by lia. cbn [rbind] in E. congruence. }
    destruct x as [|x0 [|x1 xs]]; cbn [length] in Hx; try lia.
    rewrite (py_get_nth (x0 :: x1 :: xs) 1 x0),
            (py_get_nth (x0 :: x1 :: xs) 0 x0) in E by (cbn [length]; lia).
    cbn [rbind] in E.
    destruct (le_lt_dec 2 (length y)) as [Hy|Hy].
    2:{ left. split; [|lia].
        rewrite (py_get_short y 1) in E by lia. cbn [rbind] in E. congruence. }
    destruct y as [|y0 [|y1 ys]]; cbn [length] in Hy; try lia.
    rewrite (py_get_nth (y0 :: y1 :: ys) 1 x0),
            (py_get_nth (y0 :: y1 :: ys) 0 x0) in E by (cbn [length]; lia).
    cbn [rbind] in E.
    destruct (le_lt_dec 2 (length z)) as [Hz|Hz].
    2:{ left. split; [|lia].
        rewrite (py_get_short z 1) in E by lia. cbn [rbind] in E. congruence. }
    destruct z as [|z0 [|z1 zs]]; cbn [length] in Hz; try lia.
    rewrite (py_get_nth (z0 :: z1 :: zs) 1 x0),
            (py_get_nth (z0 :: z1 :: zs) 0 x0) in E by (cbn [length]; lia).
    cbn [rbind] in E.
    right. split; [|cbn [length]; lia].
    destruct (negb _ || negb _); congruence.
Qed.

Lemma split_index (a a' b b' n : Z) :
  (0 <= b < n)%Z -> (0 <= b' < n)%Z -> (a * n + b = a' * n + b')%Z ->
  a = a' /\ b = b'.
Proof.
  intros Hb Hb' E.
  assert (a = a') by (destruct (Z.lt_trichotomy a a') as [?|[?|?]]; [nia|auto|nia]).
  subst. lia.
Qed.

(** X2  [ind] numbers the nodes: on the indices of the grid it takes its
    values among [0 .. getNumberOfNodes()-1], two different nodes get
    different numbers, and every number is the one of a node. *)
Theorem ind_numbers_nodes (g : t F) :
  (forall i j k, (0 <= i < nx g)%Z -> (0 <= j < ny g)%Z -> (0 <= k < nz g)%Z ->
     (0 <= ind g i j k < getNumberOfNodes g)%Z) /\
  (forall i j k i' j' k',
     (0 <= i < nx g)%Z -> (0 <= j < ny g)%Z -> (0 <= k < nz g)%Z ->
     (0 <= i' < nx g)%Z -> (0 <= j' < ny g)%Z -> (0 <= k' < nz g)%Z ->
     ind g i j k = ind g i' j' k' -> i = i' /\ j = j' /\ k = k') /\
  (forall n, (0 <= n < getNumberOfNodes g)%Z ->
     exists i j k, (0 <= i < nx g)%Z /\ (0 <= j < ny g)%Z /\
                   (0 <= k < nz g)%Z /\ ind g i j k = n).
Proof.
  unfold ind, getNumberOfNodes. split; [|split].
  - intros i j k Hi Hj Hk.
    assert (0 <= i * ny g + j <= nx g * ny g - 1)%Z by nia. nia.
  - intros i j k i' j' k' Hi Hj Hk Hi' Hj' Hk' E.
    destruct (split_index _ _ _ _ _ Hk Hk' E) as [E1 Ek].
    destruct (split_index _ _ _ _ _ Hj Hj' E1) as [Ei Ej]. auto.
  - intros n Hn.
    assert (0 <= nx g)%Z by (unfold nx; lia).
    assert (0 <= ny g)%Z by (unfold ny; lia).
    assert (0 <= nz g)%Z by (unfold nz; lia).
    assert (0 < nz g)%Z by nia. assert (0 < ny g)%Z by nia.
    exists (n / nz g / ny g)%Z, ((n / nz g) mod ny g)%Z, (n mod nz g)%Z.
    pose proof (Z.mod_pos_bound n (nz g) ltac:(lia)).
    pose proof (Z.mod_pos_bound (n / nz g) (ny g) ltac:(lia)).
    pose proof (Z.div_mod n (nz g) ltac:(lia)).
    pose proof (Z.div_mod (n / nz g) (ny g) ltac:(lia)).
    assert (0 <= n / nz g)%Z by (apply Z.div_pos; lia).
    assert (0 <= n / nz g / ny g)%Z by (apply Z.div_pos; lia).
    assert (n / nz g / ny g < nx g)%Z.
    { apply Z.div_lt_upper_bound; [lia|]. apply Z.div_lt_upper_bound; [lia|]. nia. }
    repeat split; lia || nia.
Qed.
End GridConstructor.

Lemma ind_numbers_nodes_witness :
  Grid3D.ind grid_012 1 2 0 = 15 /\
  exists i j k, (0 <= i < Grid3D.nx grid_012) /\ (0 <= j < Grid3D.ny grid_012) /\
                (0 <= k < Grid3D.nz grid_012) /\ Grid3D.ind grid_012 i j k = 15.
Proof.
  split; [reflexivity|].
  apply (proj2 (proj2 (ind_numbers_nodes grid_012))). vm_compute.
  split; [discriminate|reflexivity].
Defined.

Lemma init_accepts_witness :
  Grid3D.init [0; 1; 5]%Q [0; 1; 2]%Q [0; 1; 2]%Q 1
  = Ok (Grid3D.mk [0; 1; 5]%Q [0; 1; 2]%Q [0; 1; 2]%Q 1 (1 - 0)%Q).
Proof.
  apply (proj1 (init_accepts [0; 1; 5]%Q [0; 1; 2]%Q [0; 1; 2]%Q 1)).
  exists 0%Q, 1%Q, [5%Q], 0%Q, 1%Q, [2%Q], 0%Q, 1%Q, [2%Q].
  repeat split; reflexivity.
Defined.

(** ** The test against the bounds of the grid *)

Section BoundsTheorems.
Context {F : Type} {SF : Scalar F} {OS : OrderedScalar F}.
Import Grid3D.

(** X3  [isOutside] on a batch of points, for a grid whose first and last
    nodes are numbers: an empty batch is an error of [np.min]; otherwise
    the method returns, and it returns [False] exactly when, on every axis,
    the coordinates of the batch lie all between the first and the last
    node (bounds included) or hold a NaN, which makes [np.min] and [np.max]
    NaN and both comparisons of the axis false.  So on a batch without NaN
    it returns [False] exactly when every point lies inside the grid. *)
Theorem isOutside_answer (g : t F) (pts : list (point F)) :
  numeric_bounds g ->
  (pts = [] ->
   isOutside g pts
   = Raise (ValueError "zero-size array to reduction operation minimum")) /\
  (pts <> [] ->
   exists b, isOutside g pts = Ok b /\
             (b = false <-> tests_pass g pts) /\
             ((forall p, In p pts -> no_nan p) ->
              (b = false <-> forall p, In p pts -> inside_grid g p))).
Proof.
  intros Hg. split.
  - intros ->. reflexivity.
  - intros Hp. destruct (isOutside_tests g pts Hg Hp) as (b & E & Hb).
    exists b. split; [exact E|]. split; [exact Hb|].
    intros Hn. rewrite Hb. now apply tests_pass_inside.
Qed.

(** X4  [raytrace] hands no point outside the grid to the raytracing
    engine, as long as no coordinate is NaN: with as many receivers as
    sources, all of them without NaN, a source or a receiver outside the
    bounds of the grid ends the call with one of the two [ValueError] of
    the method, whatever the engine would return. *)
Theorem raytrace_rejects_outside (engine : engine_t F) (g : t F)
    (s : list F) (hypo : list (hyp F)) (rcv : list (point F)) (p : point F) :
  numeric_bounds g ->
  length hypo = length rcv ->
  (forall q, In q (map h_xyz hypo ++ rcv) -> no_nan q) ->
  In p (map h_xyz hypo ++ rcv) -> ~ inside_grid g p ->
  raytrace engine g s hypo rcv = Raise (ValueError "Source point outside grid")
  \/ raytrace engine g s hypo rcv = Raise (ValueError "Receiver outside grid").
Proof.
  intros Hg Hlen Hn Hin Hout. unfold raytrace.
  rewrite length_map, Hlen, Nat.eqb_refl. cbn [negb].
  assert (Hne : map h_xyz hypo <> [] /\ rcv <> []).
  { destruct hypo, rcv; cbn in *; try discriminate; try tauto. split; discriminate. }
  destruct Hne as [Hs Hr].
  destruct (isOutside_decides g _ Hg Hs) as (b1 & -> & B1).
  { intros q Hq. apply Hn, in_or_app. now left. }
  cbn [rbind]. destruct b1; [now left|].
  destruct (isOutside_decides g _ Hg Hr) as (b2 & -> & B2).
  { intros q Hq. apply Hn, in_or_app. now right. }
  cbn [rbind]. destruct b2; [now right|].
  exfalso. apply Hout. apply in_app_or in Hin as [Hin|Hin].
  - now apply (proj1 B1).
  - now apply (proj1 B2).
Qed.

(** X5  [computeD] refuses an empty batch (the error of [np.min]) and,
    with the [ValueError] of the method, any batch without NaN that has a
    point outside the bounds of the grid. *)
Theorem computeD_rejects (g : t F) (coord : list (point F)) :
  numeric_bounds g ->
  (coord = [] ->
   computeD g coord
   = Raise (ValueError "zero-size array to reduction operation minimum")) /\
  ((forall q, In q coord -> no_nan q) ->
   forall p, In p coord -> ~ inside_grid g p ->
   computeD g coord = Raise (ValueError "Velocity data point outside grid")).
Proof.
  intros Hg. split.
  - intros ->. reflexivity.
  - intros Hn p Hin Hout. unfold computeD.
    assert (Hne : coord <> []) by (destruct coord; [destruct Hin|discriminate]).
    destruct (isOutside_decides g _ Hg Hne Hn) as (b & -> & B). cbn [rbind].
    destruct b; [reflexivity|]. exfalso. apply Hout. now apply (proj1 B).
Qed.
End BoundsTheorems.

Lemma outside_203 : ~ inside_grid grid_012_binary64 (2, 0, 3)%float.
Proof.
  intros (a1 & a2 & a3 & a4 & a5 & a6 & _ & _ & _ & _ & _ & E6 & _ & _ & _ & Hb).
  injection E6 as <-. discriminate Hb.
Qed.

Lemma isOutside_answer_witness :
  Grid3D.isOutside grid_012_binary64 [(1, 1, 3); (1, 1, nan)]%float = Ok false /\
  tests_pass grid_012_binary64 [(1, 1, 3); (1, 1, nan)]%float /\
  ~ inside_grid grid_012_binary64 (1, 1, 3)%float.
Proof.
  destruct (proj2 (isOutside_answer grid_012_binary64
                     [(1, 1, 3); (1, 1, nan)]%float numeric_bounds_012)
                  ltac:(discriminate)) as (b & E & Hb & _).
  assert (E' : Grid3D.isOutside grid_012_binary64 [(1, 1, 3); (1, 1, nan)]%float
               = Ok false) by (vm_compute; reflexivity).
  split; [exact E'|]. split.
  - apply Hb. congruence.
  - intros (a1 & a2 & a3 & a4 & a5 & a6 & _ & _ & _ & _ & _ & E6 & _ & _ & _ & Hz).
    injection E6 as <-. discriminate Hz.
Defined.

Lemma raytrace_rejects_outside_witness :
  Grid3D.raytrace straight_engine grid_012_binary64 (repeat 1%float 27)
                  [mk_hyp 7 0 1 1 1]%float [(2, 0, 3)]%float
  = Raise (ValueError "Source point outside grid") \/
  Grid3D.raytrace straight_engine grid_012_binary64 (repeat 1%float 27)
                  [mk_hyp 7 0 1 1 1]%float [(2, 0, 3)]%float
  = Raise (ValueError "Receiver outside grid").
Proof.
  apply (raytrace_rejects_outside straight_engine grid_012_binary64
           (repeat 1%float 27) [mk_hyp 7 0 1 1 1]%float [(2, 0, 3)]%float
           (2, 0, 3)%float numeric_bounds_012 eq_refl).
  - intros q [<-|[<-|[]]]; repeat split; reflexivity.
  - right. now left.
  - exact outside_203.
Defined.

Lemma computeD_rejects_witness :
  Grid3D.computeD grid_012_binary64 [(1, 1, 1); (2, 0, 3)]%float
  = Raise (ValueError "Velocity data point outside grid").
Proof.
  apply (proj2 (computeD_rejects grid_012_binary64 [(1, 1, 1); (2, 0, 3)]%float
                  numeric_bounds_012)) with (p := (2, 0, 3)%float).
  - intros q [<-|[<-|[]]]; repeat split; reflexivity.
  - right. now left.
  - exact outside_203.
Defined.

(** ** The parameters of the inversion *)

Section ParamsFacts.
Context {F : Type} `{Scalar F}.

Lemma py_get_Ok_lt {A} (l : list A) (i : Z) (a : A) :
  (0 <= i)%Z -> py_get l i = Ok a -> (i < Z.of_nat (length l))%Z.
Proof.
  intros Hi. unfold py_get. replace (i <? 0)%Z with false by lia.
  destruct ((0 <=? i)%Z && (i <? Z.of_nat (length l))%Z) eqn:E; [|discriminate].
  intros _. lia.
Qed.

Lemma py_get_Ok_ex {A} (l : list A) (i : Z) :
  (0 <= i < Z.of_nat (length l))%Z -> exists a, py_get l i = Ok a.
Proof.
  intros Hi. destruct l as [|d l]; [cbn [length] in Hi; lia|].
  rewrite (py_get_nth _ i d) by exact Hi. eauto.
Qed.

Ltac get_ok l i :=
  let a := fresh "a" in
  let E := fresh "E" in
  destruct (py_get_Ok_ex l i ltac:(lia)) as (a & E); rewrite E; cbn [rbind].

Ltac raise_get E :=
  apply rbind_Raise in E as [E|(? & _ & E)]; [now apply py_get_Raise in E|].

(** X6  [InvParams.__init__] returns exactly when [Vlim] has 3 or at least
    6 entries, [dmax] at least 3 and [lagrangians] at least 4, and raises
    [IndexError] otherwise.  The attributes [Vsmin], [Vsmax] and [PAs] are
    set only from a [Vlim] of at least 6 entries (a [Vlim] of 4 or 5 entries
    is an error), and [dVs_max] only from a [dmax] of more than 3. *)
Theorem InvParams_init_needs (maxit maxit_hypo : nat) (conv_hypo : F)
    (Vlim dmax lagrangians : list F) (f1 f2 f3 f4 f5 f6 : bool) :
  let r := InvParams_init maxit maxit_hypo conv_hypo Vlim dmax lagrangians
                          f1 f2 f3 f4 f5 f6 in
  ((exists par, r = Ok par) <->
   (length Vlim = 3 \/ 6 <= length Vlim)%nat /\ (3 <= length dmax)%nat /\
   (4 <= length lagrangians)%nat) /\
  (forall par, r = Ok par ->
     (Vsmin par = None <-> length Vlim = 3%nat) /\
     (Vsmax par = None <-> length Vlim = 3%nat) /\
     (PAs par = None <-> length Vlim = 3%nat) /\
     (dVs_max par = None <-> length dmax = 3%nat)) /\
  (forall e, r = Raise e -> e = IndexError).
Proof.
  cbv zeta. unfold InvParams_init.
  assert (Hfwd : forall par,
    (vpmin <- py_get Vlim 0 ;; vpmax <- py_get Vlim 1 ;; pap <- py_get Vlim 2 ;;
     vs <- (if (3 <? length Vlim)%nat
            then a <- py_get Vlim 3 ;; b <- py_get Vlim 4 ;; c <- py_get Vlim 5 ;;
                 Ok (Some a, Some b, Some c)
            else Ok (None, None, None)) ;;
     dvp <- py_get dmax 0 ;; dx <- py_get dmax 1 ;; dt <- py_get dmax 2 ;;
     dvs <- (if (3 <? length dmax)%nat
             then a <- py_get dmax 3 ;; Ok (Some a) else Ok None) ;;
     l0 <- py_get lagrangians 0 ;; l1 <- py_get lagrangians 1 ;;
     l2 <- py_get lagrangians 2 ;; l3 <- py_get lagrangians 3 ;;
     Ok (mkInvParams maxit maxit_hypo conv_hypo vpmin vpmax pap
           (fst (fst vs)) (snd (fst vs)) (snd vs) dvp dx dt dvs l0 l1 l2 l3
           f1 f2 f3 f4 f5 f6)) = Ok par ->
    ((length Vlim = 3 \/ 6 <= length Vlim)%nat /\ (3 <= length dmax)%nat /\
     (4 <= length lagrangians)%nat) /\
    (Vsmin par = None <-> length Vlim = 3%nat) /\
    (Vsmax par = None <-> length Vlim = 3%nat) /\
    (PAs par = None <-> length Vlim = 3%nat) /\
    (dVs_max par = None <-> length dmax = 3%nat)).
  { intros par E.
    apply rbind_Ok in E as (vpmin & _ & E). apply rbind_Ok in E as (vpmax & _ & E).
    apply rbind_Ok in E as (pap & E2 & E). apply py_get_Ok_lt in E2; [|lia].
    apply rbind_Ok in E as (vs & Evs & E).
    apply rbind_Ok in E as (dvp & _ & E). apply rbind_Ok in E as (dx & _ & E).
    apply rbind_Ok in E as (dt & D2 & E). apply py_get_Ok_lt in D2; [|lia].
    apply rbind_Ok in E as (dvs & Edvs & E).
    apply rbind_Ok in E as (l0 & _ & E). apply rbind_Ok in E as (l1 & _ & E).
    apply rbind_Ok in E as (l2 & _ & E). apply rbind_Ok in E as (l3 & L3 & E).
    apply py_get_Ok_lt in L3; [|lia]. injection E as <-.
    cbn [Vsmin Vsmax PAs dVs_max].
    destruct (3 <? length Vlim)%nat eqn:CV.
    - apply Nat.ltb_lt in CV.
      apply rbind_Ok in Evs as (a & _ & Evs). apply rbind_Ok in Evs as (b & _ & Evs).
      apply rbind_Ok in Evs as (c & V5 & Evs). apply py_get_Ok_lt in V5; [|lia].
      injection Evs as <-. cbn [fst snd].
      destruct (3 <? length dmax)%nat eqn:CD.
      + apply Nat.ltb_lt in CD. apply rbind_Ok in Edvs as (d & _ & Edvs).
        injection Edvs as <-.
        repeat split; try lia; try discriminate.
      + apply Nat.ltb_ge in CD. injection Edvs as <-.
        repeat split; try lia; try discriminate.
    - apply Nat.ltb_ge in CV. injection Evs as <-. cbn [fst snd].
      destruct (3 <? length dmax)%nat eqn:CD.
      + apply Nat.ltb_lt in CD. apply rbind_Ok in Edvs as (d & _ & Edvs).
        injection Edvs as <-.
        repeat split; try lia; try discriminate.
      + apply Nat.ltb_ge in CD. injection Edvs as <-.
        repeat split; try lia; try discriminate. }
  split; [|split].
  - split.
    + intros (par & E). now apply Hfwd in E.
    + intros (HV & HD & HL).
      get_ok Vlim 0%Z. get_ok Vlim 1%Z. get_ok Vlim 2%Z.
      destruct (3 <? length Vlim)%nat eqn:CV.
      * apply Nat.ltb_lt in CV.
        get_ok Vlim 3%Z. get_ok Vlim 4%Z. get_ok Vlim 5%Z.
        get_ok dmax 0%Z. get_ok dmax 1%Z. get_ok dmax 2%Z.
        destruct (3 <? length dmax)%nat eqn:CD.
        -- apply Nat.ltb_lt in CD. get_ok dmax 3%Z.
           get_ok lagrangians 0%Z. get_ok lagrangians 1%Z.
           get_ok lagrangians 2%Z. get_ok lagrangians 3%Z. eauto.
        -- cbn [rbind].
           get_ok lagrangians 0%Z. get_ok lagrangians 1%Z.
           get_ok lagrangians 2%Z. get_ok lagrangians 3%Z. eauto.
      * cbn [rbind].
        get_ok dmax 0%Z. get_ok dmax 1%Z. get_ok dmax 2%Z.
        destruct (3 <? length dmax)%nat eqn:CD.
        -- apply Nat.ltb_lt in CD. get_ok dmax 3%Z.
           get_ok lagrangians 0%Z. get_ok lagrangians 1%Z.
           get_ok lagrangians 2%Z. get_ok lagrangians 3%Z. eauto.
        -- cbn [rbind].
           get_ok lagrangians 0%Z. get_ok lagrangians 1%Z.
           get_ok lagrangians 2%Z. get_ok lagrangians 3%Z. eauto.
  - intros par E. now apply Hfwd in E.
  - intros e E.
    raise_get E. raise_get E. raise_get E.
    apply rbind_Raise in E as [E|(? & _ & E)].
    { destruct (3 <? length Vlim)%nat; [|discriminate].
      raise_get E. raise_get E. raise_get E. discriminate. }
    raise_get E. raise_get E. raise_get E.
    apply rbind_Raise in E as [E|(? & _ & E)].
    { destruct (3 <? length dmax)%nat; [|discriminate].
      raise_get E. discriminate. }
    raise_get E. raise_get E. raise_get E. raise_get E. discriminate.
Qed.

(** X7  The two-phase update needs [dVs_max]: with parameters built from a
    [dmax] of three entries, the clamp of the S block of [jointHypoVelPS]
    stops with [AttributeError], whatever the update and the model. *)
Theorem apply_update_PS_needs_dVs_max (maxit maxit_hypo : nat) (conv_hypo : F)
    (Vlim dmax lagrangians : list F) (f1 f2 f3 f4 f5 f6 : bool)
    (par : InvParams F) (nnodes nsta : nat) (deltam : list F)
    (st : model_PS F) :
  InvParams_init maxit maxit_hypo conv_hypo Vlim dmax lagrangians
                 f1 f2 f3 f4 f5 f6 = Ok par ->
  length dmax = 3%nat ->
  apply_update_PS par nnodes nsta deltam st
  = Raise (AttributeError "dVs_max").
Proof.
  intros E Hd.
  assert (Hn : dVs_max par = None).
  { unfold InvParams_init in E.
    apply rbind_Ok in E as (vpmin & _ & E). apply rbind_Ok in E as (vpmax & _ & E).
    apply rbind_Ok in E as (pap & _ & E). apply rbind_Ok in E as (vs & _ & E).
    apply rbind_Ok in E as (dvp & _ & E). apply rbind_Ok in E as (dx & _ & E).
    apply rbind_Ok in E as (dt & _ & E). apply rbind_Ok in E as (dvs & Edvs & E).
    apply rbind_Ok in E as (l0 & _ & E). apply rbind_Ok in E as (l1 & _ & E).
    apply rbind_Ok in E as (l2 & _ & E). apply rbind_Ok in E as (l3 & _ & E).
    injection E as <-. cbn [dVs_max]. rewrite Hd in Edvs. cbn in Edvs.
    congruence. }
  unfold apply_update_PS. now rewrite Hn.
Qed.
End ParamsFacts.

Lemma InvParams_init_needs_witness :
  (exists par, InvParams_init 3 10 1%Q [3500; 4500; 1]%Q [50; 5; 1 # 100]%Q
                              [2; 1; 1; 1 # 10]%Q true true false true true true
               = Ok par) /\
  InvParams_init 3 10 1%Q [3500; 4500; 1; 1500]%Q [50; 5; 1 # 100]%Q
                 [2; 1; 1; 1 # 10]%Q true true false true true true
  = Raise IndexError.
Proof.
  split.
  - apply (proj1 (InvParams_init_needs 3 10 1%Q [3500; 4500; 1]%Q
                    [50; 5; 1 # 100]%Q [2; 1; 1; 1 # 10]%Q
                    true true false true true true)).
    cbn [length]. lia.
  - destruct (InvParams_init 3 10 1%Q [3500; 4500; 1; 1500]%Q [50; 5; 1 # 100]%Q
                [2; 1; 1; 1 # 10]%Q true true false true true true) eqn:E.
    + discriminate E.
    + f_equal.
      exact (proj2 (proj2 (InvParams_init_needs 3 10 1%Q [3500; 4500; 1; 1500]%Q
                             [50; 5; 1 # 100]%Q [2; 1; 1; 1 # 10]%Q
                             true true false true true true)) e E).
Defined.

Lemma apply_update_PS_needs_dVs_max_witness :
  exists par,
    InvParams_init 3 10 1%Q [3500; 4500; 1; 1500; 2500; 1]%Q [50; 5; 1 # 100]%Q
                   [2; 1; 1; 1 # 10]%Q true true false true true true = Ok par /\
    apply_update_PS par 1 1 [100; 1 # 10; 0; 0]%Q model_ratio
    = Raise (AttributeError "dVs_max").
Proof.
  eexists. split; [reflexivity|].
  apply (apply_update_PS_needs_dVs_max 3 10 1%Q
           [3500; 4500; 1; 1500; 2500; 1]%Q [50; 5; 1 # 100]%Q
           [2; 1; 1; 1 # 10]%Q true true false true true true);
    reflexivity.
Defined.

(** ** The constant velocity locators *)

Section LocatorMore.
Context {F : Type} `{Scalar F}.
Variable solve : solve_t F.
Variable svd : svd_t F.

(** [hypoloc] and [hypolocPS] run the loop over the events on a copy of
    [hinit], stored at a fresh address. *)
Lemma hypoloc_unfold (data : list (obs F)) (rcv : list (point F)) (V : F)
    (hinit maxit : nat) (convh : F) (h : store F) (tbl : list (hyp F)) :
  h !! hinit = Some tbl ->
  let run := locate_events solve svd (np_unique (map o_id data))
                           (fun _ => Ok V) data rcv maxit convh tbl in
  hypoloc solve svd data rcv V hinit maxit convh h
  = (match fst run with
     | Ok res => Ok (length h, res)
     | Raise e => Raise e
     end, <[length h := snd run]> (h ++ [tbl])).
Proof.
  intros Hh. unfold hypoloc, ndarray_copy. rewrite Hh.
  assert (E : (h ++ [tbl]) !! length h = Some tbl).
  { rewrite lookup_app_r by lia. now rewrite Nat.sub_diag. }
  cbv beta iota zeta. rewrite E.
  destruct (locate_events _ _ _ _ _ _ _ _ _) as [[res|e] tbl']; reflexivity.
Qed.

Lemma hypolocPS_unfold (data : list (obs F)) (rcv : list (point F))
    (V : F * F) (hinit maxit : nat) (convh : F) (h : store F)
    (tbl : list (hyp F)) :
  h !! hinit = Some tbl ->
  let run := locate_events solve svd (np_unique (map o_id data))
               (fun o => rbind (to_int (o_ph o))
                               (fun i => py_get [fst V; snd V] i))
               data rcv maxit convh tbl in
  hypolocPS solve svd data rcv V hinit maxit convh h
  = (match fst run with
     | Ok res => Ok (length h, res)
     | Raise e => Raise e
     end, <[length h := snd run]> (h ++ [tbl])).
Proof.
  intros Hh. unfold hypolocPS, ndarray_copy. rewrite Hh.
  assert (E : (h ++ [tbl]) !! length h = Some tbl).
  { rewrite lookup_app_r by lia. now rewrite Nat.sub_diag. }
  cbv beta iota zeta. rewrite E.
  destruct (locate_events _ _ _ _ _ _ _ _ _) as [[res|e] tbl']; reflexivity.
Qed.

Lemma lookup_new_array (h : store F) (tbl tbl' : list (hyp F)) :
  (<[length h := tbl']> (h ++ [tbl])) !! length h = Some tbl'.
Proof. apply list_lookup_insert_eq. rewrite length_app. simpl. lia. Qed.

(** *** Rows of other events *)

Lemma lookup_map_Some {A B} (f : A -> B) (l : list A) (i : nat) (a : A) :
  l !! i = Some a -> map f l !! i = Some (f a).
Proof.
  revert i. induction l as [|b l IH]; intros [|i]; simpl; try discriminate.
  - now intros [= ->].
  - apply IH.
Qed.

Lemma add_dh_other (eid : F) (dh : vec4 F) (loc : list (hyp F)) (i : nat)
    (row : hyp F) :
  loc !! i = Some row -> feqb eid (h_id row) = false ->
  add_dh eid dh loc !! i = Some row.
Proof.
  intros Hi Hne. destruct dh as [[[d0 d1] d2] d3]. unfold add_dh.
  rewrite (lookup_map_Some _ _ _ _ Hi). now rewrite Hne.
Qed.

Lemma locate_loop_other (n it : nat) (eid convh : F) (x : list (point F))
    (t vel resrow : list F) (loc : list (hyp F)) (i : nat) (row : hyp F) :
  loc !! i = Some row -> feqb eid (h_id row) = false ->
  snd (locate_loop solve svd n it eid convh x t vel resrow loc) !! i = Some row.
Proof.
  revert it resrow loc. induction n as [|n IH]; intros it resrow loc Hi Hne;
    simpl; [exact Hi|].
  destruct (locate_iter _ _ _ _ _ _) as [[nr [dh|]]|e]; try exact Hi.
  destruct (converged convh dh); simpl.
  - now apply add_dh_other.
  - apply IH; [|exact Hne]. now apply add_dh_other.
Qed.

Lemma locate_events_other (evID : list F) (vel_of : obs F -> result F)
    (data : list (obs F)) (rcv : list (point F)) (maxit : nat) (convh : F)
    (loc : list (hyp F)) (i : nat) (row : hyp F) :
  loc !! i = Some row ->
  (forall eid, In eid evID -> feqb eid (h_id row) = false) ->
  snd (locate_events solve svd evID vel_of data rcv maxit convh loc) !! i
  = Some row.
Proof.
  revert loc. induction evID as [|eid evID IH]; intros loc Hi Hne; simpl;
    [exact Hi|].
  destruct (rbind _ _) as [[x vel]|e]; [|exact Hi].
  pose proof (locate_loop_other maxit 0 eid convh x
                (map o_t (List.filter (fun o => feqb eid (o_id o)) data))
                vel (repeat fzero maxit) loc i row Hi
                (Hne eid ltac:(now left))) as E1.
  destruct (locate_loop _ _ _ _ _ _ _ _ _ _ _) as [[resrow|e] loc1];
    simpl in E1; [|exact E1].
  specialize (IH loc1 E1 ltac:(intros e He; apply Hne; now right)).
  destruct (locate_events _ _ _ _ _ _ _ _ _) as [[res|e] loc2]; exact IH.
Qed.

(** X8  [hypoloc] and [hypolocPS] return the rows of [hinit] that belong
    to no event of [data] as they are, at the same place of the table they
    return (also in the table they leave behind when an exception stops
    them). *)
Theorem hypoloc_keeps_other_events (data : list (obs F))
    (rcv : list (point F)) (V : F) (Vps : F * F) (hinit maxit : nat)
    (convh : F) (h : store F) (tbl : list (hyp F)) (i : nat) (row : hyp F) :
  h !! hinit = Some tbl -> tbl !! i = Some row ->
  (forall o, In o data -> feqb (o_id o) (h_id row) = false) ->
  let out := hypoloc solve svd data rcv V hinit maxit convh h in
  let outPS := hypolocPS solve svd data rcv Vps hinit maxit convh h in
  (forall loc res, fst out = Ok (loc, res) -> loc = length h) /\
  (forall loc res, fst outPS = Ok (loc, res) -> loc = length h) /\
  (exists tbl', snd out !! length h = Some tbl' /\ tbl' !! i = Some row) /\
  (exists tbl', snd outPS !! length h = Some tbl' /\ tbl' !! i = Some row).
Proof.
  intros Hh Hi Hne. cbv zeta.
  rewrite (hypoloc_unfold data rcv V hinit maxit convh h tbl Hh).
  rewrite (hypolocPS_unfold data rcv Vps hinit maxit convh h tbl Hh).
  cbv zeta. cbn [fst snd].
  assert (Hev : forall eid, In eid (np_unique (map o_id data)) ->
                            feqb eid (h_id row) = false).
  { intros eid He. apply np_unique_In, in_map_iff in He as (o & <- & Ho).
    now apply Hne. }
  split; [|split; [|split]].
  - intros loc res E. destruct (fst (locate_events _ _ _ _ _ _ _ _ _));
      congruence.
  - intros loc res E. destruct (fst (locate_events _ _ _ _ _ _ _ _ _));
      congruence.
  - eexists. split; [apply lookup_new_array|].
    now apply locate_events_other.
  - eexists. split; [apply lookup_new_array|].
    now apply locate_events_other.
Qed.

(** *** The shape of [res] *)

Lemma locate_loop_res (n it : nat) (eid convh : F) (x : list (point F))
    (t vel resrow : list F) (loc : list (hyp F)) (row : list F) :
  fst (locate_loop solve svd n it eid convh x t vel resrow loc) = Ok row ->
  length row = length resrow.
Proof.
  revert it resrow loc. induction n as [|n IH]; intros it resrow loc; simpl.
  - now intros [= <-].
  - destruct (locate_iter _ _ _ _ _ _) as [[nr [dh|]]|e]; simpl.
    + destruct (converged convh dh); simpl.
      * intros [= <-]. apply length_insert.
      * intros E. rewrite (IH _ _ _ E). apply length_insert.
    + intros [= <-]. apply length_insert.
    + discriminate.
Qed.

Lemma locate_events_res (evID : list F) (vel_of : obs F -> result F)
    (data : list (obs F)) (rcv : list (point F)) (maxit : nat) (convh : F)
    (loc : list (hyp F)) (res : list (list F)) :
  fst (locate_events solve svd evID vel_of data rcv maxit convh loc) = Ok res ->
  length res = length evID /\ Forall (fun row => length row = maxit) res.
Proof.
  revert loc res. induction evID as [|eid evID IH]; intros loc res; simpl.
  - intros [= <-]. split; [reflexivity|constructor].
  - destruct (rbind _ _) as [[x vel]|e]; [|discriminate].
    pose proof (locate_loop_res maxit 0 eid convh x
                  (map o_t (List.filter (fun o => feqb eid (o_id o)) data))
                  vel (repeat fzero maxit) loc) as E1.
    destruct (locate_loop _ _ _ _ _ _ _ _ _ _ _) as [[resrow|e] loc1];
      simpl in E1; [|discriminate].
    specialize (IH loc1).
    destruct (locate_events _ _ _ _ _ _ _ _ _) as [[res'|e] loc2]; simpl in *;
      [|discriminate].
    intros [= <-]. destruct (IH res' eq_refl) as [Hl Hf].
    split; [simpl; now rewrite Hl|].
    constructor; [|exact Hf]. rewrite (E1 resrow eq_refl). apply repeat_length.
Qed.

(** X9  When [hypoloc] or [hypolocPS] returns, [res] holds one row for
    each distinct event ID of [data] and [maxit] values in every row. *)
Theorem hypoloc_res_shape (data : list (obs F)) (rcv : list (point F))
    (V : F) (Vps : F * F) (hinit maxit : nat) (convh : F) (h : store F)
    (tbl : list (hyp F)) :
  h !! hinit = Some tbl ->
  forall out, In out [hypoloc solve svd data rcv V hinit maxit convh h;
                      hypolocPS solve svd data rcv Vps hinit maxit convh h] ->
  forall loc res, fst out = Ok (loc, res) ->
    length res = length (np_unique (map o_id data)) /\
    Forall (fun row => length row = maxit) res.
Proof.
  intros Hh out Hout loc res.
  destruct Hout as [<-|[<-|[]]].
  - rewrite (hypoloc_unfold data rcv V hinit maxit convh h tbl Hh).
    cbv zeta. cbn [fst].
    destruct (fst (locate_events _ _ _ _ _ _ _ _ _)) as [res'|e] eqn:E;
      [|discriminate].
    intros [= _ <-]. now apply locate_events_res in E.
  - rewrite (hypolocPS_unfold data rcv Vps hinit maxit convh h tbl Hh).
    cbv zeta. cbn [fst].
    destruct (fst (locate_events _ _ _ _ _ _ _ _ _)) as [res'|e] eqn:E;
      [|discriminate].
    intros [= _ <-]. now apply locate_events_res in E.
Qed.

(** *** The errors of the linear algebra *)

Lemma add_origin_Raise (tinit tt : list F) (e : exn) :
  add_origin tinit tt = Raise e -> e <> LinAlgError.
Proof.
  unfold add_origin. destruct tinit as [|t0 [|t1 tl]]; try discriminate;
    destruct (_ =? _)%nat; try discriminate;
    destruct tt as [|a [|b tt]]; try discriminate; intros [= <-]; discriminate.
Qed.

Lemma to_vec4_Raise (l : list F) (e : exn) :
  to_vec4 l = Raise e -> e <> LinAlgError.
Proof.
  unfold to_vec4. destruct l as [|a [|b [|c [|d [|? ?]]]]]; try discriminate;
    intros [= <-]; discriminate.
Qed.

Hypothesis solve_no_LinAlgError : forall A b, solve A b <> Raise LinAlgError.

Lemma solve_step_Raise (Hm : list (list F)) (r : list F) (e : exn) :
  solve_step solve svd Hm r = Raise e -> e <> LinAlgError.
Proof.
  unfold solve_step. intros E.
  apply rbind_Raise in E as [E|(dh & _ & E)].
  - intros ->. now apply solve_no_LinAlgError in E.
  - destruct (negb _).
    + destruct (svd _) as [[[U Sv] VVh]|e'].
      * apply rbind_Raise in E as [E|(? & _ & E)]; [|discriminate].
        now apply to_vec4_Raise in E.
      * destruct e'; try discriminate; injection E as <-; discriminate.
    + apply rbind_Raise in E as [E|(? & _ & E)]; [|discriminate].
      now apply to_vec4_Raise in E.
Qed.

Lemma locate_iter_Raise (x : list (point F)) (t vel : list F)
    (sel : list (hyp F)) (e : exn) :
  locate_iter solve svd x t vel sel = Raise e -> e <> LinAlgError.
Proof.
  unfold locate_iter. intros E.
  apply rbind_Raise in E as [E|(h0 & _ & E)];
    [apply py_get_Raise in E; subst; discriminate|].
  apply rbind_Raise in E as [E|(tcalc & _ & E)];
    [now apply add_origin_Raise in E|].
  apply rbind_Raise in E as [E|(r & _ & E)].
  { destruct (_ =? _)%nat; [discriminate|]. injection E as <-. discriminate. }
  apply rbind_Raise in E as [E|(dh & _ & E)]; [|discriminate].
  now apply solve_step_Raise in E.
Qed.

Lemma locate_loop_Raise (n it : nat) (eid convh : F) (x : list (point F))
    (t vel resrow : list F) (loc : list (hyp F)) (e : exn) :
  fst (locate_loop solve svd n it eid convh x t vel resrow loc) = Raise e ->
  e <> LinAlgError.
Proof.
  revert it resrow loc. induction n as [|n IH]; intros it resrow loc; simpl;
    [discriminate|].
  destruct (locate_iter _ _ _ _ _ _) as [[nr [dh|]]|e'] eqn:E; simpl.
  - destruct (converged convh dh); simpl; [discriminate|]. apply IH.
  - discriminate.
  - intros [= <-]. now apply locate_iter_Raise in E.
Qed.

Lemma locate_events_Raise (evID : list F) (vel_of : obs F -> result F)
    (data : list (obs F)) (rcv : list (point F)) (maxit : nat) (convh : F)
    (loc : list (hyp F)) (e : exn) :
  (forall o e', vel_of o = Raise e' -> e' <> LinAlgError) ->
  fst (locate_events solve svd evID vel_of data rcv maxit convh loc) = Raise e ->
  e <> LinAlgError.
Proof.
  intros Hvel. revert loc. induction evID as [|eid evID IH]; intros loc; simpl;
    [discriminate|].
  destruct (rbind _ _) as [[x vel]|e'] eqn:E0; simpl.
  - pose proof (locate_loop_Raise maxit 0 eid convh x
                  (map o_t (List.filter (fun o => feqb eid (o_id o)) data))
                  vel (repeat fzero maxit) loc) as E1.
    destruct (locate_loop _ _ _ _ _ _ _ _ _ _ _) as [[resrow|e1] loc1];
      simpl in E1.
    + specialize (IH loc1).
      destruct (locate_events _ _ _ _ _ _ _ _ _) as [[res'|e2] loc2];
        simpl in *; [discriminate|exact IH].
    + simpl. intros [= <-]. now apply E1.
  - intros [= <-].
    apply rbind_Raise in E0 as [E0|(xs & _ & E0)].
    + unfold receivers in E0. apply mapM_Raise in E0 as (o & _ & E0).
      apply rbind_Raise in E0 as [E0|(k & _ & E0)].
      * apply to_int_Raise in E0. subst. discriminate.
      * apply py_get_Raise in E0. subst. discriminate.
    + apply rbind_Raise in E0 as [E0|(vs & _ & E0)]; [|discriminate].
      apply mapM_Raise in E0 as (o & _ & E0). now apply Hvel in E0.
Qed.

(** X10  The only [LinAlgError] that can leave [hypoloc] and [hypolocPS]
    is one of [np.linalg.solve]: if [solve] raises none, no call ends with
    [LinAlgError], whatever [np.linalg.svd] does (its [LinAlgError] is
    caught, and the event is left where it is). *)
Theorem hypoloc_catches_svd (data : list (obs F)) (rcv : list (point F))
    (V : F) (Vps : F * F) (hinit maxit : nat) (convh : F) (h : store F) :
  fst (hypoloc solve svd data rcv V hinit maxit convh h) <> Raise LinAlgError /\
  fst (hypolocPS solve svd data rcv Vps hinit maxit convh h)
  <> Raise LinAlgError.
Proof.
  destruct (h !! hinit) as [tbl|] eqn:Hh.
  - rewrite (hypoloc_unfold data rcv V hinit maxit convh h tbl Hh).
    rewrite (hypolocPS_unfold data rcv Vps hinit maxit convh h tbl Hh).
    cbv zeta. cbn [fst]. split.
    + destruct (fst (locate_events _ _ _ _ _ _ _ _ _)) as [res|e] eqn:E;
        [discriminate|].
      apply locate_events_Raise in E; [congruence|]. discriminate.
    + destruct (fst (locate_events _ _ _ _ _ _ _ _ _)) as [res|e] eqn:E;
        [discriminate|].
      apply locate_events_Raise in E; [congruence|].
      intros o e' E'. apply rbind_Raise in E' as [E'|(k & _ & E')].
      * apply to_int_Raise in E'. subst. discriminate.
      * apply py_get_Raise in E'. subst. discriminate.
  - unfold hypoloc, hypolocPS, ndarray_copy. rewrite Hh. cbn. split; discriminate.
Qed.
End LocatorMore.

Lemma hypoloc_keeps_other_events_witness :
  exists tbl',
    snd (hypoloc gesv svd_fails data_cross rcv_cross 1%Q 0 1 (1 # 100)%Q
                 [hinit_two]) !! 1%nat = Some tbl' /\
    tbl' !! 1%nat = Some (mk_hyp 9 5 0 0 0)%Q.
Proof.
  refine (proj1 (proj2 (proj2
            (hypoloc_keeps_other_events gesv svd_fails data_cross rcv_cross
               1%Q (1%Q, 1%Q) 0 1 (1 # 100)%Q [hinit_two] hinit_two 1%nat
               (mk_hyp 9 5 0 0 0)%Q eq_refl eq_refl _)))).
  intros o [<-|[<-|[<-|[<-|[<-|[]]]]]]; reflexivity.
Defined.

Lemma hypoloc_res_shape_witness :
  exists loc res,
    fst (hypoloc gesv svd_fails data_cross rcv_cross 1%Q 0 1 (1 # 100)%Q
                 [hinit_two]) = Ok (loc, res) /\
    length res = length (np_unique (map o_id data_cross)) /\
    Forall (fun row => length row = 1%nat) res.
Proof.
  do 2 eexists. split; [vm_compute; reflexivity|].
  apply (hypoloc_res_shape gesv svd_fails data_cross rcv_cross 1%Q (1%Q, 1%Q)
           0 1 (1 # 100)%Q [hinit_two] hinit_two eq_refl _
           (or_introl eq_refl) 1%nat).
  vm_compute. reflexivity.
Defined.

Lemma gesv_quiet_total {F} `{Scalar F} (A : list (list F)) (b : list F) :
  gesv_quiet A b <> Raise LinAlgError.
Proof. unfold gesv_quiet. destruct (gesv A b) as [x|[]]; discriminate. Qed.

Lemma hypoloc_catches_svd_witness :
  (exists nr, locate_iter gesv_quiet svd_fails rcv_corner (map o_t data_corner)
                          (repeat 1%float 4) hinit_origin = Ok (nr, None)) /\
  snd (hypoloc gesv_quiet svd_fails data_corner rcv_corner 1%float 0 3
               (1 / 100)%float [hinit_origin]) !! 1%nat = Some hinit_origin /\
  fst (hypoloc gesv_quiet svd_fails data_corner rcv_corner 1%float 0 3
               (1 / 100)%float [hinit_origin]) <> Raise LinAlgError.
Proof.
  split; [eexists; vm_compute; reflexivity|].
  split; [vm_compute; reflexivity|].
  refine (proj1 (hypoloc_catches_svd gesv_quiet svd_fails _ data_corner
                   rcv_corner 1%float (1, 1)%float 0 3 (1 / 100)%float
                   [hinit_origin])).
  intros A b. apply gesv_quiet_total.
Defined.

(** *** Events without a hypocenter *)

Section LocatorRows.
Context {F : Type} `{Scalar F}.
Variable solve : solve_t F.
Variable svd : svd_t F.

Lemma filter_ids_nonempty (eid : F) (loc : list (hyp F)) :
  List.filter (fun h => feqb eid (h_id h)) loc <> [] ->
  exists id, In id (map h_id loc) /\ feqb eid id = true.
Proof.
  induction loc as [|h loc IH]; simpl; [congruence|].
  destruct (feqb eid (h_id h)) eqn:E.
  - intros _. exists (h_id h). auto.
  - intros Hne. destruct (IH Hne) as (id & Hid & Eid). eauto.
Qed.

Lemma locate_loop_needs_row (n it : nat) (eid convh : F)
    (x : list (point F)) (t vel resrow : list F) (loc : list (hyp F))
    (row : list F) :
  (0 < n)%nat ->
  fst (locate_loop solve svd n it eid convh x t vel resrow loc) = Ok row ->
  exists id, In id (map h_id loc) /\ feqb eid id = true.
Proof.
  intros Hn E. destruct n as [|n]; [lia|].
  apply filter_ids_nonempty. intros Hnil. simpl in E.
  rewrite Hnil in E. discriminate E.
Qed.

Lemma locate_events_needs_rows (evID : list F) (vel_of : obs F -> result F)
    (data : list (obs F)) (rcv : list (point F)) (maxit : nat) (convh : F)
    (loc : list (hyp F)) (res : list (list F)) :
  (0 < maxit)%nat ->
  fst (locate_events solve svd evID vel_of data rcv maxit convh loc) = Ok res ->
  forall eid, In eid evID ->
    exists id, In id (map h_id loc) /\ feqb eid id = true.
Proof.
  intros Hm.
  revert loc res. induction evID as [|e0 evID IH]; intros loc res E eid Hin;
    [destruct Hin|].
  simpl in E.
  destruct (rbind _ _) as [[x vel]|e]; [|discriminate].
  pose proof (fun row => locate_loop_needs_row maxit 0 e0 convh x
                (map o_t (List.filter (fun o => feqb e0 (o_id o)) data))
                vel (repeat fzero maxit) loc row Hm) as E1.
  pose proof (locate_loop_ids solve svd maxit 0 e0 convh x
                (map o_t (List.filter (fun o => feqb e0 (o_id o)) data))
                vel (repeat fzero maxit) loc) as E2.
  destruct (locate_loop _ _ _ _ _ _ _ _ _ _ _) as [[resrow|e] loc1];
    cbn [fst snd] in E1, E2; [|discriminate].
  specialize (IH loc1).
  destruct (locate_events _ _ _ _ _ _ _ _ _) as [[res'|e] loc2];
    cbn [fst snd] in *; [|discriminate].
  destruct Hin as [<-|Hin].
  - exact (E1 resrow eq_refl).
  - rewrite <- E2. exact (IH res' eq_refl eid Hin).
Qed.
End LocatorRows.

Section ExactLocatorRows.
Local Open Scope Q_scope.

Lemma insert_unique_keeps (a x : Q) (l : list Q) :
  In x l -> In x (insert_unique a l).
Proof.
  induction l as [|b l IH]; cbn [insert_unique In]; [tauto|].
  destruct (fltb a b); [cbn [In]; tauto|].
  destruct (feqb a b); cbn [In]; [tauto|].
  intros [<-|Hx]; auto.
Qed.

Lemma insert_unique_has (a : Q) (l : list Q) :
  exists u, In u (insert_unique a l) /\ a == u.
Proof.
  induction l as [|b l IH]; cbn [insert_unique].
  - exists a. split; [now left|reflexivity].
  - destruct (fltb a b); [exists a; split; [now left|reflexivity]|].
    destruct (feqb a b) eqn:E.
    + exists b. split; [now left|]. now apply Qeq_bool_iff.
    + destruct IH as (u & Hu & Eu). exists u. split; [now right|exact Eu].
Qed.

Lemma np_unique_covers (l : list Q) (a : Q) :
  In a l -> exists u, In u (np_unique l) /\ a == u.
Proof.
  unfold np_unique.
  assert (G : forall l acc,
            (forall x, In x acc ->
               In x (fold_left (fun acc a => insert_unique a acc) l acc)) /\
            (In a l -> exists u,
               In u (fold_left (fun acc a => insert_unique a acc) l acc) /\
               a == u)).
  { clear l. induction l as [|b l IH]; intros acc; simpl.
    - split; [auto|tauto].
    - destruct (IH (insert_unique b acc)) as [K1 K2]. split.
      + intros x Hx. apply K1. now apply insert_unique_keeps.
      + intros [->|Ha]; [|auto].
        destruct (insert_unique_has a acc) as (u & Hu & Eu).
        exists u. split; [now apply K1|exact Eu]. }
  apply G.
Qed.

(** X11  [hypoloc] and [hypolocPS] with [maxit > 0] return only if every
    event of [data] has a row in [hinit]: an event without one stops the
    call (at [xinit[0,0]]). *)
Theorem hypoloc_needs_every_event (solve : solve_t Q) (svd : svd_t Q)
    (data : list (obs Q)) (rcv : list (point Q)) (V : Q) (Vps : Q * Q)
    (hinit maxit : nat) (convh : Q) (h : store Q) (tbl : list (hyp Q)) :
  h !! hinit = Some tbl -> (0 < maxit)%nat ->
  forall out, In out [hypoloc solve svd data rcv V hinit maxit convh h;
                      hypolocPS solve svd data rcv Vps hinit maxit convh h] ->
  forall loc res, fst out = Ok (loc, res) ->
  forall o, In o data -> exists row, In row tbl /\ h_id row == o_id o.
Proof.
  intros Hh Hm out Hout loc res E o Ho.
  destruct (np_unique_covers (map o_id data) (o_id o)) as (eid & Heid & Eeq).
  { apply in_map_iff. eauto. }
  assert (G : exists id, In id (map h_id tbl) /\ feqb eid id = true).
  { destruct Hout as [<-|[<-|[]]].
    - rewrite (hypoloc_unfold solve svd data rcv V hinit maxit convh h tbl Hh)
        in E. cbv zeta in E. cbn [fst] in E.
      destruct (fst (locate_events _ _ _ _ _ _ _ _ _)) as [res'|e] eqn:E';
        [|discriminate].
      eapply locate_events_needs_rows; eauto.
    - rewrite (hypolocPS_unfold solve svd data rcv Vps hinit maxit convh h tbl Hh)
        in E. cbv zeta in E. cbn [fst] in E.
      destruct (fst (locate_events _ _ _ _ _ _ _ _ _)) as [res'|e] eqn:E';
        [|discriminate].
      eapply locate_events_needs_rows; eauto. }
  destruct G as (id & Hid & Eid). apply in_map_iff in Hid as (row & <- & Hrow).
  exists row. split; [exact Hrow|]. apply Qeq_bool_iff in Eid.
  rewrite <- Eid. now symmetry.
Qed.
End ExactLocatorRows.

Lemma hypoloc_needs_every_event_witness :
  exists loc res,
    fst (hypoloc gesv svd_fails data_cross rcv_cross 1%Q 0 1 (1 # 100)%Q
                 [hinit_two]) = Ok (loc, res) /\
    exists row, In row hinit_two /\ (h_id row == 7)%Q.
Proof.
  do 2 eexists. split; [vm_compute; reflexivity|].
  refine (hypoloc_needs_every_event gesv svd_fails data_cross rcv_cross 1%Q
            (1%Q, 1%Q) 0 1 (1 # 100)%Q [hinit_two] hinit_two eq_refl _ _
            (or_introl eq_refl) 1%nat _ _ (mk_obs 7 1 1 0)%Q _).
  - lia.
  - vm_compute. reflexivity.
  - right. now left.
Defined.

(** ** The row that a relocation changes *)

Section RelocRow.
Context {F : Type} `{Scalar F}.
Variable engine : engine_t F.
Variable lstsq : lstsq_t F.
Variable svd : svd_t F.

Lemma same_but_refl (indh : list nat) (t : list (hyp F)) : same_but indh t t.
Proof. split; reflexivity. Qed.

Lemma same_but_trans (indh : list nat) (a b c : list (hyp F)) :
  same_but indh a b -> same_but indh b c -> same_but indh a c.
Proof.
  intros [L1 H1] [L2 H2]. split; [congruence|].
  intros j Hj. now rewrite H2, H1.
Qed.

Lemma first_row_head (indh : list nat) (hyp0 : list (hyp F)) (i0 : nat)
    (h : hyp F) :
  first_row indh hyp0 = Ok (i0, h) -> head indh = Some i0.
Proof.
  unfold first_row. intros E.
  apply rbind_Ok in E as (j & Ej & E). apply rbind_Ok in E as (h1 & _ & E).
  injection E as <- <-. now apply py_get_0_head.
Qed.

Lemma same_but_insert (indh : list nat) (hyp0 : list (hyp F)) (i0 : nat)
    (h' : hyp F) :
  head indh = Some i0 -> same_but indh hyp0 (<[i0 := h']> hyp0).
Proof.
  intros Hh. split; [apply length_insert|].
  intros j Hj. apply list_lookup_insert_ne. congruence.
Qed.

Lemma move4_row (g : Grid3D.t F) (indh : list nat) (dh : vec4 F)
    (hyp0 hyp0' : list (hyp F)) :
  move4 g indh dh hyp0 = Ok (Some hyp0') -> same_but indh hyp0 hyp0'.
Proof.
  unfold move4. intros E. apply rbind_Ok in E as ([i0 h] & E0 & E).
  apply first_row_head in E0.
  destruct dh as [[[d0 d1] d2] d3]. cbn [fst snd] in E.
  apply rbind_Ok in E as (out & _ & E).
  destruct out; [discriminate|]. injection E as <-.
  now apply same_but_insert.
Qed.

Lemma move2_row (g : Grid3D.t F) (indh : list nat) (dh : F * F)
    (hyp0 hyp0' : list (hyp F)) :
  move2 g indh dh hyp0 = Ok (Some hyp0') -> same_but indh hyp0 hyp0'.
Proof.
  unfold move2. intros E. apply rbind_Ok in E as ([i0 h] & E0 & E).
  apply first_row_head in E0. cbn [fst snd] in E.
  apply rbind_Ok in E as (out & _ & E).
  destruct out; [discriminate|]. injection E as <-.
  now apply same_but_insert.
Qed.

Lemma reloc_pass2_row g indh nst stn tobs_ev s Hm hyp0 Hm' dh hyp0' :
  reloc_pass2 engine lstsq svd g indh nst stn tobs_ev s Hm hyp0
    = Ok (Hm', Moved dh hyp0') ->
  same_but indh hyp0 hyp0'.
Proof.
  unfold reloc_pass2. intros E.
  do 5 (apply rbind_Ok in E as (? & _ & E)).
  destruct x3 as [dl|]; [|discriminate].
  apply rbind_Ok in E as (d2 & _ & E).
  apply rbind_Ok in E as (mv & Emv & E).
  destruct mv as [t|]; [|discriminate]. injection E as _ _ <-.
  now apply move2_row in Emv.
Qed.

Lemma reloc_pass4_row g indh nst stn tobs_ev s Hm hyp0 Hm' dh hyp0' :
  reloc_pass4 engine lstsq svd g indh nst stn tobs_ev s Hm hyp0
    = Ok (Hm', Moved dh hyp0') ->
  same_but indh hyp0 hyp0'.
Proof.
  unfold reloc_pass4. intros E.
  do 5 (apply rbind_Ok in E as (? & _ & E)).
  destruct x3 as [dl|]; [|discriminate].
  apply rbind_Ok in E as (d4 & _ & E).
  apply rbind_Ok in E as (mv & Emv & E).
  destruct mv as [t|]; [|discriminate]. injection E as _ _ <-.
  now apply move4_row in Emv.
Qed.

Lemma relocPS_pass2_row g indh nstp nsts stnp stns tp ts s_p s_s Hm hyp0
    Hm' dh hyp0' :
  relocPS_pass2 engine lstsq svd g indh nstp nsts stnp stns tp ts s_p s_s
                Hm hyp0 = Ok (Hm', Moved dh hyp0') ->
  same_but indh hyp0 hyp0'.
Proof.
  unfold relocPS_pass2. intros E.
  do 4 (apply rbind_Ok in E as (? & _ & E)).
  destruct x2 as [dl|]; [|discriminate].
  apply rbind_Ok in E as (d2 & _ & E).
  apply rbind_Ok in E as (mv & Emv & E).
  destruct mv as [t|]; [|discriminate]. injection E as _ _ <-.
  now apply move2_row in Emv.
Qed.

Lemma relocPS_pass4_row par g indh nstp nsts stnp stns tp ts s_p s_s Hm hyp0
    Hm' dh hyp0' :
  relocPS_pass4 engine lstsq svd par g indh nstp nsts stnp stns tp ts s_p s_s
                Hm hyp0 = Ok (Hm', Moved dh hyp0') ->
  same_but indh hyp0 hyp0'.
Proof.
  unfold relocPS_pass4. intros E.
  do 4 (apply rbind_Ok in E as (? & _ & E)).
  destruct x2 as [dl|]; [|discriminate].
  apply rbind_Ok in E as ([[[d0 d1] d2] d3] & _ & E).
  apply rbind_Ok in E as (mv & Emv & E).
  destruct mv as [t|]; [|discriminate]. injection E as _ _ <-.
  now apply move4_row in Emv.
Qed.

Lemma reloc_loop2_row n conv g indh nst stn tobs_ev s Hm hyp0 :
  same_but indh hyp0
    (snd (reloc_loop2 engine lstsq svd n conv g indh nst stn tobs_ev s Hm hyp0)).
Proof.
  revert Hm hyp0. induction n as [|n IH]; intros Hm hyp0; simpl;
    [apply same_but_refl|].
  destruct (reloc_pass2 _ _ _ _ _ _ _ _ _ _ _) as [[Hm' [e|dh hyp0']]|e] eqn:E;
    simpl; try apply same_but_refl.
  apply reloc_pass2_row in E.
  destruct (converged2 conv dh); simpl; [exact E|].
  eapply same_but_trans; [exact E|apply IH].
Qed.

Lemma reloc_loop4_row n conv g indh nst stn tobs_ev s Hm hyp0 :
  same_but indh hyp0
    (snd (reloc_loop4 engine lstsq svd n conv g indh nst stn tobs_ev s Hm hyp0)).
Proof.
  revert Hm hyp0. induction n as [|n IH]; intros Hm hyp0; simpl;
    [apply same_but_refl|].
  destruct (reloc_pass4 _ _ _ _ _ _ _ _ _ _ _) as [[Hm' [e|dh hyp0']]|e] eqn:E;
    simpl; try apply same_but_refl.
  apply reloc_pass4_row in E.
  destruct (converged conv dh); simpl; [exact E|].
  eapply same_but_trans; [exact E|apply IH].
Qed.

Lemma relocPS_loop2_row n conv g indh nstp nsts stnp stns tp ts s_p s_s Hm hyp0 :
  same_but indh hyp0
    (snd (relocPS_loop2 engine lstsq svd n conv g indh nstp nsts stnp stns
                        tp ts s_p s_s Hm hyp0)).
Proof.
  revert Hm hyp0. induction n as [|n IH]; intros Hm hyp0; simpl;
    [apply same_but_refl|].
  destruct (relocPS_pass2 _ _ _ _ _ _ _ _ _ _ _ _ _ _ _)
    as [[Hm' [e|dh hyp0']]|e] eqn:E; simpl; try apply same_but_refl.
  apply relocPS_pass2_row in E.
  destruct (converged2 conv dh); simpl; [exact E|].
  eapply same_but_trans; [exact E|apply IH].
Qed.

Lemma relocPS_loop4_row n par g indh nstp nsts stnp stns tp ts s_p s_s Hm hyp0 :
  same_but indh hyp0
    (snd (relocPS_loop4 engine lstsq svd n par g indh nstp nsts stnp stns
                        tp ts s_p s_s Hm hyp0)).
Proof.
  revert Hm hyp0. induction n as [|n IH]; intros Hm hyp0; simpl;
    [apply same_but_refl|].
  destruct (relocPS_pass4 _ _ _ _ _ _ _ _ _ _ _ _ _ _ _ _)
    as [[Hm' [e|dh hyp0']]|e] eqn:E; simpl; try apply same_but_refl.
  apply relocPS_pass4_row in E.
  destruct (converged (conv_hypo par) dh); simpl; [exact E|].
  eapply same_but_trans; [exact E|apply IH].
Qed.

(** The rows of the event [evID[ne]] in a table. *)
Lemma reloc_row ne par g evID hyp0 data rcv tobs s :
  (forall eid, py_get evID ne = Ok eid ->
     same_but (nonzero (fun h => feqb (h_id h) eid) hyp0) hyp0
       (snd (_reloc engine lstsq svd ne par g evID hyp0 data rcv tobs s))) /\
  (forall e, py_get evID ne = Raise e ->
     snd (_reloc engine lstsq svd ne par g evID hyp0 data rcv tobs s) = hyp0).
Proof.
  unfold _reloc. destruct (py_get evID ne) as [eid|e0]; cbn [rbind].
  2:{ split; [discriminate|]. reflexivity. }
  split; [|discriminate]. intros ? [= <-].
  set (indh := nonzero (fun h => feqb (h_id h) eid) hyp0).
  destruct (rbind (sources _ indh hyp0) _) as [[[[indh' nst] stn] tobs_ev]|e]
    eqn:E0; simpl; [|apply same_but_refl].
  assert (indh' = indh) as ->.
  { apply rbind_Ok in E0 as (? & _ & E0). apply rbind_Ok in E0 as (? & _ & E0).
    apply rbind_Ok in E0 as (? & _ & E0). now injection E0. }
  destruct (hypo_2step par).
  - pose proof (reloc_loop2_row (maxit_hypo par) (conv_hypo par) g indh nst stn
                  tobs_ev s (repeat [fone; fone] nst) hyp0) as E2.
    destruct (reloc_loop2 _ _ _ _ _ _ _ _ _ _ _ _ _) as [[[e|]|e] hyp1];
      simpl in *; try exact E2.
    eapply same_but_trans; [exact E2|apply reloc_loop4_row].
  - apply reloc_loop4_row.
Qed.

Lemma relocPS_row ne par g evID hyp0 data rcv tobs s ind :
  (forall eid, py_get evID ne = Ok eid ->
     same_but (nonzero (fun h => feqb (h_id h) eid) hyp0) hyp0
       (snd (_relocPS engine lstsq svd ne par g evID hyp0 data rcv tobs s ind)))
  /\
  (forall e, py_get evID ne = Raise e ->
     snd (_relocPS engine lstsq svd ne par g evID hyp0 data rcv tobs s ind)
     = hyp0).
Proof.
  unfold _relocPS. destruct (py_get evID ne) as [eid|e0]; cbn [rbind].
  2:{ split; [discriminate|]. reflexivity. }
  split; [|discriminate]. intros ? [= <-].
  set (indh := nonzero (fun h => feqb (h_id h) eid) hyp0).
  destruct (rbind (nonzero_and eid (fst ind) data) _)
    as [[[[indh' [nstp nsts]] [stnp stns]] [tp ts]]|e] eqn:E0; simpl;
    [|apply same_but_refl].
  assert (indh' = indh) as ->.
  { do 8 (apply rbind_Ok in E0 as (? & _ & E0)). now injection E0. }
  destruct (hypo_2step par).
  - pose proof (relocPS_loop2_row (maxit_hypo par) (conv_hypo par) g indh
                  nstp nsts stnp stns tp ts (fst s) (snd s)
                  (repeat [fone; fone] (nstp + nsts)) hyp0) as E2.
    destruct (relocPS_loop2 _ _ _ _ _ _ _ _ _ _ _ _ _ _ _ _ _)
      as [[[e|]|e] hyp1]; simpl in *; try exact E2.
    eapply same_but_trans; [exact E2|apply relocPS_loop4_row].
  - apply relocPS_loop4_row.
Qed.

(** X12  [_reloc] and [_relocPS] write to one row of [hyp0] at most: the
    first row that carries the ID of the event [evID[ne]].  Every other
    row, the further rows with that ID among them, is left as it is,
    however the call ends. *)
Theorem reloc_changes_one_row (ne : Z) (par : InvParams F) (g : Grid3D.t F)
    (evID : list F) (hyp0 : list (hyp F)) (data : list (obs F))
    (rcv : list (point F)) (tobs s : list F) (sPS : list F * list F)
    (ind : list bool * list bool) (tbl : list (hyp F)) (j : nat) :
  In tbl [snd (_reloc engine lstsq svd ne par g evID hyp0 data rcv tobs s);
          snd (_relocPS engine lstsq svd ne par g evID hyp0 data rcv tobs
                        sPS ind)] ->
  tbl !! j <> hyp0 !! j ->
  exists eid, py_get evID ne = Ok eid /\
              head (nonzero (fun h => feqb (h_id h) eid) hyp0) = Some j.
Proof.
  intros Hin Hne.
  destruct (py_get evID ne) as [eid|e] eqn:Eid.
  - exists eid. split; [reflexivity|].
    assert (Hs : same_but (nonzero (fun h => feqb (h_id h) eid) hyp0) hyp0 tbl).
    { destruct Hin as [<-|[<-|[]]].
      - now apply reloc_row.
      - now apply relocPS_row. }
    destruct (head (nonzero (fun h => feqb (h_id h) eid) hyp0)) as [i0|] eqn:Eh.
    + destruct (Nat.eq_dec i0 j) as [->|Hij]; [reflexivity|].
      exfalso. apply Hne. apply Hs. rewrite Eh. congruence.
    + exfalso. apply Hne. apply Hs. rewrite Eh. discriminate.
  - exfalso. apply Hne.
    destruct Hin as [<-|[<-|[]]].
    + now rewrite (proj2 (reloc_row ne par g evID hyp0 data rcv tobs s) e Eid).
    + now rewrite (proj2 (relocPS_row ne par g evID hyp0 data rcv tobs sPS ind)
                     e Eid).
Qed.
End RelocRow.

Lemma reloc_changes_one_row_witness :
  exists eid, py_get [7]%Q 0 = Ok eid /\
              head (nonzero (fun h => feqb (h_id h) eid) hyp0_centre)
              = Some 0%nat.
Proof.
  refine (reloc_changes_one_row straight_engine lstsq_normal svd_fails 0
            par_main grid_012 [7]%Q hyp0_centre data_cross rcv_cross
            (map o_t data_cross) (repeat 1%Q 27) ([], []) ([], []) _ 0%nat
            (or_introl eq_refl) _).
  vm_compute. discriminate.
Defined.

(** ** The size of the moves of _relocPS *)

Section ExactDrift.
Local Open Scope Q_scope.
Variable engine : engine_t Q.
Variable lstsq : lstsq_t Q.
Variable svd : svd_t Q.
Variable par : InvParams Q.
Hypothesis dt_nonneg : 0 <= dt_max par.
Hypothesis dx_nonneg : 0 <= dx_max par.

Lemma inject_nat_nonneg (k : nat) : 0 <= inject_Z (Z.of_nat k).
Proof. unfold Qle. simpl. lia. Qed.

Lemma inject_nat_add (a b : nat) :
  inject_Z (Z.of_nat (a + b)) == inject_Z (Z.of_nat a) + inject_Z (Z.of_nat b).
Proof. now rewrite Nat2Z.inj_add, inject_Z_plus. Qed.

Lemma drift_refl (xy : bool) (k : nat) (h : hyp Q) :
  drift (dt_max par) (dx_max par) xy k h h.
Proof.
  pose proof (inject_nat_nonneg k) as HK.
  pose proof (Qmult_le_0_compat _ _ HK dt_nonneg).
  pose proof (Qmult_le_0_compat _ _ HK dx_nonneg).
  unfold drift. cbv zeta.
  repeat split; intros; apply Qabs_Qle_condition; split; lra.
Qed.

Lemma drift_trans (xy1 xy2 : bool) (k1 k2 : nat) (a b c : hyp Q) :
  drift (dt_max par) (dx_max par) xy1 k1 a b ->
  drift (dt_max par) (dx_max par) xy2 k2 b c ->
  drift (dt_max par) (dx_max par) (xy1 && xy2) (k1 + k2) a c.
Proof.
  unfold drift. cbv zeta. intros (A1 & A2 & A3) (B1 & B2 & B3).
  assert (Et : inject_Z (Z.of_nat (k1 + k2)) * dt_max par
               == inject_Z (Z.of_nat k1) * dt_max par
                  + inject_Z (Z.of_nat k2) * dt_max par)
    by (rewrite inject_nat_add; ring).
  assert (Ex : inject_Z (Z.of_nat (k1 + k2)) * dx_max par
               == inject_Z (Z.of_nat k1) * dx_max par
                  + inject_Z (Z.of_nat k2) * dx_max par)
    by (rewrite inject_nat_add; ring).
  apply Qabs_Qle_condition in A1, A2, B1, B2.
  split; [|split].
  - apply Qabs_Qle_condition. rewrite Et. split; lra.
  - apply Qabs_Qle_condition. rewrite Ex. split; lra.
  - intros Hxy. apply andb_prop in Hxy as [-> ->].
    destruct (A3 eq_refl) as [A4 A5]. destruct (B3 eq_refl) as [B4 B5].
    apply Qabs_Qle_condition in A4, A5, B4, B5.
    split; apply Qabs_Qle_condition; rewrite Ex; split; lra.
Qed.

Lemma drift_more (xy : bool) (k k' : nat) (a b : hyp Q) :
  (k <= k')%nat -> drift (dt_max par) (dx_max par) xy k a b ->
  drift (dt_max par) (dx_max par) xy k' a b.
Proof.
  intros Hk Hd. replace k' with (k + (k' - k))%nat by lia.
  replace xy with (xy && xy)%bool by (now destruct xy).
  eapply drift_trans; [exact Hd|apply drift_refl].
Qed.

Lemma Forall2_compose {A} (R1 R2 R3 : A -> A -> Prop) (a b c : list A) :
  (forall x y z, R1 x y -> R2 y z -> R3 x z) ->
  Forall2 R1 a b -> Forall2 R2 b c -> Forall2 R3 a c.
Proof.
  intros HR Hab. revert c. induction Hab as [|x y a b Hxy Hab IH]; intros c Hbc;
    inversion Hbc; subst; constructor; eauto.
Qed.

Lemma Forall2_refl_on {A} (R : A -> A -> Prop) (l : list A) :
  (forall x, R x x) -> Forall2 R l l.
Proof. intros HR. induction l; constructor; auto. Qed.

Lemma drift_insert (xy : bool) (k : nat) (hyp0 : list (hyp Q)) (i0 : nat)
    (h h' : hyp Q) :
  hyp0 !! i0 = Some h -> drift (dt_max par) (dx_max par) xy k h h' ->
  Forall2 (drift (dt_max par) (dx_max par) xy k) hyp0 (<[i0 := h']> hyp0).
Proof.
  intros Hi Hd. apply Forall2_same_length_lookup.
  split; [now rewrite length_insert|].
  intros i a b Ea Eb. destruct (decide (i = i0)) as [->|Hne].
  - rewrite list_lookup_insert_eq in Eb by (now apply lookup_lt_Some in Hi).
    injection Eb as <-. rewrite Hi in Ea. now injection Ea as <-.
  - rewrite list_lookup_insert_ne in Eb by auto.
    rewrite Ea in Eb. injection Eb as <-. apply drift_refl.
Qed.

Lemma move2_drift (g : Grid3D.t Q) (indh : list nat) (dh : Q * Q)
    (hyp0 hyp0' : list (hyp Q)) :
  move2 g indh dh hyp0 = Ok (Some hyp0') ->
  Forall2 (drift (dt_max par) (dx_max par) false 0) hyp0 hyp0'.
Proof.
  unfold move2. intros E. apply rbind_Ok in E as ([i0 h] & E0 & E).
  apply first_row_lookup in E0. cbn [fst snd] in E.
  apply rbind_Ok in E as (out & _ & E).
  destruct out; [discriminate|]. injection E as <-.
  apply drift_insert with (h := h); [exact E0|].
  unfold drift. cbn [h_t0 h_z]. cbv zeta.
  repeat split; try discriminate; apply Qabs_Qle_condition;
    change (inject_Z (Z.of_nat 0)) with 0; split; lra.
Qed.

Lemma clamp1_bound (m d : Q) : 0 <= m -> Qabs (clamp1 m d) <= m.
Proof. apply Qabs_clamp. Qed.

Lemma move4_drift (g : Grid3D.t Q) (indh : list nat) (d0 d1 d2 d3 : Q)
    (hyp0 hyp0' : list (hyp Q)) :
  move4 g indh (clamp1 (dt_max par) d0, clamp1 (dx_max par) d1,
                clamp1 (dx_max par) d2, clamp1 (dx_max par) d3) hyp0
  = Ok (Some hyp0') ->
  Forall2 (drift (dt_max par) (dx_max par) true 1) hyp0 hyp0'.
Proof.
  unfold move4. intros E. apply rbind_Ok in E as ([i0 h] & E0 & E).
  apply first_row_lookup in E0. cbn [fst snd] in E.
  apply rbind_Ok in E as (out & _ & E).
  destruct out; [discriminate|]. injection E as <-.
  apply drift_insert with (h := h); [exact E0|].
  pose proof (clamp1_bound _ d0 dt_nonneg) as B0.
  pose proof (clamp1_bound _ d1 dx_nonneg) as B1.
  pose proof (clamp1_bound _ d2 dx_nonneg) as B2.
  pose proof (clamp1_bound _ d3 dx_nonneg) as B3.
  apply Qabs_Qle_condition in B0, B1, B2, B3.
  unfold drift. cbn [h_t0 h_x h_y h_z]. cbv zeta.
  change (@fadd Q Scalar_Q) with Qplus.
  change (inject_Z (Z.of_nat 1)) with 1.
  repeat split; intros; apply Qabs_Qle_condition; split; lra.
Qed.

Lemma relocPS_pass2_drift g indh nstp nsts stnp stns tp ts s_p s_s Hm hyp0
    Hm' dh hyp0' :
  relocPS_pass2 engine lstsq svd g indh nstp nsts stnp stns tp ts s_p s_s
                Hm hyp0 = Ok (Hm', Moved dh hyp0') ->
  Forall2 (drift (dt_max par) (dx_max par) false 0) hyp0 hyp0'.
Proof.
  unfold relocPS_pass2. intros E.
  do 4 (apply rbind_Ok in E as (? & _ & E)).
  destruct x2 as [dl|]; [|discriminate].
  apply rbind_Ok in E as (d2 & _ & E).
  apply rbind_Ok in E as (mv & Emv & E).
  destruct mv as [t|]; [|discriminate]. injection E as _ _ <-.
  now apply move2_drift in Emv.
Qed.

Lemma relocPS_pass4_drift g indh nstp nsts stnp stns tp ts s_p s_s Hm hyp0
    Hm' dh hyp0' :
  relocPS_pass4 engine lstsq svd par g indh nstp nsts stnp stns tp ts s_p s_s
                Hm hyp0 = Ok (Hm', Moved dh hyp0') ->
  Forall2 (drift (dt_max par) (dx_max par) true 1) hyp0 hyp0'.
Proof.
  unfold relocPS_pass4. intros E.
  do 4 (apply rbind_Ok in E as (? & _ & E)).
  destruct x2 as [dl|]; [|discriminate].
  apply rbind_Ok in E as ([[[d0 d1] d2] d3] & _ & E).
  apply rbind_Ok in E as (mv & Emv & E).
  destruct mv as [t|]; [|discriminate]. injection E as _ _ <-.
  now apply move4_drift in Emv.
Qed.

Lemma relocPS_loop2_drift n conv g indh nstp nsts stnp stns tp ts s_p s_s Hm
    hyp0 :
  Forall2 (drift (dt_max par) (dx_max par) false 0) hyp0
    (snd (relocPS_loop2 engine lstsq svd n conv g indh nstp nsts stnp stns
                        tp ts s_p s_s Hm hyp0)).
Proof.
  revert Hm hyp0. induction n as [|n IH]; intros Hm hyp0; simpl;
    [apply Forall2_refl_on, drift_refl|].
  destruct (relocPS_pass2 _ _ _ _ _ _ _ _ _ _ _ _ _ _ _)
    as [[Hm' [e|dh hyp0']]|e] eqn:E; simpl;
    try apply Forall2_refl_on, drift_refl.
  apply relocPS_pass2_drift in E.
  destruct (converged2 conv dh); simpl; [exact E|].
  eapply Forall2_compose; [|exact E|apply IH].
  intros x y z Hxy Hyz. exact (drift_trans false false 0 0 x y z Hxy Hyz).
Qed.

Lemma relocPS_loop4_drift n g indh nstp nsts stnp stns tp ts s_p s_s Hm hyp0 :
  Forall2 (drift (dt_max par) (dx_max par) true n) hyp0
    (snd (relocPS_loop4 engine lstsq svd n par g indh nstp nsts stnp stns
                        tp ts s_p s_s Hm hyp0)).
Proof.
  revert Hm hyp0. induction n as [|n IH]; intros Hm hyp0; simpl;
    [apply Forall2_refl_on, drift_refl|].
  destruct (relocPS_pass4 _ _ _ _ _ _ _ _ _ _ _ _ _ _ _ _)
    as [[Hm' [e|dh hyp0']]|e] eqn:E; simpl;
    try apply Forall2_refl_on, drift_refl.
  apply relocPS_pass4_drift in E.
  destruct (converged (conv_hypo par) dh); simpl.
  - eapply Forall2_impl; [exact E|].
    intros x y. apply drift_more. lia.
  - eapply Forall2_compose; [|exact E|apply IH].
    intros x y z Hxy Hyz. exact (drift_trans true true 1 n x y z Hxy Hyz).
Qed.

(** X13  In exact arithmetic (no rounding, no NaN), with [dt_max] and
    [dx_max] not negative: in [_relocPS] every pass of the loop over all
    the parameters clamps its update to [dt_max] in origin time and to
    [dx_max] in each coordinate, and the loop over latitude and longitude
    leaves origin time and depth alone.  So a call moves a hypocenter by at
    most [maxit_hypo * dt_max] in origin time and [maxit_hypo * dx_max] in
    depth, and, when [hypo_2step] is off, by at most [maxit_hypo * dx_max]
    in each horizontal coordinate. *)
Theorem relocPS_drift_bound (ne : Z) (g : Grid3D.t Q) (evID : list Q)
    (hyp0 : list (hyp Q)) (data : list (obs Q)) (rcv : list (point Q))
    (tobs : list Q) (s : list Q * list Q) (ind : list bool * list bool) :
  let tbl := snd (_relocPS engine lstsq svd ne par g evID hyp0 data rcv tobs
                           s ind) in
  length tbl = length hyp0 /\
  forall i h h', hyp0 !! i = Some h -> tbl !! i = Some h' ->
    drift (dt_max par) (dx_max par) (negb (hypo_2step par)) (maxit_hypo par)
          h h'.
Proof.
  cbv zeta.
  assert (G : Forall2 (drift (dt_max par) (dx_max par) (negb (hypo_2step par))
                             (maxit_hypo par)) hyp0
                (snd (_relocPS engine lstsq svd ne par g evID hyp0 data rcv
                               tobs s ind))).
  { unfold _relocPS.
    destruct (rbind _ _) as [[[[indh [nstp nsts]] [stnp stns]] [tp ts]]|e];
      simpl; [|apply Forall2_refl_on, drift_refl].
    destruct (hypo_2step par); cbn [negb].
    - pose proof (relocPS_loop2_drift (maxit_hypo par) (conv_hypo par) g indh
                    nstp nsts stnp stns tp ts (fst s) (snd s)
                    (repeat [fone; fone] (nstp + nsts)) hyp0) as E2.
      destruct (relocPS_loop2 _ _ _ _ _ _ _ _ _ _ _ _ _ _ _ _ _)
        as [[[e|]|e] hyp1]; simpl in *;
        try (eapply Forall2_impl; [exact E2|];
             intros x y; apply drift_more; lia).
      eapply Forall2_compose; [|exact E2|apply relocPS_loop4_drift].
      intros x y z Hxy Hyz.
      exact (drift_trans false true 0 (maxit_hypo par) x y z Hxy Hyz).
    - apply relocPS_loop4_drift. }
  apply Forall2_same_length_lookup in G as [Hlen G].
  split; [now symmetry|]. intros i h h' E1 E2. now apply (G i).
Qed.
End ExactDrift.

Lemma relocPS_drift_bound_witness :
  exists e h',
    _relocPS straight_engine lstsq_normal svd_fails 0 par_main grid_012 [7]%Q
             hyp0_centre data_cross_PS rcv_cross (map o_t data_cross_PS)
             (repeat 1%Q 27, repeat 2%Q 27) masks_cross_PS = (Ok e, [h']) /\
    (h_t0 h' == 1 # 100)%Q /\ ~ (h_x h' == 1)%Q /\
    drift (dt_max par_main) (dx_max par_main) (negb (hypo_2step par_main))
          (maxit_hypo par_main) (mk_hyp 7 0 1 1 1)%Q h'.
Proof.
  destruct (relocPS_drift_bound straight_engine lstsq_normal svd_fails par_main
              ltac:(discriminate) ltac:(discriminate) 0 grid_012 [7]%Q
              hyp0_centre data_cross_PS rcv_cross (map o_t data_cross_PS)
              (repeat 1%Q 27, repeat 2%Q 27) masks_cross_PS) as [_ Hd].
  destruct (_relocPS straight_engine lstsq_normal svd_fails 0 par_main grid_012
              [7]%Q hyp0_centre data_cross_PS rcv_cross (map o_t data_cross_PS)
              (repeat 1%Q 27, repeat 2%Q 27) masks_cross_PS) as [r tbl] eqn:E.
  cbn [snd] in Hd.
  assert (Er : exists e h', (r, tbl) = (Ok e, [h']) /\ (h_t0 h' == 1 # 100)%Q /\
                            ~ (h_x h' == 1)%Q).
  { vm_compute in E. injection E as <- <-. do 2 eexists.
    split; [reflexivity|]. split; [reflexivity|]. discriminate. }
  destruct Er as (e & h' & Er & Ht & Hx). injection Er as -> ->.
  exists e, h'. split; [reflexivity|]. split; [exact Ht|]. split; [exact Hx|].
  exact (Hd 0%nat _ _ eq_refl eq_refl).
Defined.

(** ** Loops that fill an array row by row *)

Section Scatter.
Context {B : Type}.

Lemma for_each_ext {A S} (l : list A) (f g : A -> S -> result S) (s : S) :
  (forall a t, In a l -> f a t = g a t) -> for_each l f s = for_each l g s.
Proof.
  revert s. induction l as [|a l IH]; intros s Hfg; simpl; [reflexivity|].
  rewrite (Hfg a s) by now left. destruct (g a s) as [s'|e]; simpl; [|reflexivity].
  apply IH. intros b t Hb. apply Hfg. now right.
Qed.

Lemma rbind_assoc {A C D} (m : result A) (f : A -> result C)
    (g : C -> result D) :
  rbind (rbind m f) g = rbind m (fun a => rbind (f a) g).
Proof. destruct m; reflexivity. Qed.

(** One loop [for i in l: arr[i] = val(i)]. *)
Lemma scatter_inner (val : nat -> result B) (w : nat -> B) (l : list nat)
    (arr : list B) :
  (forall i, In i l -> (i < length arr)%nat /\ val i = Ok (w i)) ->
  exists arr',
    for_each l (fun i arr => rbind (val i) (fun v =>
                  if (i <? length arr)%nat then Ok (<[i := v]> arr)
                  else Raise IndexError)) arr = Ok arr' /\
    length arr' = length arr /\
    (forall i, In i l -> arr' !! i = Some (w i)) /\
    (forall i, ~ In i l -> arr' !! i = arr !! i).
Proof.
  revert arr. induction l as [|i l IH]; intros arr Hl; cbn [for_each].
  - exists arr. repeat split; auto. intros i [].
  - destruct (Hl i ltac:(now left)) as [Hi Ev]. rewrite Ev. cbn [rbind].
    apply Nat.ltb_lt in Hi as Hi'. rewrite Hi'. cbn [rbind].
    destruct (IH (<[i := w i]> arr)) as (arr' & E & Hlen & Hin & Hout).
    { intros j Hj. rewrite length_insert. apply Hl. now right. }
    exists arr'. split; [exact E|]. rewrite length_insert in Hlen.
    split; [exact Hlen|]. split.
    + intros j [<-|Hj]; [|now apply Hin].
      destruct (in_dec Nat.eq_dec i l) as [Hil|Hil]; [now apply Hin|].
      rewrite (Hout i Hil). now apply list_lookup_insert_eq.
    + intros j Hj. rewrite Hout by (intros Hj'; apply Hj; now right).
      apply list_lookup_insert_ne. intros ->. apply Hj. now left.
Qed.

Lemma listed_dec {K} (indr : K -> list nat) (keys : list K) (i : nat) :
  (exists k, In k keys /\ In i (indr k)) \/
  (forall k, In k keys -> ~ In i (indr k)).
Proof.
  induction keys as [|k keys IH]; [right; intros k []|].
  destruct (in_dec Nat.eq_dec i (indr k)) as [Hi|Hi].
  - left. exists k. split; [now left|exact Hi].
  - destruct IH as [(k' & Hk' & Hi')|IH].
    + left. exists k'. split; [now right|exact Hi'].
    + right. intros k' [<-|Hk']; auto.
Qed.

(** The loop over the events around it: every row listed for some event
    ends with the value of that row, the other rows are not touched. *)
Lemma scatter_outer {K} (indr : K -> list nat) (val : K -> nat -> result B)
    (w : nat -> B) (keys : list K) (arr : list B) :
  (forall k i, In k keys -> In i (indr k) ->
     (i < length arr)%nat /\ val k i = Ok (w i)) ->
  exists arr',
    for_each keys
      (fun k arr =>
         for_each (indr k) (fun i arr => rbind (val k i) (fun v =>
                    if (i <? length arr)%nat then Ok (<[i := v]> arr)
                    else Raise IndexError)) arr) arr = Ok arr' /\
    length arr' = length arr /\
    (forall i, (exists k, In k keys /\ In i (indr k)) ->
               arr' !! i = Some (w i)) /\
    (forall i, (forall k, In k keys -> ~ In i (indr k)) ->
               arr' !! i = arr !! i).
Proof.
  revert arr. induction keys as [|k keys IH]; intros arr Hk; cbn [for_each].
  - exists arr. repeat split; auto. intros i (k & [] & _).
  - destruct (scatter_inner (val k) w (indr k) arr) as (arr1 & -> & L1 & I1 & O1).
    { intros i Hi. apply Hk; [now left|exact Hi]. }
    cbn [rbind].
    destruct (IH arr1) as (arr' & E & L & I & O).
    { intros k' i Hk' Hi. rewrite L1. apply Hk; [now right|exact Hi]. }
    exists arr'. split; [exact E|]. split; [congruence|]. split.
    + intros i (k' & [<-|Hk'] & Hi).
      * destruct (listed_dec indr keys i) as [Hex|Hnex].
        -- now apply I.
        -- rewrite O by exact Hnex. now apply I1.
      * apply I. eauto.
    + intros i Hi. rewrite O by (intros k' Hk'; apply Hi; now right).
      apply O1. apply Hi. now left.
Qed.
End Scatter.

Section FirstRow.
Context {F : Type} `{Scalar F}.

Lemma head_py_get {A} (l : list A) (a : A) : head l = Some a -> py_get l 0 = Ok a.
Proof.
  destruct l as [|b l]; simpl; [discriminate|]. intros [= ->].
  rewrite (py_get_nth _ 0 a) by (cbn [length]; lia). reflexivity.
Qed.

Lemma filter_seq_find {A} (test : A -> bool) (tbl pre : list A) :
  match find test tbl with
  | Some h =>
      exists i0,
        head (List.filter (fun i => match (pre ++ tbl) !! i with
                                    | Some a => test a
                                    | None => false
                                    end) (seq (length pre) (length tbl)))
        = Some i0 /\ (pre ++ tbl) !! i0 = Some h
  | None =>
      List.filter (fun i => match (pre ++ tbl) !! i with
                            | Some a => test a
                            | None => false
                            end) (seq (length pre) (length tbl)) = []
  end.
Proof.
  revert pre. induction tbl as [|a t IH]; intros pre; [reflexivity|].
  cbn [find length seq List.filter].
  assert (Ea : (pre ++ a :: t) !! length pre = Some a).
  { rewrite lookup_app_r by lia. now rewrite Nat.sub_diag. }
  rewrite Ea. destruct (test a).
  - exists (length pre). split; [reflexivity|exact Ea].
  - specialize (IH (pre ++ [a])).
    rewrite <- app_assoc, length_app in IH. cbn [app length] in IH.
    replace (length pre + 1)%nat with (S (length pre)) in IH by lia.
    exact IH.
Qed.

(** [hyp0[indh[0],:]] is the first row of [hyp0] that passes the test of
    [indh], and an [IndexError] when there is none. *)
Lemma first_row_find (test : hyp F -> bool) (hyp0 : list (hyp F)) :
  match find test hyp0 with
  | Some h => exists i0, first_row (nonzero test hyp0) hyp0 = Ok (i0, h)
  | None => first_row (nonzero test hyp0) hyp0 = Raise IndexError
  end.
Proof.
  pose proof (filter_seq_find test hyp0 []) as Hf. cbn [app length] in Hf.
  unfold first_row, nonzero.
  destruct (find test hyp0) as [h|].
  - destruct Hf as (i0 & Eh & Ei). exists i0.
    rewrite (head_py_get _ _ Eh). cbn [rbind]. unfold item. now rewrite Ei.
  - rewrite Hf. reflexivity.
Qed.
End FirstRow.

(** ** The tables of receivers and of hypocenters by observation *)

Section ExactTables.
Local Open Scope Q_scope.

Lemma Qeq_bool_right (a b c : Q) : b == c -> Qeq_bool a b = Qeq_bool a c.
Proof.
  intros Hbc. destruct (Qeq_bool a c) eqn:E.
  - apply Qeq_bool_iff. apply Qeq_bool_iff in E. now rewrite Hbc.
  - destruct (Qeq_bool a b) eqn:E'; [|reflexivity].
    apply Qeq_bool_iff in E'. rewrite Hbc in E'. apply Qeq_bool_iff in E'.
    congruence.
Qed.

(** Every row of [data] is listed for one of the distinct event IDs. *)
Lemma rows_listed (data : list (obs Q)) (i : nat) (o : obs Q) :
  data !! i = Some o ->
  exists eid, In eid (np_unique (map o_id data)) /\ o_id o == eid /\
              In i (nonzero (fun o => feqb (o_id o) eid) data).
Proof.
  intros Hi.
  destruct (np_unique_covers (map o_id data) (o_id o)) as (eid & Heid & Eeq).
  { apply in_map_iff. exists o. split; [reflexivity|].
    apply list_elem_of_In. eapply list_elem_of_lookup_2; eauto. }
  exists eid. split; [exact Heid|]. split; [exact Eeq|].
  apply In_nonzero. exists o. split; [exact Hi|]. now apply Qeq_bool_iff.
Qed.

(** X14  The table [rcv_data] that [jointHypoVel] builds before its
    iterations: when every observation names a receiver of [rcv], the loops
    return, and row [i] of the table is the position of the receiver of
    observation [i], whatever [np.empty] had left in the array. *)
Theorem fill_rcv_data_rows (rcv : list (point Q)) (data : list (obs Q))
    (init : list (point Q)) :
  length init = length data ->
  (forall o, In o data ->
     exists k p, to_int (o_rcv o) = Ok k /\ py_get rcv k = Ok p) ->
  exists rd,
    fill_rcv_data (np_unique (map o_id data)) rcv data init = Ok rd /\
    length rd = length data /\
    forall i o, data !! i = Some o ->
      exists k p, to_int (o_rcv o) = Ok k /\ py_get rcv k = Ok p /\
                  rd !! i = Some p.
Proof.
  intros Hlen Hrcv.
  set (val := fun i : nat =>
                rbind (item data i) (fun o =>
                rbind (to_int (o_rcv o)) (fun k => py_get rcv k))).
  set (w := fun i : nat => match val i with Ok p => p | Raise _ => (0, 0, 0) end).
  assert (Hval : forall i o, data !! i = Some o -> val i = Ok (w i)).
  { intros i o Hi. unfold w. destruct (val i) as [p|e] eqn:E; [reflexivity|].
    exfalso. unfold val, item in E. rewrite Hi in E. cbn [rbind] in E.
    destruct (Hrcv o) as (k & p & Ek & Ep).
    { apply list_elem_of_In. eapply list_elem_of_lookup_2; eauto. }
    rewrite Ek in E. cbn [rbind] in E. congruence. }
  destruct (scatter_outer (fun eid => nonzero (fun o => feqb (o_id o) eid) data)
              (fun _ => val) w (np_unique (map o_id data)) init)
    as (rd & E & L & I & _).
  { intros eid i _ Hi. apply In_nonzero in Hi as (o & Hi & _). split.
    - rewrite Hlen. now apply lookup_lt_Some in Hi.
    - now apply (Hval i o). }
  exists rd. split; [|split].
  - rewrite <- E. unfold fill_rcv_data. apply for_each_ext. intros eid t _.
    apply for_each_ext. intros i t' _. unfold val.
    destruct (item data i) as [o|]; [|reflexivity]. cbn [rbind].
    destruct (to_int (o_rcv o)); reflexivity.
  - congruence.
  - intros i o Hi. destruct (Hrcv o) as (k & p & Ek & Ep).
    { apply list_elem_of_In. eapply list_elem_of_lookup_2; eauto. }
    exists k, p. split; [exact Ek|]. split; [exact Ep|].
    destruct (rows_listed data i o Hi) as (eid & Heid & _ & Hin).
    rewrite (I i) by eauto. f_equal.
    unfold w, val, item. rewrite Hi. cbn [rbind]. rewrite Ek. cbn [rbind].
    now rewrite Ep.
Qed.

(** X15  The table [hyp] of the raytracing: when every event of [data] has
    a row in [hyp0], the loops return, and row [i] of the table is the
    first row of [hyp0] with the ID of observation [i], whatever [np.empty]
    had left in the array. *)
Theorem fill_hyp_rows (hyp0 : list (hyp Q)) (data : list (obs Q))
    (init : list (hyp Q)) :
  length init = length data ->
  (forall o, In o data -> hypocenter_of hyp0 o <> None) ->
  exists tbl,
    fill_hyp (np_unique (map o_id data)) hyp0 data init = Ok tbl /\
    length tbl = length data /\
    forall i o, data !! i = Some o -> tbl !! i = hypocenter_of hyp0 o.
Proof.
  intros Hlen Hev.
  set (val := fun (eid : Q) (i : nat) =>
                rbind (first_row (nonzero (fun h => feqb (h_id h) eid) hyp0) hyp0)
                      (fun ih => Ok (snd ih))).
  set (w := fun i : nat =>
              match data !! i with
              | Some o => match hypocenter_of hyp0 o with
                          | Some h => h
                          | None => mk_hyp 0 0 0 0 0
                          end
              | None => mk_hyp 0 0 0 0 0
              end).
  assert (Hval : forall eid i o, data !! i = Some o -> o_id o == eid ->
                                 val eid i = Ok (w i) /\
                                 hypocenter_of hyp0 o = Some (w i)).
  { intros eid i o Hi Eeq. unfold val, w. rewrite Hi.
    assert (Ef : find (fun h => feqb (h_id h) eid) hyp0 = hypocenter_of hyp0 o).
    { unfold hypocenter_of. clear - Eeq.
      induction hyp0 as [|h t IH]; [reflexivity|].
      cbn [find]. change (feqb (h_id h) eid) with (Qeq_bool (h_id h) eid).
      rewrite IH. rewrite (Qeq_bool_right (h_id h) eid (o_id o)); [reflexivity|].
      now symmetry. }
    pose proof (first_row_find (fun h => feqb (h_id h) eid) hyp0) as Hf.
    rewrite Ef in Hf.
    destruct (hypocenter_of hyp0 o) as [h|] eqn:Eh.
    - destruct Hf as (i0 & ->). split; reflexivity.
    - exfalso. apply (Hev o); [|exact Eh].
      apply list_elem_of_In. eapply list_elem_of_lookup_2; eauto. }
  destruct (scatter_outer (fun eid => nonzero (fun o => feqb (o_id o) eid) data)
              val w (np_unique (map o_id data)) init)
    as (tbl & E & L & I & _).
  { intros eid i _ Hi. apply In_nonzero in Hi as (o & Hi & Et). split.
    - rewrite Hlen. now apply lookup_lt_Some in Hi.
    - apply (Hval eid i o Hi). now apply Qeq_bool_iff. }
  exists tbl. split; [|split].
  - rewrite <- E. unfold fill_hyp. apply for_each_ext. intros eid t _.
    apply for_each_ext. intros i t' _. unfold val.
    destruct (first_row _ hyp0) as [ih|]; reflexivity.
  - congruence.
  - intros i o Hi.
    destruct (rows_listed data i o Hi) as (eid & Heid & Eeq & Hin).
    rewrite (I i) by eauto. symmetry. now apply (Hval eid i o).
Qed.
End ExactTables.

Lemma fill_rcv_data_rows_witness :
  exists rd,
    fill_rcv_data (np_unique (map o_id data_cross)) rcv_cross data_cross
                  (repeat (9, 9, 9)%Q 5) = Ok rd /\
    length rd = length data_cross /\
    forall i o, data_cross !! i = Some o ->
      exists k p, to_int (o_rcv o) = Ok k /\ py_get rcv_cross k = Ok p /\
                  rd !! i = Some p.
Proof.
  apply (fill_rcv_data_rows rcv_cross data_cross (repeat (9, 9, 9)%Q 5)).
  - reflexivity.
  - intros o Ho. cbn in Ho.
    destruct Ho as [<-|[<-|[<-|[<-|[<-|[]]]]]];
      eexists; eexists; (split; [vm_compute; reflexivity|]);
      vm_compute; reflexivity.
Defined.

Lemma fill_hyp_rows_witness :
  exists tbl,
    fill_hyp (np_unique (map o_id data_cross)) hinit_two data_cross
             (repeat (mk_hyp 9 9 9 9 9)%Q 5) = Ok tbl /\
    length tbl = length data_cross /\
    forall i o, data_cross !! i = Some o -> tbl !! i = hypocenter_of hinit_two o.
Proof.
  apply (fill_hyp_rows hinit_two data_cross (repeat (mk_hyp 9 9 9 9 9)%Q 5)).
  - reflexivity.
  - intros o Ho. cbn in Ho.
    destruct Ho as [<-|[<-|[<-|[<-|[<-|[]]]]]]; vm_compute; discriminate.
Defined.

(** ** The penalty loops *)

Section ScatterPair.
Context {B C : Type}.

(** One loop [for n in l: P[n] = ...; dP[n,n] = ...]. *)
Lemma scatter_pair (val : nat -> result (B * C)) (w : nat -> B * C)
    (l : list nat) (st : list B * list C) :
  (forall i, In i l -> (i < length (fst st))%nat /\ (i < length (snd st))%nat /\
                       val i = Ok (w i)) ->
  exists st',
    for_each l (fun n st => rbind (val n) (fun pd =>
                  if (n <? length (fst st))%nat && (n <? length (snd st))%nat
                  then Ok (<[n := fst pd]> (fst st), <[n := snd pd]> (snd st))
                  else Raise IndexError)) st = Ok st' /\
    length (fst st') = length (fst st) /\
    length (snd st') = length (snd st) /\
    (forall i, In i l -> fst st' !! i = Some (fst (w i)) /\
                         snd st' !! i = Some (snd (w i))) /\
    (forall i, ~ In i l -> fst st' !! i = fst st !! i /\
                           snd st' !! i = snd st !! i).
Proof.
  revert st. induction l as [|i l IH]; intros st Hl; cbn [for_each].
  - exists st. split; [reflexivity|]. split; [reflexivity|].
    split; [reflexivity|]. split; [intros j []|intros j _; split; reflexivity].
  - destruct (Hl i ltac:(now left)) as (Hi1 & Hi2 & Ev). rewrite Ev.
    cbn [rbind].
    apply Nat.ltb_lt in Hi1 as Hi1'. apply Nat.ltb_lt in Hi2 as Hi2'.
    rewrite Hi1', Hi2'. cbn [andb rbind].
    destruct (IH (<[i := fst (w i)]> (fst st), <[i := snd (w i)]> (snd st)))
      as (st' & E & L1 & L2 & Hin & Hout).
    { intros j Hj. cbn [fst snd]. rewrite !length_insert. apply Hl. now right. }
    cbn [fst snd] in *. rewrite length_insert in L1. rewrite length_insert in L2.
    exists st'. split; [exact E|]. split; [exact L1|]. split; [exact L2|]. split.
    + intros j [<-|Hj]; [|now apply Hin].
      destruct (in_dec Nat.eq_dec i l) as [Hil|Hil]; [now apply Hin|].
      destruct (Hout i Hil) as [-> ->].
      split; now apply list_lookup_insert_eq.
    + intros j Hj.
      destruct (Hout j) as [-> ->]; [intros Hj'; apply Hj; now right|].
      assert (i <> j) by (intros ->; apply Hj; now left).
      split; now apply list_lookup_insert_ne.
Qed.
End ScatterPair.

Section PenaltyFacts.
Context {F : Type} {SF : Scalar F} {OS : OrderedScalar F}.

(** With a positive slope, the penalty of a velocity and its derivative are
    both zero for a NaN and, among the numbers, exactly inside the
    limits. *)
Lemma penalty_zero (PA vmin vmax v : F) :
  fltb fzero PA = true ->
  (fisnan v = true -> penalty PA vmin vmax v = (fzero, fzero)) /\
  (fisnan v = false -> fisnan vmin = false -> fisnan vmax = false ->
   (penalty PA vmin vmax v = (fzero, fzero) <->
    fleb vmin v = true /\ fleb v vmax = true)).
Proof.
  intros HPA. unfold penalty. split.
  - intros Hv. now rewrite (fltb_nan_l v vmin Hv), (fltb_nan_r vmax v Hv).
  - intros Hv Hmin Hmax.
    rewrite (fltb_fleb v vmin Hv Hmin), (fltb_fleb vmax v Hmax Hv).
    destruct (fleb vmin v) eqn:E1; cbn [negb].
    + destruct (fleb v vmax) eqn:E2; cbn [negb].
      * split; auto.
      * split; [|intros [_ C]; discriminate].
        intros E. injection E as _ E. rewrite E in HPA.
        rewrite fltb_irrefl in HPA. discriminate.
    + split; [|intros [C _]; discriminate].
      intros E. injection E as _ E. apply fopp_neg in HPA.
      rewrite E, fltb_irrefl in HPA. discriminate.
Qed.

(** X16  The penalty loop of [jointHypoVel]: with [V], [P] and [dP] of at
    least [nnodes] entries the loop returns, every entry below [nnodes] is
    the penalty of the velocity of that node and its slope, whatever the
    previous iteration had left there, and the entries from [nnodes] on are
    not touched.  With a positive [PAp] and limits that are numbers,
    penalty and slope of a node are both zero exactly when its velocity
    lies inside [Vpmin, Vpmax] or is NaN. *)
Theorem penalties_fresh (par : InvParams F) (nnodes : nat) (V P dP : list F) :
  (nnodes <= length V)%nat -> (nnodes <= length P)%nat ->
  (nnodes <= length dP)%nat -> fltb fzero (PAp par) = true ->
  fisnan (Vpmin par) = false -> fisnan (Vpmax par) = false ->
  exists P' dP',
    penalties par nnodes V P dP = Ok (P', dP') /\
    length P' = length P /\ length dP' = length dP /\
    (forall n v, (n < nnodes)%nat -> V !! n = Some v ->
       exists p d,
         P' !! n = Some p /\ dP' !! n = Some d /\
         (p, d) = penalty (PAp par) (Vpmin par) (Vpmax par) v /\
         ((p, d) = (fzero, fzero) <->
          fisnan v = true \/
          (fleb (Vpmin par) v = true /\ fleb v (Vpmax par) = true))) /\
    (forall n, (nnodes <= n)%nat -> P' !! n = P !! n /\ dP' !! n = dP !! n).
Proof.
  intros HV HP HdP HPA Hmin Hmax.
  set (val := fun n : nat =>
                rbind (item V n) (fun v =>
                  Ok (penalty (PAp par) (Vpmin par) (Vpmax par) v))).
  set (w := fun n : nat => match val n with
                           | Ok pd => pd
                           | Raise _ => (fzero, fzero)
                           end).
  destruct (scatter_pair val w (seq 0 nnodes) (P, dP))
    as ([P' dP'] & E & L1 & L2 & Hin & Hout).
  { intros i Hi. apply in_seq in Hi. cbn [fst snd].
    split; [lia|]. split; [lia|]. unfold w.
    destruct (val i) eqn:Ei; [reflexivity|]. exfalso. unfold val, item in Ei.
    destruct (lookup_lt_is_Some_2 V i ltac:(lia)) as [v Ev].
    rewrite Ev in Ei. discriminate. }
  cbn [fst snd] in *. exists P', dP'. split; [|split; [exact L1|split; [exact L2|split]]].
  - rewrite <- E. unfold penalties. apply for_each_ext. intros n st _.
    unfold val. destruct (item V n); reflexivity.
  - intros n v Hn Ev. destruct (Hin n) as [E1 E2]; [apply in_seq; lia|].
    assert (Ew : w n = penalty (PAp par) (Vpmin par) (Vpmax par) v).
    { unfold w, val, item. now rewrite Ev. }
    exists (fst (w n)), (snd (w n)). split; [exact E1|]. split; [exact E2|].
    split; [rewrite <- Ew; now destruct (w n)|].
    rewrite <- surjective_pairing, Ew.
    destruct (penalty_zero (PAp par) (Vpmin par) (Vpmax par) v HPA) as [Z1 Z2].
    destruct (fisnan v) eqn:Hv.
    + split; [now left|]. intros _. now apply Z1.
    + rewrite (Z2 eq_refl Hmin Hmax). split; [now right|].
      intros [C|C]; [discriminate|exact C].
  - intros n Hn. apply Hout. rewrite in_seq. lia.
Qed.
End PenaltyFacts.

Section ExactPenalties.
Local Open Scope Q_scope.

Lemma penalty_sign (PA vmin vmax v : Q) :
  0 < PA ->
  0 <= fst (penalty PA vmin vmax v) /\
  (fst (penalty PA vmin vmax v) == 0 <-> vmin <= v /\ v <= vmax).
Proof.
  intros HPA. unfold penalty.
  change (@fltb Q Scalar_Q) with Qltb.
  destruct (Qltb v vmin) eqn:E1.
  - apply Qltb_true_iff in E1. cbn [fst].
    change (@fmul Q Scalar_Q) with Qmult. change (@fsub Q Scalar_Q) with Qminus.
    split; [nra|]. split; [intros Hz; exfalso; nra|intros [Hv _]; exfalso; lra].
  - apply Qltb_false_iff in E1. destruct (Qltb vmax v) eqn:E2.
    + apply Qltb_true_iff in E2. cbn [fst].
      change (@fmul Q Scalar_Q) with Qmult. change (@fsub Q Scalar_Q) with Qminus.
      split; [nra|]. split; [intros Hz; exfalso; nra|intros [_ Hv]; exfalso; lra].
    + apply Qltb_false_iff in E2. cbn [fst]. change (@fzero Q Scalar_Q) with 0.
      split; [lra|]. split; [intros _; split; assumption|reflexivity].
Qed.

(** X17  The two penalty loops of [jointHypoVelPS]: with the limits of the
    S velocities set, [V] and [Vs] of [nnodes] entries or more and [P] and
    [dP] of [2*nnodes] or more, the loops return; entry [n] below [nnodes]
    is the penalty of the P velocity of node [n] against [Vpmin], [Vpmax]
    and [PAp], entry [nnodes+n] that of its S velocity against [Vsmin],
    [Vsmax] and [PAs]. *)
Theorem penalties_PS_fresh (par : InvParams Q) (nnodes : nat)
    (V Vs P dP : list Q) (vsmin vsmax pas : Q) :
  Vsmin par = Some vsmin -> Vsmax par = Some vsmax -> PAs par = Some pas ->
  (nnodes <= length V)%nat -> (nnodes <= length Vs)%nat ->
  (2 * nnodes <= length P)%nat -> (2 * nnodes <= length dP)%nat ->
  exists P' dP',
    penalties_PS par nnodes V Vs P dP = Ok (P', dP') /\
    length P' = length P /\ length dP' = length dP /\
    forall n vp vs, V !! n = Some vp -> Vs !! n = Some vs -> (n < nnodes)%nat ->
      P' !! n = Some (fst (penalty (PAp par) (Vpmin par) (Vpmax par) vp)) /\
      dP' !! n = Some (snd (penalty (PAp par) (Vpmin par) (Vpmax par) vp)) /\
      P' !! (nnodes + n)%nat = Some (fst (penalty pas vsmin vsmax vs)) /\
      dP' !! (nnodes + n)%nat = Some (snd (penalty pas vsmin vsmax vs)).
Proof.
  intros Emin Emax Epas HV HVs HP HdP.
  set (val := fun n : nat =>
                rbind (item V n) (fun v =>
                  Ok (penalty (PAp par) (Vpmin par) (Vpmax par) v))).
  set (w := fun n : nat => match val n with Ok pd => pd | Raise _ => (0, 0) end).
  destruct (scatter_pair val w (seq 0 nnodes) (P, dP))
    as ([P1 dP1] & E1 & L1 & L1' & Hin1 & Hout1).
  { intros i Hi. apply in_seq in Hi. cbn [fst snd].
    split; [lia|]. split; [lia|]. unfold w.
    destruct (val i) eqn:Ei; [reflexivity|]. exfalso. unfold val, item in Ei.
    destruct (lookup_lt_is_Some_2 V i ltac:(lia)) as [v Ev].
    rewrite Ev in Ei. discriminate. }
  cbn [fst snd] in *.
  set (val2 := fun n : nat =>
                 rbind (item Vs (n - nnodes)) (fun v =>
                   Ok (penalty pas vsmin vsmax v))).
  set (w2 := fun n : nat => match val2 n with Ok pd => pd | Raise _ => (0, 0) end).
  destruct (scatter_pair val2 w2 (seq nnodes nnodes) (P1, dP1))
    as ([P2 dP2] & E2 & L2 & L2' & Hin2 & Hout2).
  { intros i Hi. apply in_seq in Hi. cbn [fst snd].
    split; [lia|]. split; [lia|]. unfold w2.
    destruct (val2 i) eqn:Ei; [reflexivity|]. exfalso. unfold val2, item in Ei.
    destruct (lookup_lt_is_Some_2 Vs (i - nnodes) ltac:(lia)) as [v Ev].
    rewrite Ev in Ei. discriminate. }
  cbn [fst snd] in *. exists P2, dP2.
  split; [|split; [congruence|split; [congruence|]]].
  - unfold penalties_PS.
    assert (Ep : penalties par nnodes V P dP = Ok (P1, dP1)).
    { rewrite <- E1. unfold penalties. apply for_each_ext. intros n st _.
      unfold val. destruct (item V n); reflexivity. }
    rewrite Ep. cbn [rbind]. rewrite <- E2. apply for_each_ext. intros n st _.
    unfold val2. destruct (item Vs (n - nnodes)) as [v|]; [|reflexivity].
    cbn [rbind]. rewrite Emin, Emax, Epas. cbn [attr rbind]. unfold penalty.
    destruct (fltb v vsmin); [reflexivity|]. cbn [rbind].
    destruct (fltb vsmax v); reflexivity.
  - intros n vp vs Evp Evs Hn.
    destruct (Hin2 (nnodes + n)%nat) as [A2 B2]; [apply in_seq; lia|].
    destruct (Hout2 n) as [A1 B1]; [rewrite in_seq; lia|].
    destruct (Hin1 n) as [A0 B0]; [apply in_seq; lia|].
    assert (Ew : w n = penalty (PAp par) (Vpmin par) (Vpmax par) vp).
    { unfold w, val, item. now rewrite Evp. }
    assert (Ew2 : w2 (nnodes + n)%nat = penalty pas vsmin vsmax vs).
    { unfold w2, val2, item.
      replace (nnodes + n - nnodes)%nat with n by lia. now rewrite Evs. }
    rewrite <- Ew, <- Ew2. rewrite A1, B1. auto.
Qed.

(** X18  With parameters built from a [Vlim] of three entries the second
    penalty loop of [jointHypoVelPS] stops at its first node with
    [AttributeError]: [Vsmin] was never set. *)
Theorem penalties_PS_needs_Vsmin (maxit maxit_hypo : nat) (conv_hypo : Q)
    (Vlim dmax lagrangians : list Q) (f1 f2 f3 f4 f5 f6 : bool)
    (par : InvParams Q) (nnodes : nat) (V Vs P dP : list Q) :
  InvParams_init maxit maxit_hypo conv_hypo Vlim dmax lagrangians
                 f1 f2 f3 f4 f5 f6 = Ok par ->
  length Vlim = 3%nat ->
  (0 < nnodes)%nat ->
  (nnodes <= length V)%nat -> (nnodes <= length Vs)%nat ->
  (nnodes <= length P)%nat -> (nnodes <= length dP)%nat ->
  penalties_PS par nnodes V Vs P dP = Raise (AttributeError "Vsmin").
Proof.
  intros E Hl Hn HV HVs HP HdP.
  assert (Hnone : Vsmin par = None).
  { unfold InvParams_init in E.
    apply rbind_Ok in E as (vpmin & _ & E). apply rbind_Ok in E as (vpmax & _ & E).
    apply rbind_Ok in E as (pap & _ & E). apply rbind_Ok in E as (vs & Evs & E).
    rewrite Hl in Evs. cbn in Evs. injection Evs as <-.
    apply rbind_Ok in E as (dvp & _ & E). apply rbind_Ok in E as (dx & _ & E).
    apply rbind_Ok in E as (dt & _ & E). apply rbind_Ok in E as (dvs & _ & E).
    apply rbind_Ok in E as (l0 & _ & E). apply rbind_Ok in E as (l1 & _ & E).
    apply rbind_Ok in E as (l2 & _ & E). apply rbind_Ok in E as (l3 & _ & E).
    injection E as <-. reflexivity. }
  set (val := fun n : nat =>
                rbind (item V n) (fun v =>
                  Ok (penalty (PAp par) (Vpmin par) (Vpmax par) v))).
  set (w := fun n : nat => match val n with Ok pd => pd | Raise _ => (0, 0) end).
  destruct (scatter_pair val w (seq 0 nnodes) (P, dP))
    as ([P1 dP1] & E1 & L1 & L1' & _).
  { intros i Hi. apply in_seq in Hi. cbn [fst snd].
    split; [lia|]. split; [lia|]. unfold w.
    destruct (val i) eqn:Ei; [reflexivity|]. exfalso. unfold val, item in Ei.
    destruct (lookup_lt_is_Some_2 V i ltac:(lia)) as [v Ev].
    rewrite Ev in Ei. discriminate. }
  unfold penalties_PS.
  assert (Ep : penalties par nnodes V P dP = Ok (P1, dP1)).
  { rewrite <- E1. unfold penalties. apply for_each_ext. intros n st _.
    unfold val. destruct (item V n); reflexivity. }
  rewrite Ep. cbn [rbind].
  destruct nnodes as [|m]; [lia|]. cbn [seq for_each].
  rewrite Nat.sub_diag. unfold item at 1.
  destruct (lookup_lt_is_Some_2 Vs 0 ltac:(lia)) as [v Ev]. rewrite Ev.
  cbn [rbind]. rewrite Hnone. reflexivity.
Qed.
End ExactPenalties.

Lemma penalties_fresh_witness :
  exists P' dP',
    penalties par_main_binary64 3 [3400; 4000; nan]%float [9; 9; 9; 9]%float
              [9; 9; 9; 9]%float = Ok (P', dP') /\
    P' = [100; 0; 0; 9]%float /\ dP' = [-1; 0; 0; 9]%float.
Proof.
  destruct (penalties_fresh par_main_binary64 3 [3400; 4000; nan]%float
              [9; 9; 9; 9]%float [9; 9; 9; 9]%float
              ltac:(cbn; lia) ltac:(cbn; lia) ltac:(cbn; lia)
              eq_refl eq_refl eq_refl)
    as (P' & dP' & E & _).
  exists P', dP'. split; [exact E|].
  vm_compute in E. injection E as <- <-. split; reflexivity.
Defined.

Lemma penalties_PS_fresh_witness :
  exists P' dP',
    penalties_PS par_main 1 [5000]%Q [1000]%Q [7; 7]%Q [7; 7]%Q = Ok (P', dP') /\
    P' = [500; 500]%Q /\ dP' = [1; -(1)]%Q.
Proof.
  destruct (penalties_PS_fresh par_main 1 [5000]%Q [1000]%Q [7; 7]%Q [7; 7]%Q
              1500%Q 2500%Q 1%Q)
    as (P' & dP' & E & _); try reflexivity; try (cbn [length]; lia).
  exists P', dP'. split; [exact E|].
  vm_compute in E. injection E as <- <-. split; reflexivity.
Defined.

Lemma penalties_PS_needs_Vsmin_witness :
  exists par,
    InvParams_init 3 10 1%Q [3500; 4500; 1]%Q [50; 5; 1 # 100; 25]%Q
                   [2; 1; 1; 1 # 10]%Q true true false true true true = Ok par /\
    penalties_PS par 1 [4000]%Q [2000]%Q [0; 0]%Q [0; 0]%Q
    = Raise (AttributeError "Vsmin").
Proof.
  eexists. split; [reflexivity|].
  apply (penalties_PS_needs_Vsmin 3 10 1%Q
           [3500; 4500; 1]%Q [50; 5; 1 # 100; 25]%Q
           [2; 1; 1; 1 # 10]%Q true true false true true true);
    try reflexivity; cbn [length]; lia.
Defined.

(** ** Sorting the observations by phase *)

Section PhaseOrder.
Context {A : Type}.
Variables p q : A -> bool.
Hypothesis disjoint : forall x, p x = true -> q x = false.

Lemma filter_le (f : A -> bool) (l : list A) :
  (length (List.filter f l) <= length l)%nat.
Proof. induction l as [|a l IH]; simpl; [lia|]. destruct (f a); simpl; lia. Qed.

Lemma filter_length_eq (f : A -> bool) (l : list A) :
  length (List.filter f l) = length l -> List.filter f l = l.
Proof.
  induction l as [|a l IH]; simpl; [reflexivity|].
  destruct (f a); simpl; intros Hl.
  - f_equal. apply IH. lia.
  - pose proof (filter_le f l). lia.
Qed.

Lemma filter_excl_length (l : list A) :
  (length (List.filter p l) + length (List.filter q l) <= length l)%nat.
Proof.
  induction l as [|a l IH]; simpl; [lia|].
  destruct (p a) eqn:Pa.
  - rewrite (disjoint a Pa). simpl. lia.
  - destruct (q a); simpl; lia.
Qed.

(** A table whose rows keep their answer to [p] when the [p] rows are moved
    in front of the [q] rows, and that loses no row, is not changed. *)
Lemma sorted_fixed (l : list A) :
  map p (List.filter p l ++ List.filter q l) = map p l ->
  length (List.filter p l ++ List.filter q l) = length l ->
  List.filter p l ++ List.filter q l = l.
Proof.
  induction l as [|a t IH]; [reflexivity|]. cbn [List.filter].
  destruct (p a) eqn:Pa.
  - rewrite (disjoint a Pa). cbn [app map length]. intros Hm Hl.
    injection Hm as Hm. f_equal. apply IH; [exact Hm|lia].
  - destruct (q a) eqn:Qa.
    + intros Hm Hl. destruct (List.filter p t) as [|b u] eqn:Ef.
      * cbn [app] in *. f_equal. apply filter_length_eq.
        cbn [length] in Hl. lia.
      * exfalso. cbn [app map] in Hm. injection Hm as Hb _.
        assert (Hin : In b (List.filter p t)) by (rewrite Ef; now left).
        apply filter_In in Hin as [_ Pb]. congruence.
    + intros _ Hl. exfalso. pose proof (filter_excl_length t) as Hle.
      rewrite length_app in Hl. cbn [length] in Hl. lia.
Qed.

Lemma filter_all (f : A -> bool) (l : list A) :
  (forall x, In x l -> f x = true) -> List.filter f l = l.
Proof.
  induction l as [|a l IH]; intros Hf; simpl; [reflexivity|].
  rewrite (Hf a) by now left. f_equal. apply IH. intros x Hx. apply Hf. now right.
Qed.

Lemma filter_none (f : A -> bool) (l : list A) :
  (forall x, In x l -> f x = false) -> List.filter f l = [].
Proof.
  induction l as [|a l IH]; intros Hf; simpl; [reflexivity|].
  rewrite (Hf a) by now left. apply IH. intros x Hx. apply Hf. now right.
Qed.
End PhaseOrder.

Lemma lookup_map_None {A B} (f : A -> B) (l : list A) (i : nat) :
  l !! i = None -> map f l !! i = None.
Proof.
  revert i. induction l as [|b l IH]; intros [|i]; simpl; try discriminate; auto.
Qed.

Section ExactPhases.
Local Open Scope Q_scope.

Lemma phase_disjoint (o : obs Q) :
  Qeq_bool (o_ph o) 0 = true -> Qeq_bool (o_ph o) 1 = false.
Proof.
  intros E0. apply Qeq_bool_iff in E0.
  destruct (Qeq_bool (o_ph o) 1) eqn:E1; [|reflexivity].
  apply Qeq_bool_iff in E1. rewrite E0 in E1. discriminate E1.
Qed.

(** X19  [jointHypoVelPS] takes the masks [indp] and [inds] from [data] as
    it is given and then replaces [data] by its P rows followed by its S
    rows.  The masks say the phase of the rows of the new table only when
    the new table is the old one, that is when [data] held nothing but P
    rows followed by S rows. *)
Theorem sort_phases_masks (data : list (obs Q)) :
  let '(indp, inds, data') := sort_phases data in
  (masks_match indp inds data' <-> data' = data) /\
  (data' = data <->
   exists ps ss, data = ps ++ ss /\
                 Forall (fun o => o_ph o == 0) ps /\
                 Forall (fun o => o_ph o == 1) ss).
Proof.
  unfold sort_phases. cbv zeta.
  change (fun o : obs Q => feqb (o_ph o) fzero)
    with (fun o : obs Q => Qeq_bool (o_ph o) 0).
  change (fun o : obs Q => feqb (o_ph o) fone)
    with (fun o : obs Q => Qeq_bool (o_ph o) 1).
  set (p := fun o : obs Q => Qeq_bool (o_ph o) 0).
  set (q := fun o : obs Q => Qeq_bool (o_ph o) 1).
  split; split.
  - intros (Lp & _ & Hm). rewrite length_map in Lp.
    apply (sorted_fixed p q phase_disjoint); [|now symmetry].
    apply list_eq. intros i.
    destruct ((List.filter p data ++ List.filter q data) !! i) as [o|] eqn:Ei.
    + rewrite (lookup_map_Some p _ i o Ei). symmetry. now apply (Hm i o).
    + rewrite (lookup_map_None p _ i Ei). symmetry.
      apply lookup_ge_None. rewrite length_map, Lp.
      now apply lookup_ge_None.
  - intros ->. unfold masks_match. rewrite !length_map.
    split; [reflexivity|]. split; [reflexivity|]. intros i o Hi.
    split; [exact (lookup_map_Some p data i o Hi)|
            exact (lookup_map_Some q data i o Hi)].
  - intros Ed. exists (List.filter p data), (List.filter q data).
    split; [now symmetry|]. split; apply List.Forall_forall; intros o Ho;
      apply filter_In in Ho as [_ Ho]; now apply Qeq_bool_iff.
  - intros (ps & ss & -> & Hps & Hss).
    pose proof (proj1 (List.Forall_forall (fun o : obs Q => o_ph o == 0) ps) Hps)
      as Hps'.
    pose proof (proj1 (List.Forall_forall (fun o : obs Q => o_ph o == 1) ss) Hss)
      as Hss'.
    clear Hps Hss. cbv beta in Hps', Hss'.
    rewrite !List.filter_app.
    rewrite (filter_all p ps), (filter_none p ss), (filter_none q ps),
      (filter_all q ss).
    + now rewrite app_nil_r.
    + intros o Ho. apply Qeq_bool_iff. now apply Hss'.
    + intros o Ho. apply phase_disjoint. apply Qeq_bool_iff. now apply Hps'.
    + intros o Ho. destruct (p o) eqn:Po; [|reflexivity].
      apply phase_disjoint in Po.
      assert (Qeq_bool (o_ph o) 1 = true) by (apply Qeq_bool_iff; now apply Hss').
      congruence.
    + intros o Ho. apply Qeq_bool_iff. now apply Hps'.
Qed.
End ExactPhases.

(** ** What the relocation pass keeps *)

Section RelocInvariant.
Context {F : Type} `{Scalar F}.
Variable engine : engine_t F.
Variable lstsq : lstsq_t F.
Variable svd : svd_t F.

(** A relation between tables that every write of a relocation keeps: the
    row written carries the ID of the row it replaces. *)
Variable R : list (hyp F) -> list (hyp F) -> Prop.
Hypothesis R_refl : forall t, R t t.
Hypothesis R_trans : forall a b c, R a b -> R b c -> R a c.
Hypothesis R_write : forall t i h h',
  t !! i = Some h -> h_id h' = h_id h -> R t (<[i := h']> t).

Lemma first_row_item (indh : list nat) (hyp0 : list (hyp F)) (i0 : nat)
    (h : hyp F) :
  first_row indh hyp0 = Ok (i0, h) -> hyp0 !! i0 = Some h.
Proof.
  unfold first_row. intros E.
  apply rbind_Ok in E as (j & _ & E). apply rbind_Ok in E as (h1 & Eh & E).
  injection E as <- <-. unfold item in Eh.
  destruct (hyp0 !! j); [now injection Eh as <-|discriminate].
Qed.

Lemma move4_inv (g : Grid3D.t F) (indh : list nat) (dh : vec4 F)
    (hyp0 hyp0' : list (hyp F)) :
  move4 g indh dh hyp0 = Ok (Some hyp0') -> R hyp0 hyp0'.
Proof.
  unfold move4. intros E. apply rbind_Ok in E as ([i0 h] & E0 & E).
  apply first_row_item in E0.
  destruct dh as [[[d0 d1] d2] d3]. cbn [fst snd] in E.
  apply rbind_Ok in E as (out & _ & E).
  destruct out; [discriminate|]. injection E as <-.
  now apply (R_write hyp0 i0 h).
Qed.

Lemma move2_inv (g : Grid3D.t F) (indh : list nat) (dh : F * F)
    (hyp0 hyp0' : list (hyp F)) :
  move2 g indh dh hyp0 = Ok (Some hyp0') -> R hyp0 hyp0'.
Proof.
  unfold move2. intros E. apply rbind_Ok in E as ([i0 h] & E0 & E).
  apply first_row_item in E0. cbn [fst snd] in E.
  apply rbind_Ok in E as (out & _ & E).
  destruct out; [discriminate|]. injection E as <-.
  now apply (R_write hyp0 i0 h).
Qed.

Lemma reloc_pass2_inv g indh nst stn tobs_ev s Hm hyp0 Hm' dh hyp0' :
  reloc_pass2 engine lstsq svd g indh nst stn tobs_ev s Hm hyp0
    = Ok (Hm', Moved dh hyp0') ->
  R hyp0 hyp0'.
Proof.
  unfold reloc_pass2. intros E.
  do 5 (apply rbind_Ok in E as (? & _ & E)).
  destruct x3 as [dl|]; [|discriminate].
  apply rbind_Ok in E as (d2 & _ & E).
  apply rbind_Ok in E as (mv & Emv & E).
  destruct mv as [t|]; [|discriminate]. injection E as _ _ <-.
  now apply move2_inv in Emv.
Qed.

Lemma reloc_pass4_inv g indh nst stn tobs_ev s Hm hyp0 Hm' dh hyp0' :
  reloc_pass4 engine lstsq svd g indh nst stn tobs_ev s Hm hyp0
    = Ok (Hm', Moved dh hyp0') ->
  R hyp0 hyp0'.
Proof.
  unfold reloc_pass4. intros E.
  do 5 (apply rbind_Ok in E as (? & _ & E)).
  destruct x3 as [dl|]; [|discriminate].
  apply rbind_Ok in E as (d4 & _ & E).
  apply rbind_Ok in E as (mv & Emv & E).
  destruct mv as [t|]; [|discriminate]. injection E as _ _ <-.
  now apply move4_inv in Emv.
Qed.

Lemma relocPS_pass2_inv g indh nstp nsts stnp stns tp ts s_p s_s Hm hyp0
    Hm' dh hyp0' :
  relocPS_pass2 engine lstsq svd g indh nstp nsts stnp stns tp ts s_p s_s
                Hm hyp0 = Ok (Hm', Moved dh hyp0') ->
  R hyp0 hyp0'.
Proof.
  unfold relocPS_pass2. intros E.
  do 4 (apply rbind_Ok in E as (? & _ & E)).
  destruct x2 as [dl|]; [|discriminate].
  apply rbind_Ok in E as (d2 & _ & E).
  apply rbind_Ok in E as (mv & Emv & E).
  destruct mv as [t|]; [|discriminate]. injection E as _ _ <-.
  now apply move2_inv in Emv.
Qed.

Lemma relocPS_pass4_inv par g indh nstp nsts stnp stns tp ts s_p s_s Hm hyp0
    Hm' dh hyp0' :
  relocPS_pass4 engine lstsq svd par g indh nstp nsts stnp stns tp ts s_p s_s
                Hm hyp0 = Ok (Hm', Moved dh hyp0') ->
  R hyp0 hyp0'.
Proof.
  unfold relocPS_pass4. intros E.
  do 4 (apply rbind_Ok in E as (? & _ & E)).
  destruct x2 as [dl|]; [|discriminate].
  apply rbind_Ok in E as ([[[d0 d1] d2] d3] & _ & E).
  apply rbind_Ok in E as (mv & Emv & E).
  destruct mv as [t|]; [|discriminate]. injection E as _ _ <-.
  now apply move4_inv in Emv.
Qed.

Lemma reloc_loop2_inv n conv g indh nst stn tobs_ev s Hm hyp0 :
  R hyp0
    (snd (reloc_loop2 engine lstsq svd n conv g indh nst stn tobs_ev s Hm hyp0)).
Proof.
  revert Hm hyp0. induction n as [|n IH]; intros Hm hyp0; simpl;
    [apply R_refl|].
  destruct (reloc_pass2 _ _ _ _ _ _ _ _ _ _ _) as [[Hm' [e|dh hyp0']]|e] eqn:E;
    simpl; try apply R_refl.
  apply reloc_pass2_inv in E.
  destruct (converged2 conv dh); simpl; [exact E|].
  eapply R_trans; [exact E|apply IH].
Qed.

Lemma reloc_loop4_inv n conv g indh nst stn tobs_ev s Hm hyp0 :
  R hyp0
    (snd (reloc_loop4 engine lstsq svd n conv g indh nst stn tobs_ev s Hm hyp0)).
Proof.
  revert Hm hyp0. induction n as [|n IH]; intros Hm hyp0; simpl;
    [apply R_refl|].
  destruct (reloc_pass4 _ _ _ _ _ _ _ _ _ _ _) as [[Hm' [e|dh hyp0']]|e] eqn:E;
    simpl; try apply R_refl.
  apply reloc_pass4_inv in E.
  destruct (converged conv dh); simpl; [exact E|].
  eapply R_trans; [exact E|apply IH].
Qed.

Lemma relocPS_loop2_inv n conv g indh nstp nsts stnp stns tp ts s_p s_s Hm hyp0 :
  R hyp0
    (snd (relocPS_loop2 engine lstsq svd n conv g indh nstp nsts stnp stns
                        tp ts s_p s_s Hm hyp0)).
Proof.
  revert Hm hyp0. induction n as [|n IH]; intros Hm hyp0; simpl;
    [apply R_refl|].
  destruct (relocPS_pass2 _ _ _ _ _ _ _ _ _ _ _ _ _ _ _)
    as [[Hm' [e|dh hyp0']]|e] eqn:E; simpl; try apply R_refl.
  apply relocPS_pass2_inv in E.
  destruct (converged2 conv dh); simpl; [exact E|].
  eapply R_trans; [exact E|apply IH].
Qed.

Lemma relocPS_loop4_inv n par g indh nstp nsts stnp stns tp ts s_p s_s Hm hyp0 :
  R hyp0
    (snd (relocPS_loop4 engine lstsq svd n par g indh nstp nsts stnp stns
                        tp ts s_p s_s Hm hyp0)).
Proof.
  revert Hm hyp0. induction n as [|n IH]; intros Hm hyp0; simpl;
    [apply R_refl|].
  destruct (relocPS_pass4 _ _ _ _ _ _ _ _ _ _ _ _ _ _ _ _)
    as [[Hm' [e|dh hyp0']]|e] eqn:E; simpl; try apply R_refl.
  apply relocPS_pass4_inv in E.
  destruct (converged (conv_hypo par) dh); simpl; [exact E|].
  eapply R_trans; [exact E|apply IH].
Qed.

Lemma reloc_inv ne par g evID hyp0 data rcv tobs s :
  R hyp0 (snd (_reloc engine lstsq svd ne par g evID hyp0 data rcv tobs s)).
Proof.
  unfold _reloc.
  destruct (rbind (py_get evID ne) _) as [[[[indh nst] stn] tobs_ev]|e];
    simpl; [|apply R_refl].
  destruct (hypo_2step par).
  - pose proof (reloc_loop2_inv (maxit_hypo par) (conv_hypo par) g indh nst stn
                  tobs_ev s (repeat [fone; fone] nst) hyp0) as E2.
    destruct (reloc_loop2 _ _ _ _ _ _ _ _ _ _ _ _ _) as [[[e|]|e] hyp1];
      simpl in *; try exact E2.
    eapply R_trans; [exact E2|apply reloc_loop4_inv].
  - apply reloc_loop4_inv.
Qed.

Lemma relocPS_inv ne par g evID hyp0 data rcv tobs s ind :
  R hyp0
    (snd (_relocPS engine lstsq svd ne par g evID hyp0 data rcv tobs s ind)).
Proof.
  unfold _relocPS.
  destruct (rbind (py_get evID ne) _)
    as [[[[indh [nstp nsts]] [stnp stns]] [tp ts]]|e]; simpl; [|apply R_refl].
  destruct (hypo_2step par).
  - pose proof (relocPS_loop2_inv (maxit_hypo par) (conv_hypo par) g indh
                  nstp nsts stnp stns tp ts (fst s) (snd s)
                  (repeat [fone; fone] (nstp + nsts)) hyp0) as E2.
    destruct (relocPS_loop2 _ _ _ _ _ _ _ _ _ _ _ _ _ _ _ _ _)
      as [[[e|]|e] hyp1]; simpl in *; try exact E2.
    eapply R_trans; [exact E2|apply relocPS_loop4_inv].
  - apply relocPS_loop4_inv.
Qed.

Lemma relocate_all_inv nes par g evID hyp0 data rcv tobs s :
  R hyp0
    (snd (relocate_all engine lstsq svd nes par g evID hyp0 data rcv tobs s)).
Proof.
  revert hyp0. induction nes as [|ne nes IH]; intros hyp0; simpl;
    [apply R_refl|].
  pose proof (reloc_inv ne par g evID hyp0 data rcv tobs s) as E.
  destruct (_reloc _ _ _ _ _ _ _ _ _ _ _ _) as [[x|e] hyp1]; simpl in *;
    [|exact E].
  eapply R_trans; [exact E|apply IH].
Qed.

Lemma relocate_all_PS_inv nes par g evID hyp0 data rcv tobs s ind :
  R hyp0
    (snd (relocate_all_PS engine lstsq svd nes par g evID hyp0 data rcv tobs
                          s ind)).
Proof.
  revert hyp0. induction nes as [|ne nes IH]; intros hyp0; simpl;
    [apply R_refl|].
  pose proof (relocPS_inv ne par g evID hyp0 data rcv tobs s ind) as E.
  destruct (_relocPS _ _ _ _ _ _ _ _ _ _ _ _ _) as [[x|e] hyp1]; simpl in *;
    [|exact E].
  eapply R_trans; [exact E|apply IH].
Qed.
End RelocInvariant.

Section RelocIds.
Context {F : Type} `{Scalar F}.
Variable engine : engine_t F.
Variable lstsq : lstsq_t F.
Variable svd : svd_t F.

Lemma same_ids_write (t : list (hyp F)) (i : nat) (h h' : hyp F) :
  t !! i = Some h -> h_id h' = h_id h -> same_ids t (<[i := h']> t).
Proof.
  unfold same_ids. revert i.
  induction t as [|a t IH]; intros [|i]; simpl; try discriminate.
  - intros [= ->] ->. reflexivity.
  - intros Hi Hh. f_equal. now apply IH.
Qed.

(** X20  The relocation pass of an iteration, [for ne in range(nev):
    _reloc(...)] in [jointHypoVel] and the same loop over [_relocPS] in
    [jointHypoVelPS], never changes the column of the event IDs of [hyp0]
    nor the number of its rows, whatever the events of the pass and however
    each call ends, an exception included. *)
Theorem relocation_keeps_ids (nes : list Z) (par : InvParams F)
    (g : Grid3D.t F) (evID : list F) (hyp0 : list (hyp F))
    (data : list (obs F)) (rcv : list (point F)) (tobs s : list F)
    (sPS : list F * list F) (ind : list bool * list bool) :
  same_ids hyp0
    (snd (relocate_all engine lstsq svd nes par g evID hyp0 data rcv tobs s)) /\
  same_ids hyp0
    (snd (relocate_all_PS engine lstsq svd nes par g evID hyp0 data rcv tobs
                          sPS ind)) /\
  length (snd (relocate_all engine lstsq svd nes par g evID hyp0 data rcv
                            tobs s)) = length hyp0 /\
  length (snd (relocate_all_PS engine lstsq svd nes par g evID hyp0 data rcv
                               tobs sPS ind)) = length hyp0.
Proof.
  assert (Hrefl : forall t : list (hyp F), same_ids t t) by reflexivity.
  assert (Htrans : forall a b c : list (hyp F),
            same_ids a b -> same_ids b c -> same_ids a c).
  { unfold same_ids. intros a b c Hab Hbc. congruence. }
  pose proof (relocate_all_inv engine lstsq svd same_ids Hrefl Htrans
                same_ids_write nes par g evID hyp0 data rcv tobs s) as E1.
  pose proof (relocate_all_PS_inv engine lstsq svd same_ids Hrefl Htrans
                same_ids_write nes par g evID hyp0 data rcv tobs sPS ind) as E2.
  split; [exact E1|]. split; [exact E2|].
  unfold same_ids in E1, E2.
  split; [rewrite <- (length_map h_id), E1|rewrite <- (length_map h_id), E2];
    apply length_map.
Qed.
End RelocIds.

(** ** The tie points of the two-phase solver *)

Section TiePointBlocks.
Context {F : Type} `{Scalar F}.

Lemma computeD_shape (g : Grid3D.t F) (coord : list (point F)) (Dm : csr F) :
  Grid3D.computeD g coord = Ok Dm ->
  csr_rows Dm = Z.of_nat (length coord) /\
  csr_cols Dm = Grid3D.getNumberOfNodes g.
Proof.
  unfold Grid3D.computeD. intros E.
  apply rbind_Ok in E as (out & _ & E). destruct out; [discriminate|].
  apply rbind_Ok in E as (rows & _ & E).
  unfold csr_matrix in E. destruct (negb _); [discriminate|].
  cbn [rbind fst snd] in E.
  repeat (destruct (existsb _ _); [discriminate|]).
  injection E as <-. split; reflexivity.
Qed.
End TiePointBlocks.

Section ExactTiePointBlocks.
Local Open Scope Q_scope.

Lemma tie_phase_disjoint (t : tie Q) : is_P t = true -> is_S t = false.
Proof.
  unfold is_P, is_S. change (@feqb Q Scalar_Q) with Qeq_bool.
  change (@fzero Q Scalar_Q) with 0. change (@fone Q Scalar_Q) with 1.
  intros E0. apply Qeq_bool_iff in E0.
  destruct (Qeq_bool (v_ph t) 1) eqn:E1; [|reflexivity].
  apply Qeq_bool_iff in E1. rewrite E0 in E1. discriminate E1.
Qed.

Lemma phases_short (Vpts : list (tie Q)) :
  Exists (fun t => is_P t = false /\ is_S t = false) Vpts ->
  (length (List.filter is_P Vpts) + length (List.filter is_S Vpts)
   < length Vpts)%nat.
Proof.
  induction 1 as [t l [HP HS]|t l Hex IH]; cbn [List.filter length].
  - rewrite HP, HS.
    pose proof (filter_excl_length is_P is_S tie_phase_disjoint l). lia.
  - destruct (is_P t) eqn:HP.
    + rewrite (tie_phase_disjoint t HP). cbn [length]. lia.
    + destruct (is_S t); cbn [length]; lia.
Qed.

Lemma phases_full (Vpts : list (tie Q)) :
  Forall (fun t => is_P t = true \/ is_S t = true) Vpts ->
  (length (List.filter is_P Vpts) + length (List.filter is_S Vpts)
   = length Vpts)%nat.
Proof.
  induction 1 as [|t l Ht Hl IH]; cbn [List.filter length]; [reflexivity|].
  destruct (is_P t) eqn:HP.
  - rewrite (tie_phase_disjoint t HP). cbn [length]. lia.
  - destruct Ht as [Ht|Ht]; [discriminate|]. rewrite Ht. cbn [length]. lia.
Qed.

(** X21  The tie-point block of [jointHypoVelPS] with [invert_VsVp] off
    builds [D] from the P rows and from the S rows of [Vpts] separately.
    It raises when [Vpts] has no P row, no S row, or a row of another
    phase; when every row is P or S and [computeD] accepts both groups, it
    binds [Vpts2] to [Vpts], [D] to the block diagonal matrix of the two
    and [D1] to a matrix of one row per tie point and
    [2*nnodes + 2*nsta] columns. *)
Theorem tiepoint_setup_PS_separate (par : InvParams Q) (g : Grid3D.t Q)
    (nsta : nat) (Vpts : list (tie Q)) :
  invert_VsVp par = false -> Vpts <> [] ->
  (List.filter is_P Vpts = [] \/ List.filter is_S Vpts = [] \/
   Exists (fun t => is_P t = false /\ is_S t = false) Vpts ->
   exists e, tiepoint_setup_PS par g nsta Vpts = Raise e) /\
  (forall Dp Ds,
     Forall (fun t => is_P t = true \/ is_S t = true) Vpts ->
     Grid3D.computeD g (map v_xyz (List.filter is_P Vpts)) = Ok Dp ->
     Grid3D.computeD g (map v_xyz (List.filter is_S Vpts)) = Ok Ds ->
     exists tl,
       tiepoint_setup_PS par g nsta Vpts = Ok (Some tl) /\
       Vpts2 tl = Vpts /\ D tl = block_diag Dp Ds /\
       csr_rows (D1 tl) = Z.of_nat (length Vpts) /\
       csr_cols (D1 tl)
       = (2 * Grid3D.getNumberOfNodes g + 2 * Z.of_nat nsta)%Z).
Proof.
  intros Hinv Hne.
  assert (Eunf : tiepoint_setup_PS par g nsta Vpts =
                 rbind (rbind (Grid3D.computeD g (map v_xyz (List.filter is_P Vpts)))
                          (fun Dp => rbind (Grid3D.computeD g
                                              (map v_xyz (List.filter is_S Vpts)))
                                       (fun Ds => Ok (block_diag Dp Ds))))
                   (fun Dm => rbind (hstack Dm (zeros (Z.of_nat (length Vpts))
                                                  (2 * Z.of_nat nsta)))
                                (fun D1m => Ok (Some (mk_tie_locals Vpts Dm D1m))))).
  { unfold tiepoint_setup_PS. destruct Vpts as [|t l]; [congruence|].
    rewrite Hinv. reflexivity. }
  split.
  - intros Hbad. rewrite Eunf.
    destruct (Grid3D.computeD g (map v_xyz (List.filter is_P Vpts)))
      as [Dp|e] eqn:EP; [|eauto].
    destruct (Grid3D.computeD g (map v_xyz (List.filter is_S Vpts)))
      as [Ds|e] eqn:ES; [|eauto].
    cbn [rbind].
    destruct (computeD_shape g _ Dp EP) as [RP _].
    destruct (computeD_shape g _ Ds ES) as [RS _].
    rewrite length_map in RP, RS.
    destruct Hbad as [Hbad|[Hbad|Hbad]].
    + rewrite Hbad in EP. discriminate EP.
    + rewrite Hbad in ES. discriminate ES.
    + apply phases_short in Hbad. unfold hstack.
      cbn [block_diag csr_rows zeros]. rewrite RP, RS.
      destruct (Z.eqb_spec (Z.of_nat (length (List.filter is_P Vpts)) +
                            Z.of_nat (length (List.filter is_S Vpts)))
                           (Z.of_nat (length Vpts))) as [Heq|Hneq]; [lia|].
      cbn [negb rbind]. eauto.
  - intros Dp Ds Hall EP ES. rewrite Eunf, EP, ES. cbn [rbind].
    destruct (computeD_shape g _ Dp EP) as [RP CP].
    destruct (computeD_shape g _ Ds ES) as [RS CS].
    rewrite length_map in RP, RS. apply phases_full in Hall.
    unfold hstack. cbn [block_diag csr_rows csr_cols zeros]. rewrite RP, RS.
    destruct (Z.eqb_spec (Z.of_nat (length (List.filter is_P Vpts)) +
                          Z.of_nat (length (List.filter is_S Vpts)))
                         (Z.of_nat (length Vpts))) as [Heq|Hneq]; [|lia].
    cbn [negb rbind]. eexists. split; [reflexivity|].
    cbn [Vpts2 D D1 csr_rows csr_cols]. rewrite CP, CS.
    repeat split; lia.
Qed.

(** X22  [jointHypoVelPS] cannot finish a velocity step without tie
    points: its tie-point block then binds neither [Vpts2] nor [D1], and
    the test [Vpts2.shape[0] > 0] that follows the assignment of [A] stops
    with [NameError] on matrices of conforming shapes (and with the error
    of the assembly otherwise). *)
Theorem velocity_step_PS_needs_tiepoints (spl_norm : csr Q -> Q)
    (par : InvParams Q) (g : Grid3D.t Q) (nsta : nat)
    (M1 dP1 u1 KtKx KtKy KtKz : csr Q) (nK : Q) (n : Z) :
  (exists e,
     rbind (tiepoint_setup_PS par g nsta [])
           (normal_matrix_PS spl_norm par M1 dP1 u1 KtKx KtKy KtKz nK)
     = Raise e) /\
  (conforming n M1 dP1 u1 KtKx KtKy KtKz = true ->
   rbind (tiepoint_setup_PS par g nsta [])
         (normal_matrix_PS spl_norm par M1 dP1 u1 KtKx KtKy KtKz nK)
   = Raise (NameError "Vpts2")).
Proof.
  cbn [tiepoint_setup_PS rbind]. split.
  - unfold normal_matrix_PS.
    destruct (assemble spl_norm par M1 dP1 u1 KtKx KtKy KtKz nK); cbn [rbind];
      eauto.
  - intros Hs.
    exact (normal_matrix_PS_unbound spl_norm par M1 dP1 u1 KtKx KtKy KtKz nK
             n Hs).
Qed.
End ExactTiePointBlocks.

Lemma tiepoint_setup_PS_separate_witness :
  (exists e, tiepoint_setup_PS par_Vs grid_012 1 [mk_tie 4000 1 1 1 0]%Q
             = Raise e) /\
  (exists tl, tiepoint_setup_PS par_Vs grid_012 1
                [mk_tie 4000 1 1 1 0; mk_tie 2000 1 1 1 1]%Q = Ok (Some tl) /\
              csr_rows (D1 tl) = 2%Z /\ csr_cols (D1 tl) = 56%Z).
Proof.
  split.
  - apply (proj1 (tiepoint_setup_PS_separate par_Vs grid_012 1
                    [mk_tie 4000 1 1 1 0]%Q eq_refl ltac:(discriminate))).
    right. left. reflexivity.
  - destruct (proj2 (tiepoint_setup_PS_separate par_Vs grid_012 1
                       [mk_tie 4000 1 1 1 0; mk_tie 2000 1 1 1 1]%Q eq_refl
                       ltac:(discriminate)))
      with (Dp := match Grid3D.computeD grid_012 [(1, 1, 1)%Q] with
                  | Ok d => d | Raise _ => zeros 0 0 end)
           (Ds := match Grid3D.computeD grid_012 [(1, 1, 1)%Q] with
                  | Ok d => d | Raise _ => zeros 0 0 end)
      as (tl & E & _ & _ & R1 & C1).
    + constructor; [left; vm_compute; reflexivity|].
      constructor; [right; vm_compute; reflexivity|]. constructor.
    + vm_compute. reflexivity.
    + vm_compute. reflexivity.
    + exists tl. split; [exact E|]. split; [exact R1|]. rewrite C1. reflexivity.
Defined.

Lemma velocity_step_PS_needs_tiepoints_witness :
  rbind (tiepoint_setup_PS par_main grid_012 1 [])
        (normal_matrix_PS frobenius par_main M1_small dP1_small u1_small
                          KtK_small KtK_small KtK_small (frobenius KtK_small))
  = Raise (NameError "Vpts2").
Proof.
  apply (proj2 (velocity_step_PS_needs_tiepoints frobenius par_main grid_012 1
                  M1_small dP1_small u1_small KtK_small KtK_small KtK_small
                  (frobenius KtK_small) 2)).
  reflexivity.
Defined.

(** ** The calibration block of jointHypoVel *)

Section CalibrationLoop.
Context {F : Type} `{Scalar F}.
Variable rcv : list (point F).
Variable caldata : list (cal F).
Variable use_sc : bool.
Variable width : nat.


Lemma cal_inner (indr : list nat) (arr : list (point F))
    (ms : list (list (list F))) :
  for_each indr
    (fun i (st : option (list (point F)) * list (list (list F))) =>
       c <- item caldata i ;;
       k <- to_int (c_rcv c) ;;
       p <- py_get rcv k ;;
       match fst st with
       | None => Raise (NameError "rcv_cal")
       | Some arr =>
           if (i <? length arr)%nat
           then Ok (Some (<[i := p]> arr), snd st)
           else Raise IndexError
       end)
    (Some arr, ms)
  = rbind (for_each indr
             (fun i arr =>
                rbind (rbind (item caldata i) (fun c =>
                       rbind (to_int (c_rcv c)) (fun k => py_get rcv k)))
                      (fun p => if (i <? length arr)%nat
                                then Ok (<[i := p]> arr)
                                else Raise IndexError))
             arr)
          (fun arr' => Ok (Some arr', ms)).
Proof.
  revert arr. induction indr as [|i l IH]; intros arr; cbn [for_each];
    [reflexivity|].
  destruct (item caldata i) as [c|]; cbn [rbind]; [|reflexivity].
  destruct (to_int (c_rcv c)) as [k|]; cbn [rbind]; [|reflexivity].
  destruct (py_get rcv k) as [p|]; cbn [rbind fst snd]; [|reflexivity].
  destruct (i <? length arr)%nat; cbn [rbind]; [apply IH|reflexivity].
Qed.

Lemma cal_tmp_gen (indr : list nat) (m a : nat) (tmp0 : list (list F)) :
  (a + m <= length indr)%nat -> length tmp0 = length indr ->
  (forall n, (a <= n < length indr)%nat ->
             tmp0 !! n = Some (repeat fzero width)) ->
  (forall i, In i indr ->
     exists c k, caldata !! i = Some c /\ to_int (c_rcv c) = Ok k /\
                 (0 <= k < Z.of_nat width)%Z) ->
  exists tmp,
    for_each (seq a m)
      (fun n tmp =>
         i <- item indr n ;;
         c <- item caldata i ;;
         k <- to_int (c_rcv c) ;;
         row <- item tmp n ;;
         _ <- py_get row k ;;
         let k := Z.to_nat (if (k <? 0)%Z then Z.of_nat width + k else k) in
         Ok (<[n := <[k := fone]> row]> tmp))
      tmp0 = Ok tmp /\
    length tmp = length tmp0 /\
    (forall n, (n < a)%nat -> tmp !! n = tmp0 !! n) /\
    (forall n, (a <= n < a + m)%nat ->
       exists i c k, indr !! n = Some i /\ caldata !! i = Some c /\
                     to_int (c_rcv c) = Ok k /\
                     tmp !! n = Some (<[Z.to_nat k := fone]> (repeat fzero width))).
Proof.
  revert a tmp0. induction m as [|m IH]; intros a tmp0 Ham Hlen Hfresh Hrows;
    cbn [seq for_each].
  - exists tmp0. split; [reflexivity|]. split; [reflexivity|].
    split; [reflexivity|]. intros n Hn. lia.
  - destruct (lookup_lt_is_Some_2 indr a ltac:(lia)) as [i Ei].
    unfold item at 1. rewrite Ei. cbn [rbind].
    destruct (Hrows i) as (c & k & Ec & Ek & Hk).
    { apply list_elem_of_In. eapply list_elem_of_lookup_2; eauto. }
    unfold item at 1. rewrite Ec. cbn [rbind]. rewrite Ek. cbn [rbind].
    unfold item at 1. rewrite (Hfresh a) by lia. cbn [rbind].
    destruct (py_get_Ok_ex (repeat fzero width) k) as [z Ez].
    { now rewrite repeat_length. }
    rewrite Ez. cbn [rbind].
    replace (k <? 0)%Z with false by lia.
    destruct (IH (S a) (<[a := <[Z.to_nat k := fone]> (repeat fzero width)]> tmp0))
      as (tmp & E & L & Hlow & Hhigh).
    + lia.
    + now rewrite length_insert.
    + intros n Hn. rewrite list_lookup_insert_ne by lia. apply Hfresh. lia.
    + exact Hrows.
    + exists tmp. split; [exact E|]. rewrite length_insert in L.
      split; [exact L|]. split.
      * intros n Hn. rewrite Hlow by lia. apply list_lookup_insert_ne. lia.
      * intros n Hn. destruct (Nat.eq_dec n a) as [->|Hna].
        -- exists i, c, k. split; [exact Ei|]. split; [exact Ec|].
           split; [exact Ek|]. rewrite Hlow by lia.
           apply list_lookup_insert_eq. lia.
        -- apply Hhigh. lia.
Qed.

(** The matrix [tmp] of one shot. *)
Lemma cal_tmp (indr : list nat) :
  (forall i, In i indr ->
     exists c k, caldata !! i = Some c /\ to_int (c_rcv c) = Ok k /\
                 (0 <= k < Z.of_nat width)%Z) ->
  exists tmp,
    for_each (seq 0 (length indr))
      (fun n tmp =>
         i <- item indr n ;;
         c <- item caldata i ;;
         k <- to_int (c_rcv c) ;;
         row <- item tmp n ;;
         _ <- py_get row k ;;
         let k := Z.to_nat (if (k <? 0)%Z then Z.of_nat width + k else k) in
         Ok (<[n := <[k := fone]> row]> tmp))
      (repeat (repeat fzero width) (length indr)) = Ok tmp /\
    length tmp = length indr /\
    (forall n i c k, indr !! n = Some i -> caldata !! i = Some c ->
       to_int (c_rcv c) = Ok k ->
       tmp !! n = Some (<[Z.to_nat k := fone]> (repeat fzero width))).
Proof.
  intros Hrows.
  destruct (cal_tmp_gen indr (length indr) 0
              (repeat (repeat fzero width) (length indr)))
    as (tmp & E & L & _ & Hhigh).
  - lia.
  - apply repeat_length.
  - intros n Hn. apply lookup_repeat. lia.
  - exact Hrows.
  - exists tmp. split; [exact E|]. rewrite repeat_length in L.
    split; [exact L|]. intros n i c k Ei Ec Ek.
    destruct (Hhigh n) as (i' & c' & k' & Ei' & Ec' & Ek' & Et).
    { apply lookup_lt_Some in Ei. lia. }
    congruence.
Qed.

(** The loop over the shots, started on an allocated [rcv_cal]. *)
Lemma cal_loop (w : nat -> point F) (sel : F -> list (list F) -> Prop)
    (keys : list F) (arr : list (point F)) (ms : list (list (list F))) :
  (forall cid i, In cid keys ->
     In i (nonzero (fun c => feqb (c_id c) cid) caldata) ->
     exists c k p, caldata !! i = Some c /\ to_int (c_rcv c) = Ok k /\
                   py_get rcv k = Ok p /\
                   (use_sc = true -> (0 <= k < Z.of_nat width)%Z)) ->
  (forall cid i, In cid keys ->
     In i (nonzero (fun c => feqb (c_id c) cid) caldata) ->
     (i < length arr)%nat /\
     rbind (item caldata i) (fun c =>
       rbind (to_int (c_rcv c)) (fun k => py_get rcv k)) = Ok (w i)) ->
  (forall cid M,
     length M = length (nonzero (fun c => feqb (c_id c) cid) caldata) ->
     (forall n i c k,
        nonzero (fun c => feqb (c_id c) cid) caldata !! n = Some i ->
        caldata !! i = Some c -> to_int (c_rcv c) = Ok k ->
        M !! n = Some (<[Z.to_nat k := fone]> (repeat fzero width))) ->
     sel cid M) ->
  exists arr' ms',
    for_each keys
      (fun cid st =>
         let indr := nonzero (fun c => feqb (c_id c) cid) caldata in
         st <- for_each indr
                 (fun i (st : option (list (point F)) * list (list (list F))) =>
                    c <- item caldata i ;;
                    k <- to_int (c_rcv c) ;;
                    p <- py_get rcv k ;;
                    match fst st with
                    | None => Raise (NameError "rcv_cal")
                    | Some arr =>
                        if (i <? length arr)%nat
                        then Ok (Some (<[i := p]> arr), snd st)
                        else Raise IndexError
                    end)
                 st ;;
         if use_sc then
           tmp <- for_each (seq 0 (length indr))
                    (fun n tmp =>
                       i <- item indr n ;;
                       c <- item caldata i ;;
                       k <- to_int (c_rcv c) ;;
                       row <- item tmp n ;;
                       _ <- py_get row k ;;
                       let k := Z.to_nat (if (k <? 0)%Z then Z.of_nat width + k
                                          else k) in
                       Ok (<[n := <[k := fone]> row]> tmp))
                    (repeat (repeat fzero width) (length indr)) ;;
           Ok (fst st, snd st ++ [tmp])
         else Ok st)
      (Some arr, ms) = Ok (Some arr', ms ++ ms') /\
    length arr' = length arr /\
    (forall i, (exists cid, In cid keys /\
                  In i (nonzero (fun c => feqb (c_id c) cid) caldata)) ->
               arr' !! i = Some (w i)) /\
    (forall i, (forall cid, In cid keys ->
                  ~ In i (nonzero (fun c => feqb (c_id c) cid) caldata)) ->
               arr' !! i = arr !! i) /\
    (if use_sc then Forall2 sel keys ms' else ms' = []).
Proof.
  intros Hok Hval Hsel. revert arr ms Hval.
  induction keys as [|cid keys IH]; intros arr ms Hval; cbn [for_each].
  - exists arr, []. rewrite app_nil_r. split; [reflexivity|].
    split; [reflexivity|]. split; [intros i (k & [] & _)|].
    split; [reflexivity|]. destruct use_sc; [constructor|reflexivity].
  - cbv zeta. rewrite cal_inner.
    set (indr := nonzero (fun c => feqb (c_id c) cid) caldata) in *.
    destruct (scatter_inner
                (fun i => rbind (item caldata i) (fun c =>
                            rbind (to_int (c_rcv c)) (fun k => py_get rcv k)))
                w indr arr) as (arr1 & -> & L1 & I1 & O1).
    { intros i Hi. apply (Hval cid); [now left|exact Hi]. }
    cbn [rbind fst snd].
    assert (Hstep : exists ms1,
              (if use_sc then
                 rbind (for_each (seq 0 (length indr))
                    (fun n tmp =>
                       i <- item indr n ;;
                       c <- item caldata i ;;
                       k <- to_int (c_rcv c) ;;
                       row <- item tmp n ;;
                       _ <- py_get row k ;;
                       Ok (<[n := <[Z.to_nat (if (k <? 0)%Z
                                              then Z.of_nat width + k
                                              else k) := fone]> row]> tmp))
                    (repeat (repeat fzero width) (length indr)))
                   (fun tmp => Ok (Some arr1, ms ++ [tmp]))
               else Ok (Some arr1, ms)) = Ok (Some arr1, ms ++ ms1) /\
              (if use_sc then exists M, ms1 = [M] /\ sel cid M else ms1 = [])).
    { destruct use_sc eqn:Esc.
      - destruct (cal_tmp indr) as (tmp & Et & Lt & Ht).
        { intros i Hi. destruct (Hok cid i ltac:(now left) Hi)
            as (c & k & p & Ec & Ek & _ & Hk). exists c, k. auto. }
        cbv zeta in Et. rewrite Et. cbn [rbind].
        exists [tmp]. split; [reflexivity|]. exists tmp. split; [reflexivity|].
        apply Hsel; assumption.
      - exists []. rewrite app_nil_r. split; reflexivity. }
    destruct Hstep as (ms1 & -> & Hms1). cbn [rbind].
    destruct (IH ltac:(intros c i Hc; apply Hok; now right) arr1 (ms ++ ms1))
      as (arr' & ms' & E & L & I & O & S).
    { intros c i Hc Hi. rewrite L1. apply (Hval c); [now right|exact Hi]. }
    exists arr', (ms1 ++ ms'). rewrite app_assoc. split; [exact E|].
    split; [congruence|]. split; [|split].
    + intros i (c & [<-|Hc] & Hi).
      * destruct (listed_dec (fun cid => nonzero (fun c => feqb (c_id c) cid)
                                                 caldata) keys i) as [Hex|Hnex].
        -- now apply I.
        -- rewrite O by exact Hnex. now apply I1.
      * apply I. eauto.
    + intros i Hi. rewrite O by (intros c Hc; apply Hi; now right).
      apply O1. apply Hi. now left.
    + destruct use_sc.
      * destruct Hms1 as (M & -> & HM). now constructor.
      * now subst.
Qed.
End CalibrationLoop.

Lemma calibration_unfold {F} `{Scalar F} (par : InvParams F)
    (rcv : list (point F)) (caldata : list (cal F)) :
  caldata <> [] ->
  calibration par rcv caldata
  = rbind (calibration_loop (Some (repeat (fzero, fzero, fzero) (length caldata)))
             (use_sc par) (if use_sc par then length rcv else 0%nat) rcv
             caldata (np_unique (map c_id caldata)))
      (fun st =>
         Ok (mk_cal_locals (length (np_unique (map c_id caldata)))
               (map (fun c => mk_hyp (c_id c) fzero (c_x c) (c_y c) (c_z c))
                    caldata)
               (map c_t caldata) (fst st) (snd st))).
Proof.
  intros Hne. unfold calibration. destruct caldata; [congruence|reflexivity].
Qed.

Section ExactCalibrationTables.
Local Open Scope Q_scope.

(** Every row of a table is listed for one of the distinct values of its
    key column. *)
Lemma rows_listed_by {A} (key : A -> Q) (tbl : list A) (i : nat) (a : A) :
  tbl !! i = Some a ->
  exists u, In u (np_unique (map key tbl)) /\ key a == u /\
            In i (nonzero (fun a => feqb (key a) u) tbl).
Proof.
  intros Hi.
  destruct (np_unique_covers (map key tbl) (key a)) as (u & Hu & Eeq).
  { apply in_map_iff. exists a. split; [reflexivity|].
    apply list_elem_of_In. eapply list_elem_of_lookup_2; eauto. }
  exists u. split; [exact Hu|]. split; [exact Eeq|].
  apply In_nonzero. exists a. split; [exact Hi|]. now apply Qeq_bool_iff.
Qed.

Lemma calibration_spec (par : InvParams Q) (rcv : list (point Q))
    (caldata : list (cal Q)) :
  caldata <> [] ->
  (forall c, In c caldata ->
     exists k, to_int (c_rcv c) = Ok k /\ (0 <= k < Z.of_nat (length rcv))%Z) ->
  exists arr ms,
    calibration par rcv caldata
    = Ok (mk_cal_locals (length (np_unique (map c_id caldata)))
            (map (fun c => mk_hyp (c_id c) 0 (c_x c) (c_y c) (c_z c)) caldata)
            (map c_t caldata) (Some arr) ms) /\
    length arr = length caldata /\
    (forall i c, caldata !! i = Some c ->
       exists k, to_int (c_rcv c) = Ok k /\ arr !! i = rcv !! Z.to_nat k) /\
    (if use_sc par
     then Forall2 (selection_matrix (length rcv) caldata)
                  (np_unique (map c_id caldata)) ms
     else ms = []).
Proof.
  intros Hne Hrcv.
  assert (Hrow : forall i c, caldata !! i = Some c ->
            exists k p, to_int (c_rcv c) = Ok k /\ py_get rcv k = Ok p /\
                        rcv !! Z.to_nat k = Some p /\
                        (0 <= k < Z.of_nat (length rcv))%Z).
  { intros i c Hi. destruct (Hrcv c) as (k & Ek & Hk).
    { apply list_elem_of_In. eapply list_elem_of_lookup_2; eauto. }
    destruct (lookup_lt_is_Some_2 rcv (Z.to_nat k) ltac:(lia)) as [p Ep].
    exists k, p. split; [exact Ek|]. split; [|split; [exact Ep|exact Hk]].
    rewrite (py_get_nth _ k p) by exact Hk. f_equal.
    now apply nth_lookup_Some. }
  set (val := fun i : nat =>
                rbind (item caldata i) (fun c =>
                  rbind (to_int (c_rcv c)) (fun k => py_get rcv k))).
  set (w := fun i : nat => match val i with Ok p => p | Raise _ => (0, 0, 0) end).
  assert (Hval : forall i c, caldata !! i = Some c -> val i = Ok (w i)).
  { intros i c Hi. unfold w. destruct (val i) as [p|e] eqn:E; [reflexivity|].
    exfalso. unfold val, item in E. rewrite Hi in E. cbn [rbind] in E.
    destruct (Hrow i c Hi) as (k & p & Ek & Ep & _).
    rewrite Ek in E. cbn [rbind] in E. congruence. }
  destruct (cal_loop rcv caldata (use_sc par)
              (if use_sc par then length rcv else 0%nat) w
              (selection_matrix (if use_sc par then length rcv else 0%nat)
                                caldata)
              (np_unique (map c_id caldata))
              (repeat (0, 0, 0) (length caldata)) [])
    as (arr & ms & E & L & I & _ & S).
  - intros cid i Hcid Hi. apply In_nonzero in Hi as (c & Hi & _).
    destruct (Hrow i c Hi) as (k & p & Ek & Ep & _ & Hk).
    exists c, k, p. split; [exact Hi|]. split; [exact Ek|]. split; [exact Ep|].
    intros ->. exact Hk.
  - intros cid i Hcid Hi. apply In_nonzero in Hi as (c & Hi & _). split.
    + rewrite repeat_length. now apply lookup_lt_Some in Hi.
    + now apply (Hval i c).
  - intros cid M HL HM. split; [exact HL|exact HM].
  - cbn [app] in E. exists arr, ms. split; [|split; [|split]].
    + rewrite (calibration_unfold par rcv caldata Hne).
      match goal with
      | |- rbind ?X _ = _ =>
          assert (E' : X = Ok (Some arr, ms)) by exact E; rewrite E'
      end.
      reflexivity.
    + rewrite L. apply repeat_length.
    + intros i c Hi. destruct (Hrow i c Hi) as (k & p & Ek & Ep & El & _).
      exists k. split; [exact Ek|].
      destruct (rows_listed_by c_id caldata i c Hi) as (u & Hu & _ & Hin).
      rewrite (I i) by eauto. rewrite El. f_equal.
      unfold w, val, item. rewrite Hi. cbn [rbind]. rewrite Ek. cbn [rbind].
      now rewrite Ep.
    + destruct (use_sc par); exact S.
Qed.

(** X23  The calibration block of [jointHypoVel]: when every record of a
    non-empty [caldata] names a receiver of [rcv], the block returns with
    [ncal] the number of distinct shot IDs, [tcal] the column of arrival
    times, [hcal] the shots as hypocenters of origin time 0, and [rcv_cal]
    holding, for every record, the position of its receiver: the loops
    write every row of the array they were given. *)
Theorem calibration_tables (par : InvParams Q) (rcv : list (point Q))
    (caldata : list (cal Q)) :
  caldata <> [] ->
  (forall c, In c caldata ->
     exists k, to_int (c_rcv c) = Ok k /\ (0 <= k < Z.of_nat (length rcv))%Z) ->
  exists loc arr,
    calibration par rcv caldata = Ok loc /\
    ncal loc = length (np_unique (map c_id caldata)) /\
    tcal loc = map c_t caldata /\
    rcv_cal loc = Some arr /\ length arr = length caldata /\
    forall i c, caldata !! i = Some c ->
      hcal loc !! i = Some (mk_hyp (c_id c) 0 (c_x c) (c_y c) (c_z c)) /\
      exists k, to_int (c_rcv c) = Ok k /\ arr !! i = rcv !! Z.to_nat k.
Proof.
  intros Hne Hrcv.
  destruct (calibration_spec par rcv caldata Hne Hrcv)
    as (arr & ms & E & L & Harr & _).
  eexists. exists arr. split; [exact E|]. cbn [ncal tcal rcv_cal hcal].
  split; [reflexivity|]. split; [reflexivity|]. split; [reflexivity|].
  split; [exact L|]. intros i c Hi. split; [|now apply Harr].
  exact (lookup_map_Some _ caldata i c Hi).
Qed.

(** X24  With static corrections on, the calibration block of
    [jointHypoVel] appends to [Msc_cal] one matrix per distinct shot ID, in
    the order of the IDs: the matrix of a shot has one row per record of
    the shot and [nsta] columns, and its row holds a single 1, in the
    column of the receiver of the record.  With static corrections off
    [Msc_cal] stays empty. *)
Theorem calibration_selects_receivers (par : InvParams Q)
    (rcv : list (point Q)) (caldata : list (cal Q)) :
  caldata <> [] ->
  (forall c, In c caldata ->
     exists k, to_int (c_rcv c) = Ok k /\ (0 <= k < Z.of_nat (length rcv))%Z) ->
  exists loc,
    calibration par rcv caldata = Ok loc /\
    if use_sc par
    then Forall2 (selection_matrix (length rcv) caldata)
                 (np_unique (map c_id caldata)) (Msc_cal loc)
    else Msc_cal loc = [].
Proof.
  intros Hne Hrcv.
  destruct (calibration_spec par rcv caldata Hne Hrcv)
    as (arr & ms & E & _ & _ & S).
  eexists. split; [exact E|]. exact S.
Qed.
End ExactCalibrationTables.

Lemma caldata_shot_receivers (c : cal Q) :
  In c caldata_shot ->
  exists k, to_int (c_rcv c) = Ok k /\ (0 <= k < Z.of_nat (length rcv_pair))%Z.
Proof.
  intros [<-|[<-|[]]]; eexists; (split; [vm_compute; reflexivity|]);
    unfold rcv_pair; cbn [length]; lia.
Qed.

Lemma calibration_tables_witness :
  exists loc arr,
    calibration par_main rcv_pair caldata_shot = Ok loc /\
    rcv_cal loc = Some arr /\ arr = rcv_pair.
Proof.
  destruct (calibration_tables par_main rcv_pair caldata_shot
              ltac:(discriminate) caldata_shot_receivers)
    as (loc & arr & E & _ & _ & Ea & _).
  exists loc, arr. split; [exact E|]. split; [exact Ea|].
  vm_compute in E. injection E as <-. cbn [rcv_cal] in Ea.
  injection Ea as <-. reflexivity.
Defined.

Lemma calibration_selects_receivers_witness :
  exists loc,
    calibration par_main rcv_pair caldata_shot = Ok loc /\
    Msc_cal loc = [[[1; 0]; [0; 1]]]%Q.
Proof.
  destruct (calibration_selects_receivers par_main rcv_pair caldata_shot
              ltac:(discriminate) caldata_shot_receivers) as (loc & E & _).
  exists loc. split; [exact E|].
  vm_compute in E. injection E as <-. reflexivity.
Defined.

(** ** The smoothing matrices of the two solvers *)

Section ExactSmoothing.
Local Open Scope Q_scope.

Lemma ent_outside (l : list (Z * Z * Q)) (i j : Z) :
  (forall e, In e l -> (fst (fst e) =? i)%Z && (snd (fst e) =? j)%Z = false) ->
  ent l i j = 0.
Proof.
  intros Hl. unfold ent. rewrite (filter_none _ l Hl). reflexivity.
Qed.

Lemma gram_outside (K : csr Q) (i j : Z) :
  cols_in K = true -> (csr_cols K <= i)%Z \/ (csr_cols K <= j)%Z ->
  gram K i j == 0.
Proof.
  intros Hc Hij. unfold gram.
  rewrite (np_sum_map_ext _ (fun _ => 0)); [apply np_sum_map_zero|].
  intros k _. unfold cols_in in Hc. rewrite forallb_forall in Hc.
  destruct Hij as [Hi|Hj].
  - unfold entry at 1. rewrite ent_outside;
      [change (@fmul Q Scalar_Q) with Qmult; ring|].
    intros e He. specialize (Hc e He). lia.
  - unfold entry at 2. rewrite ent_outside;
      [change (@fmul Q Scalar_Q) with Qmult; ring|].
    intros e He. specialize (Hc e He). lia.
Qed.

(** [K1 = sp.hstack((K, sp.csr_matrix((rows, p))))] and [K1.T * K1]. *)
Lemma padded_square (K : csr Q) (p : Z) :
  rows_in K = true -> cols_in K = true ->
  exists K1 KtK,
    hstack K (zeros (csr_rows K) p) = Ok K1 /\
    csr_mul (transpose K1) K1 = Ok KtK /\
    bordered_gram (csr_cols K) p K KtK.
Proof.
  intros Hr Hc.
  exists (mk_csr (csr_rows K) (csr_cols K + p) (csr_entries K)).
  exists (square (mk_csr (csr_rows K) (csr_cols K + p) (csr_entries K))).
  split; [|split].
  - unfold hstack, zeros. cbn [csr_rows csr_cols csr_entries map].
    rewrite Z.eqb_refl, app_nil_r. reflexivity.
  - apply csr_mul_square.
  - split; [reflexivity|]. split; [reflexivity|].
    assert (Hg : forall i j,
              entry (square (mk_csr (csr_rows K) (csr_cols K + p)
                                    (csr_entries K))) i j == gram K i j).
    { intros i j. rewrite entry_square by exact Hr. reflexivity. }
    intros i j. split; [apply Hg|].
    intros Hij. rewrite Hg. now apply gram_outside.
Qed.

Lemma stencil_csr_in (g : Grid3D.t Q) (jK : list Z) :
  stencil_columns g jK ->
  rows_in (stencil_csr g jK) = true /\ cols_in (stencil_csr g jK) = true.
Proof.
  intros [_ Hrange]. unfold rows_in, cols_in, stencil_csr, triples.
  cbn [csr_entries csr_rows csr_cols]. rewrite !forallb_forall.
  split; intros [[r c] v] He; cbn [fst snd];
    apply in_combine_l in He.
  - apply in_combine_l in He. apply in_flat_map in He as (n & Hn & Hr).
    apply In_arange in Hn. destruct Hr as [<-|[<-|[<-|[]]]]; lia.
  - apply in_combine_r in He. apply Hrange in He. lia.
Qed.

Lemma block_diag_in (A B : csr Q) :
  (0 <= csr_rows A)%Z -> (0 <= csr_cols A)%Z ->
  (0 <= csr_rows B)%Z -> (0 <= csr_cols B)%Z ->
  rows_in A = true -> cols_in A = true ->
  rows_in B = true -> cols_in B = true ->
  rows_in (block_diag A B) = true /\ cols_in (block_diag A B) = true.
Proof.
  unfold rows_in, cols_in, block_diag. cbn [csr_entries csr_rows csr_cols].
  rewrite !forallb_forall. intros HrA HcA HrB HcB RA CA RB CB.
  split; intros e He; apply in_app_iff in He as [He|He].
  - specialize (RA e He). lia.
  - apply in_map_iff in He as (b & <- & Hb). cbn [fst snd].
    specialize (RB b Hb). lia.
  - specialize (CA e He). lia.
  - apply in_map_iff in He as (b & <- & Hb). cbn [fst snd].
    specialize (CB b Hb). lia.
Qed.

(** X25  On a grid of at least three nodes along every axis the two
    solvers get their smoothing matrices: [jointHypoVel] the squares
    [K1.T * K1] of the three matrices of [computeK] padded with [nsta]
    columns, [jointHypoVelPS] those of [block_diag((K, K))] padded with
    [2*nsta] columns.  Each is the matrix [K^T K] bordered with zeros:
    there is no smoothing on the static corrections, nor between them and
    the velocities.  [nK] is the norm of the first. *)
Theorem smoothing_spares_corrections (spl_norm : csr Q -> Q)
    (g : Grid3D.t Q) (nsta : nat) :
  (3 <= Grid3D.nx g)%Z -> (3 <= Grid3D.ny g)%Z -> (3 <= Grid3D.nz g)%Z ->
  exists Kx Ky Kz,
    Grid3D.computeK g = Ok (Kx, Ky, Kz) /\
    (exists KtKx KtKy KtKz,
       smoothing spl_norm g nsta = Ok (KtKx, KtKy, KtKz, spl_norm KtKx) /\
       Forall2 (bordered_gram (Grid3D.getNumberOfNodes g) (Z.of_nat nsta))
               [Kx; Ky; Kz] [KtKx; KtKy; KtKz]) /\
    (exists KtKx KtKy KtKz,
       smoothing_PS spl_norm g nsta = Ok (KtKx, KtKy, KtKz, spl_norm KtKx) /\
       Forall2 (bordered_gram (2 * Grid3D.getNumberOfNodes g)
                              (2 * Z.of_nat nsta))
               [block_diag Kx Kx; block_diag Ky Ky; block_diag Kz Kz]
               [KtKx; KtKy; KtKz]).
Proof.
  intros Hx Hy Hz.
  destruct (computeK_ok g Hx Hy Hz) as (jx & jy & jz & EK & Lx & Ly & Lz).
  exists (stencil_csr g jx), (stencil_csr g jy), (stencil_csr g jz).
  split; [exact EK|].
  destruct (stencil_csr_in g jx Lx) as [Rx Cx].
  destruct (stencil_csr_in g jy Ly) as [Ry Cy].
  destruct (stencil_csr_in g jz Lz) as [Rz Cz].
  split.
  - destruct (padded_square (stencil_csr g jx) (Z.of_nat nsta) Rx Cx)
      as (X1 & KtKx & EX1 & EX & BX).
    destruct (padded_square (stencil_csr g jy) (Z.of_nat nsta) Ry Cy)
      as (Y1 & KtKy & EY1 & EY & BY).
    destruct (padded_square (stencil_csr g jz) (Z.of_nat nsta) Rz Cz)
      as (Z1 & KtKz & EZ1 & EZ & BZ).
    exists KtKx, KtKy, KtKz. split.
    + unfold smoothing. rewrite EK. cbn [rbind fst snd].
      change (csr_rows (stencil_csr g jx)) with (Grid3D.getNumberOfNodes g)
        in EX1.
      change (csr_rows (stencil_csr g jy)) with (Grid3D.getNumberOfNodes g)
        in EY1.
      change (csr_rows (stencil_csr g jz)) with (Grid3D.getNumberOfNodes g)
        in EZ1.
      rewrite EX1. cbn [rbind]. rewrite EX. cbn [rbind].
      rewrite EY1. cbn [rbind]. rewrite EY. cbn [rbind].
      rewrite EZ1. cbn [rbind]. rewrite EZ. reflexivity.
    + constructor; [exact BX|]. constructor; [exact BY|].
      constructor; [exact BZ|]. constructor.
  - assert (HN : (0 <= Grid3D.getNumberOfNodes g)%Z).
    { unfold Grid3D.getNumberOfNodes. nia. }
    destruct (block_diag_in (stencil_csr g jx) (stencil_csr g jx)
                HN HN HN HN Rx Cx Rx Cx) as [Rxx Cxx].
    destruct (block_diag_in (stencil_csr g jy) (stencil_csr g jy)
                HN HN HN HN Ry Cy Ry Cy) as [Ryy Cyy].
    destruct (block_diag_in (stencil_csr g jz) (stencil_csr g jz)
                HN HN HN HN Rz Cz Rz Cz) as [Rzz Czz].
    destruct (padded_square (block_diag (stencil_csr g jx) (stencil_csr g jx))
                (2 * Z.of_nat nsta) Rxx Cxx) as (X1 & KtKx & EX1 & EX & BX).
    destruct (padded_square (block_diag (stencil_csr g jy) (stencil_csr g jy))
                (2 * Z.of_nat nsta) Ryy Cyy) as (Y1 & KtKy & EY1 & EY & BY).
    destruct (padded_square (block_diag (stencil_csr g jz) (stencil_csr g jz))
                (2 * Z.of_nat nsta) Rzz Czz) as (Z1 & KtKz & EZ1 & EZ & BZ).
    assert (E2 : forall jK, csr_rows (block_diag (stencil_csr g jK)
                                                 (stencil_csr g jK))
                            = (2 * Grid3D.getNumberOfNodes g)%Z).
    { intros jK. cbn [block_diag stencil_csr csr_rows]. lia. }
    assert (C2 : forall jK, csr_cols (block_diag (stencil_csr g jK)
                                                 (stencil_csr g jK))
                            = (2 * Grid3D.getNumberOfNodes g)%Z).
    { intros jK. cbn [block_diag stencil_csr csr_cols]. lia. }
    rewrite E2 in EX1, EY1, EZ1. rewrite C2 in BX, BY, BZ.
    exists KtKx, KtKy, KtKz. split.
    + unfold smoothing_PS. rewrite EK. cbn [rbind fst snd].
      rewrite EX1. cbn [rbind]. rewrite EX. cbn [rbind].
      rewrite EY1. cbn [rbind]. rewrite EY. cbn [rbind].
      rewrite EZ1. cbn [rbind]. rewrite EZ. reflexivity.
    + constructor; [exact BX|]. constructor; [exact BY|].
      constructor; [exact BZ|]. constructor.
Qed.
End ExactSmoothing.

Lemma smoothing_spares_corrections_witness :
  exists Kx Ky Kz,
    Grid3D.computeK grid_012 = Ok (Kx, Ky, Kz) /\
    (exists KtKx KtKy KtKz,
       smoothing frobenius grid_012 1
       = Ok (KtKx, KtKy, KtKz, frobenius KtKx) /\
       Forall2 (bordered_gram (Grid3D.getNumberOfNodes grid_012) (Z.of_nat 1))
               [Kx; Ky; Kz] [KtKx; KtKy; KtKz]) /\
    (exists KtKx KtKy KtKz,
       smoothing_PS frobenius grid_012 1
       = Ok (KtKx, KtKy, KtKz, frobenius KtKx) /\
       Forall2 (bordered_gram (2 * Grid3D.getNumberOfNodes grid_012)
                              (2 * Z.of_nat 1))
               [block_diag Kx Kx; block_diag Ky Ky; block_diag Kz Kz]
               [KtKx; KtKy; KtKz]).
Proof.
  apply (smoothing_spares_corrections frobenius grid_012 1);
    vm_compute; discriminate.
Defined.

(** ** The stencils of computeK *)

Section StencilPositions.
Import Grid3D.

Lemma nth_flat_map_block {A B} (f : A -> list B) (l : list A) (c p q : nat)
    (d : B) (da : A) :
  (forall x, length (f x) = c) -> (p < length l)%nat -> (q < c)%nat ->
  nth (p * c + q) (flat_map f l) d = nth q (f (nth p l da)) d.
Proof.
  intros Hc. revert p. induction l as [|a l IH]; intros p Hp Hq;
    cbn [length] in Hp; [lia|].
  cbn [flat_map]. destruct p as [|p].
  - cbn [Nat.mul Nat.add nth]. apply app_nth1. now rewrite Hc.
  - rewrite app_nth2 by (rewrite Hc; lia). rewrite Hc.
    replace (S p * c + q - c)%nat with (p * c + q)%nat by lia.
    cbn [nth]. apply IH; lia.
Qed.

Lemma nth_interleave3 (a b c : list Z) (t : nat) (d : Z) :
  length b = length a -> length c = length a -> (t < length a)%nat ->
  nth (3 * t) (interleave3 a b c) d = nth t a d /\
  nth (3 * t + 1) (interleave3 a b c) d = nth t b d /\
  nth (3 * t + 2) (interleave3 a b c) d = nth t c d.
Proof.
  revert b c t. induction a as [|a0 a IH]; intros [|b0 b] [|c0 c] t Hb Hc Ht;
    cbn [length] in *; try lia.
  destruct t as [|t]; [repeat split|].
  replace (3 * S t)%nat with (S (S (S (3 * t)))) by lia.
  cbn [interleave3 nth Nat.add]. apply IH; lia.
Qed.

Lemma nth_stencil (m s : Z) (t q : nat) :
  (t < Z.to_nat m)%nat -> (q < 3)%nat ->
  nth (3 * t + q) (stencil m s) 0 = (s + Z.of_nat q) * m + Z.of_nat t.
Proof.
  intros Ht Hq. unfold stencil.
  destruct (nth_interleave3 (arange (s * m) ((s + 1) * m))
              (arange ((s + 1) * m) ((s + 2) * m))
              (arange ((s + 2) * m) ((s + 3) * m)) t 0) as (E0 & E1 & E2).
  - rewrite !length_arange. f_equal. lia.
  - rewrite !length_arange. f_equal. lia.
  - rewrite length_arange. lia.
  - destruct q as [|[|[|q]]]; [| | |lia].
    + rewrite Nat.add_0_r, E0, nth_arange by lia. lia.
    + rewrite E1, nth_arange by lia. lia.
    + rewrite E2, nth_arange by lia. lia.
Qed.

Lemma arange_cons (a b : Z) : a < b -> arange a b = a :: arange (a + 1) b.
Proof.
  intros Hab. unfold arange.
  replace (Z.to_nat (b - a)) with (S (Z.to_nat (b - (a + 1)))) by lia.
  cbn [seq map]. f_equal; [lia|].
  rewrite <- seq_shift, map_map. apply map_ext. intros k. lia.
Qed.

Lemma arange_snoc (a b : Z) : a < b -> arange a b = arange a (b - 1) ++ [b - 1].
Proof.
  intros Hab. unfold arange.
  replace (Z.to_nat (b - a)) with (Z.to_nat (b - 1 - a) + 1)%nat by lia.
  rewrite seq_app, map_app. cbn [seq map Nat.add]. f_equal. f_equal. lia.
Qed.

Lemma flat_map_ext_in {A B} (f g : A -> list B) (l : list A) :
  (forall a, In a l -> f a = g a) -> flat_map f l = flat_map g l.
Proof.
  induction l as [|a l IH]; intros Hfg; cbn [flat_map]; [reflexivity|].
  rewrite (Hfg a) by now left. f_equal. apply IH. intros b Hb. apply Hfg.
  now right.
Qed.

Lemma axis_stencils_rows (m n : Z) :
  3 <= n ->
  axis_stencils m n
  = flat_map (fun i => stencil m (first_of_three n i)) (arange 0 n).
Proof.
  intros Hn. rewrite axis_stencils_eq.
  rewrite (arange_cons 0 n) by lia. rewrite (arange_snoc (0 + 1) n) by lia.
  cbn [flat_map]. rewrite flat_map_app. cbn [flat_map]. rewrite app_nil_r.
  replace (first_of_three n 0) with 0 by (unfold first_of_three; lia).
  replace (first_of_three n (n - 1)) with (n - 3)
    by (unfold first_of_three; lia).
  f_equal. f_equal. apply flat_map_ext_in. intros i Hi.
  apply In_arange in Hi. f_equal. unfold first_of_three. lia.
Qed.

Lemma nth_axis_stencils (m n : Z) (i t q : nat) :
  3 <= n -> (i < Z.to_nat n)%nat -> (t < Z.to_nat m)%nat -> (q < 3)%nat ->
  nth (i * (3 * Z.to_nat m) + (3 * t + q)) (axis_stencils m n) 0
  = (first_of_three n (Z.of_nat i) + Z.of_nat q) * m + Z.of_nat t.
Proof.
  intros Hn Hi Ht Hq. rewrite axis_stencils_rows by exact Hn.
  rewrite (nth_flat_map_block _ _ (3 * Z.to_nat m) i (3 * t + q) 0 0).
  - rewrite nth_arange by lia. rewrite Z.add_0_l. now apply nth_stencil.
  - intros s. apply length_stencil.
  - rewrite length_arange. lia.
  - lia.
Qed.

Lemma unit_stencils_rows (n : Z) :
  3 <= n ->
  unit_stencils n
  = flat_map (fun k => map (fun j => first_of_three n k + j) (arange 0 3))
             (arange 0 n).
Proof.
  intros Hn. rewrite unit_stencils_eq.
  rewrite (arange_cons 0 n) by lia. rewrite (arange_snoc (0 + 1) n) by lia.
  cbn [flat_map]. rewrite flat_map_app. cbn [flat_map]. rewrite app_nil_r.
  replace (first_of_three n 0) with 0 by (unfold first_of_three; lia).
  replace (first_of_three n (n - 1)) with (n - 3)
    by (unfold first_of_three; lia).
  change (map (fun j => 0 + j) (arange 0 3)) with (arange 0 3).
  f_equal. f_equal. apply flat_map_ext_in. intros k Hk.
  apply In_arange in Hk. apply map_ext. intros j. unfold first_of_three. lia.
Qed.

Lemma nth_unit_stencils (n : Z) (k q : nat) :
  3 <= n -> (k < Z.to_nat n)%nat -> (q < 3)%nat ->
  nth (3 * k + q) (unit_stencils n) 0
  = first_of_three n (Z.of_nat k) + Z.of_nat q.
Proof.
  intros Hn Hk Hq. rewrite unit_stencils_rows by exact Hn.
  replace (3 * k + q)%nat with (k * 3 + q)%nat by lia.
  rewrite (nth_flat_map_block _ _ 3 k q 0 0).
  - rewrite nth_arange by lia. rewrite Z.add_0_l.
    destruct q as [|[|[|q]]]; [reflexivity|reflexivity|reflexivity|lia].
  - intros s. reflexivity.
  - rewrite length_arange. lia.
  - exact Hq.
Qed.

Lemma replicate_rows (m n : Z) (tmp : list Z) :
  1 <= n ->
  replicate m n tmp
  = flat_map (fun i => map (fun j => i * m + j) tmp) (arange 0 n).
Proof.
  intros Hn. rewrite replicate_eq, (arange_cons 0 n) by lia.
  cbn [flat_map]. f_equal. symmetry. rewrite <- (map_id tmp) at 2.
  apply map_ext. intros j. lia.
Qed.

Lemma nth_replicate (m n : Z) (tmp : list Z) (i p : nat) :
  1 <= n -> (i < Z.to_nat n)%nat -> (p < length tmp)%nat ->
  nth (i * length tmp + p) (replicate m n tmp) 0
  = Z.of_nat i * m + nth p tmp 0.
Proof.
  intros Hn Hi Hp. rewrite replicate_rows by exact Hn.
  rewrite (nth_flat_map_block _ _ (length tmp) i p 0 0).
  - rewrite nth_arange by lia. rewrite Z.add_0_l.
    rewrite (nth_indep _ 0 (Z.of_nat i * m + 0)) by (now rewrite length_map).
    now rewrite (map_nth (fun j => Z.of_nat i * m + j)).
  - intros s. apply length_map.
  - rewrite length_arange. lia.
  - exact Hp.
Qed.

Section Rows.
Context {F : Type} `{Scalar F}.

Lemma csr_row_triples_nth (rows jK : list Z) (a b c : F) (R C r : Z)
    (p : nat) :
  List.NoDup rows -> length jK = (3 * length rows)%nat -> rows !! p = Some r ->
  csr_row (mk_csr R C (triples rows jK a b c)) r
  = [(nth (3 * p) jK 0, a); (nth (3 * p + 1) jK 0, b);
     (nth (3 * p + 2) jK 0, c)].
Proof.
  revert jK p. induction rows as [|n rows IH]; intros jK p Hnd Hlen Hp;
    [discriminate|].
  inversion Hnd as [|? ? Hn Hnd']; subst.
  destruct jK as [|j1 [|j2 [|j3 jK]]]; simpl in Hlen; try lia.
  destruct p as [|p].
  - injection Hp as ->.
    pose proof (csr_row_triples_notin rows jK a b c R C r Hn) as E.
    unfold csr_row, triples in *. cbn [csr_entries] in *.
    cbn [flat_map app combine]. rewrite !filter_cons. cbn [fst snd].
    repeat (destruct (decide (r = r)) as [_|?]; [|contradiction]).
    cbn [map fst snd Nat.mul Nat.add nth]. now rewrite E.
  - cbn [lookup list_lookup] in Hp.
    assert (Hr : In r rows).
    { apply list_elem_of_In. eapply list_elem_of_lookup_2; eauto. }
    assert (Hne : n <> r) by (intros ->; contradiction).
    specialize (IH jK p Hnd' ltac:(lia) Hp).
    replace (3 * S p)%nat with (S (S (S (3 * p)))) by lia.
    cbn [nth Nat.add]. rewrite <- IH.
    unfold csr_row, triples. cbn [csr_entries].
    cbn [flat_map app combine]. rewrite !filter_cons. cbn [fst snd].
    repeat (destruct (decide (n = r)) as [?|_]; [contradiction|]).
    reflexivity.
Qed.

Lemma csr_matrix_entries (data : list F) (row col : list Z)
    (shape : option (Z * Z)) (M : csr F) :
  csr_matrix data row col shape = Ok M ->
  csr_entries M = combine (combine row col) data.
Proof.
  unfold csr_matrix. destruct (negb _); [discriminate|]. intros E.
  apply rbind_Ok in E as (shp & _ & E).
  repeat (destruct (existsb _ _); [discriminate|]).
  now injection E as <-.
Qed.

Lemma computeK_entries (g : t F) (Kx Ky Kz : csr F) :
  computeK g = Ok (Kx, Ky, Kz) ->
  let N := getNumberOfNodes g in
  let hh := (dx g * dx g)%F in
  let tr := fun jK => triples (arange 0 N) jK (fone / hh)%F (- ftwo / hh)%F
                              (fone / hh)%F in
  csr_entries Kx = tr (axis_stencils (ny g * nz g) (nx g)) /\
  csr_entries Ky
  = tr (replicate (ny g * nz g) (nx g) (axis_stencils (nz g) (ny g))) /\
  csr_entries Kz
  = tr (replicate (ny g * nz g) (nx g)
          (replicate (nz g) (ny g) (unit_stencils (nz g)))).
Proof.
  unfold computeK. intros HK.
  apply rbind_Ok in HK as (Kx' & Ex & HK).
  apply rbind_Ok in HK as (Ky' & Ey & HK).
  apply rbind_Ok in HK as (Kz' & Ez & HK).
  injection HK as <- <- <-.
  apply csr_matrix_entries in Ex, Ey, Ez.
  cbv zeta. unfold triples. rewrite Ex, Ey, Ez.
  rewrite !map_flat_map_const. unfold getNumberOfNodes. repeat split.
Qed.

Lemma csr_row_entries (M M' : csr F) (r : Z) :
  csr_entries M = csr_entries M' -> csr_row M r = csr_row M' r.
Proof. unfold csr_row. now intros ->. Qed.

(** The rows of the three matrices, column by column. *)
Lemma computeK_rows (g : t F) (Kx Ky Kz : csr F) (i j k : Z) :
  computeK g = Ok (Kx, Ky, Kz) ->
  0 <= i < nx g -> 0 <= j < ny g -> 0 <= k < nz g ->
  let a := (fone / (dx g * dx g))%F in
  let b := (- ftwo / (dx g * dx g))%F in
  let si := first_of_three (nx g) i in
  let sj := first_of_three (ny g) j in
  let sk := first_of_three (nz g) k in
  csr_row Kx (ind g i j k)
  = [(ind g si j k, a); (ind g (si + 1) j k, b); (ind g (si + 2) j k, a)] /\
  csr_row Ky (ind g i j k)
  = [(ind g i sj k, a); (ind g i (sj + 1) k, b); (ind g i (sj + 2) k, a)] /\
  csr_row Kz (ind g i j k)
  = [(ind g i j sk, a); (ind g i j (sk + 1), b); (ind g i j (sk + 2), a)].
Proof.
  intros HK Hi Hj Hk.
  destruct (computeK_Ok_inv g _ HK) as (Hx & Hy & Hz).
  destruct (computeK_entries g Kx Ky Kz HK) as (Ex & Ey & Ez).
  cbv zeta in *.
  set (a := (fone / (dx g * dx g))%F) in *.
  set (b := (- ftwo / (dx g * dx g))%F) in *.
  set (N := getNumberOfNodes g) in *.
  set (i' := Z.to_nat i). set (j' := Z.to_nat j). set (k' := Z.to_nat k).
  set (ny' := length (y g)). set (nz' := length (z g)).
  assert (Eny : ny g = Z.of_nat ny') by reflexivity.
  assert (Enz : nz g = Z.of_nat nz') by reflexivity.
  set (p := ((i' * ny' + j') * nz' + k')%nat).
  assert (Hi' : (i' < length (x g))%nat) by (unfold i', nx in *; lia).
  assert (Hj' : (j' < ny')%nat) by (unfold j'; lia).
  assert (Hk' : (k' < nz')%nat) by (unfold k'; lia).
  assert (HN : Z.to_nat N = (length (x g) * ny' * nz')%nat).
  { unfold N, getNumberOfNodes, nx. rewrite Eny, Enz.
    rewrite <- !Nat2Z.inj_mul. apply Nat2Z.id. }
  assert (Ep : ind g i j k = Z.of_nat p).
  { unfold ind, p, i', j', k'. rewrite Eny, Enz.
    repeat (rewrite Nat2Z.inj_add || rewrite Nat2Z.inj_mul).
    rewrite !Z2Nat.id by lia. reflexivity. }
  assert (Hpl : (p < Z.to_nat N)%nat).
  { rewrite HN. unfold p.
    assert (i' * ny' + j' + 1 <= length (x g) * ny')%nat by nia. nia. }
  assert (Hp : arange 0 N !! p = Some (ind g i j k)).
  { rewrite lookup_arange; [f_equal; lia|]. rewrite Z.sub_0_r. exact Hpl. }
  assert (HL : forall jK, length jK = (3 * Z.to_nat N)%nat ->
            csr_row (mk_csr 0 0 (triples (arange 0 N) jK a b a)) (ind g i j k)
            = [(nth (3 * p) jK 0, a); (nth (3 * p + 1) jK 0, b);
               (nth (3 * p + 2) jK 0, a)]).
  { intros jK HjK. apply csr_row_triples_nth; [apply NoDup_arange| |exact Hp].
    rewrite HjK, length_arange. f_equal. f_equal. lia. }
  assert (Hm : Z.to_nat (ny g * nz g) = (ny' * nz')%nat).
  { rewrite Eny, Enz. rewrite <- Nat2Z.inj_mul. apply Nat2Z.id. }
  assert (Hnx : Z.to_nat (nx g) = length (x g)) by apply Nat2Z.id.
  assert (Ht : (j' * nz' + k' < ny' * nz')%nat) by nia.
  split; [|split].
  - rewrite (csr_row_entries Kx (mk_csr 0 0 _) _ Ex), HL.
    2:{ rewrite length_axis_stencils by lia. rewrite Hm, HN. unfold nx. lia. }
    assert (Eq : forall q, (q < 3)%nat ->
              nth (3 * p + q) (axis_stencils (ny g * nz g) (nx g)) 0
              = ind g (first_of_three (nx g) i + Z.of_nat q) j k).
    { intros q Hq.
      replace (3 * p + q)%nat
        with (i' * (3 * Z.to_nat (ny g * nz g)) + (3 * (j' * nz' + k') + q))%nat
        by (rewrite Hm; unfold p; nia).
      rewrite nth_axis_stencils by (rewrite ?Hm; lia).
      unfold ind, i', j', k'. rewrite Eny, Enz.
      rewrite Z2Nat.id by lia. nia. }
    rewrite (Eq 1%nat), (Eq 2%nat) by lia.
    rewrite <- (Nat.add_0_r (3 * p)), (Eq 0%nat) by lia.
    rewrite Z.add_0_r. reflexivity.
  - rewrite (csr_row_entries Ky (mk_csr 0 0 _) _ Ey), HL.
    2:{ rewrite length_replicate, length_axis_stencils by lia.
        rewrite HN. unfold nx, ny', nz'. rewrite Eny, Enz. lia. }
    assert (Eq : forall q, (q < 3)%nat ->
              nth (3 * p + q)
                  (replicate (ny g * nz g) (nx g) (axis_stencils (nz g) (ny g))) 0
              = ind g i (first_of_three (ny g) j + Z.of_nat q) k).
    { intros q Hq.
      assert (HLa : length (axis_stencils (nz g) (ny g)) = (3 * nz' * ny')%nat).
      { rewrite length_axis_stencils by lia. rewrite Eny, Enz. lia. }
      replace (3 * p + q)%nat
        with (i' * length (axis_stencils (nz g) (ny g))
              + (j' * (3 * Z.to_nat (nz g)) + (3 * k' + q)))%nat
        by (rewrite HLa, Enz, Nat2Z.id; unfold p; nia).
      rewrite nth_replicate; [|lia|rewrite Hnx; exact Hi'|rewrite HLa, Enz, Nat2Z.id; nia].
      rewrite nth_axis_stencils by (rewrite ?Eny, ?Enz; lia).
      unfold ind, i', j', k'. rewrite Eny, Enz.
      rewrite !Z2Nat.id by lia. nia. }
    rewrite (Eq 1%nat), (Eq 2%nat) by lia.
    rewrite <- (Nat.add_0_r (3 * p)), (Eq 0%nat) by lia.
    rewrite Z.add_0_r. reflexivity.
  - rewrite (csr_row_entries Kz (mk_csr 0 0 _) _ Ez), HL.
    2:{ rewrite !length_replicate, length_unit_stencils by lia.
        rewrite HN. unfold nx, ny', nz'. rewrite Eny, Enz. lia. }
    assert (Eq : forall q, (q < 3)%nat ->
              nth (3 * p + q)
                  (replicate (ny g * nz g) (nx g)
                     (replicate (nz g) (ny g) (unit_stencils (nz g)))) 0
              = ind g i j (first_of_three (nz g) k + Z.of_nat q)).
    { intros q Hq.
      assert (HLu : length (unit_stencils (nz g)) = (3 * nz')%nat).
      { rewrite length_unit_stencils by lia. rewrite Enz. lia. }
      assert (HLr : length (replicate (nz g) (ny g) (unit_stencils (nz g)))
                    = (ny' * (3 * nz'))%nat).
      { rewrite length_replicate by lia. rewrite HLu, Eny. lia. }
      replace (3 * p + q)%nat
        with (i' * length (replicate (nz g) (ny g) (unit_stencils (nz g)))
              + (j' * length (unit_stencils (nz g)) + (3 * k' + q)))%nat
        by (rewrite HLr, HLu; unfold p; nia).
      rewrite nth_replicate; [|lia|rewrite Hnx; exact Hi'|rewrite HLr, HLu; nia].
      rewrite nth_replicate; [|lia|rewrite Eny; lia|rewrite HLu; lia].
      rewrite nth_unit_stencils by (rewrite ?Enz; lia).
      unfold ind, i', j', k'. rewrite Eny, Enz.
      rewrite !Z2Nat.id by lia. nia. }
    rewrite (Eq 1%nat), (Eq 2%nat) by lia.
    rewrite <- (Nat.add_0_r (3 * p)), (Eq 0%nat) by lia.
    rewrite Z.add_0_r. reflexivity.
Qed.
End Rows.
End StencilPositions.

Section ExactStencils.
Import Grid3D.
Local Open Scope Q_scope.

Lemma row_dot_three (M : csr Q) (V : list Q) (r n0 n1 n2 : Z) (h : Q) :
  csr_row M r = [(n0, 1 / h); (n1, - (2 # 1) / h); (n2, 1 / h)] ->
  row_dot M V r
  == (nth (Z.to_nat n0) V 0 - 2 * nth (Z.to_nat n1) V 0 + nth (Z.to_nat n2) V 0)
     / h.
Proof.
  intros E. unfold row_dot. rewrite E. cbn [fold_left fst snd].
  change (@fadd Q Scalar_Q) with Qplus. change (@fmul Q Scalar_Q) with Qmult.
  change (@fzero Q Scalar_Q) with 0. unfold Qdiv. ring.
Qed.

(** X26  The matrices of [computeK] are the second-derivative operators
    of its comments.  For a vector [V] of one value per node, entry
    [ind(i,j,k)] of [Kx * V] is [(V[a] - 2 V[b] + V[c]) / dx^2] on three
    consecutive nodes along x with the same [j] and [k]: the nodes [i-1],
    [i], [i+1] inside the grid (central operator), [0], [1], [2] at the
    first node (forward) and [nx-3], [nx-2], [nx-1] at the last
    (backward); [Ky * V] and [Kz * V] are the same along y and z. *)
Theorem computeK_second_differences (g : t Q) (Kx Ky Kz : csr Q) (V : list Q) :
  computeK g = Ok (Kx, Ky, Kz) ->
  Z.of_nat (length V) = getNumberOfNodes g ->
  exists KVx KVy KVz,
    matvec Kx V = Ok KVx /\ matvec Ky V = Ok KVy /\ matvec Kz V = Ok KVz /\
    forall i j k, (0 <= i < nx g)%Z -> (0 <= j < ny g)%Z -> (0 <= k < nz g)%Z ->
      let n := Z.to_nat (ind g i j k) in
      let si := first_of_three (nx g) i in
      let sj := first_of_three (ny g) j in
      let sk := first_of_three (nz g) k in
      (exists q, KVx !! n = Some q /\
         q == second_difference g V (ind g si j k) (ind g (si + 1) j k)
                                (ind g (si + 2) j k)) /\
      (exists q, KVy !! n = Some q /\
         q == second_difference g V (ind g i sj k) (ind g i (sj + 1) k)
                                (ind g i (sj + 2) k)) /\
      (exists q, KVz !! n = Some q /\
         q == second_difference g V (ind g i j sk) (ind g i j (sk + 1))
                                (ind g i j (sk + 2))).
Proof.
  intros HK HV.
  destruct (computeK_Ok_inv g _ HK) as (Hx & Hy & Hz).
  destruct (computeK_ok g Hx Hy Hz) as (jx & jy & jz & E & _).
  assert (Hshape : forall K, In K [Kx; Ky; Kz] ->
            csr_rows K = getNumberOfNodes g /\ csr_cols K = getNumberOfNodes g).
  { rewrite E in HK. injection HK as <- <- <-.
    intros K [<-|[<-|[<-|[]]]]; split; reflexivity. }
  assert (Hmv : forall K, In K [Kx; Ky; Kz] ->
            matvec K V = Ok (map (row_dot K V) (arange 0 (getNumberOfNodes g)))).
  { intros K HKin. destruct (Hshape K HKin) as [HR HC].
    unfold matvec. rewrite HC, HR, HV, Z.eqb_refl. reflexivity. }
  exists (map (row_dot Kx V) (arange 0 (getNumberOfNodes g))),
         (map (row_dot Ky V) (arange 0 (getNumberOfNodes g))),
         (map (row_dot Kz V) (arange 0 (getNumberOfNodes g))).
  split; [apply Hmv; now left|].
  split; [apply Hmv; right; now left|].
  split; [apply Hmv; right; right; now left|].
  intros i j k Hi Hj Hk. cbv zeta.
  destruct (computeK_rows g Kx Ky Kz i j k HK Hi Hj Hk) as (Rx & Ry & Rz).
  pose proof (ind_range g i j k Hi Hj Hk) as Hr.
  assert (Hl : arange 0 (getNumberOfNodes g) !! Z.to_nat (ind g i j k)
               = Some (ind g i j k)).
  { rewrite lookup_arange by lia. f_equal. lia. }
  split; [|split]; eexists;
    (split; [exact (lookup_map_Some _ _ _ _ Hl)|]);
    unfold second_difference; apply row_dot_three; assumption.
Qed.
End ExactStencils.

Lemma computeK_second_differences_witness :
  exists Kx Ky Kz KVx KVy KVz,
    Grid3D.computeK grid_012 = Ok (Kx, Ky, Kz) /\
    matvec Kx (map (fun n => inject_Z (n * n)) (arange 0 27)) = Ok KVx /\
    matvec Ky (map (fun n => inject_Z (n * n)) (arange 0 27)) = Ok KVy /\
    matvec Kz (map (fun n => inject_Z (n * n)) (arange 0 27)) = Ok KVz /\
    KVx !! 0%nat = Some 162%Q /\ KVy !! 0%nat = Some 18%Q /\
    KVz !! 0%nat = Some 2%Q.
Proof.
  destruct (Grid3D.computeK grid_012) as [[[Kx Ky] Kz]|e] eqn:E;
    [|vm_compute in E; discriminate].
  destruct (computeK_second_differences grid_012 Kx Ky Kz
              (map (fun n => inject_Z (n * n)) (arange 0 27)) E eq_refl)
    as (KVx & KVy & KVz & Ex & Ey & Ez & _).
  exists Kx, Ky, Kz, KVx, KVy, KVz.
  split; [reflexivity|]. split; [exact Ex|]. split; [exact Ey|].
  split; [exact Ez|].
  vm_compute in E. injection E as <- <- <-.
  vm_compute in Ex, Ey, Ez. injection Ex as <-. injection Ey as <-.
  injection Ez as <-. repeat split.
Defined.

(** ** Events with arrivals of one phase only *)

Section RelocPhases.
Context {F : Type} `{Scalar F}.
Variable engine : engine_t F.
Variable lstsq : lstsq_t F.
Variable svd : svd_t F.

Lemma raytrace_empty (g : Grid3D.t F) (s : list F) :
  Grid3D.raytrace engine g s [] []
  = Raise (ValueError "zero-size array to reduction operation minimum").
Proof. reflexivity. Qed.

Lemma raytrace_PS_needs_both (g : Grid3D.t F) (indh : list nat)
    (nstp nsts : nat) (stnp stns : list (point F)) (s_p s_s : list F)
    (hyp0 : list (hyp F)) :
  (nstp = 0%nat /\ stnp = []) \/ (nsts = 0%nat /\ stns = []) ->
  exists e, raytrace_PS engine g indh nstp nsts stnp stns s_p s_s hyp0
            = Raise e.
Proof.
  unfold raytrace_PS. intros [[-> ->]|[-> ->]].
  - cbn [sources rbind]. rewrite raytrace_empty. cbn [rbind]. eauto.
  - destruct (sources nstp indh hyp0) as [hypp|e]; cbn [rbind]; [|eauto].
    destruct (Grid3D.raytrace engine g s_p hypp stnp) as [outp|e];
      cbn [rbind sources]; [|eauto].
    rewrite raytrace_empty. cbn [rbind]. eauto.
Qed.

Lemma stations_nil (rcv : list (point F)) (data : list (obs F)) :
  stations rcv data [] = Ok [].
Proof. reflexivity. Qed.

(** X27  [_relocPS] cannot relocate an event that lacks the arrivals of
    one phase: with [maxit_hypo > 0], when no row of [data] carries the ID
    [evID[ne]] under the mask [indp], or none under [inds], the call ends
    with an exception (at the latest in the first raytracing, where
    [isOutside] takes [np.min] of an empty array) and [hyp0] is left as it
    was. *)
Theorem relocPS_needs_both_phases (ne : Z) (par : InvParams F)
    (g : Grid3D.t F) (evID : list F) (hyp0 : list (hyp F))
    (data : list (obs F)) (rcv : list (point F)) (tobs : list F)
    (s : list F * list F) (ind : list bool * list bool) (eid : F) :
  (0 < maxit_hypo par)%nat ->
  py_get evID ne = Ok eid ->
  nonzero_and eid (fst ind) data = Ok [] \/
  nonzero_and eid (snd ind) data = Ok [] ->
  exists e, _relocPS engine lstsq svd ne par g evID hyp0 data rcv tobs s ind
            = (Raise e, hyp0).
Proof.
  intros Hit Eid Hph. unfold _relocPS. rewrite Eid. cbn [rbind].
  destruct (rbind (nonzero_and eid (fst ind) data) _)
    as [[[[indh [nstp nsts]] [stnp stns]] [tp ts]]|e] eqn:E0; [|eauto].
  assert (Hst : (nstp = 0%nat /\ stnp = []) \/ (nsts = 0%nat /\ stns = [])).
  { apply rbind_Ok in E0 as (indrp & Ep & E0).
    apply rbind_Ok in E0 as (indrs & Es & E0).
    apply rbind_Ok in E0 as (? & _ & E0).
    apply rbind_Ok in E0 as (stnp' & Esp & E0).
    apply rbind_Ok in E0 as (? & _ & E0).
    apply rbind_Ok in E0 as (stns' & Ess & E0).
    apply rbind_Ok in E0 as (? & _ & E0).
    apply rbind_Ok in E0 as (? & _ & E0).
    injection E0 as _ <- <- <- <- _ _.
    destruct Hph as [Hp|Hs].
    - left. rewrite Hp in Ep. injection Ep as <-.
      rewrite stations_nil in Esp. injection Esp as <-. auto.
    - right. rewrite Hs in Es. injection Es as <-.
      rewrite stations_nil in Ess. injection Ess as <-. auto. }
  destruct (maxit_hypo par) as [|n] eqn:En; [lia|].
  destruct (hypo_2step par).
  - cbn [relocPS_loop2]. unfold relocPS_pass2.
    destruct (raytrace_PS_needs_both g indh nstp nsts stnp stns (fst s) (snd s)
                hyp0 Hst) as [e ->].
    cbn [rbind]. eauto.
  - cbn [relocPS_loop4]. unfold relocPS_pass4.
    destruct (raytrace_PS_needs_both g indh nstp nsts stnp stns (fst s) (snd s)
                hyp0 Hst) as [e ->].
    cbn [rbind]. eauto.
Qed.
End RelocPhases.

Lemma relocPS_needs_both_phases_witness :
  exists e,
    _relocPS straight_engine lstsq_normal svd_fails 0 par_main grid_012 [7%Q]
             hyp0_centre data_cross rcv_cross (map o_t data_cross)
             (repeat (1 # 4000)%Q 27, repeat (1 # 2000)%Q 27)
             (repeat true 5, repeat false 5)
    = (Raise e, hyp0_centre).
Proof.
  apply (relocPS_needs_both_phases straight_engine lstsq_normal svd_fails 0
           par_main grid_012 [7%Q] hyp0_centre data_cross rcv_cross
           (map o_t data_cross)
           (repeat (1 # 4000)%Q 27, repeat (1 # 2000)%Q 27)
           (repeat true 5, repeat false 5) 7%Q).
  - cbn [maxit_hypo par_main]. lia.
  - reflexivity.
  - right. vm_compute. reflexivity.
Defined.

(** ** The tables of receivers of the two-phase solver *)

Section PhaseTableFacts.
Context {F : Type} `{Scalar F}.

Lemma logical_and_same (a b : list bool) :
  length a = length b -> logical_and a b = Ok (zip_with andb a b).
Proof. intros E. unfold logical_and. now rewrite E, Nat.eqb_refl. Qed.

Lemma In_flatnonzero (m : list bool) (i : nat) :
  In i (flatnonzero m) <-> m !! i = Some true.
Proof.
  unfold flatnonzero. rewrite filter_In, in_seq. split.
  - intros [_ Hi]. destruct (m !! i) as [[|]|]; congruence.
  - intros Hi. rewrite Hi. split; [|reflexivity].
    apply lookup_lt_Some in Hi. lia.
Qed.

Lemma lookup_mask {A} (test : A -> bool) (tbl : list A) (mask : list bool)
    (i : nat) :
  zip_with andb (map test tbl) mask !! i = Some true <->
  exists a, tbl !! i = Some a /\ test a = true /\ mask !! i = Some true.
Proof.
  rewrite lookup_zip_with. split.
  - destruct (tbl !! i) as [a|] eqn:Ea.
    + rewrite (lookup_map_Some test tbl i a Ea). cbn.
      destruct (mask !! i) as [b|]; cbn; [|discriminate].
      intros [= Hab]. apply andb_prop in Hab as [Ha Hb]. subst b. eauto.
    + rewrite (lookup_map_None test tbl i Ea). discriminate.
  - intros (a & Ea & Ht & Hm).
    rewrite (lookup_map_Some test tbl i a Ea), Hm, Ht. reflexivity.
Qed.

Lemma for_each_inv {A S} (Inv : S -> Prop) (Q : A -> Prop) (l : list A)
    (f : A -> S -> result S) (s s' : S) :
  (forall a s s1, In a l -> Inv s -> f a s = Ok s1 -> Inv s1 /\ Q a) ->
  Inv s -> for_each l f s = Ok s' -> Inv s' /\ forall a, In a l -> Q a.
Proof.
  revert s. induction l as [|a l IH]; intros s Hf Hs E; cbn [for_each] in E.
  - injection E as <-. split; [exact Hs|intros a []].
  - apply rbind_Ok in E as (s1 & E1 & E).
    destruct (Hf a s s1 ltac:(now left) Hs E1) as [Hs1 Qa].
    destruct (IH s1 ltac:(intros b t t1 Hb; apply Hf; now right) Hs1 E)
      as [Hs' Ql].
    split; [exact Hs'|]. intros b [<-|Hb]; auto.
Qed.

Lemma count_true_map {A} (test : A -> bool) (l : list A) :
  count_true (map test l) = length (List.filter test l).
Proof.
  unfold count_true. induction l as [|a l IH]; cbn [map List.filter];
    [reflexivity|].
  unfold id at 1. destruct (test a); cbn [length]; now rewrite IH.
Qed.

(** Rows that pass [p] only among the first [b] rows: there are [b] of
    them at most. *)
Lemma count_confined {A} (p : A -> bool) (l : list A) (b : nat) :
  (forall i a, l !! i = Some a -> p a = true -> (i < b)%nat) ->
  (length (List.filter p l) <= b)%nat.
Proof.
  revert b. induction l as [|a l IH]; intros b Hb; cbn [List.filter length];
    [lia|].
  destruct (p a) eqn:Pa.
  - pose proof (Hb 0%nat a eq_refl Pa) as H0.
    specialize (IH (b - 1)%nat). cbn [length].
    assert (length (List.filter p l) <= b - 1)%nat; [|lia].
    apply IH. intros i c Hi Pc. specialize (Hb (S i) c Hi Pc). lia.
  - destruct b as [|b'].
    + rewrite (filter_none p l); [cbn [length]; lia|].
      intros c Hc. destruct (p c) eqn:Pc; [|reflexivity]. exfalso.
      apply list_elem_of_In, list_elem_of_lookup_1 in Hc as [i Hi].
      specialize (Hb (S i) c Hi Pc). lia.
    + assert (length (List.filter p l) <= b')%nat; [|lia].
      apply IH. intros i c Hi Pc. specialize (Hb (S i) c Hi Pc). lia.
Qed.

(** A table whose [p] rows all stand among its first rows, as many as
    there are [p] rows, begins with them. *)
Lemma confined_sorted {A} (p q : A -> bool) (l : list A) :
  (forall a, In a l -> p a = true \/ q a = true) ->
  (forall a, p a = true -> q a = false) ->
  (forall i a, l !! i = Some a -> p a = true ->
               (i < length (List.filter p l))%nat) ->
  List.filter p l ++ List.filter q l = l.
Proof.
  intros Hpq Hdis.
  induction l as [|a l IH]; intros Hb; [reflexivity|].
  cbn [List.filter] in *. destruct (p a) eqn:Pa.
  - rewrite (Hdis a Pa). cbn [app]. f_equal. apply IH.
    + intros c Hc. apply Hpq. now right.
    + intros i c Hi Pc. specialize (Hb (S i) c Hi Pc). cbn [length] in Hb. lia.
  - assert (Hnone : List.filter p l = []).
    { destruct (List.filter p l) as [|c fl] eqn:Ef; [reflexivity|]. exfalso.
      pose proof (count_confined p l (length (List.filter p l) - 1)) as Hc.
      rewrite Ef in Hc. cbn [length] in Hc.
      assert (S (length fl) <= S (length fl) - 1)%nat; [|lia].
      apply Hc. intros i c' Hi Pc. specialize (Hb (S i) c' Hi Pc).
      cbn [length] in Hb. lia. }
    rewrite Hnone. cbn [app].
    destruct (Hpq a ltac:(now left)) as [Ha|Ha]; [congruence|]. rewrite Ha.
    f_equal. apply filter_all. intros c Hc.
    destruct (Hpq c ltac:(now right)) as [Pc|Qc]; [|exact Qc]. exfalso.
    assert (In c (List.filter p l)) by (apply filter_In; auto).
    rewrite Hnone in *. contradiction.
Qed.
End PhaseTableFacts.

Section PhaseLoops.
Context {F : Type} `{Scalar F}.
Variable rcv : list (point F).
Variable data : list (obs F).
Variable nttp : nat.

Lemma for_each_map {A B S} (g : A -> B) (l : list A)
    (f : B -> S -> result S) (s : S) :
  for_each (map g l) f s = for_each l (fun a => f (g a)) s.
Proof.
  revert s. induction l as [|a l IH]; intros s; cbn [map for_each];
    [reflexivity|].
  destruct (f (g a) s); cbn [rbind]; [apply IH|reflexivity].
Qed.

Lemma py_set_nat {A} (l : list A) (i : nat) (v : A) :
  (nttp <= i)%nat ->
  py_set l (Z.of_nat i - Z.of_nat nttp) v
  = if (i - nttp <? length l)%nat then Ok (<[(i - nttp)%nat := v]> l)
    else Raise IndexError.
Proof.
  intros Hi. unfold py_set.
  replace (Z.of_nat i - Z.of_nat nttp <? 0)%Z with false by lia.
  replace (0 <=? Z.of_nat i - Z.of_nat nttp)%Z with true by lia.
  cbn [andb].
  replace (Z.to_nat (Z.of_nat i - Z.of_nat nttp)) with (i - nttp)%nat by lia.
  destruct (Nat.ltb_spec (i - nttp) (length l));
    [replace (_ <? _)%Z with true by lia|replace (_ <? _)%Z with false by lia];
    reflexivity.
Qed.

(** The loop over the P rows of an event writes to [rcv_datap] only. *)
Lemma fill_P_inner (l : list nat) (ap asx : list (point F)) :
  for_each l
    (fun i (st : list (point F) * list (point F)) =>
       o <- item data i ;;
       k <- to_int (o_rcv o) ;;
       p <- py_get rcv k ;;
       if (i <? length (fst st))%nat
       then Ok (<[i := p]> (fst st), snd st)
       else Raise IndexError)
    (ap, asx)
  = rbind (for_each l
             (fun i arr =>
                rbind (rbind (item data i) (fun o =>
                       rbind (to_int (o_rcv o)) (fun k => py_get rcv k)))
                      (fun p => if (i <? length arr)%nat
                                then Ok (<[i := p]> arr)
                                else Raise IndexError))
             ap)
          (fun ap' => Ok (ap', asx)).
Proof.
  revert ap. induction l as [|i l IH]; intros ap; cbn [for_each];
    [reflexivity|].
  destruct (item data i) as [o|]; cbn [rbind]; [|reflexivity].
  destruct (to_int (o_rcv o)) as [k|]; cbn [rbind]; [|reflexivity].
  destruct (py_get rcv k) as [p|]; cbn [rbind fst snd]; [|reflexivity].
  destruct (i <? length ap)%nat; cbn [rbind]; [apply IH|reflexivity].
Qed.

(** The loop over the S rows, all of them from row [nttp] on, writes to
    [rcv_datas] only, at the row number less [nttp]. *)
Lemma fill_S_inner (l : list nat) (ap asx : list (point F)) :
  (forall i, In i l -> (nttp <= i)%nat) ->
  for_each l
    (fun i (st : list (point F) * list (point F)) =>
       o <- item data i ;;
       k <- to_int (o_rcv o) ;;
       p <- py_get rcv k ;;
       arr <- py_set (snd st) (Z.of_nat i - Z.of_nat nttp) p ;;
       Ok (fst st, arr))
    (ap, asx)
  = rbind (for_each (map (fun i => (i - nttp)%nat) l)
             (fun j arr =>
                rbind (rbind (item data (j + nttp)) (fun o =>
                       rbind (to_int (o_rcv o)) (fun k => py_get rcv k)))
                      (fun p => if (j <? length arr)%nat
                                then Ok (<[j := p]> arr)
                                else Raise IndexError))
             asx)
          (fun as' => Ok (ap, as')).
Proof.
  revert asx. induction l as [|i l IH]; intros asx Hl; cbn [map for_each];
    [reflexivity|].
  assert (Hi : (nttp <= i)%nat) by (apply Hl; now left).
  replace (i - nttp + nttp)%nat with i by lia.
  destruct (item data i) as [o|]; cbn [rbind]; [|reflexivity].
  destruct (to_int (o_rcv o)) as [k|]; cbn [rbind]; [|reflexivity].
  destruct (py_get rcv k) as [p|]; cbn [rbind fst snd]; [|reflexivity].
  rewrite py_set_nat by exact Hi.
  destruct (i - nttp <? length asx)%nat; cbn [rbind]; [|reflexivity].
  apply IH. intros j Hj. apply Hl. now right.
Qed.
End PhaseLoops.

Section ExactPhaseTables.
Local Open Scope Q_scope.

Lemma filter_full_length {A} (p q : A -> bool) (l : list A) :
  (forall a, p a = true -> q a = false) ->
  (forall a, In a l -> p a = true \/ q a = true) ->
  (length (List.filter p l) + length (List.filter q l) = length l)%nat.
Proof.
  intros Hdis. induction l as [|a l IH]; intros Hpq; cbn [List.filter length];
    [reflexivity|].
  specialize (IH ltac:(intros c Hc; apply Hpq; now right)).
  destruct (p a) eqn:Pa.
  - rewrite (Hdis a Pa). cbn [length]. lia.
  - destruct (Hpq a ltac:(now left)) as [Ha|Ha]; [congruence|].
    rewrite Ha. cbn [length]. lia.
Qed.

Section Sorted.
Variable rcv : list (point Q).
Variable data : list (obs Q).
Hypothesis Hsorted : List.filter isP data ++ List.filter isS data = data.

Variables nttp ntts : nat.
Hypothesis Hnttp : nttp = length (List.filter isP data).
Hypothesis Hntts : ntts = length (List.filter isS data).

Lemma sorted_P_rows (i : nat) (o : obs Q) :
  data !! i = Some o -> isP o = true -> (i < nttp)%nat.
Proof.
  intros Hi Po. destruct (Nat.lt_ge_cases i nttp) as [Hlt|Hge]; [exact Hlt|].
  exfalso. rewrite <- Hsorted in Hi.
  rewrite lookup_app_r in Hi by (rewrite <- Hnttp; exact Hge).
  apply list_elem_of_lookup_2, list_elem_of_In, filter_In in Hi as [_ So].
  apply phase_disjoint in Po. unfold isS in So. congruence.
Qed.

Lemma sorted_S_rows (i : nat) (o : obs Q) :
  data !! i = Some o -> isS o = true -> (nttp <= i < nttp + ntts)%nat.
Proof.
  intros Hi So. split.
  - destruct (Nat.lt_ge_cases i nttp) as [Hlt|Hge]; [|exact Hge].
    exfalso. rewrite <- Hsorted in Hi.
    rewrite lookup_app_l in Hi by (rewrite <- Hnttp; exact Hlt).
    apply list_elem_of_lookup_2, list_elem_of_In, filter_In in Hi as [_ Po].
    apply phase_disjoint in Po. unfold isS in So. congruence.
  - apply lookup_lt_Some in Hi. rewrite <- Hsorted, length_app in Hi.
    now rewrite Hnttp, Hntts.
Qed.

Lemma fill_PS_loop (w : nat -> point Q) (keys : list Q)
    (ap asx : list (point Q)) :
  length ap = nttp -> length asx = ntts ->
  (forall i o, data !! i = Some o ->
     rbind (item data i) (fun o =>
       rbind (to_int (o_rcv o)) (fun k => py_get rcv k)) = Ok (w i)) ->
  exists ap' as',
    fill_rcv_data_PS keys rcv data (map isP data) (map isS data) nttp (ap, asx)
    = Ok (ap', as') /\
    length ap' = nttp /\ length as' = ntts /\
    (forall i, (exists eid, In eid keys /\ In i (listed_P data eid)) ->
               ap' !! i = Some (w i)) /\
    (forall i, (forall eid, In eid keys -> ~ In i (listed_P data eid)) ->
               ap' !! i = ap !! i) /\
    (forall j, (exists eid, In eid keys /\ In j (listed_S data nttp eid)) ->
               as' !! j = Some (w (j + nttp)%nat)) /\
    (forall j, (forall eid, In eid keys -> ~ In j (listed_S data nttp eid)) ->
               as' !! j = asx !! j).
Proof.
  intros Lp Ls Hval. revert ap asx Lp Ls.
  induction keys as [|eid keys IH]; intros ap asx Lp Ls.
  - exists ap, asx. split; [reflexivity|]. split; [exact Lp|].
    split; [exact Ls|]. split; [intros i (e & [] & _)|].
    split; [reflexivity|]. split; [intros i (e & [] & _)|reflexivity].
  - unfold fill_rcv_data_PS. cbn [for_each].
    change (@feqb Q Scalar_Q) with Qeq_bool.
    rewrite !logical_and_same by now rewrite !length_map.
    cbn [rbind]. rewrite fill_P_inner.
    destruct (scatter_inner
                (fun i => rbind (item data i) (fun o =>
                            rbind (to_int (o_rcv o)) (fun k => py_get rcv k)))
                w (listed_P data eid) ap) as (ap1 & E1 & L1 & I1 & O1).
    { intros i Hi. apply In_flatnonzero, lookup_mask in Hi
        as (o & Hi & _ & Hm).
      rewrite (lookup_map_Some isP data i o Hi) in Hm. injection Hm as Po.
      split; [rewrite Lp; now apply (sorted_P_rows i o)|now apply (Hval i o)]. }
    fold (listed_P data eid). rewrite E1. cbn [rbind].
    rewrite fill_S_inner.
    2:{ intros i Hi. apply In_flatnonzero, lookup_mask in Hi
          as (o & Hi & _ & Hm).
        rewrite (lookup_map_Some isS data i o Hi) in Hm. injection Hm as So.
        apply (sorted_S_rows i o Hi So). }
    destruct (scatter_inner
                (fun j => rbind (item data (j + nttp)) (fun o =>
                            rbind (to_int (o_rcv o)) (fun k => py_get rcv k)))
                (fun j => w (j + nttp)%nat) (listed_S data nttp eid) asx)
      as (as1 & E2 & L2 & I2 & O2).
    { intros j Hj. apply in_map_iff in Hj as (i & <- & Hi).
      apply In_flatnonzero, lookup_mask in Hi as (o & Hi & _ & Hm).
      rewrite (lookup_map_Some isS data i o Hi) in Hm. injection Hm as So.
      pose proof (sorted_S_rows i o Hi So) as Hr.
      replace (i - nttp + nttp)%nat with i by lia.
      split; [rewrite Ls; lia|now apply (Hval i o)]. }
    fold (listed_S data nttp eid). rewrite E2. cbn [rbind].
    destruct (IH ap1 as1 ltac:(congruence) ltac:(congruence))
      as (ap' & as' & E & Lp' & Ls' & IP & OP & IS & OS).
    exists ap', as'. split; [exact E|]. split; [exact Lp'|].
    split; [exact Ls'|]. split; [|split; [|split]].
    + intros i (e & [<-|He] & Hi).
      * destruct (listed_dec (listed_P data) keys i) as [Hex|Hnex]; [now apply IP|].
        rewrite OP by exact Hnex. now apply I1.
      * apply IP. eauto.
    + intros i Hi. rewrite OP by (intros e He; apply Hi; now right).
      apply O1. apply Hi. now left.
    + intros j (e & [<-|He] & Hj).
      * destruct (listed_dec (listed_S data nttp) keys j) as [Hex|Hnex]; [now apply IS|].
        rewrite OS by exact Hnex. now apply I2.
      * apply IS. eauto.
    + intros j Hj. rewrite OS by (intros e He; apply Hj; now right).
      apply O2. apply Hj. now left.
Qed.
End Sorted.
End ExactPhaseTables.

Section ExactPhaseTablesMain.
Local Open Scope Q_scope.

Lemma phase_tables_unfold (rcv : list (point Q)) (data : list (obs Q))
    (ep es : list (point Q)) :
  phase_tables rcv data ep es
  = rbind (fill_rcv_data_PS (np_unique (map o_id data)) rcv
             (List.filter isP data ++ List.filter isS data)
             (map isP data) (map isS data) (length (List.filter isP data))
             (ep, es))
          (fun st => Ok (List.filter isP data ++ List.filter isS data,
                         fst st, snd st)).
Proof.
  unfold phase_tables, sort_phases. cbv zeta.
  change (fun o : obs Q => feqb (o_ph o) fzero) with isP.
  change (fun o : obs Q => feqb (o_ph o) fone) with isS.
  rewrite count_true_map. reflexivity.
Qed.

Lemma isP_not_isS (o : obs Q) : isP o = true -> isS o = false.
Proof. apply phase_disjoint. Qed.

(** When the loops return, every P row of the table as it was given stands
    among its first [nttp] rows. *)
Lemma fill_PS_confined (rcv : list (point Q)) (data : list (obs Q))
    (ep es : list (point Q)) (st : list (point Q) * list (point Q)) :
  (forall o, In o data -> isP o = true \/ isS o = true) ->
  length ep = length (List.filter isP data) ->
  fill_rcv_data_PS (np_unique (map o_id data)) rcv
    (List.filter isP data ++ List.filter isS data)
    (map isP data) (map isS data) (length (List.filter isP data)) (ep, es)
  = Ok st ->
  forall i o, data !! i = Some o -> isP o = true ->
              (i < length (List.filter isP data))%nat.
Proof.
  intros Hpq Lep E.
  set (nttp := length (List.filter isP data)) in *.
  set (data' := List.filter isP data ++ List.filter isS data) in *.
  assert (Ld : length data' = length data).
  { unfold data'. rewrite length_app.
    now apply filter_full_length; [apply isP_not_isS|]. }
  unfold fill_rcv_data_PS in E.
  apply (for_each_inv
           (fun st : list (point Q) * list (point Q) => length (fst st) = nttp)
           (fun eid => forall i,
              In i (flatnonzero
                      (zip_with andb (map (fun o => Qeq_bool (o_id o) eid) data')
                                     (map isP data))) -> (i < nttp)%nat))
    in E as [_ Hall]; [| |exact Lep].
  - intros i o Hi Po.
    destruct (lookup_lt_is_Some_2 data' i) as [o' Hi'].
    { rewrite Ld. now apply lookup_lt_Some in Hi. }
    assert (Ho' : In o' data).
    { apply list_elem_of_lookup_2, list_elem_of_In in Hi'.
      unfold data' in Hi'. apply in_app_iff in Hi' as [Hf|Hf];
        now apply filter_In in Hf. }
    destruct (np_unique_covers (map o_id data) (o_id o')) as (eid & He & Eeq).
    { apply in_map_iff. eauto. }
    apply (Hall eid He i). apply In_flatnonzero, lookup_mask.
    exists o'. split; [exact Hi'|]. split; [now apply Qeq_bool_iff|].
    rewrite (lookup_map_Some isP data i o Hi). now rewrite Po.
  - intros eid s s1 _ Hs Eb.
    change (@feqb Q Scalar_Q) with Qeq_bool in Eb.
    rewrite !logical_and_same in Eb by (rewrite !length_map; exact Ld).
    cbn [rbind] in Eb. apply rbind_Ok in Eb as (s' & EP & ES).
    apply (for_each_inv
             (fun st : list (point Q) * list (point Q) => length (fst st) = nttp)
             (fun i => (i < nttp)%nat)) in EP as [Hs' HP]; [| |exact Hs].
    + split; [|exact HP].
      apply (for_each_inv
               (fun st : list (point Q) * list (point Q) =>
                  length (fst st) = nttp)
               (fun _ => True)) in ES as [Hs1 _]; [exact Hs1| |exact Hs'].
      intros i t t1 _ Ht Et.
      apply rbind_Ok in Et as (o & _ & Et). apply rbind_Ok in Et as (k & _ & Et).
      apply rbind_Ok in Et as (p & _ & Et). apply rbind_Ok in Et as (a & _ & Et).
      injection Et as <-. cbn [fst]. auto.
    + intros i t t1 _ Ht Et.
      apply rbind_Ok in Et as (o & _ & Et). apply rbind_Ok in Et as (k & _ & Et).
      apply rbind_Ok in Et as (p & _ & Et).
      destruct (Nat.ltb_spec i (length (fst t))) as [Hlt|Hge]; [|discriminate].
      injection Et as <-. cbn [fst]. rewrite length_insert. split; [exact Ht|lia].
Qed.

Lemma sorted_iff (data : list (obs Q)) :
  List.filter isP data ++ List.filter isS data = data <->
  exists ps ss, data = ps ++ ss /\ Forall (fun o => isP o = true) ps /\
                Forall (fun o => isS o = true) ss.
Proof.
  split.
  - intros E. exists (List.filter isP data), (List.filter isS data).
    split; [now symmetry|].
    split; apply List.Forall_forall; intros o Ho;
      now apply filter_In in Ho as [_ Ho].
  - intros (ps & ss & -> & Hps & Hss).
    pose proof (proj1 (List.Forall_forall _ ps) Hps) as Hps'.
    pose proof (proj1 (List.Forall_forall _ ss) Hss) as Hss'.
    cbv beta in Hps', Hss'. rewrite !List.filter_app.
    rewrite (filter_all isP ps), (filter_none isP ss), (filter_none isS ps),
      (filter_all isS ss); auto.
    + now rewrite app_nil_r.
    + intros o Ho. apply isP_not_isS. auto.
    + intros o Ho. destruct (isP o) eqn:Po; [|reflexivity].
      apply isP_not_isS in Po. rewrite (Hss' o Ho) in Po. discriminate.
Qed.

(** X28  [jointHypoVelPS] fills [rcv_datap] and [rcv_datas] with the masks
    [indp] and [inds] of the table as it was given, on the table it has
    reordered.  For a [data] of P and S rows only, whose receivers are in
    [rcv], the loops return exactly when [data] already was its P rows
    followed by its S rows (otherwise a P row is written past the end of
    [rcv_datap]); then [rcv_datap[i]] is the receiver of the P row [i] and
    [rcv_datas[i-nttp]] that of the S row [i], whatever [np.empty] had
    left in the arrays. *)
Theorem phase_tables_need_sorted_data (rcv : list (point Q))
    (data : list (obs Q)) (ep es : list (point Q)) :
  (forall o, In o data -> isP o = true \/ isS o = true) ->
  length ep = length (List.filter isP data) ->
  length es = length (List.filter isS data) ->
  (forall o, In o data ->
     exists k p, to_int (o_rcv o) = Ok k /\ py_get rcv k = Ok p) ->
  ((exists out, phase_tables rcv data ep es = Ok out) <->
   exists ps ss, data = ps ++ ss /\ Forall (fun o => isP o = true) ps /\
                 Forall (fun o => isS o = true) ss) /\
  (forall d rp rs, phase_tables rcv data ep es = Ok (d, rp, rs) ->
     d = data /\ length rp = length ep /\ length rs = length es /\
     forall i o, data !! i = Some o ->
       exists k p, to_int (o_rcv o) = Ok k /\ py_get rcv k = Ok p /\
                   (isP o = true -> rp !! i = Some p) /\
                   (isS o = true -> rs !! (i - length ep)%nat = Some p)).
Proof.
  intros Hpq Lep Les Hrcv. rewrite phase_tables_unfold.
  set (val := fun i : nat =>
                rbind (item data i) (fun o =>
                  rbind (to_int (o_rcv o)) (fun k => py_get rcv k))).
  set (w := fun i : nat => match val i with Ok p => p | Raise _ => (0, 0, 0) end).
  assert (Hval : forall i o, data !! i = Some o ->
            exists k p, to_int (o_rcv o) = Ok k /\ py_get rcv k = Ok p /\
                        val i = Ok (w i) /\ w i = p).
  { intros i o Hi. destruct (Hrcv o) as (k & p & Ek & Ep).
    { apply list_elem_of_In. eapply list_elem_of_lookup_2; eauto. }
    exists k, p. split; [exact Ek|]. split; [exact Ep|].
    unfold w, val, item. rewrite Hi. cbn [rbind]. rewrite Ek. cbn [rbind].
    rewrite Ep. auto. }
  assert (Hrun : List.filter isP data ++ List.filter isS data = data ->
            exists rp rs,
              fill_rcv_data_PS (np_unique (map o_id data)) rcv
                (List.filter isP data ++ List.filter isS data)
                (map isP data) (map isS data) (length (List.filter isP data))
                (ep, es) = Ok (rp, rs) /\
              length rp = length ep /\ length rs = length es /\
              forall i o, data !! i = Some o ->
                (isP o = true -> rp !! i = Some (w i)) /\
                (isS o = true -> rs !! (i - length ep)%nat = Some (w i))).
  { intros Hs. rewrite Hs.
    destruct (fill_PS_loop rcv data Hs (length (List.filter isP data))
                (length (List.filter isS data)) eq_refl eq_refl w
                (np_unique (map o_id data)) ep es Lep Les)
      as (rp & rs & E & Lp & Ls & IP & _ & IS & _).
    { intros i o Hi. destruct (Hval i o Hi) as (k & p & _ & _ & Ev & _).
      exact Ev. }
    exists rp, rs. split; [exact E|]. split; [congruence|].
    split; [congruence|]. intros i o Hi.
    destruct (rows_listed data i o Hi) as (eid & He & Eeq & Hin).
    apply In_nonzero in Hin as (o1 & Hi1 & Ht).
    assert (o1 = o) by congruence. subst o1.
    change (@feqb Q Scalar_Q) with Qeq_bool in Ht. split.
    - intros Po. apply IP. exists eid. split; [exact He|].
      apply In_flatnonzero, lookup_mask. exists o. split; [exact Hi|].
      split; [exact Ht|]. rewrite (lookup_map_Some isP data i o Hi).
      now rewrite Po.
    - intros So.
      pose proof (sorted_S_rows data Hs _ _ eq_refl eq_refl i o Hi So) as Hr.
      rewrite Lep. rewrite (IS (i - length (List.filter isP data))%nat).
      + f_equal. f_equal. lia.
      + exists eid. split; [exact He|]. apply in_map_iff. exists i.
        split; [reflexivity|]. apply In_flatnonzero, lookup_mask. exists o.
        split; [exact Hi|]. split; [exact Ht|].
        rewrite (lookup_map_Some isS data i o Hi). now rewrite So. }
  assert (Hnec : forall st,
            fill_rcv_data_PS (np_unique (map o_id data)) rcv
              (List.filter isP data ++ List.filter isS data)
              (map isP data) (map isS data) (length (List.filter isP data))
              (ep, es) = Ok st ->
            List.filter isP data ++ List.filter isS data = data).
  { intros st E. apply confined_sorted; [exact Hpq|apply isP_not_isS|].
    exact (fill_PS_confined rcv data ep es st Hpq Lep E). }
  split.
  - rewrite <- sorted_iff. split.
    + intros (out & E). apply rbind_Ok in E as (st & E & _). now apply (Hnec st).
    + intros Hs. destruct (Hrun Hs) as (rp & rs & -> & _). cbn [rbind]. eauto.
  - intros d rp rs E. apply rbind_Ok in E as (st & E & Eout).
    pose proof (Hnec st E) as Hs. destruct (Hrun Hs) as (rp' & rs' & E' & Lp & Ls & Hrows).
    rewrite E' in E. injection E as <-. cbn [fst snd] in Eout.
    injection Eout as <- <- <-. split; [exact Hs|]. split; [exact Lp|].
    split; [exact Ls|]. intros i o Hi.
    destruct (Hval i o Hi) as (k & p & Ek & Ep & _ & Ew).
    exists k, p. split; [exact Ek|]. split; [exact Ep|].
    rewrite <- Ew. now apply Hrows.
Qed.
End ExactPhaseTablesMain.

Lemma phase_tables_need_sorted_data_witness :
  exists d rp rs,
    phase_tables rcv_pair [mk_obs 7 1 0 0; mk_obs 7 2 1 1]%Q
                 [(9, 9, 9)]%Q [(9, 9, 9)]%Q = Ok (d, rp, rs) /\
    rp = [(0, 0, 0)]%Q /\ rs = [(2, 2, 2)]%Q.
Proof.
  destruct (proj2 (proj1 (phase_tables_need_sorted_data rcv_pair
                            [mk_obs 7 1 0 0; mk_obs 7 2 1 1]%Q
                            [(9, 9, 9)]%Q [(9, 9, 9)]%Q
                            ltac:(intros o [<-|[<-|[]]]; vm_compute; auto)
                            eq_refl eq_refl
                            ltac:(intros o [<-|[<-|[]]]; eexists; eexists;
                                  (split; vm_compute; reflexivity)))))
    as [[[d rp] rs] E].
  - exists [mk_obs 7 1 0 0]%Q, [mk_obs 7 2 1 1]%Q.
    split; [reflexivity|]. split; repeat constructor.
  - exists d, rp, rs. split; [exact E|].
    vm_compute in E. injection E as _ <- <-. split; reflexivity.
Defined.

(** ** One velocity for both phases *)

Section OneVelocity.
Context {F : Type} `{Scalar F}.
Variable solve : solve_t F.
Variable svd : svd_t F.

Lemma mapM_ext_in {A B} (f g : A -> result B) (l : list A) :
  (forall a, In a l -> f a = g a) -> mapM f l = mapM g l.
Proof.
  induction l as [|a l IH]; intros Hfg; cbn [mapM]; [reflexivity|].
  rewrite (Hfg a) by now left. rewrite IH; [reflexivity|].
  intros b Hb. apply Hfg. now right.
Qed.

Lemma locate_events_ext (evID : list F) (f g : obs F -> result F)
    (data : list (obs F)) (rcv : list (point F)) (maxit : nat) (convh : F)
    (loc : list (hyp F)) :
  (forall o, In o data -> f o = g o) ->
  locate_events solve svd evID f data rcv maxit convh loc
  = locate_events solve svd evID g data rcv maxit convh loc.
Proof.
  intros Hfg. revert loc. induction evID as [|eid evID IH]; intros loc;
    cbn [locate_events]; [reflexivity|].
  rewrite (mapM_ext_in f g).
  2:{ intros o Ho. apply Hfg. now apply filter_In in Ho as [Ho _]. }
  destruct (rbind (receivers rcv _) _) as [[x vel]|e]; [|reflexivity].
  destruct (locate_loop _ _ _ _ _ _ _ _ _ _ _) as [[resrow|e] loc1];
    [|reflexivity].
  now rewrite IH.
Qed.

(** X29  [hypolocPS] with the same velocity for both phases is [hypoloc]:
    when every phase code of [data] reads as an index of the pair [V],
    [hypolocPS(data, rcv, (v, v), ...)] returns what
    [hypoloc(data, rcv, v, ...)] returns on the same arguments, result,
    exception and tables alike. *)
Theorem hypolocPS_one_velocity (data : list (obs F)) (rcv : list (point F))
    (v : F) (hinit maxit : nat) (convh : F) (h : store F) :
  (forall o, In o data ->
     exists k, to_int (o_ph o) = Ok k /\ (-2 <= k <= 1)%Z) ->
  hypolocPS solve svd data rcv (v, v) hinit maxit convh h
  = hypoloc solve svd data rcv v hinit maxit convh h.
Proof.
  intros Hph. unfold hypolocPS, hypoloc.
  destruct (ndarray_copy hinit h) as [[loc|e] h1]; [|reflexivity].
  destruct (h1 !! loc) as [tbl|]; [|reflexivity].
  rewrite (locate_events_ext _ _ (fun _ => Ok v)); [reflexivity|].
  intros o Ho. destruct (Hph o Ho) as (k & -> & Hk). cbn [rbind fst snd].
  assert (k = -2 \/ k = -1 \/ k = 0 \/ k = 1)%Z as [ -> | [ -> | [ -> | -> ] ] ] by lia;
    reflexivity.
Qed.
End OneVelocity.

Lemma hypolocPS_one_velocity_witness :
  hypolocPS gesv svd_fails data_cross rcv_cross (1, 1)%Q 0 1 (1 # 100)%Q
            [hinit_two]
  = hypoloc gesv svd_fails data_cross rcv_cross 1%Q 0 1 (1 # 100)%Q
            [hinit_two].
Proof.
  apply (hypolocPS_one_velocity gesv svd_fails data_cross rcv_cross 1%Q 0 1
           (1 # 100)%Q [hinit_two]).
  intros o Ho. cbn in Ho.
  destruct Ho as [<-|[<-|[<-|[<-|[<-|[]]]]]];
    exists 0%Z; (split; [vm_compute; reflexivity|lia]).
Defined.

(** ** The guards of raytrace *)

Section RaytraceGuards.
Context {F : Type} {SF : Scalar F} {OS : OrderedScalar F}.
Import Grid3D.

Lemma np_add_zip (a b : list F) :
  length a = length b -> np_add a b = Ok (zip_with fadd a b).
Proof. intros E. unfold np_add. rewrite E, Nat.eqb_refl. reflexivity. Qed.

(** X30  [raytrace] calls the raytracing engine only behind its guards
    and adds the origin times to what the engine returns.  When it
    returns, there were as many receivers as sources, sources and
    receivers had passed the tests of [isOutside] (so all of them lie
    inside the grid when none has a NaN coordinate), there was one slowness
    per node, and the travel times are those of the engine plus
    [hypo[:,1]], rays and velocities those of the engine.  Conversely, on
    sources and receivers inside the grid, when the engine returns one time
    per source, [raytrace] returns them plus the origin times. *)
Theorem raytrace_guards (engine : engine_t F) (g : t F) (s : list F)
    (hypo : list (hyp F)) (rcv : list (point F)) :
  numeric_bounds g ->
  (forall res, raytrace engine g s hypo rcv = Ok res ->
     length hypo = length rcv /\
     tests_pass g (map h_xyz hypo) /\ tests_pass g rcv /\
     ((forall q, In q (map h_xyz hypo) -> no_nan q) ->
      forall p, In p (map h_xyz hypo) -> inside_grid g p) /\
     ((forall q, In q rcv -> no_nan q) ->
      forall p, In p rcv -> inside_grid g p) /\
     Z.of_nat (length s) = getNumberOfNodes g /\
     exists out,
       engine s (map h_xyz hypo) rcv (map h_t0 hypo) = Ok out /\
       np_add (fst (fst out)) (map h_t0 hypo) = Ok (fst (fst res)) /\
       snd (fst res) = snd (fst out) /\ snd res = snd out) /\
  (forall tt rays v0,
     hypo <> [] -> length hypo = length rcv ->
     (forall p, In p (map h_xyz hypo ++ rcv) -> inside_grid g p) ->
     Z.of_nat (length s) = getNumberOfNodes g ->
     engine s (map h_xyz hypo) rcv (map h_t0 hypo) = Ok (tt, rays, v0) ->
     length tt = length hypo ->
     raytrace engine g s hypo rcv
     = Ok (zip_with fadd tt (map h_t0 hypo), rays, v0)).
Proof.
  intros Hg. split.
  - intros res E. unfold raytrace in E.
    destruct (Nat.eqb_spec (length (map h_xyz hypo)) (length rcv)) as [Hl|Hl];
      [|discriminate]. cbn [negb] in E. rewrite length_map in Hl.
    apply rbind_Ok in E as (b1 & E1 & E). destruct b1; [discriminate|].
    apply rbind_Ok in E as (b2 & E2 & E). destruct b2; [discriminate|].
    destruct (Z.eqb_spec (Z.of_nat (length s)) (getNumberOfNodes g)) as [Hs|Hs];
      [|discriminate]. cbn [negb] in E.
    apply rbind_Ok in E as (out & Eo & E). apply rbind_Ok in E as (tt & Et & E).
    injection E as <-. cbn [fst snd].
    assert (Hne : map h_xyz hypo <> [] /\ rcv <> []).
    { destruct hypo, rcv; cbn in *; try discriminate; split; discriminate. }
    destruct Hne as [Hsrc Hrcv].
    destruct (isOutside_tests g _ Hg Hsrc) as (c1 & C1 & B1).
    destruct (isOutside_tests g _ Hg Hrcv) as (c2 & C2 & B2).
    assert (c1 = false) by congruence. assert (c2 = false) by congruence.
    subst c1 c2.
    pose proof (proj1 B1 eq_refl) as P1. pose proof (proj1 B2 eq_refl) as P2.
    split; [exact Hl|]. split; [exact P1|]. split; [exact P2|].
    split; [|split; [|split; [exact Hs|eauto]]].
    + intros Hn. now apply (tests_pass_inside g _ Hg Hn).
    + intros Hn. now apply (tests_pass_inside g _ Hg Hn).
  - intros tt rays v0 Hne Hl Hin Hs Eo Lt. unfold raytrace.
    rewrite length_map, Hl, Nat.eqb_refl. cbn [negb].
    assert (Hsrc : map h_xyz hypo <> []) by (destruct hypo; cbn; congruence).
    assert (Hrcv : rcv <> []) by (destruct hypo, rcv; cbn in *; congruence).
    rewrite (isOutside_inside g _ Hsrc)
      by (intros p Hp; apply Hin, in_or_app; now left).
    cbn [rbind].
    rewrite (isOutside_inside g _ Hrcv)
      by (intros p Hp; apply Hin, in_or_app; now right).
    cbn [rbind].
    rewrite Hs, Z.eqb_refl. cbn [negb]. rewrite Eo. cbn [rbind fst snd].
    rewrite np_add_zip by now rewrite length_map. reflexivity.
Qed.
End RaytraceGuards.

Lemma raytrace_guards_witness :
  Grid3D.raytrace straight_engine grid_012_binary64 (repeat 1%float 27)
                  [mk_hyp 7 5 1 1 1]%float [(2, 1, 1)]%float
  = Ok ([6]%float, [[(1, 1, 1); (2, 1, 1)]]%float, [1]%float).
Proof.
  apply (proj2 (raytrace_guards straight_engine grid_012_binary64
                  (repeat 1%float 27) [mk_hyp 7 5 1 1 1]%float
                  [(2, 1, 1)]%float numeric_bounds_012)
           [1]%float [[(1, 1, 1); (2, 1, 1)]]%float [1]%float);
    [discriminate|reflexivity| |reflexivity|vm_compute; reflexivity|reflexivity].
  intros p [<-|[<-|[]]];
    (exists 0%float, 2%float, 0%float, 2%float, 0%float, 2%float;
     repeat split; reflexivity).
Defined.
